(** * VCF2CNA: the 2bit reference window and the indel equivalence checker

    A shallow embedding of the [BinaryReader] and [ReferenceGenome] classes of
    genutil (the copy compiled into snvcounts.cpp), with the properties of the
    decoder and of the equivalence tests stated against it.

    Conventions of the embedding
    - [uint32_t] values are integers in [Z]; every arithmetic operation of the
      source that can leave the range [0, 2^32) is followed by [wrap32].
    - [std::string] is [string]; [s[i]] is [string_at], which reports an index
      that is not below the length instead of reading it.
    - a [char] buffer obtained from [new char[n]] is a [list ascii] of length
      [n]; [p[i]] and [p[i] = c] are bounds checked.
    - a function that can throw or that can leave the defined behaviour of C++
      returns a [result]; indices are values of unsigned types, so they are
      never negative.
    - a [for] loop is a [Fixpoint] on the number of iterations that its bounds
      allow; where the counter of a loop with the test [<=] can wrap, the
      body says what happens then.
    - the loops of [read_buffer] and [read_string] count with an [int]
      against a [size_t]: their counter is part of the model, and its
      increment at [INT_MAX] is reported as [SignedOverflow].  The functions
      on sequences and names store [s.length()] in an [int]; they are
      modelled for strings of fewer than 2^31 characters, where this keeps
      the length.
    - a file is the list of its bytes, and the reader is passed through the
      constructor as the state of the small monad [io]. *)

From Stdlib Require Import ZArith Lia List String Ascii Bool.
From Stdlib.Strings Require Import Byte.
From stdpp Require Import base tactics option list.

Local Open Scope string_scope.
Local Open Scope Z_scope.
Local Open Scope list_scope.

(** ** Outcomes *)

(** The messages of the [std::runtime_error]s thrown by the code under study
    (the file name that the source appends to some of them is left out). *)
Inductive exn : Type :=
  | InvalidChromosomeSpecification   (* "invalid chromosome specification" *)
  | UnableToOpen                     (* "unable to open <file>" *)
  | NotA2bitFile                     (* "<file> is not a 2bit file" *)
  | Truncated2bitFile                (* "truncated 2bit file" *)
  | ChromosomeNotFound (name : string) (* "chromosome <name> not found in <file>" *)
  | InvalidBeginPosition             (* "invalid begin position" *)
  | BinaryFileNotOpen.               (* "binary file not open" *)

(** Behaviour that C++ leaves undefined, or a loop whose counter wraps. *)
Inductive fault : Type :=
  | StringIndexOutOfRange
  | BufferIndexOutOfRange
  | LoopCounterWraps
  | SignedOverflow.

Inductive result (A : Type) : Type :=
  | Ret (a : A)
  | Throw (e : exn)
  | Undefined (f : fault).

Arguments Ret {A} a.
Arguments Throw {A} e.
Arguments Undefined {A} f.

Definition rbind {A B : Type} (r : result A) (k : A -> result B) : result B :=
  match r with
  | Ret a => k a
  | Throw e => Throw e
  | Undefined f => Undefined f
  end.

(** The computation returns a value. *)
Definition is_ret {A : Type} (r : result A) : Prop := exists a, r = Ret a.

Declare Scope result_scope.
Delimit Scope result_scope with result.
Notation "x <- e ;; k" := (rbind e (fun x => k))
  (at level 100, e at next level, right associativity) : result_scope.
Local Open Scope result_scope.

(** ** The type [int]

    A counter of type [int] that is incremented at [INT_MAX] has no defined
    value ([SignedOverflow]). *)

Definition INT_MAX : Z := 2147483647.

(** ** Unsigned 32-bit arithmetic *)

Definition UINT32_MAX : Z := 4294967295.

Definition wrap32 (x : Z) : Z := x mod 4294967296.

(** [x] is a value of type [uint32_t]. *)
Definition u32 (x : Z) : Prop := 0 <= x <= UINT32_MAX.

(** ** Strings and character buffers *)

(** [s.length()] *)
Definition strlen (s : string) : Z := Z.of_nat (String.length s).

(** [s[i]] for an index of type [uint32_t]. *)
Definition string_at (s : string) (i : Z) : result ascii :=
  match String.get (Z.to_nat i) s with
  | Some c => Ret c
  | None => Undefined StringIndexOutOfRange
  end.

(** [p[i]] for a buffer [p] of [length p] characters. *)
Definition buffer_at (p : list ascii) (i : Z) : result ascii :=
  match p !! Z.to_nat i with
  | Some c => Ret c
  | None => Undefined BufferIndexOutOfRange
  end.

(** [p[i] = c] *)
Definition buffer_store (p : list ascii) (i : Z) (c : ascii) : result (list ascii) :=
  if i <? Z.of_nat (length p) then Ret (<[Z.to_nat i := c]> p)
  else Undefined BufferIndexOutOfRange.

(** [a != b] on characters. *)
Definition char_ne (a b : ascii) : bool := negb (Ascii.eqb a b).

(** ** The reference window *)

(** The data members of [class ReferenceGenome]; [end] is a keyword of Rocq,
    so the member is called [end_]. *)
Record ReferenceGenome : Type := mkReferenceGenome {
  begin : Z;
  end_ : Z;
  sequence : list ascii
}.

(** The state in which the constructor leaves the object: a range inside the
    [uint32_t] positions that starts at 1 or later, and a buffer of
    [end - begin + 1] characters. *)
Record window_ok (g : ReferenceGenome) : Prop := mk_window_ok {
  wok_begin : 1 <= begin g;
  wok_range : begin g <= end_ g;
  wok_end : end_ g <= UINT32_MAX;
  wok_size : Z.of_nat (length (sequence g)) = end_ g - begin g + 1
}.

Section Checker.

Variable g : ReferenceGenome.

(** [char ReferenceGenome::getBase(uint32_t pos) const] *)
Definition getBase (pos : Z) : result ascii :=
  if (pos <? begin g) || (pos >? end_ g) then Ret "N"%char
  else buffer_at (sequence g) (wrap32 (pos - begin g)).

(** The loop of [validDeletion], entered with [i] and [cnt] iterations left:
    [for (uint32_t i = 0; i < n; i++) if (seq[i] != getBase(pos + i)) return false;] *)
Fixpoint validDeletion_loop (pos : Z) (seq : string) (cnt : nat) (i : Z) : result bool :=
  match cnt with
  | O => Ret true
  | S cnt' =>
      c <- string_at seq i ;;
      b <- getBase (wrap32 (pos + i)) ;;
      if char_ne c b then Ret false
      else validDeletion_loop pos seq cnt' (wrap32 (i + 1))
  end.

(** [bool ReferenceGenome::validDeletion(uint32_t pos, const std::string& seq) const] *)
Definition validDeletion (pos : Z) (seq : string) : result bool :=
  let n := wrap32 (strlen seq) in
  validDeletion_loop pos seq (Z.to_nat n) 0.

(** The loop shared by the cases [m < n] and [m == n] of [equivalentInsertions]:
    [for (...; vindex < bound; vindex++, windex++, sindex++)
        if (v[vindex] != w[windex] || v[vindex] != getBase(sindex)) return false;]
    The second operand of [||] is evaluated only when the first is false. *)
Fixpoint ins_vw_ref_loop (v w : string) (cnt : nat) (vindex windex sindex : Z)
  : result bool :=
  match cnt with
  | O => Ret true
  | S cnt' =>
      vc <- string_at v vindex ;;
      wc <- string_at w windex ;;
      if char_ne vc wc then Ret false
      else
        b <- getBase sindex ;;
        if char_ne vc b then Ret false
        else ins_vw_ref_loop v w cnt' (wrap32 (vindex + 1)) (wrap32 (windex + 1))
                             (wrap32 (sindex + 1))
  end.

(** [for (vindex = m, windex = 0; vindex < n; vindex++, windex++)
        if (v[vindex] != w[windex]) return false;] *)
Fixpoint ins_vw_loop (v w : string) (cnt : nat) (vindex windex : Z) : result bool :=
  match cnt with
  | O => Ret true
  | S cnt' =>
      vc <- string_at v vindex ;;
      wc <- string_at w windex ;;
      if char_ne vc wc then Ret false
      else ins_vw_loop v w cnt' (wrap32 (vindex + 1)) (wrap32 (windex + 1))
  end.

(** The two loops of the case [m > n] that compare one allele with the
    reference:
    [for (xindex = 0, sindex = ...; xindex < n; xindex++, sindex++)
        if (x[xindex] != getBase(sindex)) return false;] *)
Fixpoint ins_ref_loop (x : string) (cnt : nat) (xindex sindex : Z) : result bool :=
  match cnt with
  | O => Ret true
  | S cnt' =>
      xc <- string_at x xindex ;;
      b <- getBase sindex ;;
      if char_ne xc b then Ret false
      else ins_ref_loop x cnt' (wrap32 (xindex + 1)) (wrap32 (sindex + 1))
  end.

(** [for (sindex = first; sindex <= last; sindex++)
        if (getBase(sindex) != getBase(sindex + n)) return false;]
    with [cnt] the number of values from [sindex] to [last].  When the body
    has run for [sindex = UINT32_MAX] the increment wraps to 0 and the
    condition [sindex <= last] holds again: the loop is not left by its
    condition, which is reported as [LoopCounterWraps]. *)
Fixpoint periodic_le_loop (n : Z) (cnt : nat) (sindex : Z) : result bool :=
  match cnt with
  | O => Ret true
  | S cnt' =>
      a <- getBase sindex ;;
      b <- getBase (wrap32 (sindex + n)) ;;
      if char_ne a b then Ret false
      else if sindex =? UINT32_MAX then Undefined LoopCounterWraps
      else periodic_le_loop n cnt' (sindex + 1)
  end.

(** [for (uint32_t sindex = j; sindex < k; sindex++)
        if (getBase(sindex) != getBase(sindex + n)) return false;]
    Here [sindex < k <= UINT32_MAX] in the body, so the increment cannot wrap. *)
Fixpoint periodic_lt_loop (n : Z) (cnt : nat) (sindex : Z) : result bool :=
  match cnt with
  | O => Ret true
  | S cnt' =>
      a <- getBase sindex ;;
      b <- getBase (wrap32 (sindex + n)) ;;
      if char_ne a b then Ret false
      else periodic_lt_loop n cnt' (wrap32 (sindex + 1))
  end.

(** Sequencing of two loops that leave the function with [false] on a
    mismatch: the second runs only when the first ran to its end. *)
Definition and_then (r : result bool) (k : result bool) : result bool :=
  b <- r ;; if b then k else Ret false.

(** [bool ReferenceGenome::equivalentInsertions(uint32_t pos1, const std::string& seq1,
                                              uint32_t pos2, const std::string& seq2) const] *)
Definition equivalentInsertions (pos1 : Z) (seq1 : string) (pos2 : Z) (seq2 : string)
  : result bool :=
  if negb (strlen seq1 =? strlen seq2) then Ret false
  else if pos1 =? pos2 then Ret (String.eqb seq1 seq2)
  else
    let j := if pos1 <? pos2 then wrap32 (pos1 - 1) else wrap32 (pos2 - 1) in
    let k := if pos1 <? pos2 then wrap32 (pos2 - 1) else wrap32 (pos1 - 1) in
    let v := if pos1 <? pos2 then seq1 else seq2 in
    let w := if pos1 <? pos2 then seq2 else seq1 in
    let m := wrap32 (k - j) in
    let n := wrap32 (strlen seq1) in
    if m <? n then
      and_then (ins_vw_ref_loop v w (Z.to_nat m) 0 (wrap32 (n - m)) (wrap32 (j + 1)))
               (ins_vw_loop v w (Z.to_nat (n - m)) m 0)
    else if m =? n then
      ins_vw_ref_loop v w (Z.to_nat n) 0 0 (wrap32 (j + 1))
    else
      and_then (ins_ref_loop v (Z.to_nat n) 0 (wrap32 (j + 1)))
        (and_then (ins_ref_loop w (Z.to_nat n) 0 (wrap32 (k - n + 1)))
           (let last := wrap32 (k - n) in
            periodic_le_loop n (Z.to_nat (last + 1 - wrap32 (j + 1))) (wrap32 (j + 1)))).

(** [bool ReferenceGenome::equivalentDeletions(uint32_t pos1, const std::string& seq1,
                                             uint32_t pos2, const std::string& seq2) const] *)
Definition equivalentDeletions (pos1 : Z) (seq1 : string) (pos2 : Z) (seq2 : string)
  : result bool :=
  if negb (strlen seq1 =? strlen seq2) then Ret false
  else if pos1 =? pos2 then Ret (String.eqb seq1 seq2)
  else
    let j := if pos1 <? pos2 then pos1 else pos2 in
    let k := if pos1 <? pos2 then pos2 else pos1 in
    let n := wrap32 (strlen seq1) in
    periodic_lt_loop n (Z.to_nat (k - j)) j.

End Checker.

(** ** The buffered reader *)

(** [class BinaryReader].  A file is the list of its bytes.  [fd] is the open
    file ([None] for the descriptor -1) and [filepos] the offset that the
    operating system keeps for it; [buf] holds the [buflen] bytes that the
    last [read] stored (the rest of the array is never looked at: every access
    is under [offset < buflen]). *)
Record BinaryReader : Type := mkBinaryReader {
  fd : option (list byte);
  filepos : nat;
  buf : list byte;
  bufsize : nat;
  offset : nat
}.

Definition buflen (r : BinaryReader) : nat := length (buf r).

Definition DEFAULT_BUFFER_SIZE : nat := Z.to_nat 1048576.

(** A computation on the reader that can throw. *)
Definition io (A : Type) : Type := BinaryReader -> result (A * BinaryReader).

Definition io_ret {A : Type} (a : A) : io A := fun r => Ret (a, r).

Definition io_bind {A B : Type} (c : io A) (k : A -> io B) : io B :=
  fun r => match c r with
           | Ret (a, r') => k a r'
           | Throw e => Throw e
           | Undefined f => Undefined f
           end.

Definition io_throw {A : Type} (e : exn) : io A := fun _ => Throw e.

Definition io_lift {A : Type} (x : result A) : io A :=
  fun r => match x with
           | Ret a => Ret (a, r)
           | Throw e => Throw e
           | Undefined f => Undefined f
           end.

Declare Scope io_scope.
Delimit Scope io_scope with io.
Notation "x <- e ;; k" := (io_bind e (fun x => k))
  (at level 100, e at next level, right associativity) : io_scope.

(** [BinaryReader::BinaryReader(size_t bufferSize)] *)
Definition BinaryReader_new (bufferSize : nat) : BinaryReader :=
  {| fd := None; filepos := 0; buf := []; bufsize := bufferSize; offset := 0 |}.

(** [bool BinaryReader::openFile(const char *filename)]; the argument is what
    the file system holds under the name, [None] when [open] fails. *)
Definition openFile (contents : option (list byte)) : io bool := fun r =>
  match fd r with
  | Some _ => Ret (false, r)
  | None =>
      match contents with
      | None => Ret (false, r)
      | Some file =>
          Ret (true, {| fd := Some file; filepos := 0; buf := [];
                        bufsize := bufsize r; offset := 0 |})
      end
  end.

(** [void BinaryReader::seek(uint64_t byteOffset)] *)
Definition seek (byteOffset : Z) : io unit := fun r =>
  match fd r with
  | None => Throw BinaryFileNotOpen
  | Some file =>
      Ret (tt, {| fd := Some file; filepos := Z.to_nat byteOffset; buf := [];
                  bufsize := bufsize r; offset := 0 |})
  end.

(** [bool BinaryReader::fillBuffer()]; [read] delivers the next [bufsize]
    bytes of the file, or those that are left. *)
Definition fillBuffer : io bool := fun r =>
  match fd r with
  | None => Throw BinaryFileNotOpen
  | Some file =>
      let bytes := take (bufsize r) (drop (filepos r) file) in
      match bytes with
      | [] => Ret (false, r)
      | _ :: _ =>
          Ret (true, {| fd := Some file; filepos := filepos r + length bytes;
                        buf := bytes; bufsize := bufsize r; offset := 0 |})
      end
  end.

(** The loop of [read_buffer], entered with the counter [i] and [cnt] rounds
    to go:
    [for (int i = 0; i < numBytes; i++)
       { if (offset >= buflen && !fillBuffer()) return false;
         buffer[i] = buf[offset++]; }]
    The counter is an [int] that is compared with a [size_t]: when a byte has
    been stored for [i = INT_MAX], the increment [i++] has no defined
    result. *)
Fixpoint read_buffer_loop (cnt : nat) (i : Z) : io (option (list byte)) := fun r =>
  match cnt with
  | O => Ret (Some [], r)
  | S cnt' =>
      match (if (buflen r <=? offset r)%nat then fillBuffer r else Ret (true, r)) with
      | Ret (false, r1) => Ret (None, r1)
      | Ret (true, r1) =>
          match buf r1 !! offset r1 with
          | None => Undefined BufferIndexOutOfRange
          | Some b =>
              if i =? INT_MAX then Undefined SignedOverflow
              else
                match read_buffer_loop cnt' (i + 1)
                        {| fd := fd r1; filepos := filepos r1; buf := buf r1;
                           bufsize := bufsize r1; offset := S (offset r1) |} with
                | Ret (Some bs, r2) => Ret (Some (b :: bs), r2)
                | other => other
                end
          end
      | Throw e => Throw e
      | Undefined f => Undefined f
      end
  end.

(** [bool BinaryReader::read_buffer(uint8_t *buffer, size_t numBytes)]; the
    bytes stored in [buffer] are returned, [None] standing for [false]. *)
Definition read_buffer (numBytes : nat) : io (option (list byte)) :=
  read_buffer_loop numBytes 0.

(** The value of a byte. *)
Definition byte_val (b : byte) : Z := Z.of_N (Byte.to_N b).

(** [bool BinaryReader::read_uint8(uint8_t& value)] *)
Definition read_uint8 : io (option Z) :=
  (bs <- read_buffer 1 ;;
   io_ret match bs with
          | Some [b] => Some (byte_val b)
          | _ => None
          end)%io.

(** [value = 0; for (i = 0; i < 4; i++) value = (value << 8) + byte[i];] *)
Definition uint32_of_bytes (bs : list byte) : Z :=
  fold_left (fun value b => wrap32 (wrap32 (Z.shiftl value 8) + byte_val b)) bs 0.

(** [bool BinaryReader::read_uint32(uint32_t& value)] *)
Definition BinaryReader_read_uint32 : io (option Z) :=
  (bs <- read_buffer 4 ;;
   io_ret match bs with
          | Some bytes => Some (uint32_of_bytes bytes)
          | None => None
          end)%io.

(** [void BinaryReader::closeFile()] *)
Definition closeFile : io unit := fun r =>
  match fd r with
  | None => Ret (tt, r)
  | Some _ => Ret (tt, {| fd := None; filepos := filepos r; buf := [];
                          bufsize := bufsize r; offset := 0 |})
  end.

(** ** Reading a 2bit file *)

(** [static uint32_t swap_uint32(uint32_t value)] *)
Definition swap_uint32 (value : Z) : Z :=
  wrap32 (wrap32 (Z.shiftl value 24) + wrap32 (Z.shiftl (Z.land value 65280) 8) +
          Z.shiftr (Z.land value 16711680) 8 + Z.shiftr value 24).

(** [static uint32_t read_uint32(BinaryReader& reader, bool swapBytes)] *)
Definition read_uint32 (swapBytes : bool) : io Z :=
  (v <- BinaryReader_read_uint32 ;;
   match v with
   | None => io_throw Truncated2bitFile
   | Some value => io_ret (if swapBytes then swap_uint32 value else value)
   end)%io.

Definition NUM_CHROMOSOMES : Z := 24.

Definition chrLongName : list string :=
  [""; "chr1"; "chr2"; "chr3"; "chr4"; "chr5"; "chr6"; "chr7"; "chr8"; "chr9";
   "chr10"; "chr11"; "chr12"; "chr13"; "chr14"; "chr15"; "chr16"; "chr17";
   "chr18"; "chr19"; "chr20"; "chr21"; "chr22"; "chrX"; "chrY"].

Definition chrShortName : list string :=
  [""; "1"; "2"; "3"; "4"; "5"; "6"; "7"; "8"; "9"; "10"; "11"; "12"; "13"; "14";
   "15"; "16"; "17"; "18"; "19"; "20"; "21"; "22"; "X"; "Y"].

(** [table[chrNumber]]; the constructor reads the tables only after it has
    checked [1 <= chrNumber <= NUM_CHROMOSOMES]. *)
Definition name_at (table : list string) (chrNumber : Z) : string :=
  nth (Z.to_nat chrNumber) table "".

Definition EXPECTED_SIGNATURE : Z := 440477507. (* 0x1A412743 *)

(** [name += static_cast<char>(nameBuffer[j])] for the bytes of the name. *)
Definition string_of_bytes (bs : list byte) : string :=
  string_of_list_ascii (map ascii_of_byte bs).

(** The test that selects a directory entry:
    [chrName == "" && (name == chrShortName[chrNumber] || name == chrLongName[chrNumber])
     || chrName != "" && name == chrName] *)
Definition name_matches (chrNumber : Z) (chrName name : string) : bool :=
  (String.eqb chrName "" &&
     (String.eqb name (name_at chrShortName chrNumber) ||
      String.eqb name (name_at chrLongName chrNumber)))
  || (negb (String.eqb chrName "") && String.eqb name chrName).

(** The directory scan of the constructor, with [cnt] entries left:
    [for (uint32_t i = 0; i < chrCount && chrOffset == 0; i++) { ... }] *)
Fixpoint find_chromosome (swapBytes : bool) (chrNumber : Z) (chrName : string)
    (cnt : nat) (chrOffset : Z) : io Z :=
  match cnt with
  | O => io_ret chrOffset
  | S cnt' =>
      if negb (chrOffset =? 0) then io_ret chrOffset
      else
        (nameLength <- read_uint8 ;;
         match nameLength with
         | None => io_throw Truncated2bitFile
         | Some len =>
             nameBuffer <- read_buffer (Z.to_nat len) ;;
             match nameBuffer with
             | None => io_throw Truncated2bitFile
             | Some bytes =>
                 offset <- read_uint32 swapBytes ;;
                 let name := string_of_bytes bytes in
                 find_chromosome swapBytes chrNumber chrName cnt'
                   (if name_matches chrNumber chrName name then offset else chrOffset)
             end
         end)%io
  end.

(** [v[i]] on a [std::vector<uint32_t>]. *)
Definition vector_at (v : list Z) (i : Z) : result Z :=
  match v !! Z.to_nat i with
  | Some x => Ret x
  | None => Undefined BufferIndexOutOfRange
  end.

(** [for (i = 0; i < nBlockCount; i++)
       nstart.push_back(read_uint32(reader, swapBytes) + 1);] *)
Fixpoint read_nstart (swapBytes : bool) (cnt : nat) (nstart : list Z) : io (list Z) :=
  match cnt with
  | O => io_ret nstart
  | S cnt' =>
      (x <- read_uint32 swapBytes ;;
       read_nstart swapBytes cnt' (nstart ++ [wrap32 (x + 1)]))%io
  end.

(** [for (i = 0; i < nBlockCount; i++)
       nstop.push_back(nstart[i] + read_uint32(reader, swapBytes) - 1);] *)
Fixpoint read_nstop (swapBytes : bool) (nstart : list Z) (cnt : nat) (i : Z)
    (nstop : list Z) : io (list Z) :=
  match cnt with
  | O => io_ret nstop
  | S cnt' =>
      (a <- io_lift (vector_at nstart i) ;;
       x <- read_uint32 swapBytes ;;
       read_nstop swapBytes nstart cnt' (wrap32 (i + 1))
                  (nstop ++ [wrap32 (wrap32 (a + x) - 1)]))%io
  end.

(** [const char symbol[4] = { 'T', 'C', 'A', 'G' };] *)
Definition symbol : list ascii := ["T"; "C"; "A"; "G"]%char.

(** [new char[n]]: [n] characters whose values are not determined; [uninit]
    stands for whatever the storage holds. *)
Definition new_char_array (uninit : nat -> ascii) (n : Z) : list ascii :=
  map uninit (seq 0 (Z.to_nat n)).

(** The decoding loop, entered at [pos] with [cnt] positions up to [end]:
    [for (uint32_t pos = begin; pos <= end; pos++) { ... }].
    After the body has run for [pos = UINT32_MAX] (which needs
    [end = UINT32_MAX]) the counter wraps to 0, the test [pos <= end] holds,
    [readByte] is false and the next store goes to
    [sequence[0 - begin]], one past the [end - begin + 1] characters. *)
Fixpoint decode_loop (begin : Z) (cnt : nat) (pos : Z) (byte : Z) (readByte : bool)
    (sequence : list ascii) : io (list ascii) :=
  match cnt with
  | O => io_ret sequence
  | S cnt' =>
      (byte' <- (if readByte then
                   v <- read_uint8 ;;
                   match v with
                   | None => io_throw Truncated2bitFile
                   | Some b => io_ret b
                   end
                 else io_ret byte) ;;
       let shift := wrap32 (2 * wrap32 (3 - Z.land (wrap32 (pos - 1)) 3)) in
       let index := Z.land (Z.shiftr byte' shift) 3 in
       c <- io_lift (buffer_at symbol index) ;;
       sequence' <- io_lift (buffer_store sequence (wrap32 (pos - begin)) c) ;;
       if pos =? UINT32_MAX then io_lift (Undefined BufferIndexOutOfRange)
       else decode_loop begin cnt' (pos + 1) byte' (shift =? 0) sequence')%io
  end.

(** [for (uint32_t pos = start; pos <= stop; pos++) sequence[pos - begin] = 'N';]
    with the same remark on [pos = UINT32_MAX]. *)
Fixpoint mark_loop (begin : Z) (cnt : nat) (pos : Z) (sequence : list ascii)
  : result (list ascii) :=
  match cnt with
  | O => Ret sequence
  | S cnt' =>
      (sequence' <- buffer_store sequence (wrap32 (pos - begin)) "N"%char ;;
       if pos =? UINT32_MAX then Undefined BufferIndexOutOfRange
       else mark_loop begin cnt' (pos + 1) sequence')%result
  end.

(** [for (uint32_t i = 0; i < nBlockCount; i++)
       if (nstart[i] <= end && nstop[i] >= begin) { ... }] *)
Fixpoint mark_unknown (begin end' : Z) (nstart nstop : list Z) (cnt : nat) (i : Z)
    (sequence : list ascii) : result (list ascii) :=
  match cnt with
  | O => Ret sequence
  | S cnt' =>
      (a <- vector_at nstart i ;;
       sequence' <-
         (if a <=? end' then
            b <- vector_at nstop i ;;
            if b >=? begin then
              let start := if a <? begin then begin else a in
              let stop := if b >? end' then end' else b in
              mark_loop begin (Z.to_nat (stop + 1 - start)) start sequence
            else Ret sequence
          else Ret sequence) ;;
       mark_unknown begin end' nstart nstop cnt' (wrap32 (i + 1)) sequence')%result
  end.

(** The name that the "not found" message shows. *)
Definition shown_name (chrNumber : Z) (chrName : string) : string :=
  if String.eqb chrName "" then name_at chrShortName chrNumber else chrName.

(** The first part of the constructor, from [reader.openFile] to the test
    [if (chrOffset == 0)]: it yields [swapBytes] and the byte offset of the
    record of the chromosome. *)
Definition locate_chromosome (twobit : option (list byte)) (chrNumber : Z)
    (chrName : string) : io (bool * Z) :=
  (opened <- openFile twobit ;;
   if negb opened then io_throw UnableToOpen
   else
   sig <- BinaryReader_read_uint32 ;;
   match sig with
   | None => io_throw NotA2bitFile
   | Some signature =>
   if negb (signature =? EXPECTED_SIGNATURE) &&
      negb (signature =? swap_uint32 EXPECTED_SIGNATURE)
   then io_throw NotA2bitFile
   else
   let swapBytes := negb (signature =? EXPECTED_SIGNATURE) in
   version <- read_uint32 swapBytes ;;
   chrCount <- read_uint32 swapBytes ;;
   reserved <- read_uint32 swapBytes ;;
   chrOffset <- find_chromosome swapBytes chrNumber chrName (Z.to_nat chrCount) 0 ;;
   if chrOffset =? 0 then io_throw (ChromosomeNotFound (shown_name chrNumber chrName))
   else io_ret (swapBytes, chrOffset)
   end)%io.

(** The second part of the constructor, from [reader.seek(chrOffset)] to its
    end: it reads the header of the record, decodes the packed bases of
    [begin .. end] and marks the unknown blocks. *)
Definition load_window (uninit : nat -> ascii) (swapBytes : bool) (chrOffset : Z)
    (beginpos endpos : Z) : io ReferenceGenome :=
  (_ <- seek chrOffset ;;
   numBases <- read_uint32 swapBytes ;;
   let begin := beginpos in
   let end' := if endpos >? numBases then numBases else endpos in
   if (begin =? 0) || (begin >? end') then io_throw InvalidBeginPosition
   else
   let sequence := new_char_array uninit (wrap32 (wrap32 (end' - begin) + 1)) in
   nBlockCount <- read_uint32 swapBytes ;;
   nstart <- read_nstart swapBytes (Z.to_nat nBlockCount) [] ;;
   nstop <- read_nstop swapBytes nstart (Z.to_nat nBlockCount) 0 [] ;;
   maskBlockCount <- read_uint32 swapBytes ;;
   let dnaOffset :=
     wrap32 (chrOffset +
             4 * wrap32 (wrap32 (wrap32 (2 * nBlockCount) + wrap32 (2 * maskBlockCount)) + 4)) in
   _ <- seek (wrap32 (dnaOffset + Z.shiftr (wrap32 (begin - 1)) 2)) ;;
   sequence <- decode_loop begin (Z.to_nat (end' + 1 - begin)) begin 0 true sequence ;;
   sequence <- io_lift (mark_unknown begin end' nstart nstop (Z.to_nat nBlockCount) 0
                                     sequence) ;;
   _ <- closeFile ;;
   io_ret {| begin := begin; end_ := end'; sequence := sequence |})%io.

(** The body of the constructor from [reader.openFile] on. *)
Definition ReferenceGenome_body (uninit : nat -> ascii) (twobit : option (list byte))
    (chrNumber beginpos endpos : Z) (chrName : string) : io ReferenceGenome :=
  (located <- locate_chromosome twobit chrNumber chrName ;;
   load_window uninit (fst located) (snd located) beginpos endpos)%io.

(** [ReferenceGenome::ReferenceGenome(const std::string& twobit_filename,
       uint8_t chrNumber, uint32_t beginpos, uint32_t endpos, std::string chrName)];
    [twobit] is the contents of the file of that name, [None] if it cannot be
    opened. *)
Definition ReferenceGenome_new (uninit : nat -> ascii) (twobit : option (list byte))
    (chrNumber beginpos endpos : Z) (chrName : string) : result ReferenceGenome :=
  if String.eqb chrName "" && ((chrNumber =? 0) || (chrNumber >? NUM_CHROMOSOMES))
  then Throw InvalidChromosomeSpecification
  else
    match ReferenceGenome_body uninit twobit chrNumber beginpos endpos chrName
            (BinaryReader_new DEFAULT_BUFFER_SIZE) with
    | Ret (g, _) => Ret g
    | Throw e => Throw e
    | Undefined f => Undefined f
    end.

(** The byte of value [x]. *)
Definition byte_of_Z (x : Z) : byte :=
  match Byte.of_N (Z.to_N x) with
  | Some b => b
  | None => x00
  end.

(** ** The layout of a 2bit file

    The file format in the order of its fields, as the constructor reads
    them; these definitions are used to say what a file contains. *)

(** The value of a 32-bit field stored in the four bytes [bs] of a file
    whose byte order is given by [swapBytes]. *)
Definition field32 (swapBytes : bool) (bs : list byte) : Z :=
  let value := uint32_of_bytes bs in
  if swapBytes then swap_uint32 value else value.

(** An entry of the directory: the bytes of the name and the four bytes of
    the offset.  In the file it is the length of the name in one byte, the
    name, and the offset. *)
Record dir_entry : Type := mkDirEntry {
  entry_name : list byte;
  entry_offset : list byte
}.

Definition entry_ok (e : dir_entry) : Prop :=
  (length (entry_name e) <= 255)%nat /\ length (entry_offset e) = 4%nat.

Definition encode_entry (e : dir_entry) : list byte :=
  byte_of_Z (Z.of_nat (length (entry_name e))) :: entry_name e ++ entry_offset e.

Definition encode_directory (es : list dir_entry) : list byte :=
  concat (map encode_entry es).

(** The entry carries the name that the caller asked for. *)
Definition entry_matches (chrNumber : Z) (chrName : string) (e : dir_entry) : bool :=
  name_matches chrNumber chrName (string_of_bytes (entry_name e)).

(** The header of the file: signature, version, number of directory
    entries, reserved field, then the directory. *)
Record twobit_header : Type := mkHeader {
  hdr_signature : list byte;
  hdr_version : list byte;
  hdr_chrCount : list byte;
  hdr_reserved : list byte;
  hdr_directory : list dir_entry
}.

Definition header_swap (h : twobit_header) : bool :=
  negb (uint32_of_bytes (hdr_signature h) =? EXPECTED_SIGNATURE).

Definition encode_header (h : twobit_header) : list byte :=
  hdr_signature h ++ hdr_version h ++ hdr_chrCount h ++ hdr_reserved h ++
  encode_directory (hdr_directory h).

Record header_ok (h : twobit_header) : Prop := mk_header_ok {
  hok_signature_len : length (hdr_signature h) = 4%nat;
  hok_version_len : length (hdr_version h) = 4%nat;
  hok_chrCount_len : length (hdr_chrCount h) = 4%nat;
  hok_reserved_len : length (hdr_reserved h) = 4%nat;
  hok_signature :
    uint32_of_bytes (hdr_signature h) = EXPECTED_SIGNATURE \/
    uint32_of_bytes (hdr_signature h) = swap_uint32 EXPECTED_SIGNATURE;
  hok_chrCount :
    field32 (header_swap h) (hdr_chrCount h) = Z.of_nat (length (hdr_directory h));
  hok_entries : Forall entry_ok (hdr_directory h)
}.

(** The offset with which the directory scan ends: that of the first
    matching entry whose offset is not 0, and 0 when there is none. *)
Fixpoint selected_offset (swapBytes : bool) (chrNumber : Z) (chrName : string)
    (es : list dir_entry) : Z :=
  match es with
  | [] => 0
  | e :: es' =>
      let off := field32 swapBytes (entry_offset e) in
      if entry_matches chrNumber chrName e && negb (off =? 0) then off
      else selected_offset swapBytes chrNumber chrName es'
  end.

(** The head of the record of a chromosome: number of bases, number of
    unknown blocks, the starts of the blocks, their lengths, and the number
    of masked blocks.  A block is the pair of its start field and its length
    field. *)
Record record_head : Type := mkRecordHead {
  rec_numBases : list byte;
  rec_nBlockCount : list byte;
  rec_blocks : list (list byte * list byte);
  rec_maskBlockCount : list byte
}.

Definition encode_record_head (rc : record_head) : list byte :=
  rec_numBases rc ++ rec_nBlockCount rc ++
  concat (map fst (rec_blocks rc)) ++ concat (map snd (rec_blocks rc)) ++
  rec_maskBlockCount rc.

Record record_ok (swapBytes : bool) (rc : record_head) : Prop := mk_record_ok {
  rok_numBases_len : length (rec_numBases rc) = 4%nat;
  rok_nBlockCount_len : length (rec_nBlockCount rc) = 4%nat;
  rok_maskBlockCount_len : length (rec_maskBlockCount rc) = 4%nat;
  rok_blocks :
    Forall (fun b => length (fst b) = 4%nat /\ length (snd b) = 4%nat) (rec_blocks rc);
  rok_nBlockCount :
    field32 swapBytes (rec_nBlockCount rc) = Z.of_nat (length (rec_blocks rc))
}.

(** First and last position (1-based, inclusive) of an unknown block, as the
    constructor computes them. *)
Definition block_first (swapBytes : bool) (b : list byte * list byte) : Z :=
  wrap32 (field32 swapBytes (fst b) + 1).

Definition block_last (swapBytes : bool) (b : list byte * list byte) : Z :=
  wrap32 (wrap32 (block_first swapBytes b + field32 swapBytes (snd b)) - 1).

(** The byte offset of the packed bases of a record at [chrOffset]. *)
Definition dna_offset (swapBytes : bool) (chrOffset : Z) (rc : record_head) : Z :=
  let nBlockCount := field32 swapBytes (rec_nBlockCount rc) in
  let maskBlockCount := field32 swapBytes (rec_maskBlockCount rc) in
  wrap32 (chrOffset +
          4 * wrap32 (wrap32 (wrap32 (2 * nBlockCount) + wrap32 (2 * maskBlockCount)) + 4)).

(** The 2-bit code of the base number [k] (0 to 3) of a byte of the packed
    stream, the most significant pair first. *)
Definition packed_code (b : byte) (k : Z) : Z :=
  Z.land (Z.shiftr (byte_val b) (2 * (3 - k))) 3.

(** ** The bytes that a reader has still to deliver *)

Definition reader_ok (file : list byte) (r : BinaryReader) : Prop :=
  fd r = Some file /\ (0 < bufsize r)%nat /\ (offset r <= length (buf r))%nat.

(** The unread part of the buffer followed by the unread part of the file. *)
Definition remaining (file : list byte) (r : BinaryReader) : list byte :=
  drop (offset r) (buf r) ++ drop (filepos r) file.

(** [c] run on [r] returns [a] and leaves [rest] to be read. *)
Definition reads {A : Type} (file : list byte) (c : io A) (r : BinaryReader)
    (a : A) (rest : list byte) : Prop :=
  exists r', c r = Ret (a, r') /\ reader_ok file r' /\ remaining file r' = rest.

(** [c] run on [r] returns [a], whatever is left to be read. *)
Definition returns {A : Type} (file : list byte) (c : io A) (r : BinaryReader)
    (a : A) : Prop :=
  exists r', c r = Ret (a, r') /\ reader_ok file r'.

(** The five characters that a window may hold. *)
Definition bases : list ascii := ["A"; "C"; "G"; "T"; "N"]%char.

Definition is_base (c : ascii) : Prop := In c bases.

(** ** The conditions of the equivalence tests *)

Section Conditions.

Variable g : ReferenceGenome.

(** The allele at the smaller position and the allele at the larger one. *)
Definition allele_lo (pos1 : Z) (seq1 : string) (pos2 : Z) (seq2 : string) : string :=
  if pos1 <? pos2 then seq1 else seq2.

Definition allele_hi (pos1 : Z) (seq1 : string) (pos2 : Z) (seq2 : string) : string :=
  if pos1 <? pos2 then seq2 else seq1.

(** *** The conditions as the code tests them *)

(** Gap equal to the length: the alleles agree and spell the reference from
    the smaller position on. *)
Definition insertions_gap_eq_length (pos1 : Z) (seq1 : string) (pos2 : Z) (seq2 : string)
  : Prop :=
  let j := Z.min pos1 pos2 in
  let v := allele_lo pos1 seq1 pos2 seq2 in
  let w := allele_hi pos1 seq1 pos2 seq2 in
  let n := strlen seq1 in
  forall i, 0 <= i < n ->
    string_at v i = string_at w i /\ string_at v i = getBase g (j + i).

(** Gap [m] shorter than the length [n]: the first [m] characters of [v] are
    the last [m] of [w] and spell the reference from the smaller position
    on; the other [n - m] characters of [v] are the first [n - m] of [w]. *)
Definition insertions_gap_lt_length (pos1 : Z) (seq1 : string) (pos2 : Z) (seq2 : string)
  : Prop :=
  let j := Z.min pos1 pos2 in
  let k := Z.max pos1 pos2 in
  let v := allele_lo pos1 seq1 pos2 seq2 in
  let w := allele_hi pos1 seq1 pos2 seq2 in
  let m := k - j in
  let n := strlen seq1 in
  (forall i, 0 <= i < m ->
     string_at v i = string_at w (i + (n - m)) /\ string_at v i = getBase g (j + i)) /\
  (forall i, m <= i < n -> string_at v i = string_at w (i - m)).

(** The reference has period [n] on the positions [j, k). *)
Definition deletions_periodic (pos1 : Z) (seq1 : string) (pos2 : Z) (seq2 : string)
  : Prop :=
  let j := Z.min pos1 pos2 in
  let k := Z.max pos1 pos2 in
  let n := strlen seq1 in
  forall s, j <= s < k -> getBase g s = getBase g (wrap32 (s + n)).

(** *** The same conditions in the words of the specification *)

(** "if m == n: equivalent iff for all i in [0,n), v[i] == w[i] ==
    getBase(j+1+i)", with j = min(pos1,pos2). *)
Definition spec_insertions_gap_eq_length
  (pos1 : Z) (seq1 : string) (pos2 : Z) (seq2 : string) : Prop :=
  let j := Z.min pos1 pos2 in
  let v := allele_lo pos1 seq1 pos2 seq2 in
  let w := allele_hi pos1 seq1 pos2 seq2 in
  let n := strlen seq1 in
  forall i, 0 <= i < n ->
    string_at v i = string_at w i /\ string_at v i = getBase g (j + 1 + i).

(** "if m < n: equivalent iff, for i in [0, n-m), v[i] == w[i+(n-m)] ==
    getBase(j+1+i), AND for i in [n-m, n), v[i] == w[i-(n-m)]". *)
Definition spec_insertions_gap_lt_length
  (pos1 : Z) (seq1 : string) (pos2 : Z) (seq2 : string) : Prop :=
  let j := Z.min pos1 pos2 in
  let k := Z.max pos1 pos2 in
  let v := allele_lo pos1 seq1 pos2 seq2 in
  let w := allele_hi pos1 seq1 pos2 seq2 in
  let m := k - j in
  let n := strlen seq1 in
  (forall i, 0 <= i < n - m ->
     string_at v i = string_at w (i + (n - m)) /\
     string_at v i = getBase g (j + 1 + i)) /\
  (forall i, n - m <= i < n -> string_at v i = string_at w (i - (n - m))).

(** "getBase(s) == getBase(s+n) for every s in [j, k-1)". *)
Definition spec_deletions_periodic
  (pos1 : Z) (seq1 : string) (pos2 : Z) (seq2 : string) : Prop :=
  let j := Z.min pos1 pos2 in
  let k := Z.max pos1 pos2 in
  let n := strlen seq1 in
  forall s, j <= s < k - 1 -> getBase g s = getBase g (wrap32 (s + n)).

(** [first .. first + len - 1] of the reference read as [s]. *)
Definition reference_reads (first : Z) (s : string) : Prop :=
  forall i, 0 <= i < strlen s -> getBase g (first + i) = string_at s i.

End Conditions.

(** ** Concrete files and windows *)

(** The header of a file in the byte order of the reader, with the single
    chromosome "1" whose record is at offset 22. *)
Definition header_2103 : twobit_header :=
  {| hdr_signature := map byte_of_Z [26; 65; 39; 67];
     hdr_version := map byte_of_Z [0; 0; 0; 0];
     hdr_chrCount := map byte_of_Z [0; 0; 0; 1];
     hdr_reserved := map byte_of_Z [0; 0; 0; 0];
     hdr_directory :=
       [ {| entry_name := map byte_of_Z [49];
            entry_offset := map byte_of_Z [0; 0; 0; 22] |} ] |}.

(** The head of a record of four bases without unknown or masked blocks. *)
Definition record_2103 : record_head :=
  {| rec_numBases := map byte_of_Z [0; 0; 0; 4];
     rec_nBlockCount := map byte_of_Z [0; 0; 0; 0];
     rec_blocks := [];
     rec_maskBlockCount := map byte_of_Z [0; 0; 0; 0] |}.

(** A 2bit file with the single chromosome "1" of four bases whose packed
    stream is the byte 0x93 = 147, the codes 2, 1, 0, 3.  The 39 bytes are
    header (16), directory (6), head of the record (12), the reserved field of
    the record (4) and the packed stream (1), at offset 38. *)
Definition file_2103 : list byte :=
  encode_header header_2103 ++
  (encode_record_head record_2103 ++ map byte_of_Z [0; 0; 0; 0; 147]).

(** The header of a file whose directory holds "1" with the offset 0
    and then "2" with the offset 28. *)
Definition header_zero_offset : twobit_header :=
  {| hdr_signature := map byte_of_Z [26; 65; 39; 67];
     hdr_version := map byte_of_Z [0; 0; 0; 0];
     hdr_chrCount := map byte_of_Z [0; 0; 0; 2];
     hdr_reserved := map byte_of_Z [0; 0; 0; 0];
     hdr_directory :=
       [ {| entry_name := map byte_of_Z [49];
            entry_offset := map byte_of_Z [0; 0; 0; 0] |};
         {| entry_name := map byte_of_Z [50];
            entry_offset := map byte_of_Z [0; 0; 0; 28] |} ] |}.

(** That header followed by the record of chromosome "2". *)
Definition file_zero_offset : list byte :=
  encode_header header_zero_offset ++
  (encode_record_head record_2103 ++ map byte_of_Z [0; 0; 0; 0; 147]).

(** The header of a file whose directory holds the name "1" twice, first
    with the offset 0 and then with the offset 28. *)
Definition header_twice : twobit_header :=
  {| hdr_signature := map byte_of_Z [26; 65; 39; 67];
     hdr_version := map byte_of_Z [0; 0; 0; 0];
     hdr_chrCount := map byte_of_Z [0; 0; 0; 2];
     hdr_reserved := map byte_of_Z [0; 0; 0; 0];
     hdr_directory :=
       [ {| entry_name := map byte_of_Z [49];
            entry_offset := map byte_of_Z [0; 0; 0; 0] |};
         {| entry_name := map byte_of_Z [49];
            entry_offset := map byte_of_Z [0; 0; 0; 28] |} ] |}.

Definition file_twice : list byte :=
  encode_header header_twice ++
  (encode_record_head record_2103 ++ map byte_of_Z [0; 0; 0; 0; 147]).

(** [file_2103] in the other byte order: the signature and every 32-bit field
    have their bytes reversed. *)
Definition header_2103_swapped : twobit_header :=
  {| hdr_signature := map byte_of_Z [67; 39; 65; 26];
     hdr_version := map byte_of_Z [0; 0; 0; 0];
     hdr_chrCount := map byte_of_Z [1; 0; 0; 0];
     hdr_reserved := map byte_of_Z [0; 0; 0; 0];
     hdr_directory :=
       [ {| entry_name := map byte_of_Z [49];
            entry_offset := map byte_of_Z [22; 0; 0; 0] |} ] |}.

Definition record_2103_swapped : record_head :=
  {| rec_numBases := map byte_of_Z [4; 0; 0; 0];
     rec_nBlockCount := map byte_of_Z [0; 0; 0; 0];
     rec_blocks := [];
     rec_maskBlockCount := map byte_of_Z [0; 0; 0; 0] |}.

Definition file_2103_swapped : list byte :=
  encode_header header_2103_swapped ++
  (encode_record_head record_2103_swapped ++ map byte_of_Z [0; 0; 0; 0; 147]).

(** A file of twelve bases "ACGTACGTACGT" (codes 2, 1, 3, 0 in each byte,
    0x9C = 156) whose positions 6 and 7 are an unknown block (start 5,
    length 2). *)
Definition record_unknown : record_head :=
  {| rec_numBases := map byte_of_Z [0; 0; 0; 12];
     rec_nBlockCount := map byte_of_Z [0; 0; 0; 1];
     rec_blocks := [ (map byte_of_Z [0; 0; 0; 5], map byte_of_Z [0; 0; 0; 2]) ];
     rec_maskBlockCount := map byte_of_Z [0; 0; 0; 0] |}.

Definition file_unknown : list byte :=
  encode_header header_2103 ++
  (encode_record_head record_unknown ++ map byte_of_Z [0; 0; 0; 0; 156; 156; 156]).

(** The window over the four bases of those files. *)
Definition window_2103 : ReferenceGenome :=
  {| begin := 1; end_ := 4; sequence := list_ascii_of_string "ACTG" |}.

(** Storage that holds the character '?' wherever it was not written. *)
Definition question_marks : nat -> ascii := fun _ => "?"%char.

(** A window over the twelve bases "ACGTACGTACGT" at positions 1 to 12. *)
Definition acgt3 : ReferenceGenome :=
  {| begin := 1; end_ := 12; sequence := list_ascii_of_string "ACGTACGTACGT" |}.

(** A window over the twelve bases "AAAAAAAAAAAA" at positions 1 to 12. *)
Definition poly_a : ReferenceGenome :=
  {| begin := 1; end_ := 12; sequence := list_ascii_of_string "AAAAAAAAAAAA" |}.

(** ** The edits that the indels stand for

    The chromosome is a list of bases, position 1 first.  The code takes the
    position of an insertion as the position that follows the inserted bases
    ("position before insertion" is [pos - 1]) and the position of a deletion
    as the position of the first deleted base. *)

(** The characters of an allele. *)
Definition chars (s : string) : list ascii := list_ascii_of_string s.

(** The window shows the chromosome [ref]: [getBase] at position [i + 1] is
    the base number [i] of [ref] (which is 'N' where the window does not
    reach). *)
Definition shows (g : ReferenceGenome) (ref : list ascii) : Prop :=
  forall (i : nat) (c : ascii), ref !! i = Some c -> getBase g (Z.of_nat i + 1) = Ret c.

(** The chromosome with [seq] inserted between the positions [pos - 1] and
    [pos]. *)
Definition insert_before (ref : list ascii) (pos : Z) (seq : list ascii) : list ascii :=
  take (Z.to_nat (pos - 1)) ref ++ seq ++ drop (Z.to_nat (pos - 1)) ref.

(** The chromosome without the [n] bases from position [pos] on. *)
Definition delete_from (ref : list ascii) (pos n : Z) : list ascii :=
  take (Z.to_nat (pos - 1)) ref ++ drop (Z.to_nat (pos - 1 + n)) ref.

(** The condition that [equivalentInsertions] tests when the gap [m] is
    longer than the alleles: [v] spells the reference from the smaller
    position on, [w] spells the [n] positions before the larger position, and
    the reference has period [n] between them. *)
Definition insertions_gap_gt_length (g : ReferenceGenome)
    (pos1 : Z) (seq1 : string) (pos2 : Z) (seq2 : string) : Prop :=
  let j := Z.min pos1 pos2 in
  let k := Z.max pos1 pos2 in
  let v := allele_lo pos1 seq1 pos2 seq2 in
  let w := allele_hi pos1 seq1 pos2 seq2 in
  let n := strlen seq1 in
  (forall i, 0 <= i < n -> string_at v i = getBase g (j + i)) /\
  (forall i, 0 <= i < n -> string_at w i = getBase g (k - n + i)) /\
  (forall s, j <= s < k - n -> getBase g s = getBase g (s + n)).

(** ** The other operations of the reader *)

Definition wrap16 (x : Z) : Z := x mod 65536.

Definition wrap64 (x : Z) : Z := x mod 18446744073709551616.

(** The loop of [read_string], entered with the counter [i] and [cnt] rounds
    to go:
    [for (int i = 0; i < maxlen; i++)
       { uint8_t byte;
         if (!read_buffer(&byte, 1)) return false;
         string[i] = static_cast<char>(byte);
         if (byte == 0) break; }]
    The loop is left after the null byte has been stored.  The counter is an
    [int]: after a character other than the null byte has been stored for
    [i = INT_MAX], the increment [i++] has no defined result. *)
Fixpoint read_string_loop (cnt : nat) (i : Z) : io (option (list byte)) :=
  match cnt with
  | O => io_ret (Some [])
  | S cnt' =>
      (bs <- read_buffer 1 ;;
       match bs with
       | Some [b] =>
           if byte_val b =? 0 then io_ret (Some [b])
           else if i =? INT_MAX then io_lift (Undefined SignedOverflow)
           else
             rest <- read_string_loop cnt' (i + 1) ;;
             io_ret match rest with
                    | Some chars => Some (b :: chars)
                    | None => None
                    end
       | _ => io_ret None
       end)%io
  end.

(** [bool BinaryReader::read_string(char *string, size_t maxlen)]; the
    characters stored in [string] are returned, [None] standing for
    [false]. *)
Definition read_string (maxlen : nat) : io (option (list byte)) :=
  read_string_loop maxlen 0.

(** [bool BinaryReader::read_uint16(uint16_t& value)]:
    [value = (byte[0] << 8) + byte[1];] *)
Definition read_uint16 : io (option Z) :=
  (bs <- read_buffer 2 ;;
   io_ret match bs with
          | Some [b0; b1] => Some (wrap16 (Z.shiftl (byte_val b0) 8 + byte_val b1))
          | _ => None
          end)%io.

(** [value = 0; for (i = 0; i < 8; i++) value = (value << 8) + byte[i];] on
    [uint64_t]. *)
Definition uint64_of_bytes (bs : list byte) : Z :=
  fold_left (fun value b => wrap64 (wrap64 (Z.shiftl value 8) + byte_val b)) bs 0.

(** [bool BinaryReader::read_uint64(uint64_t& value)] *)
Definition read_uint64 : io (option Z) :=
  (bs <- read_buffer 8 ;;
   io_ret match bs with
          | Some bytes => Some (uint64_of_bytes bytes)
          | None => None
          end)%io.

(** The loop of [skipBytes]:
    [while (true) { if (!fillBuffer()) return false;
                    if (numBytes <= buflen) { offset = numBytes; break; }
                    numBytes -= buflen; }]
    run for at most [fuel] rounds; [None] says that they did not end it. *)
Fixpoint skip_loop (fuel : nat) (numBytes : nat) : io (option bool) := fun r =>
  match fuel with
  | O => Ret (None, r)
  | S fuel' =>
      match fillBuffer r with
      | Ret (false, r1) => Ret (Some false, r1)
      | Ret (true, r1) =>
          if (numBytes <=? buflen r1)%nat then
            Ret (Some true, {| fd := fd r1; filepos := filepos r1; buf := buf r1;
                               bufsize := bufsize r1; offset := numBytes |})
          else skip_loop fuel' (numBytes - buflen r1) r1
      | Throw e => Throw e
      | Undefined f => Undefined f
      end
  end.

(** [bool BinaryReader::skipBytes(size_t numBytes)] *)
Definition skipBytes (fuel : nat) (numBytes : nat) : io (option bool) := fun r =>
  let bytesRemaining :=
    if (offset r <? buflen r)%nat then (buflen r - offset r)%nat else 0%nat in
  if (numBytes <=? bytesRemaining)%nat then
    Ret (Some true, {| fd := fd r; filepos := filepos r; buf := buf r;
                       bufsize := bufsize r; offset := (offset r + numBytes)%nat |})
  else skip_loop fuel (numBytes - bytesRemaining) r.

(** The number that the bytes [bs] spell, the most significant byte first. *)
Definition big_endian (bs : list byte) : Z :=
  fold_left (fun value b => 256 * value + byte_val b) bs 0.

(** The number that the bytes [bs] spell, the least significant byte first. *)
Definition little_endian (bs : list byte) : Z := big_endian (rev bs).

(** A file of ten bytes, and a reader with a buffer of three bytes that has
    just opened it. *)
Definition ten_bytes : list byte :=
  [x01; x02; x03; x04; x05; x06; x07; x08; x09; x0a].

Definition small_reader (file : list byte) : BinaryReader :=
  {| fd := Some file; filepos := 0; buf := []; bufsize := 3; offset := 0 |}.

(** The bytes of "chr1", a null byte, and one more byte. *)
Definition chr1_bytes : list byte := [x63; x68; x72; x31; x00; xff].

(** ** What a window is to read

    The contents of the window in terms of the file: the packed stream of
    the record, and its unknown blocks. *)

(** Position [p] lies in the unknown block [b]. *)
Definition in_block (swapBytes : bool) (p : Z) (b : list byte * list byte) : bool :=
  (block_first swapBytes b <=? p) && (p <=? block_last swapBytes b).

(** The base at position [p] (1-based) of the packed stream [packed]: four
    positions to a byte, the first in the two most significant bits. *)
Definition packed_base (packed : list byte) (p : Z) : option ascii :=
  match packed !! Z.to_nat ((p - 1) / 4) with
  | Some b => symbol !! Z.to_nat (packed_code b ((p - 1) mod 4))
  | None => None
  end.

(** The character of position [p]: 'N' in an unknown block, the packed base
    elsewhere. *)
Definition expected_base (swapBytes : bool) (rc : record_head) (packed : list byte)
    (p : Z) : option ascii :=
  if existsb (in_block swapBytes p) (rec_blocks rc) then Some "N"%char
  else packed_base packed p.

(** The state of the decoding loop when it is about to handle position
    [pos]: either the byte of [pos] is the next one to be read, or it has
    been read and is held in [byte]. *)
Definition decode_inv (file packed : list byte) (pos byte : Z) (readByte : bool)
    (r : BinaryReader) : Prop :=
  if readByte then remaining file r = drop (Z.to_nat ((pos - 1) / 4)) packed
  else (pos - 1) mod 4 <> 0 /\
       exists b, packed !! Z.to_nat ((pos - 1) / 4) = Some b /\ byte = byte_val b /\
                 remaining file r = drop (S (Z.to_nat ((pos - 1) / 4))) packed.

(** ** The names of the chromosomes of a 2bit file *)

(** The loop of [getChromosomeNames], with [cnt] entries left:
    [for (uint32_t i = 0; i < chrCount; i++) { ... chrName->push_back(name); }] *)
Fixpoint read_names (swapBytes : bool) (cnt : nat) (chrName : list string)
  : io (list string) :=
  match cnt with
  | O => io_ret chrName
  | S cnt' =>
      (nameLength <- read_uint8 ;;
       match nameLength with
       | None => io_throw Truncated2bitFile
       | Some len =>
           nameBuffer <- read_buffer (Z.to_nat len) ;;
           match nameBuffer with
           | None => io_throw Truncated2bitFile
           | Some bytes =>
               offset <- read_uint32 swapBytes ;;
               read_names swapBytes cnt' (chrName ++ [string_of_bytes bytes])
           end
       end)%io
  end.

(** The body of [getChromosomeNames] from [reader.openFile] on. *)
Definition getChromosomeNames_body (twobit : option (list byte)) : io (list string) :=
  (opened <- openFile twobit ;;
   if negb opened then io_throw UnableToOpen
   else
   sig <- BinaryReader_read_uint32 ;;
   match sig with
   | None => io_throw NotA2bitFile
   | Some signature =>
   if negb (signature =? EXPECTED_SIGNATURE) &&
      negb (signature =? swap_uint32 EXPECTED_SIGNATURE)
   then io_throw NotA2bitFile
   else
   let swapBytes := negb (signature =? EXPECTED_SIGNATURE) in
   version <- read_uint32 swapBytes ;;
   chrCount <- read_uint32 swapBytes ;;
   reserved <- read_uint32 swapBytes ;;
   chrName <- read_names swapBytes (Z.to_nat chrCount) [] ;;
   _ <- closeFile ;;
   io_ret chrName
   end)%io.

(** [StringVector *getChromosomeNames(const std::string& twobit_filename)];
    [twobit] is the contents of the file of that name, [None] if it cannot be
    opened. *)
Definition getChromosomeNames (twobit : option (list byte)) : result (list string) :=
  match getChromosomeNames_body twobit (BinaryReader_new DEFAULT_BUFFER_SIZE) with
  | Ret (chrName, _) => Ret chrName
  | Throw e => Throw e
  | Undefined f => Undefined f
  end.

(** The name of a directory entry as a string. *)
Definition entry_string (e : dir_entry) : string := string_of_bytes (entry_name e).

(** The four bytes with which a 2bit file begins, in the byte order of the
    reader and in the other one. *)
Definition signature_bytes : list byte := [x1a; x41; x27; x43].

Definition signature_bytes_swapped : list byte := [x43; x27; x41; x1a].

(** ** The buffered writer *)

Module Writer.

(** The messages of the [std::runtime_error]s thrown by [BinaryWriter]
    ("binary file write error" and "binary file close error" report a
    failure of the operating system, which is not modelled: [write] stores
    all the bytes that it is given). *)
Inductive error : Type :=
  | BufferTooSmall   (* "binary write buffer is too small" *)
  | FileNotOpen.     (* "binary file not open" *)

(** An outcome of a member function: it returns, it throws, or [memcpy]
    would store bytes behind the end of the internal buffer. *)
Inductive outcome (A : Type) : Type :=
  | Done (a : A)
  | Raise (e : error)
  | Overrun.

Arguments Done {A} a.
Arguments Raise {A} e.
Arguments Overrun {A}.

(** A file that is open for writing: the bytes that it holds, and the offset
    at which the next [write] stores its bytes. *)
Record file_state : Type := mkFileState {
  contents : list byte;
  position : nat
}.

(** [write(fd, bytes, count)]: the bytes replace those at the offset of the
    descriptor, or extend the file, and the offset moves behind them. *)
Definition sys_write (f : file_state) (bytes : list byte) : file_state :=
  {| contents := take (position f) (contents f) ++ bytes ++
                 drop (position f + length bytes) (contents f);
     position := position f + length bytes |}.

(** [class BinaryWriter]; [fd] is [None] for the descriptor -1, and [buf] is
    the array of [bufsize] bytes. *)
Record BinaryWriter : Type := mkBinaryWriter {
  fd : option file_state;
  buf : list byte;
  bufsize : nat;
  offset : nat;
  bytesFlushed : Z
}.

Definition wio (A : Type) : Type := BinaryWriter -> outcome (A * BinaryWriter).

(** [BinaryWriter::BinaryWriter(size_t bufferSize)]; [uninit] stands for
    what the storage of the new array holds. *)
Definition BinaryWriter_new (uninit : nat -> byte) (bufferSize : nat) : BinaryWriter :=
  {| fd := None; buf := map uninit (seq 0 bufferSize); bufsize := bufferSize;
     offset := 0; bytesFlushed := 0 |}.

(** [bool BinaryWriter::openFile(const char *filename, bool newFile)]; the
    argument [target] is [None] when [open] fails and otherwise what the file
    of that name held before the call (nothing, if [open] creates it). *)
Definition openFile (target : option (list byte)) (newFile : bool)
    (w : BinaryWriter) : bool * BinaryWriter :=
  match fd w with
  | Some _ => (false, w)
  | None =>
      match target with
      | None => (false, w)
      | Some old =>
          (true, {| fd := Some {| contents := if newFile then [] else old;
                                  position := 0 |};
                    buf := buf w; bufsize := bufsize w; offset := 0;
                    bytesFlushed := 0 |})
      end
  end.

(** [void BinaryWriter::flushBuffer()] *)
Definition flushBuffer : wio unit := fun w =>
  match fd w with
  | None => Raise FileNotOpen
  | Some f =>
      if (offset w =? 0)%nat then Done (tt, w)
      else Done (tt, {| fd := Some (sys_write f (take (offset w) (buf w)));
                        buf := buf w; bufsize := bufsize w; offset := 0;
                        bytesFlushed := wrap64 (bytesFlushed w + Z.of_nat (offset w)) |})
  end.

(** [void BinaryWriter::write_buffer(const void *buffer, size_t numBytes)];
    [bytes] are the [numBytes] bytes at [buffer]. *)
Definition write_buffer (bytes : list byte) : wio unit := fun w =>
  let numBytes := length bytes in
  if (bufsize w <? numBytes)%nat then Raise BufferTooSmall
  else
    match (if (bufsize w <? offset w + numBytes)%nat then flushBuffer w
           else Done (tt, w)) with
    | Done (_, w1) =>
        if (offset w1 + numBytes <=? length (buf w1))%nat then
          Done (tt, {| fd := fd w1;
                       buf := take (offset w1) (buf w1) ++ bytes ++
                              drop (offset w1 + numBytes) (buf w1);
                       bufsize := bufsize w1; offset := offset w1 + numBytes;
                       bytesFlushed := bytesFlushed w1 |})
        else Overrun
    | Raise e => Raise e
    | Overrun => Overrun
    end.

(** [static_cast<uint8_t>(x)] *)
Definition uint8_cast (x : Z) : byte := byte_of_Z (x mod 256).

(** [void BinaryWriter::write_string(const char *string)]; [s] are the
    characters of the string before its null byte. *)
Definition write_string (s : list byte) : wio unit := write_buffer (s ++ [x00]).

(** [void BinaryWriter::write_uint8(uint8_t value)] *)
Definition write_uint8 (value : Z) : wio unit := write_buffer [byte_of_Z value].

(** [void BinaryWriter::write_uint16(uint16_t value)] *)
Definition write_uint16 (value : Z) : wio unit :=
  write_buffer [uint8_cast (Z.shiftr value 8); uint8_cast (Z.land value 255)].

(** [void BinaryWriter::write_uint32(uint32_t value)]:
    [byte[i] = static_cast<uint8_t>((value >> (24 - 8 * i)) & 0xFF)] for
    [i] from 0 to 3. *)
Definition write_uint32 (value : Z) : wio unit :=
  write_buffer
    (map (fun i => uint8_cast (Z.land (Z.shiftr value (24 - 8 * i)) 255)) [0; 1; 2; 3]).

(** [void BinaryWriter::write_uint64(uint64_t value)], with [56 - 8 * i] for
    [i] from 0 to 7. *)
Definition write_uint64 (value : Z) : wio unit :=
  write_buffer
    (map (fun i => uint8_cast (Z.land (Z.shiftr value (56 - 8 * i)) 255))
         [0; 1; 2; 3; 4; 5; 6; 7]).

(** [void BinaryWriter::closeFile()]; the value returned is what the file
    holds when it has been closed, [None] when no file was open. *)
Definition closeFile : wio (option (list byte)) := fun w =>
  match fd w with
  | None => Done (None, w)
  | Some _ =>
      match flushBuffer w with
      | Done (_, w1) =>
          Done (match fd w1 with
                | Some f => Some (contents f)
                | None => None
                end,
                {| fd := None; buf := buf w1; bufsize := bufsize w1; offset := 0;
                   bytesFlushed := 0 |})
      | Raise e => Raise e
      | Overrun => Overrun
      end
  end.

(** [uint64_t bytesWritten() const { return bytesFlushed + offset; }] *)
Definition bytesWritten (w : BinaryWriter) : Z :=
  wrap64 (bytesFlushed w + Z.of_nat (offset w)).

(** The state in which the member functions leave the buffer of a writer. *)
Definition writer_ok (w : BinaryWriter) : Prop :=
  length (buf w) = bufsize w /\ (offset w <= bufsize w)%nat.

(** The writer has a file open that held [old] when it was opened: behind
    the offset of the descriptor the file is as it was. *)
Definition open_on (old : list byte) (w : BinaryWriter) : Prop :=
  exists f, fd w = Some f /\ (position f <= length (contents f))%nat /\
            drop (position f) (contents f) = drop (position f) old.

(** The bytes that the writer has been given since the file was opened: those
    that are in the file already, and those that wait in the buffer. *)
Definition output (w : BinaryWriter) : list byte :=
  match fd w with
  | Some f => take (position f) (contents f)
  | None => []
  end ++ take (offset w) (buf w).

End Writer.

(** ** Values that are written and read back *)

(** A value of one of the types that both classes handle; a string is the
    list of its characters, the null byte left out. *)
Inductive datum : Type :=
  | U8 (value : Z)
  | U16 (value : Z)
  | U32 (value : Z)
  | U64 (value : Z)
  | Str (s : list byte).

(** The value is one of its type, and a string is without null byte. *)
Definition datum_ok (d : datum) : Prop :=
  match d with
  | U8 v => 0 <= v < 256
  | U16 v => 0 <= v < 65536
  | U32 v => 0 <= v < 4294967296
  | U64 v => 0 <= v < 18446744073709551616
  | Str s => Forall (fun b => byte_val b <> 0) s
  end.

(** The number of bytes that the value takes in a file. *)
Definition datum_size (d : datum) : nat :=
  match d with
  | U8 _ => 1
  | U16 _ => 2
  | U32 _ => 4
  | U64 _ => 8
  | Str s => S (length s)
  end.

(** The bytes of the value in a file. *)
Definition datum_bytes (d : datum) : list byte :=
  match d with
  | U8 v => [byte_of_Z v]
  | U16 v => [Writer.uint8_cast (Z.shiftr v 8); Writer.uint8_cast (Z.land v 255)]
  | U32 v =>
      map (fun i => Writer.uint8_cast (Z.land (Z.shiftr v (24 - 8 * i)) 255)) [0; 1; 2; 3]
  | U64 v =>
      map (fun i => Writer.uint8_cast (Z.land (Z.shiftr v (56 - 8 * i)) 255))
          [0; 1; 2; 3; 4; 5; 6; 7]
  | Str s => s ++ [x00]
  end.

(** The member function of [BinaryWriter] for the value. *)
Definition write_datum (d : datum) : Writer.wio unit :=
  match d with
  | U8 v => Writer.write_uint8 v
  | U16 v => Writer.write_uint16 v
  | U32 v => Writer.write_uint32 v
  | U64 v => Writer.write_uint64 v
  | Str s => Writer.write_string s
  end.

(** The member function of [BinaryReader] for a value of the type of [d];
    a string is read into an array of the size that [d] takes. *)
Definition read_datum (d : datum) : io (option datum) :=
  match d with
  | U8 _ => (v <- read_uint8 ;; io_ret (option_map U8 v))%io
  | U16 _ => (v <- read_uint16 ;; io_ret (option_map U16 v))%io
  | U32 _ => (v <- BinaryReader_read_uint32 ;; io_ret (option_map U32 v))%io
  | U64 _ => (v <- read_uint64 ;; io_ret (option_map U64 v))%io
  | Str s =>
      (v <- read_string (S (length s)) ;;
       io_ret (option_map (fun chars => Str (removelast chars)) v))%io
  end.

(** The values are written one after the other. *)
Fixpoint write_all (ds : list datum) : Writer.wio unit := fun w =>
  match ds with
  | [] => Writer.Done (tt, w)
  | d :: ds' =>
      match write_datum d w with
      | Writer.Done (_, w1) => write_all ds' w1
      | Writer.Raise e => Writer.Raise e
      | Writer.Overrun => Writer.Overrun
      end
  end.

(** Values of the types of [ds] are read one after the other. *)
Fixpoint read_all (ds : list datum) : io (option (list datum)) :=
  match ds with
  | [] => io_ret (Some [])
  | d :: ds' =>
      (v <- read_datum d ;;
       match v with
       | None => io_ret None
       | Some x =>
           vs <- read_all ds' ;;
           io_ret (option_map (cons x) vs)
       end)%io
  end.

(** A file is created, the values are written, and the file is closed; the
    result is what the file holds. *)
Definition write_file (uninit : nat -> byte) (bufferSize : nat) (ds : list datum)
  : Writer.outcome (option (list byte)) :=
  let w0 := Writer.BinaryWriter_new uninit bufferSize in
  let (opened, w1) := Writer.openFile (Some []) true w0 in
  if negb opened then Writer.Done None
  else
    match write_all ds w1 with
    | Writer.Done (_, w2) =>
        match Writer.closeFile w2 with
        | Writer.Done (file, _) => Writer.Done file
        | Writer.Raise e => Writer.Raise e
        | Writer.Overrun => Writer.Overrun
        end
    | Writer.Raise e => Writer.Raise e
    | Writer.Overrun => Writer.Overrun
    end.

(** The file is opened and values of the types of [ds] are read. *)
Definition read_file (bufferSize : nat) (file : list byte) (ds : list datum)
  : result (option (list datum)) :=
  match (opened <- openFile (Some file) ;;
         if negb opened then io_ret None else read_all ds)%io
          (BinaryReader_new bufferSize) with
  | Ret (v, _) => Ret v
  | Throw e => Throw e
  | Undefined f => Undefined f
  end.

(** Storage of bytes that holds zeros. *)
Definition zeros : nat -> byte := fun _ => x00.

(** A writer with a buffer of four bytes, before and after it has created a
    file. *)
Definition small_writer : Writer.BinaryWriter := Writer.BinaryWriter_new zeros 4.

Definition small_writer_open : Writer.BinaryWriter :=
  snd (Writer.openFile (Some []) true small_writer).

(** One value of each type. *)
Definition some_data : list datum :=
  [U8 200; U16 513; Str [x63; x68; x72]; U32 440477507; U64 1311768467463790320].

(** ** The trie of sequences *)

(** [class SequenceTrie]: the flag of the node and the four nodes that
    [link[0 .. 3]] point to ([None] for a null pointer).  A node is pointed
    to by one link only, so the nodes below a node are part of its value. *)
#[warnings="-register-all"]
Inductive SequenceTrie : Type :=
  | TrieNode (endOfSequence : bool) (link0 link1 link2 link3 : option SequenceTrie).

(** [SequenceTrie::SequenceTrie()] *)
Definition SequenceTrie_new : SequenceTrie := TrieNode false None None None None.

Definition endOfSequence (t : SequenceTrie) : bool :=
  match t with TrieNode e _ _ _ _ => e end.

(** [t.link[index]] *)
Definition get_link (t : SequenceTrie) (index : Z) : option SequenceTrie :=
  match t with
  | TrieNode _ l0 l1 l2 l3 =>
      if index =? 0 then l0 else if index =? 1 then l1
      else if index =? 2 then l2 else if index =? 3 then l3 else None
  end.

(** [t.link[index] = n] *)
Definition set_link (t : SequenceTrie) (index : Z) (n : SequenceTrie) : SequenceTrie :=
  match t with
  | TrieNode e l0 l1 l2 l3 =>
      if index =? 0 then TrieNode e (Some n) l1 l2 l3
      else if index =? 1 then TrieNode e l0 (Some n) l2 l3
      else if index =? 2 then TrieNode e l0 l1 (Some n) l3
      else if index =? 3 then TrieNode e l0 l1 l2 (Some n)
      else t
  end.

(** [t.endOfSequence = true] *)
Definition set_endOfSequence (t : SequenceTrie) : SequenceTrie :=
  match t with TrieNode _ l0 l1 l2 l3 => TrieNode true l0 l1 l2 l3 end.

(** [static inline int getLinkIndex(char base)] *)
Definition getLinkIndex (base : ascii) : Z :=
  if Ascii.eqb base "A" then 0
  else if Ascii.eqb base "C" then 1
  else if Ascii.eqb base "G" then 2
  else if Ascii.eqb base "T" then 3
  else -1.

(** [void SequenceTrie::addSequence(const std::string& sequence)], from the
    node [current] on and with the characters that the loop has still to
    visit.  The result is the node with the nodes below it as the function
    leaves them, and whether it has thrown "invalid sequence": the nodes that
    were created before the exception stay in the trie. *)
Fixpoint addSequence (sequence : string) (current : SequenceTrie) : SequenceTrie * bool :=
  match sequence with
  | EmptyString => (set_endOfSequence current, false)
  | String base rest =>
      let index := getLinkIndex base in
      if index <? 0 then (current, true)
      else
        let next := match get_link current index with
                    | Some n => n
                    | None => SequenceTrie_new
                    end in
        let (next', thrown) := addSequence rest next in
        (set_link current index next', thrown)
  end.

(** [bool SequenceTrie::findSequence(const std::string& sequence) const],
    in the same way. *)
Fixpoint findSequence (sequence : string) (current : SequenceTrie) : bool :=
  match sequence with
  | EmptyString => endOfSequence current
  | String base rest =>
      let index := getLinkIndex base in
      if index <? 0 then false
      else
        match get_link current index with
        | None => false
        | Some n => findSequence rest n
        end
  end.

(** Every character is one of A, C, G, T. *)
Fixpoint all_ACGT (s : string) : bool :=
  match s with
  | EmptyString => true
  | String c rest => (0 <=? getLinkIndex c) && all_ACGT rest
  end.

(** The trie has a node at the end of the path: the walk of [findSequence]
    along the characters of [path] finds a link at every step.  The flag of
    the node is not looked at. *)
Fixpoint has_node (path : string) (current : SequenceTrie) : bool :=
  match path with
  | EmptyString => true
  | String base rest =>
      let index := getLinkIndex base in
      if index <? 0 then false
      else
        match get_link current index with
        | None => false
        | Some n => has_node rest n
        end
  end.

(** The characters of a sequence that the loop of [addSequence] visits
    without an exception: those before the first character other than A, C,
    G, T. *)
Fixpoint accepted (sequence : string) : string :=
  match sequence with
  | EmptyString => EmptyString
  | String base rest =>
      if getLinkIndex base <? 0 then EmptyString else String base (accepted rest)
  end.

(** ** Characters and sequences

    The loops of these functions visit the characters of a string from the
    first to the last; they are functions by recursion on the string. *)

(** [std::toupper(ch)], in the "C" locale. *)
Definition toupper (ch : ascii) : ascii :=
  let n := nat_of_ascii ch in
  if (97 <=? n)%nat && (n <=? 122)%nat then ascii_of_nat (n - 32) else ch.

(** [std::isdigit(c)] *)
Definition isdigit (c : ascii) : bool :=
  let n := nat_of_ascii c in (48 <=? n)%nat && (n <=? 57)%nat.

(** [bool isACGT(char ch)] *)
Definition isACGT (ch : ascii) : bool :=
  let ch := toupper ch in
  Ascii.eqb ch "A" || Ascii.eqb ch "C" || Ascii.eqb ch "G" || Ascii.eqb ch "T".

(** [bool isACGTN(char ch)] *)
Definition isACGTN (ch : ascii) : bool :=
  let ch := toupper ch in
  Ascii.eqb ch "A" || Ascii.eqb ch "C" || Ascii.eqb ch "G" || Ascii.eqb ch "T" ||
  Ascii.eqb ch "N".

(** [bool isAllACGT(const std::string& sequence)] *)
Fixpoint isAllACGT (sequence : string) : bool :=
  match sequence with
  | EmptyString => true
  | String c rest => if negb (isACGT c) then false else isAllACGT rest
  end.

(** [bool isAllACGTN(const std::string& sequence)] *)
Fixpoint isAllACGTN (sequence : string) : bool :=
  match sequence with
  | EmptyString => true
  | String c rest => if negb (isACGTN c) then false else isAllACGTN rest
  end.

(** [std::string toupperSequence(const std::string& sequence)] *)
Fixpoint toupperSequence (sequence : string) : string :=
  match sequence with
  | EmptyString => EmptyString
  | String c rest => String (toupper c) (toupperSequence rest)
  end.

(** The loop of [reverseSequence], [cnt] characters before its end:
    [for (int i = len - 1; i >= 0; i--) reverseSeq += sequence[i];] *)
Fixpoint reverse_loop (sequence : string) (cnt : nat) (reverseSeq : string)
  : result string :=
  match cnt with
  | O => Ret reverseSeq
  | S i =>
      (c <- string_at sequence (Z.of_nat i) ;;
       reverse_loop sequence i (reverseSeq ++ String c EmptyString))%result
  end.

(** [std::string reverseSequence(const std::string& sequence)] *)
Definition reverseSequence (sequence : string) : result string :=
  reverse_loop sequence (String.length sequence) EmptyString.

(** The [switch] of [invertSequence]. *)
Definition invert_base (c : ascii) : ascii :=
  if Ascii.eqb c "A" then "T"
  else if Ascii.eqb c "a" then "t"
  else if Ascii.eqb c "T" then "A"
  else if Ascii.eqb c "t" then "a"
  else if Ascii.eqb c "C" then "G"
  else if Ascii.eqb c "c" then "g"
  else if Ascii.eqb c "G" then "C"
  else if Ascii.eqb c "g" then "c"
  else c.

(** [std::string invertSequence(const std::string& sequence)] *)
Fixpoint invertSequence (sequence : string) : string :=
  match sequence with
  | EmptyString => EmptyString
  | String c rest => String (invert_base c) (invertSequence rest)
  end.

(** The loops of [getChrNumber], with [cnt] numbers from [i] to
    [NUM_CHROMOSOMES]:
    [for (uint8_t i = 1; i <= NUM_CHROMOSOMES; i++) if (chrName == table[i]) return i;] *)
Fixpoint getChrNumber_loop (table : list string) (chrName : string) (cnt : nat) (i : Z)
  : Z :=
  match cnt with
  | O => 0
  | S cnt' =>
      if String.eqb chrName (name_at table i) then i
      else getChrNumber_loop table chrName cnt' (i + 1)
  end.

(** [uint8_t getChrNumber(const std::string& chrName)] *)
Definition getChrNumber (chrName : string) : Z :=
  if strlen chrName >? 3
  then getChrNumber_loop chrLongName chrName (Z.to_nat NUM_CHROMOSOMES) 1
  else getChrNumber_loop chrShortName chrName (Z.to_nat NUM_CHROMOSOMES) 1.

(** The characters of a string in the opposite order. *)
Definition reversed (s : string) : string := string_of_list_ascii (rev (chars s)).

(** ** The median of the normal coverage (snvcounts) *)

Definition MAX_COUNT : Z := 65535.

(** The loop of [writeMedian], with [cnt] elements of the array behind
    [normalTotalCount[i]]:
    [while (count < half) count += normalTotalCount[++i];]
    With no element left the next one read lies behind the array. *)
Fixpoint median_loop (normalTotalCount : list Z) (half : Z) (cnt : nat) (i count : Z)
  : result Z :=
  if count <? half then
    match cnt with
    | O => Undefined BufferIndexOutOfRange
    | S cnt' =>
        (x <- vector_at normalTotalCount (i + 1) ;;
         median_loop normalTotalCount half cnt' (i + 1) (wrap64 (count + x)))%result
    end
  else Ret i.

(** [void writeMedian(const std::string& filename)], for the values of the
    global variables [occurrences] and [normalTotalCount]; the result is the
    number that is written to the file. *)
Definition writeMedian (occurrences : Z) (normalTotalCount : list Z) : result Z :=
  let half := wrap64 (occurrences + 1) / 2 in
  (count <- vector_at normalTotalCount 0 ;;
   median_loop normalTotalCount half (length normalTotalCount - 1) 0 count)%result.

(** The sum of a list of numbers. *)
Definition total (l : list Z) : Z := fold_right Z.add 0 l.

(** The number of positions whose normal coverage is at most [j]. *)
Definition at_most (normalTotalCount : list Z) (j : Z) : Z :=
  total (take (Z.to_nat j + 1) normalTotalCount).

(** ** Delimited strings *)

(** The inner loop of [getDelimitedStrings], run for at most [cnt] rounds:
    [while (i < len && s[i] != delimiter) value += s[i++];]
    The index [i] is never negative, and [i < len] holds exactly when
    [s[i]] is a character of the string; after as many rounds as the string
    has characters, [i < len] is false. *)
Fixpoint delimited_value (s : string) (delimiter : ascii) (cnt : nat) (i : Z)
    (value : string) : Z * string :=
  match cnt with
  | O => (i, value)
  | S cnt' =>
      match String.get (Z.to_nat i) s with
      | Some c =>
          if char_ne c delimiter
          then delimited_value s delimiter cnt' (i + 1) (value ++ String c EmptyString)
          else (i, value)
      | None => (i, value)
      end
  end.

(** The loop [do { ... v.push_back(value); } while (i++ < len);], which is
    left after at most [len] repetitions since every round moves [i]
    forward. *)
Fixpoint getDelimitedStrings_loop (s : string) (delimiter : ascii) (cnt : nat) (i : Z)
    (v : list string) : list string :=
  let (i', value) := delimited_value s delimiter (String.length s) i EmptyString in
  let v' := v ++ [value] in
  match cnt with
  | O => v'
  | S cnt' =>
      if i' <? strlen s then getDelimitedStrings_loop s delimiter cnt' (i' + 1) v'
      else v'
  end.

(** [void getDelimitedStrings(const std::string& s, char delimiter, StringVector& v)];
    the result is the vector after the call. *)
Definition getDelimitedStrings (s : string) (delimiter : ascii) (v : list string)
  : list string :=
  getDelimitedStrings_loop s delimiter (String.length s) 0 v.

(** The strings put together again, with the delimiter between them. *)
Fixpoint joined (delimiter : ascii) (pieces : list string) : string :=
  match pieces with
  | [] => EmptyString
  | [p] => p
  | p :: rest => (p ++ String delimiter (joined delimiter rest))%string
  end.

(** The characters before the first delimiter. *)
Fixpoint first_field (delimiter : ascii) (l : list ascii) : list ascii :=
  match l with
  | [] => []
  | c :: l' => if char_ne c delimiter then c :: first_field delimiter l' else []
  end.

(** The fields between the delimiters, with [fuel] at least the length of
    the list. *)
Fixpoint fields (delimiter : ascii) (fuel : nat) (l : list ascii) : list (list ascii) :=
  let f := first_field delimiter l in
  match fuel with
  | O => [f]
  | S fuel' =>
      match drop (length f) l with
      | [] => [f]
      | _ :: l' => f :: fields delimiter fuel' l'
      end
  end.

(** The number of delimiters in a list of characters. *)
Definition delimiters (delimiter : ascii) (l : list ascii) : nat :=
  count_occ Ascii.ascii_dec l delimiter.

(** ** Numbers, positions and variants in strings *)

Definition MAX_POSITION : Z := 300000000.

(** [inline bool validPosition(int pos)] *)
Definition validPosition (pos : Z) : bool := (pos >=? 1) && (pos <=? MAX_POSITION).

(** A [uint32_t] passed for a parameter of type [int]. *)
Definition to_int (x : Z) : Z := if x >? INT_MAX then x - 4294967296 else x.

(** The value of a character in an expression of type [int]; it is used for
    digits only. *)
Definition char_code (c : ascii) : Z := Z.of_nat (nat_of_ascii c).

(** The loop of [stringToInt]:
    [for (int i = 0; i < n; i++)
       { char c = s[i];
         if (std::isdigit(c)) value = 10 * value + c - '0'; else return -1; }]
    [None] says that [10 * value] or [10 * value + c] is not a value of
    [int]: C++ does not define the result of the function then. *)
Fixpoint stringToInt_loop (s : string) (value : Z) : option Z :=
  match s with
  | EmptyString => Some value
  | String c rest =>
      if isdigit c then
        if (10 * value >? INT_MAX) || (10 * value + char_code c >? INT_MAX) then None
        else stringToInt_loop rest (10 * value + char_code c - 48)
      else Some (-1)
  end.

(** [int stringToInt(const std::string& s)] *)
Definition stringToInt (s : string) : option Z :=
  let n := strlen s in
  if (n <? 1) || (n >? 10) then Some (-1) else stringToInt_loop s 0.

(** [stream << n] for an unsigned integer [n]: its decimal digits, without
    leading zeros; the digits are produced from the last to the first. *)
Fixpoint decimal_loop (fuel : nat) (n : Z) (acc : string) : string :=
  match fuel with
  | O => acc
  | S fuel' =>
      let acc' := String (ascii_of_nat (Z.to_nat (48 + n mod 10))) acc in
      if n <? 10 then acc' else decimal_loop fuel' (n / 10) acc'
  end.

Definition decimal (n : Z) : string := decimal_loop 20 n EmptyString.

(** [while (i < len && !stop(s[i])) i++;], run for at most [cnt] rounds; the
    index is never negative, and [i < len] holds exactly when [s[i]] is a
    character of the string. *)
Fixpoint scan (stop : ascii -> bool) (s : string) (cnt : nat) (i : Z) : Z :=
  match cnt with
  | O => i
  | S cnt' =>
      match String.get (Z.to_nat i) s with
      | Some c => if stop c then i else scan stop s cnt' (i + 1)
      | None => i
      end
  end.

(** [s[i] == ':' || s[i] == '.'] *)
Definition colon_or_period (c : ascii) : bool := Ascii.eqb c ":" || Ascii.eqb c ".".

(** [s[i] == '.'] *)
Definition period (c : ascii) : bool := Ascii.eqb c ".".

(** [s[i]] on a constant string as C++11 defines it: the index may be the
    length of the string, where the null character is read. *)
Definition string_elem (s : string) (i : Z) : result ascii :=
  match String.get (Z.to_nat i) s with
  | Some c => Ret c
  | None => if i =? strlen s then Ret "000"%char else Undefined StringIndexOutOfRange
  end.

(** [s.substr(pos, n)] and [s.substr(pos)]; they are called with [pos] at
    most the length of the string, so that they do not throw. *)
Definition substr (s : string) (pos n : Z) : string :=
  String.substring (Z.to_nat pos) (Z.to_nat n) s.

Definition substr_from (s : string) (pos : Z) : string :=
  String.substring (Z.to_nat pos) (String.length s - Z.to_nat pos) s.

(** What a constructor that validates its arguments does: it builds the
    object, it throws "invalid ... specification", or it calls [stringToInt]
    on a string for which that function has no defined result. *)
Inductive built (A : Type) : Type :=
  | Built (a : A)
  | Invalid
  | Overflow.

Arguments Built {A} a.
Arguments Invalid {A}.
Arguments Overflow {A}.

Module Position.

(** [class Position]; the map of variants, which both constructors leave
    empty, is left out. *)
Record Position : Type := mkPosition {
  chrNumber : Z;
  position : Z
}.

(** [Position::Position(uint8_t inChrNumber, uint32_t inPosition)] *)
Definition new (inChrNumber inPosition : Z) : built Position :=
  if (inChrNumber >=? 1) && (inChrNumber <=? NUM_CHROMOSOMES) &&
     validPosition (to_int inPosition)
  then Built {| chrNumber := inChrNumber; position := inPosition |}
  else Invalid.

(** [Position::Position(const std::string& s)] *)
Definition parse (s : string) : built Position :=
  let len := strlen s in
  let i := scan colon_or_period s (String.length s) 0 in
  if (i >? 0) && (i <? len - 1) then
    let chrName := substr s 0 i in
    let chrNumber := getChrNumber chrName in
    if chrNumber >? 0 then
      let posString := substr_from s (i + 1) in
      match stringToInt posString with
      | None => Overflow
      | Some pos =>
          if validPosition pos then Built {| chrNumber := chrNumber; position := pos |}
          else Invalid
      end
    else Invalid
  else Invalid.

(** [std::string Position::toString() const] *)
Definition toString (p : Position) : string :=
  (name_at chrLongName (chrNumber p) ++ "." ++ decimal (position p))%string.

End Position.

Module Variant.

(** [class Variant] *)
Record Variant : Type := mkVariant {
  chrNumber : Z;
  position : Z;
  sequence : string
}.

(** [Variant::Variant(uint8_t inChrNumber, uint32_t inPosition,
                      const std::string& inSequence)];
    [sequence[0]] and [sequence.substr(1)] are the first character and the
    rest of a string that has two characters or more. *)
Definition new (inChrNumber inPosition : Z) (inSequence : string) : built Variant :=
  if (inChrNumber >=? 1) && (inChrNumber <=? NUM_CHROMOSOMES) &&
     validPosition (to_int inPosition) && (strlen inSequence >=? 2)
  then
    let sequence := toupperSequence inSequence in
    match sequence with
    | String first refalt =>
        let v := {| chrNumber := inChrNumber; position := inPosition;
                    sequence := sequence |} in
        if Ascii.eqb first "I" && isAllACGT refalt then Built v
        else if Ascii.eqb first "D" && isAllACGTN refalt then Built v
        else if Ascii.eqb first "S" && isAllACGT refalt && (strlen refalt =? 2) &&
                match refalt with
                | String a (String b _) => char_ne a b
                | _ => false
                end
        then Built v
        else Invalid
    | EmptyString => Invalid
    end
  else Invalid.

(** The part of [Variant::Variant(const std::string& s)] that follows the
    position: reference and alternative allele. *)
Definition parse_alleles (s : string) (chrNumber pos j : Z) : built Variant :=
  let len := strlen s in
  let k := scan period s (String.length s) (j + 1) in
  if (k >? j + 1) && (k <? len - 1) then
    let ref := toupperSequence (substr s (j + 1) (k - j - 1)) in
    let alt := toupperSequence (substr_from s (k + 1)) in
    if String.eqb ref "-" && isAllACGT alt
    then Built {| chrNumber := chrNumber; position := pos; sequence := String "I" alt |}
    else if String.eqb alt "-" && isAllACGTN ref
    then Built {| chrNumber := chrNumber; position := pos; sequence := String "D" ref |}
    else
      match ref, alt with
      | String r EmptyString, String a EmptyString =>
          if isACGT r && isACGT a && char_ne r a
          then Built {| chrNumber := chrNumber; position := pos;
                        sequence := String "S" (ref ++ alt) |}
          else Invalid
      | _, _ => Invalid
      end
  else Invalid.

(** [Variant::Variant(const std::string& s)] *)
Definition parse (s : string) : built Variant :=
  let len := strlen s in
  let i := scan colon_or_period s (String.length s) 0 in
  if (i >? 0) && (i <? len - 5) then
    let chrName := substr s 0 i in
    let chrNumber := getChrNumber chrName in
    if chrNumber >? 0 then
      let j := scan period s (String.length s) (i + 1) in
      if (j >? i + 1) && (j <? len - 3) then
        let posString := substr s (i + 1) (j - i - 1) in
        match stringToInt posString with
        | None => Overflow
        | Some pos =>
            if validPosition pos then parse_alleles s chrNumber pos j else Invalid
        end
      else Invalid
    else Invalid
  else Invalid.

(** [std::string Variant::toString() const] *)
Definition toString (v : Variant) : result string :=
  let head := (name_at chrLongName (chrNumber v) ++ "." ++ decimal (position v) ++ ".")%string in
  (first <- string_elem (sequence v) 0 ;;
   if Ascii.eqb first "I" then Ret (head ++ "-." ++ substr_from (sequence v) 1)%string
   else if Ascii.eqb first "D" then Ret (head ++ substr_from (sequence v) 1 ++ ".-")%string
   else if Ascii.eqb first "S" then
     r <- string_elem (sequence v) 1 ;;
     a <- string_elem (sequence v) 2 ;;
     Ret (head ++ String r "." ++ String a EmptyString)%string
   else Ret head)%result.

End Variant.

(** Every character of the string is a digit. *)
Fixpoint all_digits (s : string) : bool :=
  match s with
  | EmptyString => true
  | String c rest => isdigit c && all_digits rest
  end.

(** No character of the string ends the scan. *)
Fixpoint none_stop (stop : ascii -> bool) (s : string) : bool :=
  match s with
  | EmptyString => true
  | String c rest => negb (stop c) && none_stop stop rest
  end.

(** What the parsing constructor of [Variant] makes of such a text; [ref]
    and [alt] are here the two fields in upper case. *)
Definition alleles (chrNumber pos : Z) (ref alt : string) : built Variant.Variant :=
  if String.eqb ref "-" && isAllACGT alt
  then Built {| Variant.chrNumber := chrNumber; Variant.position := pos;
                Variant.sequence := String "I" alt |}
  else if String.eqb alt "-" && isAllACGTN ref
  then Built {| Variant.chrNumber := chrNumber; Variant.position := pos;
                Variant.sequence := String "D" ref |}
  else
    match ref, alt with
    | String r EmptyString, String a EmptyString =>
        if isACGT r && isACGT a && char_ne r a
        then Built {| Variant.chrNumber := chrNumber; Variant.position := pos;
                      Variant.sequence := String "S" (ref ++ alt) |}
        else Invalid
    | _, _ => Invalid
    end.

(** * Properties *)

(** ** Arithmetic modulo 2^32 *)

Lemma wrap32_range x : 0 <= wrap32 x <= UINT32_MAX.
Proof. unfold wrap32, UINT32_MAX. pose proof (Z.mod_pos_bound x 4294967296). lia. Qed.

Lemma wrap32_small x : 0 <= x <= UINT32_MAX -> wrap32 x = x.
Proof. unfold wrap32, UINT32_MAX. intros H. apply Z.mod_small. lia. Qed.

Lemma wrap32_add_l x y : wrap32 (wrap32 x + y) = wrap32 (x + y).
Proof. unfold wrap32. apply Zplus_mod_idemp_l. Qed.

Lemma wrap32_add_r x y : wrap32 (x + wrap32 y) = wrap32 (x + y).
Proof. unfold wrap32. apply Zplus_mod_idemp_r. Qed.

Lemma wrap32_sub_l x y : wrap32 (wrap32 x - y) = wrap32 (x - y).
Proof. unfold wrap32. apply Zminus_mod_idemp_l. Qed.

Lemma wrap32_sub_r x y : wrap32 (x - wrap32 y) = wrap32 (x - y).
Proof. unfold wrap32. apply Zminus_mod_idemp_r. Qed.

Lemma wrap32_idem x : wrap32 (wrap32 x) = wrap32 x.
Proof. apply wrap32_small, wrap32_range. Qed.

Lemma wrap32_succ x t : wrap32 (wrap32 (x + t) + 1) = wrap32 (x + (t + 1)).
Proof. rewrite wrap32_add_l. f_equal. lia. Qed.

(** A property of the first [S c] indices splits into the first index and
    the [c] that follow. *)
Lemma forall_below_succ (P : Z -> Prop) (c : nat) :
  (forall t, 0 <= t < Z.of_nat (S c) -> P t) <->
  P 0 /\ (forall t, 0 <= t < Z.of_nat c -> P (t + 1)).
Proof.
  split.
  - intros H. split; [apply H; lia | intros t Ht; apply H; lia].
  - intros [H0 Hs] t Ht. destruct (Z.eq_dec t 0) as [->|Hne]; [exact H0|].
    replace t with ((t - 1) + 1) by lia. apply Hs. lia.
Qed.

(** ** Results *)

Lemma is_ret_Ret {A : Type} (a : A) : is_ret (Ret a).
Proof. by exists a. Qed.

Lemma char_ne_false a b : char_ne a b = false <-> a = b.
Proof.
  unfold char_ne. rewrite negb_false_iff. apply Ascii.eqb_eq.
Qed.

Lemma char_ne_true a b : char_ne a b = true <-> a <> b.
Proof.
  unfold char_ne. rewrite negb_true_iff. apply Ascii.eqb_neq.
Qed.

(** ** Strings and buffers *)

Lemma string_get_is_Some (s : string) (n : nat) :
  (n < String.length s)%nat -> exists c, String.get n s = Some c.
Proof.
  revert n. induction s as [|a s IH]; intros n Hn; simpl in *; [lia|].
  destruct n as [|n]; [by exists a|]. apply IH. lia.
Qed.

Lemma string_get_None (s : string) (n : nat) :
  (String.length s <= n)%nat -> String.get n s = None.
Proof.
  revert n. induction s as [|a s IH]; intros n Hn; simpl in *; [done|].
  destruct n as [|n]; [lia|]. apply IH. lia.
Qed.

Lemma string_at_is_ret s i : 0 <= i < strlen s -> is_ret (string_at s i).
Proof.
  unfold strlen, string_at. intros Hi.
  destruct (string_get_is_Some s (Z.to_nat i)) as [c Hc]; [lia|].
  rewrite Hc. apply is_ret_Ret.
Qed.

Lemma string_at_is_ret_inv s i : 0 <= i -> is_ret (string_at s i) -> i < strlen s.
Proof.
  unfold strlen, string_at. intros Hi [c Hc].
  destruct (Z.lt_ge_cases i (Z.of_nat (String.length s))) as [|Hge]; [done|].
  rewrite string_get_None in Hc by lia. discriminate.
Qed.

Section CheckerFacts.

Variable g : ReferenceGenome.

(** Every position of type [uint32_t] has a base in a window that the
    constructor built: the buffer index is in range whenever it is read. *)
Lemma getBase_is_ret pos : window_ok g -> u32 pos -> is_ret (getBase g pos).
Proof.
  intros [Hb Hr He Hs] [Hp0 Hp1]. unfold getBase.
  destruct (_ || _) eqn:Hout; [apply is_ret_Ret|].
  apply orb_false_iff in Hout as [H1 H2].
  apply Z.ltb_ge in H1. rewrite Z.gtb_ltb in H2. apply Z.ltb_ge in H2.
  rewrite wrap32_small by (unfold UINT32_MAX in *; lia).
  unfold buffer_at.
  destruct (lookup_lt_is_Some_2 (sequence g) (Z.to_nat (pos - begin g))) as [c Hc]; [lia|].
  rewrite Hc. apply is_ret_Ret.
Qed.

Lemma getBase_outside pos :
  pos < begin g \/ pos > end_ g -> getBase g pos = Ret "N"%char.
Proof.
  intros H. unfold getBase.
  destruct (_ || _) eqn:Hout; [done|].
  apply orb_false_iff in Hout as [H1 H2].
  apply Z.ltb_ge in H1. rewrite Z.gtb_ltb in H2. apply Z.ltb_ge in H2. lia.
Qed.

End CheckerFacts.

(** ** The loops of the checker

    Each loop is characterised twice: when it runs to its end ([_true]), and
    that it returns at all when every index it uses is in range ([_total]).
    The counters are written [wrap32 (x + t)], which is how the source
    computes them. *)

Section Loops.

Variable g : ReferenceGenome.

(** A mismatch or a failed read ends the loop without [Ret true]. *)
Ltac stop_here :=
  split; [discriminate | intros [[? ?] _]; intuition congruence].

(** The reading of one operand of a comparison. *)
Ltac case_read e H :=
  let c := fresh "c" in
  destruct e as [c| |] eqn:H; cbn [rbind]; [ | stop_here | stop_here ].

(** The comparison itself. *)
Ltac case_cmp a b H :=
  destruct (char_ne a b) eqn:H;
  [ apply char_ne_true in H; stop_here | apply char_ne_false in H; subst ].

Ltac shift_index :=
  repeat match goal with
         | |- context [?x + (?t + 1)] => replace (x + (t + 1)) with (x + 1 + t) by lia
         end.

Ltac shift_index_in H :=
  repeat match type of H with
         | context [?x + (?t + 1)] => replace (x + (t + 1)) with (x + 1 + t) in H by lia
         end.

Ltac by_shift H t Ht :=
  split;
  [ intros H; split; [eauto|]; intros t Ht; specialize (H t Ht); by shift_index
  | intros [_ H] t Ht; specialize (H t Ht); by shift_index_in H ].

Lemma ins_vw_ref_loop_true v w cnt vi wi si :
  ins_vw_ref_loop g v w cnt (wrap32 vi) (wrap32 wi) (wrap32 si) = Ret true <->
  forall t, 0 <= t < Z.of_nat cnt ->
    exists c, string_at v (wrap32 (vi + t)) = Ret c /\
              string_at w (wrap32 (wi + t)) = Ret c /\
              getBase g (wrap32 (si + t)) = Ret c.
Proof.
  revert vi wi si. induction cnt as [|cnt IH]; intros vi wi si.
  - simpl. split; [intros _ t Ht; lia | done].
  - rewrite forall_below_succ. cbn [ins_vw_ref_loop]. rewrite !Z.add_0_r.
    case_read (string_at v (wrap32 vi)) Hv.
    case_read (string_at w (wrap32 wi)) Hw.
    case_cmp c c0 Hvw.
    case_read (getBase g (wrap32 si)) Hs.
    case_cmp c0 c Hvs.
    rewrite !wrap32_add_l, IH. by_shift H t Ht.
Qed.

Lemma ins_vw_loop_true v w cnt vi wi :
  ins_vw_loop v w cnt (wrap32 vi) (wrap32 wi) = Ret true <->
  forall t, 0 <= t < Z.of_nat cnt ->
    exists c, string_at v (wrap32 (vi + t)) = Ret c /\
              string_at w (wrap32 (wi + t)) = Ret c.
Proof.
  revert vi wi. induction cnt as [|cnt IH]; intros vi wi.
  - simpl. split; [intros _ t Ht; lia | done].
  - rewrite forall_below_succ. cbn [ins_vw_loop]. rewrite !Z.add_0_r.
    case_read (string_at v (wrap32 vi)) Hv.
    case_read (string_at w (wrap32 wi)) Hw.
    case_cmp c c0 Hvw.
    rewrite !wrap32_add_l, IH. by_shift H t Ht.
Qed.

Lemma ins_ref_loop_true x cnt xi si :
  ins_ref_loop g x cnt (wrap32 xi) (wrap32 si) = Ret true <->
  forall t, 0 <= t < Z.of_nat cnt ->
    exists c, string_at x (wrap32 (xi + t)) = Ret c /\
              getBase g (wrap32 (si + t)) = Ret c.
Proof.
  revert xi si. induction cnt as [|cnt IH]; intros xi si.
  - simpl. split; [intros _ t Ht; lia | done].
  - rewrite forall_below_succ. cbn [ins_ref_loop]. rewrite !Z.add_0_r.
    case_read (string_at x (wrap32 xi)) Hx.
    case_read (getBase g (wrap32 si)) Hs.
    case_cmp c c0 Hxs.
    rewrite !wrap32_add_l, IH. by_shift H t Ht.
Qed.

Lemma validDeletion_loop_true pos seq cnt i :
  validDeletion_loop g pos seq cnt (wrap32 i) = Ret true <->
  forall t, 0 <= t < Z.of_nat cnt ->
    exists c, string_at seq (wrap32 (i + t)) = Ret c /\
              getBase g (wrap32 (pos + (i + t))) = Ret c.
Proof.
  revert i. induction cnt as [|cnt IH]; intros i.
  - simpl. split; [intros _ t Ht; lia | done].
  - rewrite forall_below_succ. cbn [validDeletion_loop]. rewrite !Z.add_0_r.
    rewrite wrap32_add_r.
    case_read (string_at seq (wrap32 i)) Hx.
    case_read (getBase g (wrap32 (pos + i))) Hs.
    case_cmp c c0 Hxs.
    rewrite !wrap32_add_l, IH. by_shift H t Ht.
Qed.

Lemma periodic_lt_loop_true n cnt s :
  periodic_lt_loop g n cnt (wrap32 s) = Ret true <->
  forall t, 0 <= t < Z.of_nat cnt ->
    exists c, getBase g (wrap32 (s + t)) = Ret c /\
              getBase g (wrap32 (s + t + n)) = Ret c.
Proof.
  revert s. induction cnt as [|cnt IH]; intros s.
  - simpl. split; [intros _ t Ht; lia | done].
  - rewrite forall_below_succ. cbn [periodic_lt_loop]. rewrite !Z.add_0_r.
    rewrite wrap32_add_l.
    case_read (getBase g (wrap32 s)) Ha.
    case_read (getBase g (wrap32 (s + n))) Hb.
    case_cmp c c0 Hab.
    rewrite !wrap32_add_l, IH. by_shift H t Ht.
Qed.

Lemma periodic_le_loop_true n cnt s :
  0 <= s -> s + Z.of_nat cnt <= UINT32_MAX ->
  periodic_le_loop g n cnt s = Ret true <->
  forall t, 0 <= t < Z.of_nat cnt ->
    exists c, getBase g (s + t) = Ret c /\
              getBase g (wrap32 (s + t + n)) = Ret c.
Proof.
  revert s. induction cnt as [|cnt IH]; intros s Hs0 Hs1.
  - simpl. split; [intros _ t Ht; lia | done].
  - rewrite forall_below_succ. cbn [periodic_le_loop]. rewrite !Z.add_0_r.
    case_read (getBase g s) Ha.
    case_read (getBase g (wrap32 (s + n))) Hb.
    case_cmp c c0 Hab.
    destruct (Z.eqb_spec s UINT32_MAX) as [->|_]; [lia|].
    rewrite IH by lia. by_shift H t Ht.
Qed.

(** *** The loops return *)

Ltac use_first H :=
  let H0 := fresh in
  pose proof (H 0 ltac:(lia)) as H0; rewrite ?Z.add_0_r in H0;
  repeat match type of H0 with
         | is_ret _ /\ _ => let E := fresh in destruct H0 as [[? E] H0]; rewrite E
         | is_ret _ => let E := fresh in destruct H0 as [? E]; rewrite E
         end; cbn [rbind].

Ltac use_rest IH H :=
  apply IH; let t := fresh "t" in let Ht := fresh in
  intros t Ht; specialize (H (t + 1) ltac:(lia)); by shift_index_in H.

Lemma ins_vw_ref_loop_total v w cnt vi wi si :
  (forall t, 0 <= t < Z.of_nat cnt ->
     is_ret (string_at v (wrap32 (vi + t))) /\
     is_ret (string_at w (wrap32 (wi + t))) /\
     is_ret (getBase g (wrap32 (si + t)))) ->
  is_ret (ins_vw_ref_loop g v w cnt (wrap32 vi) (wrap32 wi) (wrap32 si)).
Proof.
  revert vi wi si. induction cnt as [|cnt IH]; intros vi wi si H.
  - apply is_ret_Ret.
  - cbn [ins_vw_ref_loop]. use_first H.
    destruct (char_ne _ _); [apply is_ret_Ret|]. cbn [rbind].
    destruct (char_ne _ _); [apply is_ret_Ret|].
    rewrite !wrap32_add_l. use_rest IH H.
Qed.

Lemma ins_vw_loop_total v w cnt vi wi :
  (forall t, 0 <= t < Z.of_nat cnt ->
     is_ret (string_at v (wrap32 (vi + t))) /\
     is_ret (string_at w (wrap32 (wi + t)))) ->
  is_ret (ins_vw_loop v w cnt (wrap32 vi) (wrap32 wi)).
Proof.
  revert vi wi. induction cnt as [|cnt IH]; intros vi wi H.
  - apply is_ret_Ret.
  - cbn [ins_vw_loop]. use_first H.
    destruct (char_ne _ _); [apply is_ret_Ret|].
    rewrite !wrap32_add_l. use_rest IH H.
Qed.

Lemma ins_ref_loop_total x cnt xi si :
  (forall t, 0 <= t < Z.of_nat cnt ->
     is_ret (string_at x (wrap32 (xi + t))) /\
     is_ret (getBase g (wrap32 (si + t)))) ->
  is_ret (ins_ref_loop g x cnt (wrap32 xi) (wrap32 si)).
Proof.
  revert xi si. induction cnt as [|cnt IH]; intros xi si H.
  - apply is_ret_Ret.
  - cbn [ins_ref_loop]. use_first H.
    destruct (char_ne _ _); [apply is_ret_Ret|].
    rewrite !wrap32_add_l. use_rest IH H.
Qed.

Lemma validDeletion_loop_total pos seq cnt i :
  (forall t, 0 <= t < Z.of_nat cnt ->
     is_ret (string_at seq (wrap32 (i + t))) /\
     is_ret (getBase g (wrap32 (pos + (i + t))))) ->
  is_ret (validDeletion_loop g pos seq cnt (wrap32 i)).
Proof.
  revert i. induction cnt as [|cnt IH]; intros i H.
  - apply is_ret_Ret.
  - cbn [validDeletion_loop]. rewrite wrap32_add_r. use_first H.
    destruct (char_ne _ _); [apply is_ret_Ret|].
    rewrite !wrap32_add_l. use_rest IH H.
Qed.

Lemma periodic_lt_loop_total n cnt s :
  (forall t, 0 <= t < Z.of_nat cnt ->
     is_ret (getBase g (wrap32 (s + t))) /\
     is_ret (getBase g (wrap32 (s + t + n)))) ->
  is_ret (periodic_lt_loop g n cnt (wrap32 s)).
Proof.
  revert s. induction cnt as [|cnt IH]; intros s H.
  - apply is_ret_Ret.
  - cbn [periodic_lt_loop]. rewrite wrap32_add_l. use_first H.
    destruct (char_ne _ _); [apply is_ret_Ret|].
    rewrite !wrap32_add_l. use_rest IH H.
Qed.

Lemma periodic_le_loop_total n cnt s :
  0 <= s -> s + Z.of_nat cnt <= UINT32_MAX ->
  (forall t, 0 <= t < Z.of_nat cnt ->
     is_ret (getBase g (s + t)) /\
     is_ret (getBase g (wrap32 (s + t + n)))) ->
  is_ret (periodic_le_loop g n cnt s).
Proof.
  revert s. induction cnt as [|cnt IH]; intros s Hs0 Hs1 H.
  - apply is_ret_Ret.
  - cbn [periodic_le_loop]. use_first H.
    destruct (char_ne _ _); [apply is_ret_Ret|].
    destruct (Z.eqb_spec s UINT32_MAX) as [->|_]; [lia|].
    apply IH; [lia..|]. intros t Ht. specialize (H (t + 1) ltac:(lia)). by shift_index_in H.
Qed.

Lemma and_then_true r k :
  and_then r k = Ret true <-> r = Ret true /\ k = Ret true.
Proof.
  unfold and_then. destruct r as [[]| |]; cbn [rbind]; intuition congruence.
Qed.

Lemma and_then_is_ret r k : is_ret r -> is_ret k -> is_ret (and_then r k).
Proof.
  intros [[] ->] Hk; cbn; [done | apply is_ret_Ret].
Qed.

End Loops.

(** ** The equivalence tests *)

Section Equivalence.

Variable g : ReferenceGenome.

(** [equivalentInsertions] at two different positions, with the values of
    [j + 1], [m], [k - n + 1] and of the trip counts written with the smaller
    position [lo] and the larger position [hi]. *)
Lemma equivalentInsertions_cases pos1 seq1 pos2 seq2 :
  u32 pos1 -> u32 pos2 -> pos1 <> pos2 -> strlen seq1 = strlen seq2 ->
  let lo := Z.min pos1 pos2 in
  let hi := Z.max pos1 pos2 in
  let v := allele_lo pos1 seq1 pos2 seq2 in
  let w := allele_hi pos1 seq1 pos2 seq2 in
  let m := hi - lo in
  let n := wrap32 (strlen seq1) in
  equivalentInsertions g pos1 seq1 pos2 seq2 =
  if m <? n then
    and_then (ins_vw_ref_loop g v w (Z.to_nat m) (wrap32 0) (wrap32 (n - m)) (wrap32 lo))
             (ins_vw_loop v w (Z.to_nat (n - m)) (wrap32 m) (wrap32 0))
  else if m =? n then
    ins_vw_ref_loop g v w (Z.to_nat n) (wrap32 0) (wrap32 0) (wrap32 lo)
  else
    and_then (ins_ref_loop g v (Z.to_nat n) (wrap32 0) (wrap32 lo))
      (and_then (ins_ref_loop g w (Z.to_nat n) (wrap32 0) (wrap32 (hi - n)))
                (periodic_le_loop g n (Z.to_nat (hi - n - lo)) lo)).
Proof.
  intros [H1a H1b] [H2a H2b] Hne Hlen lo hi v w m n.
  assert (Hlohi : 0 <= lo /\ lo < hi /\ hi <= UINT32_MAX) by (subst lo hi; lia).
  unfold equivalentInsertions.
  rewrite Hlen, Z.eqb_refl. cbn [negb].
  destruct (Z.eqb_spec pos1 pos2) as [|_]; [done|].
  fold (allele_lo pos1 seq1 pos2 seq2) (allele_hi pos1 seq1 pos2 seq2). fold v w.
  rewrite <- Hlen. fold n.
  assert (Hj : wrap32 ((if pos1 <? pos2 then wrap32 (pos1 - 1) else wrap32 (pos2 - 1)) + 1)
               = wrap32 lo).
  { subst lo. destruct (Z.ltb_spec pos1 pos2); rewrite wrap32_add_l; f_equal; lia. }
  assert (Hk : (if pos1 <? pos2 then wrap32 (pos2 - 1) else wrap32 (pos1 - 1)) = hi - 1).
  { subst lo hi. destruct (Z.ltb_spec pos1 pos2); rewrite wrap32_small; lia. }
  assert (Hm : wrap32 ((hi - 1) - (if pos1 <? pos2 then wrap32 (pos1 - 1) else wrap32 (pos2 - 1)))
               = m).
  { subst m lo hi. destruct (Z.ltb_spec pos1 pos2); rewrite wrap32_sub_r.
    - replace (_ - 1 - (pos1 - 1)) with (pos2 - pos1) by lia. rewrite wrap32_small; lia.
    - replace (_ - 1 - (pos2 - 1)) with (pos1 - pos2) by lia. rewrite wrap32_small; lia. }
  rewrite Hj, Hk, Hm.
  pose proof (wrap32_range (strlen seq1)) as Hn. fold n in Hn.
  change (wrap32 0) with 0.
  destruct (Z.ltb_spec m n) as [Hlt|Hge].
  - by rewrite (wrap32_small m) by (subst m; lia).
  - destruct (Z.eqb_spec m n) as [Heq|Hneq]; [done|].
    rewrite (wrap32_small lo) by lia.
    replace (hi - 1 - n + 1) with (hi - n) by lia.
    rewrite (wrap32_small (hi - 1 - n)) by (subst m; lia).
    by replace (hi - 1 - n + 1 - lo) with (hi - n - lo) by lia.
Qed.

Lemma strlen_allele_lo pos1 seq1 pos2 seq2 :
  strlen seq1 = strlen seq2 -> strlen (allele_lo pos1 seq1 pos2 seq2) = strlen seq1.
Proof. unfold allele_lo. by destruct (pos1 <? pos2). Qed.

Lemma strlen_allele_hi pos1 seq1 pos2 seq2 :
  strlen seq1 = strlen seq2 -> strlen (allele_hi pos1 seq1 pos2 seq2) = strlen seq1.
Proof. unfold allele_hi. by destruct (pos1 <? pos2). Qed.

(** [equivalentDeletions] at two different positions. *)
Lemma equivalentDeletions_cases pos1 seq1 pos2 seq2 :
  u32 pos1 -> u32 pos2 -> pos1 <> pos2 -> strlen seq1 = strlen seq2 ->
  equivalentDeletions g pos1 seq1 pos2 seq2 =
  periodic_lt_loop g (wrap32 (strlen seq1))
    (Z.to_nat (Z.max pos1 pos2 - Z.min pos1 pos2)) (wrap32 (Z.min pos1 pos2)).
Proof.
  intros [H1a H1b] [H2a H2b] Hne Hlen. unfold equivalentDeletions.
  rewrite Hlen, Z.eqb_refl. cbn [negb].
  destruct (Z.eqb_spec pos1 pos2) as [|_]; [done|].
  rewrite (wrap32_small (Z.min pos1 pos2)) by lia.
  destruct (Z.ltb_spec pos1 pos2).
  - by rewrite Z.min_l, Z.max_r by lia.
  - by rewrite Z.min_r, Z.max_l by lia.
Qed.

(** *** Helper forms of the verdicts *)

Lemma equivalentInsertions_eq_length_iff pos1 seq1 pos2 seq2 :
  u32 pos1 -> u32 pos2 -> pos1 <> pos2 -> strlen seq1 = strlen seq2 ->
  Z.max pos1 pos2 - Z.min pos1 pos2 = strlen seq1 ->
  equivalentInsertions g pos1 seq1 pos2 seq2 = Ret true <->
  insertions_gap_eq_length g pos1 seq1 pos2 seq2.
Proof.
  intros H1 H2 Hne Hlen Hm.
  rewrite equivalentInsertions_cases by done. cbv zeta.
  pose proof (strlen_allele_lo pos1 seq1 pos2 seq2 Hlen) as Hv.
  pose proof (strlen_allele_hi pos1 seq1 pos2 seq2 Hlen) as Hw.
  unfold insertions_gap_eq_length.
  set (v := allele_lo pos1 seq1 pos2 seq2) in *.
  set (w := allele_hi pos1 seq1 pos2 seq2) in *.
  set (lo := Z.min pos1 pos2) in *. set (hi := Z.max pos1 pos2) in *.
  assert (Hlohi : 0 <= lo /\ lo < hi /\ hi <= UINT32_MAX)
    by (destruct H1, H2; subst lo hi; lia).
  rewrite (wrap32_small (strlen seq1)) by lia.
  rewrite Hm, Z.ltb_irrefl, Z.eqb_refl, ins_vw_ref_loop_true.
  rewrite Z2Nat.id by lia.
  split.
  - intros H i Hi. destruct (H i Hi) as (c & Ec & Ew & Es).
    rewrite !Z.add_0_l, wrap32_small in Ec, Ew by lia.
    rewrite wrap32_small in Es by lia. by rewrite Ec, Ew, Es.
  - intros H i Hi. destruct (H i Hi) as [Evw Evs].
    destruct (string_at_is_ret v i) as [c Ec]; [lia|]. exists c.
    rewrite !Z.add_0_l, !wrap32_small by lia. by rewrite <- Evs, <- Evw.
Qed.

Lemma equivalentInsertions_lt_length_iff pos1 seq1 pos2 seq2 :
  u32 pos1 -> u32 pos2 -> pos1 <> pos2 -> strlen seq1 = strlen seq2 ->
  strlen seq1 <= UINT32_MAX ->
  Z.max pos1 pos2 - Z.min pos1 pos2 < strlen seq1 ->
  equivalentInsertions g pos1 seq1 pos2 seq2 = Ret true <->
  insertions_gap_lt_length g pos1 seq1 pos2 seq2.
Proof.
  intros H1 H2 Hne Hlen Hn Hm.
  rewrite equivalentInsertions_cases by done. cbv zeta.
  pose proof (strlen_allele_lo pos1 seq1 pos2 seq2 Hlen) as Hv.
  pose proof (strlen_allele_hi pos1 seq1 pos2 seq2 Hlen) as Hw.
  unfold insertions_gap_lt_length.
  set (v := allele_lo pos1 seq1 pos2 seq2) in *.
  set (w := allele_hi pos1 seq1 pos2 seq2) in *.
  set (lo := Z.min pos1 pos2) in *. set (hi := Z.max pos1 pos2) in *.
  assert (Hlohi : 0 <= lo /\ lo < hi /\ hi <= UINT32_MAX)
    by (destruct H1, H2; subst lo hi; lia).
  rewrite (wrap32_small (strlen seq1)) by (unfold strlen in *; lia).
  set (n := strlen seq1) in *. set (m := hi - lo) in *.
  destruct (Z.ltb_spec m n) as [_|]; [|lia].
  rewrite and_then_true, ins_vw_ref_loop_true, ins_vw_loop_true.
  rewrite !Z2Nat.id by lia.
  apply Morphisms_Prop.and_iff_morphism; split.
  - intros H i Hi. destruct (H i Hi) as (c & Ec & Ew & Es).
    rewrite Z.add_0_l, wrap32_small in Ec by lia.
    rewrite wrap32_small in Ew, Es by lia.
    rewrite Ec, Es. split; [|done]. rewrite <- Ew. f_equal. lia.
  - intros H i Hi. destruct (H i Hi) as [Evw Evs].
    destruct (string_at_is_ret v i) as [c Ec]; [lia|]. exists c.
    rewrite Z.add_0_l, !wrap32_small by lia.
    rewrite <- Evs. split; [done|]. split; [|done].
    rewrite <- Ec, Evw. f_equal. lia.
  - intros H i Hi. destruct (H (i - m) ltac:(lia)) as (c & Ec & Ew).
    rewrite wrap32_small in Ec by lia. rewrite Z.add_0_l, wrap32_small in Ew by lia.
    replace (m + (i - m)) with i in Ec by lia. by rewrite Ec, Ew.
  - intros H t Ht. specialize (H (m + t) ltac:(lia)).
    destruct (string_at_is_ret v (m + t)) as [c Ec]; [lia|]. exists c.
    rewrite Z.add_0_l, !wrap32_small by lia. split; [done|].
    rewrite <- Ec, H. f_equal. lia.
Qed.

Lemma equivalentDeletions_iff pos1 seq1 pos2 seq2 :
  window_ok g -> u32 pos1 -> u32 pos2 -> pos1 <> pos2 -> strlen seq1 = strlen seq2 ->
  equivalentDeletions g pos1 seq1 pos2 seq2 = Ret true <->
  deletions_periodic g pos1 seq1 pos2 seq2.
Proof.
  intros Hg H1 H2 Hne Hlen.
  rewrite equivalentDeletions_cases by done.
  unfold deletions_periodic.
  set (lo := Z.min pos1 pos2) in *. set (hi := Z.max pos1 pos2) in *.
  assert (Hlohi : 0 <= lo /\ lo < hi /\ hi <= UINT32_MAX)
    by (destruct H1, H2; subst lo hi; lia).
  rewrite periodic_lt_loop_true, Z2Nat.id by lia.
  split.
  - intros H s Hs. destruct (H (s - lo) ltac:(lia)) as (c & Ea & Eb).
    rewrite wrap32_add_r in Eb.
    replace (lo + (s - lo)) with s in * by lia.
    rewrite wrap32_small in Ea by lia. by rewrite Ea, Eb.
  - intros H t Ht. specialize (H (lo + t) ltac:(lia)).
    destruct (getBase_is_ret g (lo + t) Hg) as [c Ec]; [unfold u32; lia|].
    exists c. rewrite wrap32_add_r, wrap32_small by lia.
    by rewrite <- H.
Qed.

(** *** The tests return *)

Lemma wrap32_strlen_le s : wrap32 (strlen s) <= strlen s.
Proof. unfold wrap32, strlen. apply Z.mod_le; lia. Qed.

Lemma validDeletion_is_ret pos seq :
  window_ok g -> is_ret (validDeletion g pos seq).
Proof.
  intros Hg. unfold validDeletion.
  pose proof (wrap32_range (strlen seq)). pose proof (wrap32_strlen_le seq).
  apply (validDeletion_loop_total g pos seq _ 0).
  intros t Ht. rewrite Z2Nat.id in Ht by lia. split.
  - apply string_at_is_ret. rewrite Z.add_0_l, wrap32_small; lia.
  - apply getBase_is_ret, wrap32_range. exact Hg.
Qed.

Lemma equivalentInsertions_is_ret pos1 seq1 pos2 seq2 :
  window_ok g -> u32 pos1 -> u32 pos2 ->
  is_ret (equivalentInsertions g pos1 seq1 pos2 seq2).
Proof.
  intros Hg H1 H2.
  destruct (Z.eq_dec (strlen seq1) (strlen seq2)) as [Hlen|Hlen]; cycle 1.
  { unfold equivalentInsertions. apply Z.eqb_neq in Hlen. rewrite Hlen.
    apply is_ret_Ret. }
  destruct (Z.eq_dec pos1 pos2) as [Heq|Hne].
  { unfold equivalentInsertions. rewrite Hlen, Z.eqb_refl. cbn [negb].
    apply Z.eqb_eq in Heq. rewrite Heq. apply is_ret_Ret. }
  rewrite equivalentInsertions_cases by done. cbv zeta.
  pose proof (strlen_allele_lo pos1 seq1 pos2 seq2 Hlen) as Hv.
  pose proof (strlen_allele_hi pos1 seq1 pos2 seq2 Hlen) as Hw.
  set (v := allele_lo pos1 seq1 pos2 seq2) in *.
  set (w := allele_hi pos1 seq1 pos2 seq2) in *.
  set (lo := Z.min pos1 pos2) in *. set (hi := Z.max pos1 pos2) in *.
  assert (Hlohi : 0 <= lo /\ lo < hi /\ hi <= UINT32_MAX)
    by (destruct H1, H2; subst lo hi; lia).
  pose proof (wrap32_range (strlen seq1)). pose proof (wrap32_strlen_le seq1).
  set (n := wrap32 (strlen seq1)) in *. set (m := hi - lo) in *.
  assert (Hbase : forall x, is_ret (getBase g (wrap32 x)))
    by (intros x; apply getBase_is_ret, wrap32_range; exact Hg).
  destruct (Z.ltb_spec m n) as [Hlt|Hge]; [|destruct (Z.eqb_spec m n) as [Heq|Hneq]].
  - apply and_then_is_ret.
    + apply ins_vw_ref_loop_total. intros t Ht. rewrite Z2Nat.id in Ht by lia.
      repeat split; [apply string_at_is_ret..|apply Hbase].
      * rewrite Z.add_0_l, wrap32_small; lia.
      * rewrite wrap32_small; lia.
    + apply ins_vw_loop_total. intros t Ht. rewrite Z2Nat.id in Ht by lia.
      split; apply string_at_is_ret.
      * rewrite wrap32_small; lia.
      * rewrite Z.add_0_l, wrap32_small; lia.
  - apply ins_vw_ref_loop_total. intros t Ht. rewrite Z2Nat.id in Ht by lia.
    repeat split; [apply string_at_is_ret..|apply Hbase];
      rewrite Z.add_0_l, wrap32_small; lia.
  - repeat apply and_then_is_ret.
    + apply ins_ref_loop_total. intros t Ht. rewrite Z2Nat.id in Ht by lia.
      split; [apply string_at_is_ret|apply Hbase].
      rewrite Z.add_0_l, wrap32_small; lia.
    + apply ins_ref_loop_total. intros t Ht. rewrite Z2Nat.id in Ht by lia.
      split; [apply string_at_is_ret|apply Hbase].
      rewrite Z.add_0_l, wrap32_small; lia.
    + apply periodic_le_loop_total; [lia..|].
      intros t Ht. split; [|apply Hbase].
      apply getBase_is_ret; [exact Hg|]. unfold u32. lia.
Qed.

Lemma equivalentDeletions_is_ret pos1 seq1 pos2 seq2 :
  window_ok g -> u32 pos1 -> u32 pos2 ->
  is_ret (equivalentDeletions g pos1 seq1 pos2 seq2).
Proof.
  intros Hg H1 H2.
  destruct (Z.eq_dec (strlen seq1) (strlen seq2)) as [Hlen|Hlen]; cycle 1.
  { unfold equivalentDeletions. apply Z.eqb_neq in Hlen. rewrite Hlen.
    apply is_ret_Ret. }
  destruct (Z.eq_dec pos1 pos2) as [Heq|Hne].
  { unfold equivalentDeletions. rewrite Hlen, Z.eqb_refl. cbn [negb].
    apply Z.eqb_eq in Heq. rewrite Heq. apply is_ret_Ret. }
  rewrite equivalentDeletions_cases by done.
  apply periodic_lt_loop_total. intros t Ht.
  split; apply getBase_is_ret, wrap32_range; exact Hg.
Qed.

End Equivalence.


(** ** The window that the constructor builds *)

Lemma io_bind_ret {A B : Type} (c : io A) (k : A -> io B) r b r'' :
  io_bind c k r = Ret (b, r'') ->
  exists a r', c r = Ret (a, r') /\ k a r' = Ret (b, r'').
Proof.
  unfold io_bind. destruct (c r) as [[a r']| |]; [eauto | done | done].
Qed.

Lemma io_lift_ret {A : Type} (x : result A) r a r' :
  io_lift x r = Ret (a, r') -> x = Ret a /\ r' = r.
Proof. unfold io_lift. destruct x; intros; simplify_eq; done. Qed.

Lemma io_ret_ret {A : Type} (x : A) r a r' :
  io_ret x r = Ret (a, r') -> a = x /\ r' = r.
Proof. unfold io_ret. intros; simplify_eq; done. Qed.

Lemma rbind_ret {A B : Type} (x : result A) (k : A -> result B) b :
  rbind x k = Ret b -> exists a, x = Ret a /\ k a = Ret b.
Proof. destruct x; cbn; [eauto | done | done]. Qed.

Lemma buffer_store_ret p i c p' :
  buffer_store p i c = Ret p' ->
  i < Z.of_nat (length p) /\ p' = <[Z.to_nat i := c]> p.
Proof.
  unfold buffer_store. destruct (Z.ltb_spec i (Z.of_nat (length p))); [|done].
  intros; simplify_eq; done.
Qed.

Lemma symbol_is_base index c : buffer_at symbol index = Ret c -> is_base c.
Proof.
  unfold buffer_at. destruct (symbol !! Z.to_nat index) as [c'|] eqn:E; [|done].
  intros; simplify_eq. apply list_elem_of_lookup_2, list_elem_of_In in E.
  unfold is_base, bases. cbn in *. intuition.
Qed.

Lemma N_is_base : is_base "N"%char.
Proof. unfold is_base, bases. cbn. intuition. Qed.

Section Construction.

Variable begin0 : Z.

(** Entered at [pos] with the cells below [pos - begin] holding bases, the
    decoding loop leaves bases in the cells below [pos - begin + cnt] and
    does not change the size of the buffer. *)
Lemma decode_loop_good cnt pos byte readByte seq0 r seq1 r' :
  0 <= begin0 <= pos -> pos <= UINT32_MAX ->
  Forall is_base (take (Z.to_nat (pos - begin0)) seq0) ->
  decode_loop begin0 cnt pos byte readByte seq0 r = Ret (seq1, r') ->
  length seq1 = length seq0 /\
  Forall is_base (take (Z.to_nat (pos - begin0) + cnt) seq1).
Proof.
  revert pos byte readByte seq0 r. induction cnt as [|cnt IH];
    intros pos byte readByte seq0 r Hpos Hmax Hgood H.
  - apply io_ret_ret in H as [-> _]. by rewrite Nat.add_0_r.
  - cbn [decode_loop] in H.
    apply io_bind_ret in H as (byte' & r1 & _ & H).
    apply io_bind_ret in H as (c & r2 & Hc & H).
    apply io_lift_ret in Hc as [Hc _]. apply symbol_is_base in Hc.
    apply io_bind_ret in H as (seq' & r3 & Hst & H).
    apply io_lift_ret in Hst as [Hst _].
    rewrite wrap32_small in Hst by (unfold UINT32_MAX in *; lia).
    apply buffer_store_ret in Hst as [Hlt ->].
    destruct (Z.eqb_spec pos UINT32_MAX) as [|Hne]; [done|].
    apply IH in H as [Hlen Hall]; [| lia | unfold UINT32_MAX in *; lia |].
    + rewrite length_insert in Hlen. split; [done|].
      by replace (Z.to_nat (pos - begin0) + S cnt)%nat
        with (Z.to_nat (pos + 1 - begin0) + cnt)%nat by lia.
    + replace (Z.to_nat (pos + 1 - begin0)) with (S (Z.to_nat (pos - begin0))) by lia.
      erewrite take_S_r; [|apply list_lookup_insert_eq; lia].
      rewrite take_insert_ge by lia. apply Forall_app. split; [done|].
      by apply Forall_singleton.
Qed.

Lemma mark_loop_good cnt pos seq0 seq1 :
  mark_loop begin0 cnt pos seq0 = Ret seq1 ->
  length seq1 = length seq0 /\ (Forall is_base seq0 -> Forall is_base seq1).
Proof.
  revert pos seq0. induction cnt as [|cnt IH]; intros pos seq0 H.
  - cbn in H. by simplify_eq.
  - cbn [mark_loop] in H.
    apply rbind_ret in H as (seq' & Hst & H).
    apply buffer_store_ret in Hst as [Hlt ->].
    destruct (pos =? UINT32_MAX); [done|].
    apply IH in H as [Hlen Hall]. rewrite length_insert in Hlen.
    split; [done|]. intros Hgood. apply Hall, Forall_insert; [done|apply N_is_base].
Qed.

Lemma mark_unknown_good end0 nstart nstop cnt i seq0 seq1 :
  mark_unknown begin0 end0 nstart nstop cnt i seq0 = Ret seq1 ->
  length seq1 = length seq0 /\ (Forall is_base seq0 -> Forall is_base seq1).
Proof.
  revert i seq0. induction cnt as [|cnt IH]; intros i seq0 H.
  - cbn in H. by simplify_eq.
  - cbn [mark_unknown] in H.
    apply rbind_ret in H as (a & _ & H).
    apply rbind_ret in H as (seq' & Hmark & H).
    apply IH in H as [Hlen Hall].
    assert (length seq' = length seq0 /\ (Forall is_base seq0 -> Forall is_base seq'))
      as [Hlen' Hall'].
    { destruct (a <=? end0); [|by simplify_eq].
      apply rbind_ret in Hmark as (b & _ & Hmark).
      destruct (b >=? begin0); [|by simplify_eq].
      by apply mark_loop_good in Hmark. }
    split; [congruence | auto].
Qed.

(** *** What the loops leave unchanged *)

Lemma decode_loop_frame cnt pos byte readByte seq0 r seq1 r' :
  0 <= begin0 <= pos -> pos <= UINT32_MAX ->
  decode_loop begin0 cnt pos byte readByte seq0 r = Ret (seq1, r') ->
  forall i : nat, (i < Z.to_nat (pos - begin0))%nat -> seq1 !! i = seq0 !! i.
Proof.
  revert pos byte readByte seq0 r. induction cnt as [|cnt IH];
    intros pos byte readByte seq0 r Hpos Hmax H i Hi.
  - apply io_ret_ret in H as [-> _]. done.
  - cbn [decode_loop] in H.
    apply io_bind_ret in H as (byte' & r1 & _ & H).
    apply io_bind_ret in H as (c & r2 & _ & H).
    apply io_bind_ret in H as (seq' & r3 & Hst & H).
    apply io_lift_ret in Hst as [Hst _].
    rewrite wrap32_small in Hst by (unfold UINT32_MAX in *; lia).
    apply buffer_store_ret in Hst as [Hlt ->].
    destruct (Z.eqb_spec pos UINT32_MAX) as [|Hne]; [done|].
    rewrite (IH (pos + 1) _ _ _ _ ltac:(lia) ltac:(lia) H i ltac:(lia)).
    apply list_lookup_insert_ne. lia.
Qed.

Lemma mark_loop_frame cnt pos seq0 seq1 p :
  0 <= begin0 <= pos -> pos <= UINT32_MAX ->
  mark_loop begin0 cnt pos seq0 = Ret seq1 ->
  begin0 <= p -> p < pos \/ pos + Z.of_nat cnt <= p ->
  seq1 !! Z.to_nat (p - begin0) = seq0 !! Z.to_nat (p - begin0).
Proof.
  revert pos seq0. induction cnt as [|cnt IH]; intros pos seq0 Hpos Hmax H Hp Hout.
  - cbn in H. by simplify_eq.
  - cbn [mark_loop] in H.
    apply rbind_ret in H as (seq' & Hst & H).
    rewrite wrap32_small in Hst by (unfold UINT32_MAX in *; lia).
    apply buffer_store_ret in Hst as [Hlt ->].
    destruct (Z.eqb_spec pos UINT32_MAX) as [|Hne]; [done|].
    rewrite (IH (pos + 1) _ ltac:(lia) ltac:(lia) H Hp ltac:(lia)).
    apply list_lookup_insert_ne. lia.
Qed.

(** A position of the window that no unknown block covers keeps its
    character. *)
Lemma mark_unknown_frame end0 nstart nstop cnt i seq0 seq1 p :
  0 <= begin0 <= end0 -> end0 <= UINT32_MAX ->
  mark_unknown begin0 end0 nstart nstop cnt i seq0 = Ret seq1 ->
  begin0 <= p <= end0 ->
  (forall j a b, nstart !! j = Some a -> nstop !! j = Some b -> ~ (a <= p <= b)) ->
  seq1 !! Z.to_nat (p - begin0) = seq0 !! Z.to_nat (p - begin0).
Proof.
  intros Hrange Hmax H Hp Hfree. revert i seq0 H.
  induction cnt as [|cnt IH]; intros i seq0 H.
  - cbn in H. by simplify_eq.
  - cbn [mark_unknown] in H.
    apply rbind_ret in H as (a & Ha & H).
    apply rbind_ret in H as (seq' & Hmark & H).
    rewrite (IH _ _ H).
    destruct (Z.leb_spec a end0) as [Hle|]; [|by simplify_eq].
    apply rbind_ret in Hmark as (b & Hb & Hmark).
    destruct (Z.geb_spec b begin0) as [Hge|]; [|by simplify_eq].
    unfold vector_at in Ha, Hb.
    destruct (nstart !! Z.to_nat i) as [a'|] eqn:Ea; [|done].
    destruct (nstop !! Z.to_nat i) as [b'|] eqn:Eb; [|done].
    simplify_eq. specialize (Hfree _ _ _ Ea Eb).
    eapply mark_loop_frame; [| |exact Hmark| |].
    + destruct (Z.ltb_spec a begin0); lia.
    + destruct (Z.ltb_spec a begin0); lia.
    + lia.
    + destruct (Z.ltb_spec a begin0), (Z.gtb_spec b end0); lia.
Qed.

End Construction.

Lemma new_char_array_length uninit n : length (new_char_array uninit n) = Z.to_nat n.
Proof. unfold new_char_array. by rewrite length_map, length_seq. Qed.

(** What [load_window] returns is a well-formed window of bases. *)
Lemma load_window_good uninit swapBytes chrOffset beginpos endpos r g r' :
  u32 beginpos -> u32 endpos ->
  load_window uninit swapBytes chrOffset beginpos endpos r = Ret (g, r') ->
  window_ok g /\ Forall is_base (sequence g).
Proof.
  intros [Hb0 Hb1] [He0 He1] H. unfold load_window in H.
  apply io_bind_ret in H as (_ & r1 & _ & H).
  apply io_bind_ret in H as (numBases & r2 & _ & H).
  set (end0 := if endpos >? numBases then numBases else endpos) in *.
  destruct (_ || _) eqn:Hrange; [done|].
  apply orb_false_iff in Hrange as [Hz Hgt].
  apply Z.eqb_neq in Hz. rewrite Z.gtb_ltb in Hgt. apply Z.ltb_ge in Hgt.
  assert (Hend : end0 <= UINT32_MAX).
  { subst end0. destruct (Z.gtb_spec endpos numBases); lia. }
  apply io_bind_ret in H as (nBlockCount & r3 & _ & H).
  apply io_bind_ret in H as (nstart & r4 & _ & H).
  apply io_bind_ret in H as (nstop & r5 & _ & H).
  apply io_bind_ret in H as (maskBlockCount & r6 & _ & H).
  apply io_bind_ret in H as (_ & r7 & _ & H).
  apply io_bind_ret in H as (seq1 & r8 & Hdec & H).
  apply io_bind_ret in H as (seq2 & r9 & Hmark & H).
  apply io_lift_ret in Hmark as [Hmark _].
  apply io_bind_ret in H as (_ & r10 & _ & H).
  apply io_ret_ret in H as [-> _].
  apply decode_loop_good in Hdec as [Hlen1 Hall1];
    [| lia | lia | by rewrite Z.sub_diag].
  apply mark_unknown_good in Hmark as [Hlen2 Hall2].
  rewrite new_char_array_length in Hlen1.
  rewrite (wrap32_small (end0 - beginpos)) in Hlen1 by lia.
  rewrite wrap32_small in Hlen1 by (unfold UINT32_MAX in *; lia).
  split.
  - constructor; cbn; lia.
  - apply Hall2. rewrite take_ge in Hall1; [done|]. lia.
Qed.

Lemma ReferenceGenome_new_good uninit twobit chrNumber beginpos endpos chrName g :
  u32 beginpos -> u32 endpos ->
  ReferenceGenome_new uninit twobit chrNumber beginpos endpos chrName = Ret g ->
  window_ok g /\ Forall is_base (sequence g).
Proof.
  intros Hb He H. unfold ReferenceGenome_new in H.
  destruct (_ && _); [done|].
  destruct (ReferenceGenome_body _ _ _ _ _ _ _) as [[g' r']| |] eqn:Hbody; [|done..].
  simplify_eq. unfold ReferenceGenome_body in Hbody.
  apply io_bind_ret in Hbody as (located & r1 & _ & Hload).
  by apply load_window_good in Hload.
Qed.

Lemma getBase_is_base g pos :
  window_ok g -> Forall is_base (sequence g) -> u32 pos ->
  exists c, getBase g pos = Ret c /\ is_base c.
Proof.
  intros Hg Hall Hp.
  destruct (Z.lt_ge_cases pos (begin g)) as [|Hge];
    [exists "N"%char; split; [apply getBase_outside; lia | apply N_is_base]|].
  destruct (Z.lt_ge_cases (end_ g) pos) as [|Hle];
    [exists "N"%char; split; [apply getBase_outside; lia | apply N_is_base]|].
  destruct Hg as [Hb Hr He Hs]. unfold getBase.
  destruct (_ || _) eqn:Hout.
  { apply orb_true_iff in Hout as [H|H]; [apply Z.ltb_lt in H | rewrite Z.gtb_ltb in H;
      apply Z.ltb_lt in H]; lia. }
  rewrite wrap32_small by (unfold UINT32_MAX in *; lia).
  unfold buffer_at.
  destruct (lookup_lt_is_Some_2 (sequence g) (Z.to_nat (pos - begin g))) as [c Hc]; [lia|].
  rewrite Hc. exists c. split; [done|].
  by eapply Forall_lookup_1 in Hall.
Qed.

(** ** The buffered reader delivers the bytes of the file in order *)

Section Reader.

Variable file : list byte.

Lemma reads_bind {A B : Type} (c : io A) (k : A -> io B) r a rest :
  reads file c r a rest ->
  exists r', reader_ok file r' /\ remaining file r' = rest /\ io_bind c k r = k a r'.
Proof.
  intros (r' & E & Hok & Hrem). exists r'. unfold io_bind. by rewrite E.
Qed.

Lemma take_then_drop_length (k : nat) (l : list byte) :
  take k l ++ drop (length (take k l)) l = l.
Proof.
  rewrite length_take. destruct (Nat.le_ge_cases k (length l)).
  - rewrite Nat.min_l by done. apply take_drop.
  - rewrite Nat.min_r by done. rewrite take_ge, drop_all by done. apply app_nil_r.
Qed.

(** The guard of one iteration of [read_buffer], followed by the fetch
    [buf[offset++]]. *)
Lemma fetch_step r :
  reader_ok file r ->
  match remaining file r with
  | [] =>
      (if (buflen r <=? offset r)%nat then fillBuffer r else Ret (true, r)) = Ret (false, r)
  | b :: rest =>
      exists r1,
        (if (buflen r <=? offset r)%nat then fillBuffer r else Ret (true, r)) = Ret (true, r1) /\
        buf r1 !! offset r1 = Some b /\
        let r2 := {| fd := fd r1; filepos := filepos r1; buf := buf r1;
                     bufsize := bufsize r1; offset := S (offset r1) |} in
        reader_ok file r2 /\ remaining file r2 = rest
  end.
Proof.
  destruct r as [fd0 pos0 buf0 size0 off0]. unfold reader_ok, remaining, buflen. cbn.
  intros (-> & Hsize & Hoff).
  destruct (Nat.leb_spec (length buf0) off0) as [Hle|Hlt].
  - rewrite drop_ge by done. cbn [app]. unfold fillBuffer. cbn.
    destruct (drop pos0 file) as [|b rest] eqn:Hdrop.
    + by rewrite take_nil.
    + destruct size0 as [|size0]; [lia|]. cbn [take].
      eexists. split; [reflexivity|]. cbn. split; [done|]. split; [split; [done|lia]|].
      rewrite drop_0, <- drop_drop, Hdrop. cbn [drop]. apply take_then_drop_length.
  - destruct (lookup_lt_is_Some_2 buf0 off0 Hlt) as [b Hb].
    rewrite (drop_S _ _ _ Hb). cbn [app].
    eexists. split; [reflexivity|]. cbn. split; [done|]. split; [|done].
    split; [done|]. split; [done|lia].
Qed.

(** The loop, when the bytes are there and the counter stays below
    [INT_MAX]. *)
Lemma read_buffer_loop_reads n i r :
  reader_ok file r -> (n <= length (remaining file r))%nat ->
  i + Z.of_nat n <= INT_MAX ->
  reads file (read_buffer_loop n i) r (Some (take n (remaining file r)))
        (drop n (remaining file r)).
Proof.
  revert i r. induction n as [|n IH]; intros i r Hok Hn Hi.
  - exists r. by rewrite take_0, drop_0.
  - pose proof (fetch_step r Hok) as Hstep.
    destruct (remaining file r) as [|b rest] eqn:Hrem; [cbn in Hn; lia|].
    destruct Hstep as (r1 & Hguard & Hb & Hok2 & Hrem2).
    destruct (IH (i + 1) _ Hok2) as (r' & E & Hok' & Hrem');
      [rewrite Hrem2; cbn in Hn; lia|lia|].
    exists r'. cbn [read_buffer_loop]. rewrite Hguard, Hb.
    destruct (Z.eqb_spec i INT_MAX); [lia|].
    rewrite E, Hrem2 in *. by cbn.
Qed.

Lemma read_buffer_reads n r :
  reader_ok file r -> (n <= length (remaining file r))%nat ->
  Z.of_nat n <= INT_MAX ->
  reads file (read_buffer n) r (Some (take n (remaining file r)))
        (drop n (remaining file r)).
Proof. intros Hok Hn Hi. by apply read_buffer_loop_reads. Qed.

(** Sequential composition. *)
Lemma reads_seq {A B : Type} (c : io A) (k : A -> io B) r a rest b rest' :
  reads file c r a rest ->
  (forall r', reader_ok file r' -> remaining file r' = rest ->
              reads file (k a) r' b rest') ->
  reads file (io_bind c k) r b rest'.
Proof.
  intros (r' & E & Hok & Hrem) Hk. unfold reads, io_bind. rewrite E.
  by apply Hk.
Qed.

Lemma reads_ret {A : Type} (a : A) r rest :
  reader_ok file r -> remaining file r = rest -> reads file (io_ret a) r a rest.
Proof. intros Hok Hrem. by exists r. Qed.

Lemma reads_lift {A B : Type} (x : result A) (k : A -> io B) r a b rest :
  x = Ret a -> reads file (k a) r b rest ->
  reads file (io_bind (io_lift x) k) r b rest.
Proof. intros -> H. exact H. Qed.

Lemma read_uint8_reads r b rest :
  reader_ok file r -> remaining file r = b :: rest ->
  reads file read_uint8 r (Some (byte_val b)) rest.
Proof.
  intros Hok Hrem. unfold read_uint8.
  eapply reads_seq; [apply read_buffer_reads; [done | rewrite Hrem; cbn; lia | done]|].
  intros r' Hok' Hrem'. rewrite Hrem in *. by apply reads_ret.
Qed.

Lemma signature_reads r bs rest :
  reader_ok file r -> remaining file r = bs ++ rest -> length bs = 4%nat ->
  reads file BinaryReader_read_uint32 r (Some (uint32_of_bytes bs)) rest.
Proof.
  intros Hok Hrem Hlen. unfold BinaryReader_read_uint32.
  eapply reads_seq;
    [apply read_buffer_reads; [done | rewrite Hrem, length_app; lia | done]|].
  intros r' Hok' Hrem'. rewrite Hrem, <- Hlen, take_app_length.
  rewrite Hrem, <- Hlen, drop_app_length in Hrem'. by apply reads_ret.
Qed.

Lemma read_uint32_reads swapBytes r bs rest :
  reader_ok file r -> remaining file r = bs ++ rest -> length bs = 4%nat ->
  reads file (read_uint32 swapBytes) r (field32 swapBytes bs) rest.
Proof.
  intros Hok Hrem Hlen. unfold read_uint32.
  eapply reads_seq; [by apply signature_reads|].
  intros r' Hok' Hrem'. by apply reads_ret.
Qed.

Lemma seek_reads r byteOffset :
  reader_ok file r ->
  reads file (seek byteOffset) r tt (drop (Z.to_nat byteOffset) file).
Proof.
  intros (Hfd & Hsize & Hoff). unfold reads, seek. rewrite Hfd.
  eexists. split; [reflexivity|]. split; [done|]. by unfold remaining.
Qed.

Lemma openFile_reads bufferSize :
  (0 < bufferSize)%nat ->
  reads file (openFile (Some file)) (BinaryReader_new bufferSize) true file.
Proof.
  intros Hsize. eexists. split; [reflexivity|]. split; [done|].
  unfold remaining. cbn. by rewrite drop_0.
Qed.

Lemma byte_val_of_Z n : 0 <= n <= 255 -> byte_val (byte_of_Z n) = n.
Proof.
  intros Hn. unfold byte_val, byte_of_Z.
  destruct (Byte.of_N (Z.to_N n)) as [b|] eqn:E.
  - apply Byte.to_of_N in E. rewrite E. lia.
  - apply Byte.of_N_None_iff in E. lia.
Qed.

(** One step of a computation whose first read is described by [L]. *)
Ltac read_with L :=
  match goal with
  | |- context [io_bind ?c ?k ?r] =>
      let r' := fresh "r" in
      let Hok := fresh "Hok" in
      let Hrem := fresh "Hrem" in
      let E := fresh "E" in
      destruct (reads_bind c k r _ _ L) as (r' & Hok & Hrem & E);
      rewrite E; clear E; cbv beta
  end.

(** The directory scan ends with the offset of the first matching entry
    whose offset is not 0. *)
Lemma find_chromosome_returns swapBytes chrNumber chrName es rest r chrOffset :
  reader_ok file r -> remaining file r = encode_directory es ++ rest ->
  Forall entry_ok es ->
  returns file (find_chromosome swapBytes chrNumber chrName (length es) chrOffset) r
    (if chrOffset =? 0 then selected_offset swapBytes chrNumber chrName es
     else chrOffset).
Proof.
  revert r chrOffset. induction es as [|e es IH]; intros r chrOffset Hok Hrem Hes.
  - exists r. split; [|done]. cbn.
    by destruct (Z.eqb_spec chrOffset 0) as [->|].
  - cbn [length find_chromosome selected_offset].
    destruct (Z.eqb_spec chrOffset 0) as [->|Hne]; cbn [negb]; [|by exists r].
    apply Forall_cons in Hes as [[Hname Hoff] Hes].
    change (encode_directory (e :: es))
      with (encode_entry e ++ encode_directory es) in Hrem.
    unfold encode_entry in Hrem. cbn [app] in Hrem. rewrite <- !app_assoc in Hrem.
    unfold returns.
    read_with (read_uint8_reads r _ _ Hok Hrem).
    rewrite byte_val_of_Z, Nat2Z.id by lia.
    assert (Hfits : (length (entry_name e) <= length (remaining file r0))%nat)
      by (rewrite Hrem0, length_app; lia).
    assert (Hint : Z.of_nat (length (entry_name e)) <= INT_MAX)
      by (unfold INT_MAX; lia).
    read_with (read_buffer_reads (length (entry_name e)) r0 Hok0 Hfits Hint).
    rewrite Hrem0, take_app_length in *. rewrite drop_app_length in Hrem1.
    read_with (read_uint32_reads swapBytes r1 _ _ Hok1 Hrem1 Hoff).
    destruct (IH r2 (if name_matches chrNumber chrName (string_of_bytes (entry_name e))
                     then field32 swapBytes (entry_offset e) else 0) Hok2 Hrem2 Hes)
      as (r' & E & Hok').
    exists r'. rewrite E. split; [|done]. do 2 f_equal.
    unfold entry_matches.
    destruct (name_matches _ _ _); cbn [andb]; [|done].
    by destruct (Z.eqb_spec (field32 swapBytes (entry_offset e)) 0) as [->|].
Qed.

(** The first part of the constructor on a file that starts with a
    well-formed header. *)
Lemma locate_chromosome_spec h rest chrNumber chrName bufferSize :
  file = encode_header h ++ rest -> header_ok h -> (0 < bufferSize)%nat ->
  let off := selected_offset (header_swap h) chrNumber chrName (hdr_directory h) in
  if off =? 0 then
    locate_chromosome (Some file) chrNumber chrName (BinaryReader_new bufferSize)
    = Throw (ChromosomeNotFound (shown_name chrNumber chrName))
  else
    returns file (locate_chromosome (Some file) chrNumber chrName)
            (BinaryReader_new bufferSize) (header_swap h, off).
Proof.
  intros Hfile [Hl1 Hl2 Hl3 Hl4 Hsig Hcount Hes] Hsize off.
  assert (Hlocate :
    exists r', reader_ok file r' /\
      locate_chromosome (Some file) chrNumber chrName (BinaryReader_new bufferSize)
      = (if off =? 0 then io_throw (ChromosomeNotFound (shown_name chrNumber chrName))
         else io_ret (header_swap h, off)) r').
  { unfold locate_chromosome.
    read_with (openFile_reads bufferSize Hsize). cbn [negb].
    rewrite Hfile in Hrem at 2. unfold encode_header in Hrem. rewrite <- !app_assoc in Hrem.
    read_with (signature_reads r _ _ Hok Hrem Hl1).
    assert (Hvalid : negb (uint32_of_bytes (hdr_signature h) =? EXPECTED_SIGNATURE) &&
                     negb (uint32_of_bytes (hdr_signature h) =? swap_uint32 EXPECTED_SIGNATURE)
                     = false).
    { destruct Hsig as [-> | ->]; rewrite Z.eqb_refl; cbn; [done | apply andb_false_r]. }
    rewrite Hvalid. fold (header_swap h).
    read_with (read_uint32_reads (header_swap h) r0 _ _ Hok0 Hrem0 Hl2).
    read_with (read_uint32_reads (header_swap h) r1 _ _ Hok1 Hrem1 Hl3).
    read_with (read_uint32_reads (header_swap h) r2 _ _ Hok2 Hrem2 Hl4).
    rewrite Hcount, Nat2Z.id.
    destruct (find_chromosome_returns (header_swap h) chrNumber chrName
                (hdr_directory h) rest r3 0 Hok3 Hrem3 Hes) as (r4 & E & Hok4).
    unfold io_bind at 1. rewrite E. cbn [Z.eqb]. fold off. by exists r4. }
  destruct Hlocate as (r' & Hok' & E).
  destruct (off =? 0); [exact E|]. by exists r'.
Qed.

(** *** The tables of the unknown blocks *)

Lemma read_nstart_reads swapBytes (blocks : list (list byte * list byte)) acc r rest :
  reader_ok file r -> remaining file r = concat (map fst blocks) ++ rest ->
  Forall (fun b => length (fst b) = 4%nat /\ length (snd b) = 4%nat) blocks ->
  reads file (read_nstart swapBytes (length blocks) acc) r
        (acc ++ map (block_first swapBytes) blocks) rest.
Proof.
  revert acc r. induction blocks as [|b blocks IH]; intros acc r Hok Hrem Hall.
  - cbn in *. rewrite app_nil_r. by apply reads_ret.
  - apply Forall_cons in Hall as [[Hb _] Hall].
    cbn [map concat] in Hrem. rewrite <- app_assoc in Hrem.
    cbn [length read_nstart].
    eapply reads_seq; [by apply (read_uint32_reads swapBytes r _ _ Hok Hrem)|].
    intros r' Hok' Hrem'. cbn [map].
    replace (acc ++ block_first swapBytes b :: map (block_first swapBytes) blocks)
      with ((acc ++ [block_first swapBytes b]) ++ map (block_first swapBytes) blocks)
      by (by rewrite <- app_assoc).
    by apply IH.
Qed.

Lemma read_nstop_reads swapBytes (seen todo : list (list byte * list byte)) acc r rest :
  reader_ok file r -> remaining file r = concat (map snd todo) ++ rest ->
  Forall (fun b => length (fst b) = 4%nat /\ length (snd b) = 4%nat) todo ->
  Z.of_nat (length seen + length todo) <= UINT32_MAX ->
  reads file
        (read_nstop swapBytes (map (block_first swapBytes) (seen ++ todo))
                    (length todo) (Z.of_nat (length seen)) acc) r
        (acc ++ map (block_last swapBytes) todo) rest.
Proof.
  revert seen acc r. induction todo as [|b todo IH]; intros seen acc r Hok Hrem Hall Hmax.
  - cbn in *. rewrite app_nil_r. by apply reads_ret.
  - apply Forall_cons in Hall as [[_ Hb] Hall].
    cbn [map concat] in Hrem. rewrite <- app_assoc in Hrem.
    cbn [length read_nstop] in *.
    assert (Hat : vector_at (map (block_first swapBytes) (seen ++ b :: todo))
                            (Z.of_nat (length seen)) = Ret (block_first swapBytes b)).
    { unfold vector_at. rewrite Nat2Z.id, map_app. cbn [map].
      by rewrite list_lookup_middle by (by rewrite length_map). }
    apply (reads_lift _ _ _ _ _ _ Hat).
    eapply reads_seq; [by apply (read_uint32_reads swapBytes r _ _ Hok Hrem)|].
    intros r' Hok' Hrem'. cbn [map].
    replace (acc ++ block_last swapBytes b :: map (block_last swapBytes) todo)
      with ((acc ++ [block_last swapBytes b]) ++ map (block_last swapBytes) todo)
      by (by rewrite <- app_assoc).
    rewrite wrap32_small by (unfold UINT32_MAX in *; lia).
    replace (Z.of_nat (length seen) + 1) with (Z.of_nat (length (seen ++ [b])))
      by (rewrite length_app; cbn; lia).
    replace (seen ++ b :: todo) with ((seen ++ [b]) ++ todo) by (by rewrite <- app_assoc).
    apply IH; [done..|]. rewrite length_app. cbn. lia.
Qed.

(** *** The first byte of the packed stream *)

Lemma codes_2103_byte b :
  map (packed_code b) [0; 1; 2; 3] = [2; 1; 0; 3] -> byte_val b = 147.
Proof. destruct b; vm_compute; congruence. Qed.

Ltac read_with_in H L :=
  match type of H with
  | context [io_bind ?c ?k ?r] =>
      let r' := fresh "r" in
      let Hok := fresh "Hok" in
      let Hrem := fresh "Hrem" in
      let E := fresh "E" in
      destruct (reads_bind c k r _ _ L) as (r' & Hok & Hrem & E);
      rewrite E in H; clear E; cbv beta in H
  end.

Lemma fetch_byte_reads r b rest :
  reader_ok file r -> remaining file r = b :: rest ->
  reads file
    (v <- read_uint8 ;;
     match v with
     | None => io_throw Truncated2bitFile
     | Some b => io_ret b
     end)%io r (byte_val b) rest.
Proof.
  intros Hok Hrem.
  eapply reads_seq; [by apply read_uint8_reads|].
  intros r' Hok' Hrem'. by apply reads_ret.
Qed.

(** One iteration of the decoding loop that returned. *)
Lemma decode_loop_S_inv begin0 cnt pos byte readByte seq0 r seq1 r' :
  decode_loop begin0 (S cnt) pos byte readByte seq0 r = Ret (seq1, r') ->
  exists byte' r1 c,
    (if readByte then
       v <- read_uint8 ;;
       match v with
       | None => io_throw Truncated2bitFile
       | Some b => io_ret b
       end
     else io_ret byte)%io r = Ret (byte', r1) /\
    buffer_at symbol
      (Z.land (Z.shiftr byte' (wrap32 (2 * wrap32 (3 - Z.land (wrap32 (pos - 1)) 3)))) 3)
      = Ret c /\
    wrap32 (pos - begin0) < Z.of_nat (length seq0) /\
    decode_loop begin0 cnt (pos + 1) byte'
      (wrap32 (2 * wrap32 (3 - Z.land (wrap32 (pos - 1)) 3)) =? 0)
      (<[Z.to_nat (wrap32 (pos - begin0)) := c]> seq0) r1 = Ret (seq1, r').
Proof.
  intros H. cbn [decode_loop] in H.
  apply io_bind_ret in H as (byte' & r1 & Hfetch & H).
  apply io_bind_ret in H as (c & r2 & Hc & H).
  apply io_lift_ret in Hc as [Hc ->].
  apply io_bind_ret in H as (seq' & r3 & Hst & H).
  apply io_lift_ret in Hst as [Hst ->].
  apply buffer_store_ret in Hst as [Hlt ->].
  destruct (pos =? UINT32_MAX); [done|].
  by exists byte', r1, c.
Qed.

(** A window that begins at position 1 and whose first packed byte holds
    the codes 2, 1, 0, 3 has "ACTG" in its first four cells when the decoding
    loop is left. *)
Lemma decode_first_four cnt byte0 seq0 r seq1 r' b rest :
  reader_ok file r -> remaining file r = b :: rest -> byte_val b = 147 ->
  decode_loop 1 (S (S (S (S cnt)))) 1 byte0 true seq0 r = Ret (seq1, r') ->
  seq1 !! 0%nat = Some "A"%char /\ seq1 !! 1%nat = Some "C"%char /\
  seq1 !! 2%nat = Some "T"%char /\ seq1 !! 3%nat = Some "G"%char.
Proof.
  intros Hok Hrem Hb H.
  apply decode_loop_S_inv in H as (byte1 & r1 & c1 & Hf1 & Hc1 & Hl1 & H).
  destruct (fetch_byte_reads r b rest Hok Hrem) as (r1' & E & _).
  rewrite E, Hb in Hf1. simplify_eq. clear E.
  apply decode_loop_S_inv in H as (byte2 & r2 & c2 & Hf2 & Hc2 & Hl2 & H).
  change (wrap32 (2 * wrap32 (3 - Z.land (wrap32 (1 - 1)) 3)) =? 0) with false in Hf2.
  apply io_ret_ret in Hf2 as [-> ->].
  apply decode_loop_S_inv in H as (byte3 & r3 & c3 & Hf3 & Hc3 & Hl3 & H).
  change (wrap32 (2 * wrap32 (3 - Z.land (wrap32 (1 + 1 - 1)) 3)) =? 0) with false in Hf3.
  apply io_ret_ret in Hf3 as [-> ->].
  apply decode_loop_S_inv in H as (byte4 & r4 & c4 & Hf4 & Hc4 & Hl4 & H).
  change (wrap32 (2 * wrap32 (3 - Z.land (wrap32 (1 + 1 + 1 - 1)) 3)) =? 0)
    with false in Hf4.
  apply io_ret_ret in Hf4 as [-> ->].
  vm_compute in Hc1, Hc2, Hc3, Hc4. simplify_eq.
  change (wrap32 (1 - 1)) with 0 in *. change (wrap32 (1 + 1 - 1)) with 1 in *.
  change (wrap32 (1 + 1 + 1 - 1)) with 2 in *.
  change (wrap32 (1 + 1 + 1 + 1 - 1)) with 3 in *.
  rewrite !length_insert in *.
  change (Z.to_nat 0) with 0%nat in H. change (Z.to_nat 1) with 1%nat in H.
  change (Z.to_nat 2) with 2%nat in H. change (Z.to_nat 3) with 3%nat in H.
  pose proof (decode_loop_frame 1 cnt 5 _ _ _ _ _ _ ltac:(lia)
                ltac:(unfold UINT32_MAX; lia) H) as Hframe.
  change (Z.to_nat (5 - 1)) with 4%nat in Hframe.
  rewrite !Hframe by lia.
  repeat split.
  - rewrite !list_lookup_insert_ne by lia. apply list_lookup_insert_eq. lia.
  - rewrite !list_lookup_insert_ne by lia. apply list_lookup_insert_eq.
    rewrite !length_insert. lia.
  - rewrite !list_lookup_insert_ne by lia. apply list_lookup_insert_eq.
    rewrite !length_insert. lia.
  - apply list_lookup_insert_eq. rewrite !length_insert. lia.
Qed.

(** *** The second part of the constructor on a record of known layout *)

Lemma lookup_map {A B : Type} (f : A -> B) (l : list A) (j : nat) (y : B) :
  map f l !! j = Some y -> exists x, l !! j = Some x /\ y = f x.
Proof.
  change (map f l) with (f <$> l). rewrite list_lookup_fmap.
  destruct (l !! j) as [x|]; cbn; [|done]. intros; simplify_eq. eauto.
Qed.

Lemma load_window_2103 uninit swapBytes chrOffset endpos r rc rest2 b g r' :
  reader_ok file r ->
  drop (Z.to_nat chrOffset) file = encode_record_head rc ++ rest2 ->
  record_ok swapBytes rc ->
  file !! Z.to_nat (dna_offset swapBytes chrOffset rc) = Some b ->
  byte_val b = 147 ->
  Forall (fun blk => forall p, 1 <= p <= 4 ->
            ~ (block_first swapBytes blk <= p <= block_last swapBytes blk))
         (rec_blocks rc) ->
  u32 endpos ->
  load_window uninit swapBytes chrOffset 1 endpos r = Ret (g, r') ->
  4 <= end_ g ->
  begin g = 1 /\
  sequence g !! 0%nat = Some "A"%char /\ sequence g !! 1%nat = Some "C"%char /\
  sequence g !! 2%nat = Some "T"%char /\ sequence g !! 3%nat = Some "G"%char.
Proof.
  intros Hok Hrec [Hl1 Hl2 Hl3 Hblocks Hcount] Hbyte Hb Hfree [He0 He1] H Hend.
  unfold load_window in H.
  read_with_in H (seek_reads r chrOffset Hok).
  rewrite Hrec in Hrem. unfold encode_record_head in Hrem. rewrite <- !app_assoc in Hrem.
  read_with_in H (read_uint32_reads swapBytes r0 _ _ Hok0 Hrem Hl1).
  set (end0 := if endpos >? field32 swapBytes (rec_numBases rc)
               then field32 swapBytes (rec_numBases rc) else endpos) in *.
  destruct (_ || _) eqn:Hrange; [done|].
  apply orb_false_iff in Hrange as [_ Hgt].
  rewrite Z.gtb_ltb in Hgt. apply Z.ltb_ge in Hgt.
  assert (Hend0 : end0 <= UINT32_MAX).
  { subst end0. destruct (Z.gtb_spec endpos (field32 swapBytes (rec_numBases rc))); lia. }
  read_with_in H (read_uint32_reads swapBytes r1 _ _ Hok1 Hrem0 Hl2).
  replace (Z.to_nat (field32 swapBytes (rec_nBlockCount rc)))
    with (length (rec_blocks rc)) in H by (rewrite Hcount; lia).
  read_with_in H (read_nstart_reads swapBytes (rec_blocks rc) [] r2 _ Hok2 Hrem1 Hblocks).
  assert (Hcount' : Z.of_nat (length (@nil (list byte * list byte)) +
                              length (rec_blocks rc)) <= UINT32_MAX).
  { cbn [length Nat.add]. rewrite <- Hcount. unfold field32.
    destruct swapBytes; [apply wrap32_range|].
    unfold uint32_of_bytes.
    destruct (rec_nBlockCount rc) as [|x0 [|x1 [|x2 [|x3 [|]]]]]; try done.
    cbn [fold_left]. apply wrap32_range. }
  read_with_in H (read_nstop_reads swapBytes [] (rec_blocks rc) [] r3 _ Hok3 Hrem2
                    Hblocks Hcount').
  cbn [app] in H.
  read_with_in H (read_uint32_reads swapBytes r4 _ _ Hok4 Hrem3 Hl3).
  fold (dna_offset swapBytes chrOffset rc) in H.
  change (Z.shiftr (wrap32 (1 - 1)) 2) with 0 in H.
  rewrite Z.add_0_r in H.
  assert (Hdna : wrap32 (dna_offset swapBytes chrOffset rc)
                 = dna_offset swapBytes chrOffset rc) by apply wrap32_idem.
  rewrite Hdna in H.
  read_with_in H (seek_reads r5 (dna_offset swapBytes chrOffset rc) Hok5).
  rewrite (drop_S _ _ _ Hbyte) in Hrem5.
  apply io_bind_ret in H as (seq1 & r7 & Hdec & H).
  apply io_bind_ret in H as (seq2 & r8 & Hmark & H).
  apply io_lift_ret in Hmark as [Hmark ->].
  apply io_bind_ret in H as (_ & r9 & _ & H).
  apply io_ret_ret in H as [-> _]. cbn [begin end_ sequence] in *.
  replace (Z.to_nat (end0 + 1 - 1)) with (S (S (S (S (Z.to_nat (end0 - 4)))))) in Hdec
    by lia.
  destruct (decode_first_four _ _ _ _ _ _ _ _ Hok6 Hrem5 Hb Hdec) as (Ha & Hc & Ht & Hg).
  assert (Hkeep : forall p, 1 <= p <= 4 ->
            seq2 !! Z.to_nat (p - 1) = seq1 !! Z.to_nat (p - 1)).
  { intros p Hp.
    apply (mark_unknown_frame 1 end0 _ _ _ _ _ _ p ltac:(lia) Hend0 Hmark ltac:(lia)).
    intros j first last Hfirst Hlast.
    apply lookup_map in Hfirst as (blk & Hblk & ->).
    apply lookup_map in Hlast as (blk' & Hblk' & ->).
    simplify_eq. eapply Forall_lookup_1 in Hfree; [|exact Hblk]. by apply Hfree. }
  split; [done|].
  rewrite <- Ha, <- Hc, <- Ht, <- Hg.
  repeat split.
  - apply (Hkeep 1). lia.
  - apply (Hkeep 2). lia.
  - apply (Hkeep 3). lia.
  - apply (Hkeep 4). lia.
Qed.

End Reader.

(** * Verdicts of the equivalence tests *)

Section Verdicts.

Variable g : ReferenceGenome.

(** C1 as the code has it.  The code takes [pos] as the reference position
    that follows the insertion point ([j = pos - 1] is "the position before
    the insertion"): over a reference that reads "ACGTACGTACGT" at positions
    1 to 12, inserting "ACGT" after position 4 is the call with [pos = 5],
    inserting it after position 8 the call with [pos = 9], and
    [equivalentInsertions(5, "ACGT", 9, "ACGT")] returns true. *)
Theorem tandem_repeat_insertions_equivalent :
  reference_reads g 1 "ACGTACGTACGT" ->
  equivalentInsertions g 5 "ACGT" 9 "ACGT" = Ret true.
Proof.
  intros Href.
  apply equivalentInsertions_eq_length_iff; try done; try (unfold u32, UINT32_MAX; lia).
  intros i Hi. change (strlen "ACGT") with 4 in Hi. cbn.
  split; [done|].
  specialize (Href (4 + i)). change (strlen _) with 12 in Href.
  replace (Z.min 5 9 + i) with (1 + (4 + i)) by lia. rewrite Href by lia.
  assert (i = 0 \/ i = 1 \/ i = 2 \/ i = 3) as [->|[->|[->| ->]]] by lia; reflexivity.
Qed.

(** C2 as the code has it.  For [pos1 <> pos2], alleles of one length [n],
    [j = min(pos1,pos2)], [k = max(pos1,pos2)], [v] the allele at the smaller
    position and [w] at the larger: when [k - j = n], the verdict is true if
    and only if for every [i] in [0,n), [v[i] == w[i]] and
    [v[i] == getBase(j+i)]. *)
Theorem equivalentInsertions_gap_eq_length pos1 seq1 pos2 seq2 :
  u32 pos1 -> u32 pos2 -> pos1 <> pos2 -> strlen seq1 = strlen seq2 ->
  Z.max pos1 pos2 - Z.min pos1 pos2 = strlen seq1 ->
  equivalentInsertions g pos1 seq1 pos2 seq2 = Ret true <->
  insertions_gap_eq_length g pos1 seq1 pos2 seq2.
Proof. apply equivalentInsertions_eq_length_iff. Qed.

(** C3 as the code has it.  With the same [j], [k], [v], [w] and the gap
    [m = k - j]: when [m < n], the verdict is true if and only if for every
    [i] in [0,m), [v[i] == w[i+(n-m)]] and [v[i] == getBase(j+i)], and for
    every [i] in [m,n), [v[i] == w[i-m]]. *)
Theorem equivalentInsertions_gap_lt_length pos1 seq1 pos2 seq2 :
  u32 pos1 -> u32 pos2 -> pos1 <> pos2 -> strlen seq1 = strlen seq2 ->
  strlen seq1 <= UINT32_MAX ->
  Z.max pos1 pos2 - Z.min pos1 pos2 < strlen seq1 ->
  equivalentInsertions g pos1 seq1 pos2 seq2 = Ret true <->
  insertions_gap_lt_length g pos1 seq1 pos2 seq2.
Proof. apply equivalentInsertions_lt_length_iff. Qed.

(** C4 as the code has it.  For [pos1 <> pos2] and alleles of one length
    [n], with [j = min(pos1,pos2)] and [k = max(pos1,pos2)]: the verdict of
    [equivalentDeletions] is true if and only if
    [getBase(s) == getBase(s+n)] for every [s] in the half-open range
    [j, k), the sum being taken in [uint32_t]. *)
Theorem equivalentDeletions_periodic pos1 seq1 pos2 seq2 :
  window_ok g -> u32 pos1 -> u32 pos2 -> pos1 <> pos2 -> strlen seq1 = strlen seq2 ->
  equivalentDeletions g pos1 seq1 pos2 seq2 = Ret true <->
  deletions_periodic g pos1 seq1 pos2 seq2.
Proof. apply equivalentDeletions_iff. Qed.

(** C7.  Both tests are symmetric in their two indels: exchanging
    [(pos1,seq1)] and [(pos2,seq2)] gives the same outcome. *)
Theorem equivalence_tests_symmetric pos1 seq1 pos2 seq2 :
  equivalentInsertions g pos1 seq1 pos2 seq2 = equivalentInsertions g pos2 seq2 pos1 seq1 /\
  equivalentDeletions g pos1 seq1 pos2 seq2 = equivalentDeletions g pos2 seq2 pos1 seq1.
Proof.
  unfold equivalentInsertions, equivalentDeletions.
  rewrite (Z.eqb_sym (strlen seq2)), (Z.eqb_sym pos2), (String.eqb_sym seq2).
  destruct (Z.eqb_spec (strlen seq1) (strlen seq2)) as [Hlen|_]; [|done].
  cbn [negb]. rewrite <- Hlen.
  destruct (Z.eqb_spec pos1 pos2) as [|Hne]; [done|].
  destruct (Z.ltb_spec pos1 pos2), (Z.ltb_spec pos2 pos1); (done || lia).
Qed.

(** C9.  For [pos1 <> pos2] and alleles of one length, the outcome of
    [equivalentDeletions] does not depend on the characters of the alleles:
    any other strings of the same lengths give the same outcome. *)
Theorem equivalentDeletions_ignores_allele_content pos1 seq1 pos2 seq2 seq1' seq2' :
  pos1 <> pos2 -> strlen seq1 = strlen seq2 ->
  strlen seq1' = strlen seq1 -> strlen seq2' = strlen seq2 ->
  equivalentDeletions g pos1 seq1' pos2 seq2' = equivalentDeletions g pos1 seq1 pos2 seq2.
Proof.
  intros Hne Hlen H1 H2. unfold equivalentDeletions.
  rewrite H1, H2.
  destruct (Z.eqb_spec (strlen seq1) (strlen seq2)) as [_|]; [|done].
  cbn [negb]. by destruct (Z.eqb_spec pos1 pos2).
Qed.

End Verdicts.


(** *** Concrete calls of the equivalence tests *)

Lemma acgt3_reads : reference_reads acgt3 1 "ACGTACGTACGT".
Proof.
  intros i Hi. change (strlen _) with 12 in Hi.
  assert (i = 0 \/ i = 1 \/ i = 2 \/ i = 3 \/ i = 4 \/ i = 5 \/ i = 6 \/ i = 7 \/
          i = 8 \/ i = 9 \/ i = 10 \/ i = 11) as Hcases by lia.
  repeat (destruct Hcases as [->|Hcases]; [reflexivity|]). subst i. reflexivity.
Qed.

(** C1, counterexample.  Over the window that reads "ACGTACGTACGT" at
    positions 1 to 12, [equivalentInsertions(4, "ACGT", 8, "ACGT")] returns
    false: the first inserted base 'A' is compared with base 4, a 'T'. *)
Lemma tandem_repeat_call_4_8_is_false :
  reference_reads acgt3 1 "ACGTACGTACGT" /\
  equivalentInsertions acgt3 4 "ACGT" 8 "ACGT" = Ret false.
Proof. split; [apply acgt3_reads | reflexivity]. Qed.

Lemma tandem_repeat_insertions_equivalent_witness :
  equivalentInsertions acgt3 5 "ACGT" 9 "ACGT" = Ret true.
Proof.
  apply (tandem_repeat_insertions_equivalent acgt3).
  intros i Hi. change (strlen "ACGTACGTACGT") with 12 in Hi.
  assert (i = 0 \/ i = 1 \/ i = 2 \/ i = 3 \/ i = 4 \/ i = 5 \/ i = 6 \/ i = 7 \/
          i = 8 \/ i = 9 \/ i = 10 \/ i = 11) as Hcases by lia.
  repeat (destruct Hcases as [->|Hcases]; [reflexivity|]). subst i. reflexivity.
Defined.

(** C2, counterexample.  With the reference read at [j+1+i] the condition
    fails for the insertions of "ACGT" at 5 and at 9 into "ACGTACGTACGT",
    which the code finds equivalent. *)
Lemma spec_gap_eq_length_differs :
  ~ (equivalentInsertions acgt3 5 "ACGT" 9 "ACGT" = Ret true <->
     spec_insertions_gap_eq_length acgt3 5 "ACGT" 9 "ACGT").
Proof.
  intros [H _]. specialize (H eq_refl).
  unfold spec_insertions_gap_eq_length in H.
  destruct (H 0) as [_ Hbase]; [change (strlen "ACGT") with 4; lia|].
  vm_compute in Hbase. discriminate.
Qed.

Lemma equivalentInsertions_gap_eq_length_witness :
  equivalentInsertions acgt3 5 "ACGT" 9 "ACGT" = Ret true <->
  insertions_gap_eq_length acgt3 5 "ACGT" 9 "ACGT".
Proof.
  apply (equivalentInsertions_gap_eq_length acgt3 5 "ACGT" 9 "ACGT");
    [unfold u32, UINT32_MAX; lia | unfold u32, UINT32_MAX; lia | lia
    | reflexivity | reflexivity].
Defined.

(** C3, counterexample.  Into "AAAAAAAAAAAA", inserting "AAC" at 5 and
    inserting "CAA" at 7 give the same sequence and the code returns true
    (gap 2, length 3), but the stated condition asks for [v[1] == w[0]],
    'A' against 'C'. *)
Lemma spec_gap_lt_length_differs :
  ~ (equivalentInsertions poly_a 5 "AAC" 7 "CAA" = Ret true <->
     spec_insertions_gap_lt_length poly_a 5 "AAC" 7 "CAA").
Proof.
  intros [H _]. specialize (H eq_refl).
  unfold spec_insertions_gap_lt_length in H. destruct H as [_ H].
  assert (Hchars : string_at "AAC" 1 = string_at "CAA" (1 - (3 - (7 - 5))))
    by (apply H; change (strlen "AAC") with 3; lia).
  vm_compute in Hchars. discriminate.
Qed.

Lemma equivalentInsertions_gap_lt_length_witness :
  equivalentInsertions poly_a 5 "AAC" 7 "CAA" = Ret true <->
  insertions_gap_lt_length poly_a 5 "AAC" 7 "CAA".
Proof.
  apply (equivalentInsertions_gap_lt_length poly_a 5 "AAC" 7 "CAA");
    [unfold u32, UINT32_MAX; lia | unfold u32, UINT32_MAX; lia | lia | reflexivity
    | change (strlen "AAC") with 3; unfold UINT32_MAX; lia
    | change (strlen "AAC") with 3; lia].
Defined.

(** C4, counterexample.  In "ACGTACGTACGT" the deletion of "A" at 1 and the
    deletion of "C" at 2 are not equivalent and the code returns false, but
    the range [j, k-1) is empty, so the stated condition holds. *)
Lemma spec_deletions_periodic_differs :
  ~ (equivalentDeletions acgt3 1 "A" 2 "C" = Ret true <->
     spec_deletions_periodic acgt3 1 "A" 2 "C").
Proof.
  intros [_ H]. assert (Hfalse : equivalentDeletions acgt3 1 "A" 2 "C" = Ret true).
  { apply H. unfold spec_deletions_periodic. intros s Hs. lia. }
  vm_compute in Hfalse. discriminate.
Qed.

Lemma equivalentDeletions_periodic_witness :
  equivalentDeletions acgt3 1 "A" 2 "C" = Ret true <->
  deletions_periodic acgt3 1 "A" 2 "C".
Proof.
  apply (equivalentDeletions_periodic acgt3 1 "A" 2 "C");
    [constructor; cbn; unfold UINT32_MAX; lia
    | unfold u32, UINT32_MAX; lia | unfold u32, UINT32_MAX; lia | lia | reflexivity].
Defined.

Lemma equivalentDeletions_ignores_allele_content_witness :
  equivalentDeletions acgt3 1 "TTTT" 5 "GGGG" = equivalentDeletions acgt3 1 "ACGT" 5 "ACGT".
Proof.
  apply (equivalentDeletions_ignores_allele_content acgt3 1 "ACGT" 5 "ACGT" "TTTT" "GGGG");
    [lia | reflexivity | reflexivity | reflexivity].
Defined.

(** * The window that the constructor returns *)

Lemma default_buffer_positive : (0 < DEFAULT_BUFFER_SIZE)%nat.
Proof. unfold DEFAULT_BUFFER_SIZE. lia. Qed.

(** The constructor on a file that begins with a well-formed header: it
    fails with "not found" when the scan ends with the offset 0, and runs
    its second part at the selected offset otherwise. *)
Lemma ReferenceGenome_new_located uninit h rest chrNumber beginpos endpos chrName :
  header_ok h ->
  chrName <> "" \/ 1 <= chrNumber <= NUM_CHROMOSOMES ->
  let file := encode_header h ++ rest in
  let off := selected_offset (header_swap h) chrNumber chrName (hdr_directory h) in
  if off =? 0 then
    ReferenceGenome_new uninit (Some file) chrNumber beginpos endpos chrName
    = Throw (ChromosomeNotFound (shown_name chrNumber chrName))
  else
    exists r, reader_ok file r /\
      ReferenceGenome_new uninit (Some file) chrNumber beginpos endpos chrName
      = match load_window uninit (header_swap h) off beginpos endpos r with
        | Ret (g, _) => Ret g
        | Throw e => Throw e
        | Undefined f => Undefined f
        end.
Proof.
  intros Hh Hvalid file off.
  assert (Hspec : String.eqb chrName "" &&
                  ((chrNumber =? 0) || (chrNumber >? NUM_CHROMOSOMES)) = false).
  { destruct Hvalid as [Hname|Hnum].
    - apply String.eqb_neq in Hname. by rewrite Hname.
    - apply andb_false_intro2, orb_false_iff. split; [apply Z.eqb_neq; lia|].
      rewrite Z.gtb_ltb. apply Z.ltb_ge. lia. }
  unfold ReferenceGenome_new, ReferenceGenome_body. rewrite Hspec.
  pose proof (locate_chromosome_spec file h rest chrNumber chrName DEFAULT_BUFFER_SIZE
                eq_refl Hh default_buffer_positive) as Hloc.
  cbv zeta in Hloc. fold off in Hloc.
  destruct (off =? 0).
  - unfold io_bind. by rewrite Hloc.
  - destruct Hloc as (r & E & Hok). exists r. split; [done|].
    unfold io_bind at 1. by rewrite E.
Qed.

Lemma selected_offset_none swapBytes chrNumber chrName es :
  (forall e, In e es -> entry_matches chrNumber chrName e = true ->
             field32 swapBytes (entry_offset e) = 0) ->
  selected_offset swapBytes chrNumber chrName es = 0.
Proof.
  induction es as [|e es IH]; intros H; [done|]. cbn [selected_offset].
  destruct (entry_matches chrNumber chrName e) eqn:Hm; cbn [andb].
  - rewrite (H e (or_introl eq_refl) Hm). cbn. apply IH. intros e' He'. apply H. by right.
  - apply IH. intros e' He'. apply H. by right.
Qed.

Lemma selected_offset_app_none swapBytes chrNumber chrName pre es :
  (forall e, In e pre -> entry_matches chrNumber chrName e = true ->
             field32 swapBytes (entry_offset e) = 0) ->
  selected_offset swapBytes chrNumber chrName (pre ++ es)
  = selected_offset swapBytes chrNumber chrName es.
Proof.
  induction pre as [|e pre IH]; intros H; [done|]. cbn [app selected_offset].
  destruct (entry_matches chrNumber chrName e) eqn:Hm; cbn [andb].
  - rewrite (H e (or_introl eq_refl) Hm). cbn. apply IH. intros e' He'. apply H. by right.
  - apply IH. intros e' He'. apply H. by right.
Qed.

Lemma selected_offset_first swapBytes chrNumber chrName e es :
  entry_matches chrNumber chrName e = true ->
  field32 swapBytes (entry_offset e) <> 0 ->
  selected_offset swapBytes chrNumber chrName (e :: es)
  = field32 swapBytes (entry_offset e).
Proof.
  intros Hm Hoff. cbn [selected_offset]. rewrite Hm.
  by destruct (Z.eqb_spec (field32 swapBytes (entry_offset e)) 0).
Qed.

(** C5 as the code has it.  For a window from position 1 over a chromosome
    whose packed stream stores the codes 2, 1, 0, 3 at positions 1 to 4, no
    unknown block covering them, [getBase] returns 'A', 'C', 'T', 'G' at the
    positions 1, 2, 3, 4: the table of the code is 0 'T', 1 'C', 2 'A',
    3 'G'. *)
Theorem decoded_codes_2103_read_ACTG
    uninit h rest rc rest2 b chrNumber endpos chrName g :
  let file := encode_header h ++ rest in
  let swapBytes := header_swap h in
  let chrOffset := selected_offset swapBytes chrNumber chrName (hdr_directory h) in
  header_ok h ->
  chrName <> "" \/ 1 <= chrNumber <= NUM_CHROMOSOMES ->
  drop (Z.to_nat chrOffset) file = encode_record_head rc ++ rest2 ->
  record_ok swapBytes rc ->
  file !! Z.to_nat (dna_offset swapBytes chrOffset rc) = Some b ->
  map (packed_code b) [0; 1; 2; 3] = [2; 1; 0; 3] ->
  Forall (fun blk => forall p, 1 <= p <= 4 ->
            ~ (block_first swapBytes blk <= p <= block_last swapBytes blk))
         (rec_blocks rc) ->
  u32 endpos ->
  ReferenceGenome_new uninit (Some file) chrNumber 1 endpos chrName = Ret g ->
  4 <= end_ g ->
  map (getBase g) [1; 2; 3; 4] = map Ret (list_ascii_of_string "ACTG").
Proof.
  intros file swapBytes chrOffset Hh Hvalid Hrec Hrc Hbyte Hcodes Hfree Hendpos Hnew Hend.
  pose proof (ReferenceGenome_new_located uninit h rest chrNumber 1 endpos chrName
                Hh Hvalid) as Hloc.
  cbv zeta in Hloc. fold file swapBytes chrOffset in Hloc.
  destruct (chrOffset =? 0); [congruence|].
  destruct Hloc as (r & Hok & E). rewrite E in Hnew. clear E.
  destruct (load_window uninit swapBytes chrOffset 1 endpos r) as [[g' r']| |] eqn:Hload;
    [|done..].
  simplify_eq.
  destruct (load_window_2103 file uninit swapBytes chrOffset endpos r rc rest2 b g r'
              Hok Hrec Hrc Hbyte (codes_2103_byte b Hcodes) Hfree Hendpos Hload Hend)
    as (Hbegin & Ha & Hc & Ht & Hg).
  assert (Hget : forall p c, 1 <= p <= 4 -> sequence g !! Z.to_nat (p - 1) = Some c ->
                             getBase g p = Ret c).
  { intros p c Hp Hcell. unfold getBase. rewrite Hbegin.
    destruct (Z.ltb_spec p 1); [lia|]. destruct (Z.gtb_spec p (end_ g)); [lia|].
    cbn [orb]. rewrite wrap32_small by (unfold UINT32_MAX; lia).
    unfold buffer_at. by rewrite Hcell. }
  cbn [map list_ascii_of_string].
  by rewrite (Hget 1 _ ltac:(lia) Ha), (Hget 2 _ ltac:(lia) Hc),
             (Hget 3 _ ltac:(lia) Ht), (Hget 4 _ ltac:(lia) Hg).
Qed.

(** C6.  For every window that the constructor returns and every position,
    [getBase] returns one of 'A', 'C', 'G', 'T', 'N', and it returns 'N' for
    a position before [begin] or after [end]. *)
Theorem constructed_window_bases
    uninit twobit chrNumber beginpos endpos chrName g pos :
  u32 beginpos -> u32 endpos ->
  ReferenceGenome_new uninit twobit chrNumber beginpos endpos chrName = Ret g ->
  u32 pos ->
  exists c, getBase g pos = Ret c /\ In c bases /\
            (pos < begin g \/ pos > end_ g -> c = "N"%char).
Proof.
  intros Hb He Hnew Hp.
  apply ReferenceGenome_new_good in Hnew as [Hg Hall]; [|done..].
  destruct (getBase_is_base g pos Hg Hall Hp) as (c & Hc & Hbase).
  exists c. split; [done|]. split; [done|].
  intros Hout. rewrite (getBase_outside g pos Hout) in Hc. by simplify_eq.
Qed.

(** C10.  An entry of the directory that carries the requested name with
    the stored offset 0 is not selected.  When the scan reaches it (no entry
    before it matches with an offset other than 0), the scan goes on with the
    entries after it: if none of them matches with an offset other than 0,
    the constructor throws "chromosome not found"; and if one does, the
    record at the offset of the first such entry is the one that is read. *)
Theorem zero_offset_entry_is_passed_over
    uninit h pre e0 post rest chrNumber beginpos endpos chrName :
  header_ok h ->
  chrName <> "" \/ 1 <= chrNumber <= NUM_CHROMOSOMES ->
  hdr_directory h = pre ++ e0 :: post ->
  entry_matches chrNumber chrName e0 = true ->
  field32 (header_swap h) (entry_offset e0) = 0 ->
  (forall e, In e pre -> entry_matches chrNumber chrName e = true ->
             field32 (header_swap h) (entry_offset e) = 0) ->
  let file := encode_header h ++ rest in
  ((forall e, In e post -> entry_matches chrNumber chrName e = true ->
              field32 (header_swap h) (entry_offset e) = 0) ->
   ReferenceGenome_new uninit (Some file) chrNumber beginpos endpos chrName
   = Throw (ChromosomeNotFound (shown_name chrNumber chrName))) /\
  (forall mid e1 post',
     post = mid ++ e1 :: post' ->
     (forall e, In e mid -> entry_matches chrNumber chrName e = true ->
                field32 (header_swap h) (entry_offset e) = 0) ->
     entry_matches chrNumber chrName e1 = true ->
     field32 (header_swap h) (entry_offset e1) <> 0 ->
     exists r, reader_ok file r /\
       ReferenceGenome_new uninit (Some file) chrNumber beginpos endpos chrName
       = match load_window uninit (header_swap h)
                 (field32 (header_swap h) (entry_offset e1)) beginpos endpos r with
         | Ret (g, _) => Ret g
         | Throw e => Throw e
         | Undefined f => Undefined f
         end).
Proof.
  intros Hh Hvalid Hdir Hmatch Hzero Hpre file.
  pose proof (ReferenceGenome_new_located uninit h rest chrNumber beginpos endpos chrName
                Hh Hvalid) as Hloc.
  cbv zeta in Hloc. fold file in Hloc.
  assert (Hscan : selected_offset (header_swap h) chrNumber chrName (hdr_directory h)
                  = selected_offset (header_swap h) chrNumber chrName post).
  { rewrite Hdir, selected_offset_app_none by done.
    cbn [selected_offset]. by rewrite Hmatch, Hzero. }
  rewrite Hscan in Hloc. split.
  - intros Hpost. by rewrite selected_offset_none in Hloc.
  - intros mid e1 post' -> Hmid Hmatch1 Hoff1.
    rewrite selected_offset_app_none, selected_offset_first in Hloc by done.
    by destruct (Z.eqb_spec (field32 (header_swap h) (entry_offset e1)) 0).
Qed.

(** *** Concrete files *)

Example file_2103_window :
  ReferenceGenome_new question_marks (Some file_2103) 1 1 4 "" = Ret window_2103.
Proof. vm_compute. reflexivity. Qed.

(** The scan goes on after a matching entry with the offset 0 and takes a
    later entry of the same name. *)
Example file_twice_window :
  ReferenceGenome_new question_marks (Some file_twice) 1 1 4 "" = Ret window_2103.
Proof. vm_compute. reflexivity. Qed.

(** C5, counterexample.  The file [file_2103] stores the codes 2, 1, 0, 3
    at positions 1 to 4 of its chromosome (the byte 147 at offset 38) and has
    no unknown block; the window over it does not read "ACGT": position 3 is
    a 'T' and position 4 a 'G'. *)
Lemma codes_2103_do_not_read_ACGT :
  file_2103 !! 38%nat = Some (byte_of_Z 147) /\
  map (packed_code (byte_of_Z 147)) [0; 1; 2; 3] = [2; 1; 0; 3] /\
  ReferenceGenome_new question_marks (Some file_2103) 1 1 4 "" = Ret window_2103 /\
  map (getBase window_2103) [1; 2; 3; 4] <> map Ret (list_ascii_of_string "ACGT").
Proof.
  split; [reflexivity|]. split; [reflexivity|]. split; [apply file_2103_window|].
  vm_compute. discriminate.
Qed.

Lemma decoded_codes_2103_read_ACTG_witness :
  map (getBase window_2103) [1; 2; 3; 4] = map Ret (list_ascii_of_string "ACTG").
Proof.
  apply (decoded_codes_2103_read_ACTG question_marks header_2103
           (encode_record_head record_2103 ++ map byte_of_Z [0; 0; 0; 0; 147])
           record_2103 (map byte_of_Z [0; 0; 0; 0; 147]) (byte_of_Z 147) 1 4 "");
    [ constructor; try reflexivity; [by left | repeat constructor; cbn; lia]
    | right; unfold NUM_CHROMOSOMES; lia
    | reflexivity
    | constructor; try reflexivity; constructor
    | reflexivity
    | reflexivity
    | constructor
    | unfold u32, UINT32_MAX; lia
    | vm_compute; reflexivity
    | cbn; lia ].
Defined.

Lemma constructed_window_bases_witness :
  exists c, getBase window_2103 7 = Ret c /\ In c bases /\
            (7 < begin window_2103 \/ 7 > end_ window_2103 -> c = "N"%char).
Proof.
  apply (constructed_window_bases question_marks (Some file_2103) 1 1 4 "");
    [ unfold u32, UINT32_MAX; lia | unfold u32, UINT32_MAX; lia
    | vm_compute; reflexivity | unfold u32, UINT32_MAX; lia ].
Defined.

Lemma zero_offset_entry_is_passed_over_witness :
  ReferenceGenome_new question_marks (Some file_zero_offset) 1 1 4 ""
  = Throw (ChromosomeNotFound "1").
Proof.
  refine (proj1 (zero_offset_entry_is_passed_over question_marks header_zero_offset []
           {| entry_name := map byte_of_Z [49];
              entry_offset := map byte_of_Z [0; 0; 0; 0] |}
           [ {| entry_name := map byte_of_Z [50];
                entry_offset := map byte_of_Z [0; 0; 0; 28] |} ]
           (encode_record_head record_2103 ++ map byte_of_Z [0; 0; 0; 0; 147])
           1 1 4 "" _ _ _ _ _ _) _);
    [ constructor; try reflexivity; [by left | repeat constructor; cbn; lia]
    | right; unfold NUM_CHROMOSOMES; lia
    | reflexivity
    | reflexivity
    | reflexivity
    | intros e []
    | intros e [<-|[]]; vm_compute; discriminate ].
Defined.

(** The same file in the other byte order gives the same window. *)
Example file_2103_swapped_window :
  ReferenceGenome_new question_marks (Some file_2103_swapped) 1 1 4 "" = Ret window_2103.
Proof. vm_compute. reflexivity. Qed.

(** An unknown block overrides the decoded bases of its positions. *)
Example file_unknown_window :
  ReferenceGenome_new question_marks (Some file_unknown) 1 3 9 ""
  = Ret {| begin := 3; end_ := 9; sequence := list_ascii_of_string "GTANNTA" |}.
Proof. vm_compute. reflexivity. Qed.

(** The request is cut at the number of bases of the chromosome. *)
Example file_unknown_window_clamped :
  ReferenceGenome_new question_marks (Some file_unknown) 1 1 40 ""
  = Ret {| begin := 1; end_ := 12; sequence := list_ascii_of_string "ACGTANNTACGT" |}.
Proof. vm_compute. reflexivity. Qed.

Example file_unknown_truncated :
  ReferenceGenome_new question_marks (Some (take 45 file_unknown)) 1 1 9 ""
  = Throw Truncated2bitFile.
Proof. vm_compute. reflexivity. Qed.

(** Positions outside the window read 'N', and two of them compare equal:
    the deletions below lie wholly outside the window and are reported
    equivalent. *)
Example deletions_outside_window :
  equivalentDeletions acgt3 100 "A" 105 "C" = Ret true.
Proof. reflexivity. Qed.

(** * The equivalence tests and the edited sequences *)

Section GapLongerThanAlleles.

Variable g : ReferenceGenome.

(** The case [m > n] of [equivalentInsertions], where every position of the
    gap has a base. *)
Lemma equivalentInsertions_gt_length_iff pos1 seq1 pos2 seq2 :
  u32 pos1 -> u32 pos2 -> pos1 <> pos2 -> strlen seq1 = strlen seq2 ->
  strlen seq1 < Z.max pos1 pos2 - Z.min pos1 pos2 ->
  (forall p, Z.min pos1 pos2 <= p < Z.max pos1 pos2 -> is_ret (getBase g p)) ->
  equivalentInsertions g pos1 seq1 pos2 seq2 = Ret true <->
  insertions_gap_gt_length g pos1 seq1 pos2 seq2.
Proof.
  intros H1 H2 Hne Hlen Hm Hbase.
  rewrite equivalentInsertions_cases by done. cbv zeta.
  pose proof (strlen_allele_lo pos1 seq1 pos2 seq2 Hlen) as Hv.
  pose proof (strlen_allele_hi pos1 seq1 pos2 seq2 Hlen) as Hw.
  unfold insertions_gap_gt_length.
  set (v := allele_lo pos1 seq1 pos2 seq2) in *.
  set (w := allele_hi pos1 seq1 pos2 seq2) in *.
  set (lo := Z.min pos1 pos2) in *. set (hi := Z.max pos1 pos2) in *.
  assert (Hlohi : 0 <= lo /\ lo < hi /\ hi <= UINT32_MAX)
    by (destruct H1, H2; subst lo hi; lia).
  assert (Hn0 : 0 <= strlen seq1) by (unfold strlen; lia).
  rewrite (wrap32_small (strlen seq1)) by lia.
  set (n := strlen seq1) in *.
  destruct (Z.ltb_spec (hi - lo) n) as [|_]; [lia|].
  destruct (Z.eqb_spec (hi - lo) n) as [|_]; [lia|].
  rewrite !and_then_true, !ins_ref_loop_true, periodic_le_loop_true by lia.
  rewrite !Z2Nat.id by lia.
  apply Morphisms_Prop.and_iff_morphism; [|apply Morphisms_Prop.and_iff_morphism]; split.
  - intros H i Hi. destruct (H i Hi) as (c & Ec & Es).
    rewrite Z.add_0_l, wrap32_small in Ec by lia. rewrite wrap32_small in Es by lia.
    by rewrite Ec, Es.
  - intros H i Hi. destruct (string_at_is_ret v i) as [c Ec]; [lia|]. exists c.
    rewrite Z.add_0_l, !wrap32_small by lia. by rewrite <- (H i Hi).
  - intros H i Hi. destruct (H i Hi) as (c & Ec & Es).
    rewrite Z.add_0_l, wrap32_small in Ec by lia. rewrite wrap32_small in Es by lia.
    by rewrite Ec, Es.
  - intros H i Hi. destruct (string_at_is_ret w i) as [c Ec]; [lia|]. exists c.
    rewrite Z.add_0_l, !wrap32_small by lia. by rewrite <- (H i Hi).
  - intros H s Hs. destruct (H (s - lo) ltac:(lia)) as (c & Ea & Eb).
    replace (lo + (s - lo)) with s in * by lia.
    rewrite wrap32_small in Eb by lia. by rewrite Ea, Eb.
  - intros H t Ht. destruct (Hbase (lo + t)) as [c Ec]; [lia|]. exists c.
    rewrite wrap32_small by lia. split; [done|]. by rewrite <- (H (lo + t)) by lia.
Qed.

End GapLongerThanAlleles.

(** ** Positions outside the window

    A position outside the window reads 'N', and this 'N' is compared like
    any other character. *)

Section OutsideWindow.

Variable g : ReferenceGenome.

Lemma validDeletion_outside pos seq :
  1 <= pos -> end_ g < pos -> pos + strlen seq <= UINT32_MAX + 1 ->
  validDeletion g pos seq = Ret true <->
  forall i, 0 <= i < strlen seq -> string_at seq i = Ret "N"%char.
Proof.
  intros Hp Hout Hl. assert (Hn : 0 <= strlen seq) by (unfold strlen; lia).
  unfold validDeletion. rewrite wrap32_small by lia.
  rewrite (validDeletion_loop_true g pos seq _ 0), Z2Nat.id by done.
  split.
  - intros H i Hi. destruct (H i Hi) as (c & Ec & Eg).
    rewrite Z.add_0_l, wrap32_small in Ec, Eg by lia.
    rewrite getBase_outside in Eg by lia. congruence.
  - intros H t Ht. exists "N"%char.
    rewrite Z.add_0_l, !wrap32_small by lia. split; [by apply H|].
    apply getBase_outside. lia.
Qed.

Lemma equivalentDeletions_outside pos1 seq1 pos2 seq2 :
  window_ok g -> 1 <= pos1 <= UINT32_MAX -> 1 <= pos2 <= UINT32_MAX ->
  end_ g < Z.min pos1 pos2 ->
  pos1 <> pos2 -> strlen seq1 = strlen seq2 ->
  Z.max pos1 pos2 + strlen seq1 <= UINT32_MAX + 1 ->
  equivalentDeletions g pos1 seq1 pos2 seq2 = Ret true.
Proof.
  intros Hg H1 H2 Hout Hne Hlen Hmax.
  assert (Hn : 0 <= strlen seq1) by (unfold strlen; lia).
  apply equivalentDeletions_iff; [done|unfold u32; lia|unfold u32; lia|done|done|].
  intros s Hs. rewrite wrap32_small by lia.
  by rewrite !getBase_outside by lia.
Qed.

Lemma equivalentInsertions_outside pos1 seq1 pos2 seq2 :
  window_ok g -> 1 <= pos1 <= UINT32_MAX -> 1 <= pos2 <= UINT32_MAX ->
  end_ g < Z.min pos1 pos2 -> pos1 <> pos2 -> strlen seq1 = strlen seq2 ->
  strlen seq1 <= UINT32_MAX ->
  (forall i, 0 <= i < strlen seq1 -> string_at seq1 i = Ret "N"%char) ->
  (forall i, 0 <= i < strlen seq2 -> string_at seq2 i = Ret "N"%char) ->
  equivalentInsertions g pos1 seq1 pos2 seq2 = Ret true.
Proof.
  intros Hg H1 H2 Hout Hne Hlen Hsize Hs1 Hs2.
  assert (Hn : 0 <= strlen seq1) by (unfold strlen; lia).
  assert (Hv : forall i, 0 <= i < strlen seq1 ->
                 string_at (allele_lo pos1 seq1 pos2 seq2) i = Ret "N"%char).
  { intros i Hi. unfold allele_lo. destruct (pos1 <? pos2); [by apply Hs1|].
    apply Hs2. lia. }
  assert (Hw : forall i, 0 <= i < strlen seq1 ->
                 string_at (allele_hi pos1 seq1 pos2 seq2) i = Ret "N"%char).
  { intros i Hi. unfold allele_hi. destruct (pos1 <? pos2); [|by apply Hs1].
    apply Hs2. lia. }
  assert (Hb : forall p, Z.min pos1 pos2 <= p -> getBase g p = Ret "N"%char)
    by (intros p Hp; apply getBase_outside; lia).
  assert (Hu1 : u32 pos1) by (unfold u32; lia).
  assert (Hu2 : u32 pos2) by (unfold u32; lia).
  destruct (Z.lt_trichotomy (Z.max pos1 pos2 - Z.min pos1 pos2) (strlen seq1))
    as [Hlt|[Heq|Hgt]].
  - apply equivalentInsertions_lt_length_iff; [done..|lia|done|].
    split.
    + intros i Hi. rewrite Hv, Hw, Hb by lia. done.
    + intros i Hi. by rewrite Hv, Hw by lia.
  - apply equivalentInsertions_eq_length_iff; [done..|].
    intros i Hi. rewrite Hv, Hw, Hb by lia. done.
  - apply equivalentInsertions_gt_length_iff; [done..| |].
    + intros p Hp. apply getBase_is_ret; [done|unfold u32; lia].
    + split; [|split].
      * intros i Hi. by rewrite Hv, Hb by lia.
      * intros i Hi. by rewrite Hw, Hb by lia.
      * intros s Hs. by rewrite !Hb by lia.
Qed.


End OutsideWindow.



(** ** Words: when [V ++ R = R ++ W] *)

Section Words.

Context {A : Type}.
Implicit Types V W R : list A.

(** The element number [i] of an append, by the side it falls on. *)
Ltac side_of :=
  repeat first
    [ rewrite lookup_app_l by lia
    | rewrite lookup_app_r by lia ].

Lemma words_gap_eq V W R :
  length V = length R -> length W = length R ->
  (forall i, (i < length R)%nat -> V !! i = W !! i /\ V !! i = R !! i) <->
  V ++ R = R ++ W.
Proof.
  intros HV HW. split.
  - intros H.
    assert (V = R) as ->.
    { apply list_eq. intros i. destruct (decide (i < length R)%nat) as [Hi|Hi].
      - by destruct (H i Hi).
      - by rewrite !lookup_ge_None_2 by lia. }
    assert (R = W) as ->; [|done].
    apply list_eq. intros i. destruct (decide (i < length R)%nat) as [Hi|Hi].
    + by destruct (H i Hi).
    + by rewrite !lookup_ge_None_2 by lia.
  - intros E. apply app_inj_1 in E as [-> ->]; [done|done].
Qed.

Lemma words_gap_lt V W R (n m : nat) :
  length V = n -> length W = n -> length R = m -> (m < n)%nat ->
  ((forall i, (i < m)%nat -> V !! i = W !! (i + (n - m))%nat /\ V !! i = R !! i) /\
   (forall i, (m <= i < n)%nat -> V !! i = W !! (i - m)%nat)) <->
  V ++ R = R ++ W.
Proof.
  intros HV HW HR Hmn. split.
  - intros [H1 H2]. apply list_eq. intros i.
    destruct (decide (i < m)%nat) as [Hi|Hi]; [side_of; by destruct (H1 i Hi)|].
    destruct (decide (i < n)%nat) as [Hi'|Hi'].
    { side_of. rewrite HR. apply H2. lia. }
    destruct (decide (i < n + m)%nat) as [Hi''|Hi''].
    { side_of. rewrite HV, HR. destruct (H1 (i - n)%nat ltac:(lia)) as [E1 E2].
      rewrite <- E2, E1. f_equal. lia. }
    rewrite !lookup_ge_None_2; [done|rewrite length_app; lia..].
  - intros E.
    assert (Hpt : forall i, (V ++ R) !! i = (R ++ W) !! i) by (by rewrite E).
    assert (HVR : forall i, (i < m)%nat -> V !! i = R !! i).
    { intros i Hi. specialize (Hpt i). revert Hpt. by side_of. }
    split.
    + intros i Hi. split; [|by apply HVR].
      rewrite (HVR i Hi). specialize (Hpt (i + n)%nat).
      revert Hpt. side_of. rewrite HV, HR. intros Hpt.
      replace (i + n - n)%nat with i in Hpt by lia. rewrite Hpt. f_equal. lia.
    + intros i Hi. specialize (Hpt i). revert Hpt. side_of. by rewrite HR.
Qed.

Lemma words_gap_gt V W R (n m : nat) :
  length V = n -> length W = n -> length R = m -> (n < m)%nat ->
  ((forall i, (i < n)%nat -> V !! i = R !! i) /\
   (forall i, (i < n)%nat -> W !! i = R !! (m - n + i)%nat) /\
   (forall i, (i < m - n)%nat -> R !! i = R !! (i + n)%nat)) <->
  V ++ R = R ++ W.
Proof.
  intros HV HW HR Hmn. split.
  - intros (H1 & H2 & H3). apply list_eq. intros i.
    destruct (decide (i < n)%nat) as [Hi|Hi]; [side_of; by apply H1|].
    destruct (decide (i < m)%nat) as [Hi'|Hi'].
    { side_of. rewrite HV. rewrite (H3 (i - n)%nat) by lia. f_equal. lia. }
    destruct (decide (i < n + m)%nat) as [Hi''|Hi''].
    { side_of. rewrite HV, HR. rewrite (H2 (i - m)%nat) by lia. f_equal. lia. }
    rewrite !lookup_ge_None_2; [done|rewrite length_app; lia..].
  - intros E.
    assert (Hpt : forall i, (V ++ R) !! i = (R ++ W) !! i) by (by rewrite E).
    repeat split.
    + intros i Hi. specialize (Hpt i). revert Hpt. by side_of.
    + intros i Hi. specialize (Hpt (m + i)%nat). revert Hpt. side_of.
      rewrite HV, HR. intros Hpt. replace (m + i - m)%nat with i in Hpt by lia.
      rewrite <- Hpt. f_equal. lia.
    + intros i Hi. specialize (Hpt (i + n)%nat). revert Hpt. side_of.
      rewrite HV. intros Hpt. replace (i + n - n)%nat with i in Hpt by lia. done.
Qed.

End Words.

(** ** Alleles and reference as lists *)

Lemma string_get_chars (s : string) (n : nat) : String.get n s = chars s !! n.
Proof.
  revert n. induction s as [|a s IH]; intros [|n]; cbn; [done..|]. apply IH.
Qed.

Lemma length_chars (s : string) : Z.of_nat (length (chars s)) = strlen s.
Proof.
  unfold strlen, chars. f_equal. induction s as [|a s IH]; cbn; [done|]. by rewrite IH.
Qed.

Lemma chars_inj (s1 s2 : string) : chars s1 = chars s2 -> s1 = s2.
Proof.
  intros E. rewrite <- (string_of_list_ascii_of_string s1),
    <- (string_of_list_ascii_of_string s2). unfold chars in E. by rewrite E.
Qed.

Lemma string_at_chars s i c :
  string_at s i = Ret c <-> chars s !! Z.to_nat i = Some c.
Proof.
  unfold string_at. rewrite string_get_chars.
  destruct (chars s !! Z.to_nat i); split; intros; simplify_eq; done.
Qed.

Lemma string_at_eq_chars s1 i s2 j :
  string_at s1 i = string_at s2 j <-> chars s1 !! Z.to_nat i = chars s2 !! Z.to_nat j.
Proof.
  unfold string_at. rewrite !string_get_chars.
  destruct (chars s1 !! Z.to_nat i), (chars s2 !! Z.to_nat j);
    split; intros; simplify_eq; done.
Qed.

Lemma gap_lookup {A : Type} (ref : list A) (lo m t : nat) :
  (t < m)%nat -> take m (drop lo ref) !! t = ref !! (lo + t)%nat.
Proof. intros Ht. by rewrite lookup_take_lt, lookup_drop by done. Qed.

Section Shown.

Variable g : ReferenceGenome.
Variable ref : list ascii.
Hypothesis Hshows : shows g ref.

Lemma getBase_shown p :
  1 <= p <= Z.of_nat (length ref) ->
  exists c, ref !! Z.to_nat (p - 1) = Some c /\ getBase g p = Ret c.
Proof.
  intros Hp. destruct (lookup_lt_is_Some_2 ref (Z.to_nat (p - 1))) as [c Hc]; [lia|].
  exists c. split; [done|]. specialize (Hshows _ _ Hc).
  by replace (Z.of_nat (Z.to_nat (p - 1)) + 1) with p in Hshows by lia.
Qed.

Lemma getBase_shown_is_ret p :
  1 <= p <= Z.of_nat (length ref) -> is_ret (getBase g p).
Proof. intros Hp. destruct (getBase_shown p Hp) as (c & _ & Hc). by exists c. Qed.

Lemma string_at_getBase_shown s i p :
  1 <= p <= Z.of_nat (length ref) ->
  string_at s i = getBase g p <-> chars s !! Z.to_nat i = ref !! Z.to_nat (p - 1).
Proof.
  intros Hp. destruct (getBase_shown p Hp) as (c & -> & ->).
  unfold string_at. rewrite string_get_chars.
  destruct (chars s !! Z.to_nat i); split; intros; simplify_eq; done.
Qed.

Lemma getBase_eq_shown p q :
  1 <= p <= Z.of_nat (length ref) -> 1 <= q <= Z.of_nat (length ref) ->
  getBase g p = getBase g q <-> ref !! Z.to_nat (p - 1) = ref !! Z.to_nat (q - 1).
Proof.
  intros Hp Hq. destruct (getBase_shown p Hp) as (c & -> & ->).
  destruct (getBase_shown q Hq) as (c' & -> & ->).
  split; intros; simplify_eq; done.
Qed.

(** Two insertions at different positions: the test is the comparison of
    the two words around the gap [R]. *)
Lemma insertions_gap_words pos1 seq1 pos2 seq2 :
  1 <= Z.min pos1 pos2 -> Z.max pos1 pos2 - 1 <= Z.of_nat (length ref) ->
  Z.max pos1 pos2 <= UINT32_MAX ->
  pos1 <> pos2 -> strlen seq1 = strlen seq2 -> strlen seq1 <= UINT32_MAX ->
  let lo := Z.min pos1 pos2 in
  let hi := Z.max pos1 pos2 in
  let R := take (Z.to_nat (hi - lo)) (drop (Z.to_nat (lo - 1)) ref) in
  equivalentInsertions g pos1 seq1 pos2 seq2 = Ret true <->
  chars (allele_lo pos1 seq1 pos2 seq2) ++ R = R ++ chars (allele_hi pos1 seq1 pos2 seq2).
Proof.
  intros Hlo Hhi Hmax Hne Hlen Hn lo hi R.
  assert (H1 : u32 pos1) by (unfold u32; lia).
  assert (H2 : u32 pos2) by (unfold u32; lia).
  pose proof (strlen_allele_lo pos1 seq1 pos2 seq2 Hlen) as Hv.
  pose proof (strlen_allele_hi pos1 seq1 pos2 seq2 Hlen) as Hw.
  rewrite <- length_chars in Hv, Hw.
  assert (Hn0 : 0 <= strlen seq1) by (unfold strlen; lia).
  assert (HR : length R = Z.to_nat (hi - lo)).
  { subst R. rewrite length_take, length_drop. lia. }
  assert (HRi : forall t, (t < Z.to_nat (hi - lo))%nat ->
                          R !! t = ref !! Z.to_nat (lo + Z.of_nat t - 1)).
  { intros t Ht. subst R. rewrite gap_lookup by done. f_equal; lia. }
  destruct (Z.lt_trichotomy (hi - lo) (strlen seq1)) as [Hlt|[Heq|Hgt]].
  - rewrite equivalentInsertions_lt_length_iff by done.
    rewrite <- (words_gap_lt _ _ R (Z.to_nat (strlen seq1)) (Z.to_nat (hi - lo)))
      by lia.
    unfold insertions_gap_lt_length. fold lo hi.
    apply Morphisms_Prop.and_iff_morphism; split.
    + intros H i Hi. destruct (H (Z.of_nat i) ltac:(lia)) as [E1 E2].
      apply string_at_eq_chars in E1. apply string_at_getBase_shown in E2; [|lia].
      rewrite !Nat2Z.id in E1, E2. rewrite E2 at 2. rewrite HRi by done. split; [|done].
      rewrite E1. f_equal; lia.
    + intros H i Hi. destruct (H (Z.to_nat i) ltac:(lia)) as [E1 E2].
      rewrite HRi in E2 by lia.
      split; [apply string_at_eq_chars | apply string_at_getBase_shown; [lia|]].
      * rewrite E1. f_equal; lia.
      * rewrite E2. f_equal; lia.
    + intros H i Hi. specialize (H (Z.of_nat i) ltac:(lia)).
      apply string_at_eq_chars in H. rewrite Nat2Z.id in H. rewrite H. f_equal; lia.
    + intros H i Hi. specialize (H (Z.to_nat i) ltac:(lia)).
      apply string_at_eq_chars. rewrite H. f_equal; lia.
  - rewrite equivalentInsertions_eq_length_iff by done.
    rewrite <- words_gap_eq by lia.
    unfold insertions_gap_eq_length. fold lo hi. split.
    + intros H i Hi. destruct (H (Z.of_nat i) ltac:(lia)) as [E1 E2].
      apply string_at_eq_chars in E1. apply string_at_getBase_shown in E2; [|lia].
      rewrite !Nat2Z.id in E1, E2. rewrite HRi by lia. split; [done|].
      rewrite E2. f_equal; lia.
    + intros H i Hi. destruct (H (Z.to_nat i) ltac:(lia)) as [E1 E2].
      rewrite HRi in E2 by lia.
      split; [by apply string_at_eq_chars | apply string_at_getBase_shown; [lia|]].
      rewrite E2. f_equal; lia.
  - rewrite equivalentInsertions_gt_length_iff; [|done..|]; cycle 1.
    { intros p Hp. apply getBase_shown_is_ret. fold lo hi in Hp. lia. }
    rewrite <- (words_gap_gt _ _ R (Z.to_nat (strlen seq1)) (Z.to_nat (hi - lo)))
      by lia.
    unfold insertions_gap_gt_length. fold lo hi.
    apply Morphisms_Prop.and_iff_morphism;
      [|apply Morphisms_Prop.and_iff_morphism]; split.
    + intros H i Hi. specialize (H (Z.of_nat i) ltac:(lia)).
      apply string_at_getBase_shown in H; [|lia].
      rewrite Nat2Z.id in H. rewrite HRi by lia. rewrite H. f_equal; lia.
    + intros H i Hi. specialize (H (Z.to_nat i) ltac:(lia)).
      rewrite HRi in H by lia. apply string_at_getBase_shown; [lia|].
      rewrite H. f_equal; lia.
    + intros H i Hi. specialize (H (Z.of_nat i) ltac:(lia)).
      apply string_at_getBase_shown in H; [|lia].
      rewrite Nat2Z.id in H. rewrite HRi by lia. rewrite H. f_equal; lia.
    + intros H i Hi. specialize (H (Z.to_nat i) ltac:(lia)).
      rewrite HRi in H by lia. apply string_at_getBase_shown; [lia|].
      rewrite H. f_equal; lia.
    + intros H i Hi. specialize (H (lo + Z.of_nat i) ltac:(lia)).
      apply getBase_eq_shown in H; [|lia..].
      rewrite !HRi by lia. rewrite H. f_equal; lia.
    + intros H s Hs. specialize (H (Z.to_nat (s - lo)) ltac:(lia)).
      rewrite !HRi in H by lia. apply getBase_eq_shown; [lia..|].
      etransitivity; [etransitivity; [|exact H]|]; f_equal; lia.
Qed.

End Shown.

(** ** Edits of a list *)

Section Edits.

Context {A : Type}.
Implicit Types l V W : list A.

(** Inserting [V] before index [a] and [W] before index [a + m] give the
    same list exactly when [V] and [W] are conjugate through the [m] elements
    between the two places. *)
Lemma insert_split l (a m : nat) V W :
  (a + m <= length l)%nat ->
  take a l ++ V ++ drop a l = take (a + m) l ++ W ++ drop (a + m) l <->
  V ++ take m (drop a l) = take m (drop a l) ++ W.
Proof.
  intros Hl.
  assert (Hd : drop a l = take m (drop a l) ++ drop (a + m) l)
    by (by rewrite <- drop_drop, take_drop).
  rewrite <- (take_take_drop l a m), <- !app_assoc.
  rewrite Hd at 1. split.
  - intros E. apply app_inv_head in E. rewrite !app_assoc in E.
    by apply app_inv_tail in E.
  - intros E. f_equal. by rewrite !app_assoc, E.
Qed.

(** Removing [n] elements from index [a] on and from index [b] on give the
    same list exactly when the list has period [n] between the two places. *)
Lemma delete_split l (a b n : nat) :
  (a <= b)%nat -> (b + n <= length l)%nat ->
  take a l ++ drop (a + n) l = take b l ++ drop (b + n) l <->
  forall i, (a <= i < b)%nat -> l !! i = l !! (i + n)%nat.
Proof.
  intros Hab Hl.
  assert (Ha : length (take a l) = a) by (rewrite length_take; lia).
  assert (Hb : length (take b l) = b) by (rewrite length_take; lia).
  split.
  - intros E i Hi.
    assert (Ei : (take a l ++ drop (a + n) l) !! i = (take b l ++ drop (b + n) l) !! i)
      by (by rewrite E).
    rewrite lookup_app_r, lookup_app_l, lookup_drop, lookup_take_lt, Ha in Ei by lia.
    rewrite <- Ei. f_equal; lia.
  - intros H. apply list_eq. intros i.
    destruct (decide (i < a)%nat); [|destruct (decide (i < b)%nat)].
    + by rewrite !lookup_app_l, !lookup_take_lt by lia.
    + rewrite lookup_app_r, lookup_app_l, lookup_drop, lookup_take_lt, Ha by lia.
      rewrite (H i) by lia. f_equal; lia.
    + rewrite !lookup_app_r, !lookup_drop, Ha, Hb by lia. f_equal; lia.
Qed.

End Edits.

Lemma length_insert_before ref pos seq :
  length (insert_before ref pos seq) = (length ref + length seq)%nat.
Proof. unfold insert_before. rewrite !length_app, length_take, length_drop. lia. Qed.

Lemma length_delete_from ref pos n :
  1 <= pos -> 0 <= n -> pos - 1 + n <= Z.of_nat (length ref) ->
  Z.of_nat (length (delete_from ref pos n)) = Z.of_nat (length ref) - n.
Proof.
  intros Hp Hn Hl. unfold delete_from. rewrite length_app, length_take, length_drop. lia.
Qed.

(** ** The tests on a chromosome that the window shows *)

Section Meaning.

Variable g : ReferenceGenome.
Variable ref : list ascii.
Hypothesis Hshows : shows g ref.
Hypothesis Hsize : Z.of_nat (length ref) < UINT32_MAX.

(** The deleted bases are those of the reference. *)
Lemma validDeletion_segment pos seq :
  1 <= pos -> pos - 1 + strlen seq <= Z.of_nat (length ref) ->
  validDeletion g pos seq = Ret true <->
  chars seq = take (Z.to_nat (strlen seq)) (drop (Z.to_nat (pos - 1)) ref).
Proof.
  intros Hp Hl. assert (Hn : 0 <= strlen seq) by (unfold strlen; lia).
  unfold validDeletion. rewrite wrap32_small by lia.
  rewrite (validDeletion_loop_true g pos seq _ 0), Z2Nat.id by done.
  split.
  - intros H. apply list_eq. intros i.
    destruct (decide (Z.of_nat i < strlen seq)) as [Hi|Hi].
    + destruct (H (Z.of_nat i) ltac:(lia)) as (c & Ec & Eg).
      rewrite Z.add_0_l, wrap32_small in Ec, Eg by lia.
      apply string_at_chars in Ec. rewrite Nat2Z.id in Ec.
      destruct (getBase_shown g ref Hshows (pos + Z.of_nat i) ltac:(lia)) as (c' & Er & Eg').
      rewrite gap_lookup by lia. rewrite Ec.
      replace (Z.to_nat (pos - 1) + i)%nat with (Z.to_nat (pos + Z.of_nat i - 1)) by lia.
      rewrite Er. congruence.
    + rewrite !lookup_ge_None_2; [done| |].
      * rewrite length_take, length_drop. lia.
      * pose proof (length_chars seq). lia.
  - intros E t Ht.
    destruct (getBase_shown g ref Hshows (pos + t) ltac:(lia)) as (c & Er & Eg).
    exists c. rewrite Z.add_0_l, !wrap32_small by lia. split; [|done].
    apply string_at_chars. rewrite E, gap_lookup by lia. rewrite <- Er. f_equal; lia.
Qed.

(** Two insertions pass the test exactly when they produce the same
    chromosome. *)
Lemma insertions_same_edit pos1 seq1 pos2 seq2 :
  1 <= pos1 <= Z.of_nat (length ref) + 1 ->
  1 <= pos2 <= Z.of_nat (length ref) + 1 ->
  strlen seq1 <= UINT32_MAX ->
  equivalentInsertions g pos1 seq1 pos2 seq2 = Ret true <->
  insert_before ref pos1 (chars seq1) = insert_before ref pos2 (chars seq2).
Proof.
  intros Hp1 Hp2 Hn.
  destruct (Z.eq_dec (strlen seq1) (strlen seq2)) as [Hlen|Hlen]; cycle 1.
  { unfold equivalentInsertions. rewrite (proj2 (Z.eqb_neq _ _) Hlen). cbn [negb].
    split; [discriminate|]. intros E. apply (f_equal length) in E.
    rewrite !length_insert_before in E. rewrite <- !length_chars in Hlen. lia. }
  destruct (Z.eq_dec pos1 pos2) as [->|Hne].
  { unfold equivalentInsertions. rewrite Hlen, !Z.eqb_refl. cbn [negb]. split.
    - intros [= E]. apply String.eqb_eq in E. by subst.
    - intros E. unfold insert_before in E. apply app_inv_head, app_inv_tail in E.
      apply chars_inj in E. subst. by rewrite String.eqb_refl. }
  rewrite (insertions_gap_words g ref Hshows) by lia. cbv zeta.
  unfold allele_lo, allele_hi, insert_before.
  destruct (Z.ltb_spec pos1 pos2) as [Hlt|Hge].
  - rewrite Z.min_l, Z.max_r by lia.
    replace (Z.to_nat (pos2 - 1))
      with (Z.to_nat (pos1 - 1) + Z.to_nat (pos2 - pos1))%nat by lia.
    symmetry. apply insert_split. lia.
  - rewrite Z.min_r, Z.max_l by lia.
    replace (Z.to_nat (pos1 - 1))
      with (Z.to_nat (pos2 - 1) + Z.to_nat (pos1 - pos2))%nat by lia.
    rewrite <- insert_split by lia. split; intros E; by symmetry.
Qed.

(** The two reads of one step of the periodicity loop. *)
Lemma same_base_shown p q :
  1 <= p <= Z.of_nat (length ref) -> 1 <= q <= Z.of_nat (length ref) ->
  (exists c, getBase g p = Ret c /\ getBase g q = Ret c) <->
  ref !! Z.to_nat (p - 1) = ref !! Z.to_nat (q - 1).
Proof.
  intros Hp Hq. destruct (getBase_shown g ref Hshows p Hp) as (c & -> & ->).
  destruct (getBase_shown g ref Hshows q Hq) as (c' & -> & ->).
  split; [intros (? & ? & ?) | intros ?; exists c]; simplify_eq; done.
Qed.

(** Two deletions of bases that are there pass the test exactly when they
    produce the same chromosome. *)
Lemma deletions_same_edit pos1 seq1 pos2 seq2 :
  1 <= pos1 -> pos1 - 1 + strlen seq1 <= Z.of_nat (length ref) ->
  1 <= pos2 -> pos2 - 1 + strlen seq2 <= Z.of_nat (length ref) ->
  validDeletion g pos1 seq1 = Ret true -> validDeletion g pos2 seq2 = Ret true ->
  equivalentDeletions g pos1 seq1 pos2 seq2 = Ret true <->
  delete_from ref pos1 (strlen seq1) = delete_from ref pos2 (strlen seq2).
Proof.
  intros Hp1 Hl1 Hp2 Hl2 Hv1 Hv2.
  assert (Hn1 : 0 <= strlen seq1) by (unfold strlen; lia).
  assert (Hn2 : 0 <= strlen seq2) by (unfold strlen; lia).
  destruct (Z.eq_dec (strlen seq1) (strlen seq2)) as [Hlen|Hlen]; cycle 1.
  { unfold equivalentDeletions. rewrite (proj2 (Z.eqb_neq _ _) Hlen). cbn [negb].
    split; [discriminate|]. intros E. apply (f_equal length) in E.
    apply (f_equal Z.of_nat) in E. rewrite !length_delete_from in E by done. lia. }
  destruct (Z.eq_dec pos1 pos2) as [->|Hne].
  { apply validDeletion_segment in Hv1, Hv2; [|done..].
    rewrite <- Hlen, <- Hv1 in Hv2. apply chars_inj in Hv2. subst seq2.
    unfold equivalentDeletions. rewrite !Z.eqb_refl. cbn [negb].
    by rewrite String.eqb_refl. }
  rewrite equivalentDeletions_cases by (unfold u32; done || lia).
  rewrite periodic_lt_loop_true, Z2Nat.id, (wrap32_small (strlen seq1)) by lia.
  unfold delete_from. rewrite <- Hlen.
  rewrite !Z2Nat.inj_add by lia.
  destruct (Z.ltb_spec pos1 pos2) as [Hlt|Hge].
  - rewrite Z.min_l, Z.max_r by lia. rewrite delete_split by lia. split.
    + intros H i Hi. specialize (H (Z.of_nat i + 1 - pos1) ltac:(lia)).
      rewrite !wrap32_small in H by lia. apply same_base_shown in H; [|lia..].
      etransitivity; [etransitivity; [|exact H]|]; f_equal; lia.
    + intros H t Ht. rewrite !wrap32_small by lia. apply same_base_shown; [lia..|].
      specialize (H (Z.to_nat (pos1 + t - 1)) ltac:(lia)).
      etransitivity; [etransitivity; [|exact H]|]; f_equal; lia.
  - rewrite Z.min_r, Z.max_l by lia.
    assert (forall x y : list ascii, x = y <-> y = x) as -> by (split; by intros ->).
    rewrite delete_split by lia. split.
    + intros H i Hi. specialize (H (Z.of_nat i + 1 - pos2) ltac:(lia)).
      rewrite !wrap32_small in H by lia. apply same_base_shown in H; [|lia..].
      etransitivity; [etransitivity; [|exact H]|]; f_equal; lia.
    + intros H t Ht. rewrite !wrap32_small by lia. apply same_base_shown; [lia..|].
      specialize (H (Z.to_nat (pos2 + t - 1)) ltac:(lia)).
      etransitivity; [etransitivity; [|exact H]|]; f_equal; lia.
Qed.

End Meaning.

(** * Further properties of the indel tests *)

(** A window shows a short chromosome: every base is looked up. *)
Ltac shows_by_cases :=
  let i := fresh "i" in let c := fresh "c" in let H := fresh "H" in
  intros i c H;
  repeat (destruct i as [|i]; [cbv in H; injection H as <-; reflexivity|]);
  cbv in H; discriminate H.

(** X1.  On a window that shows the chromosome [ref], and for a deletion
    that lies within it, [validDeletion(pos, seq)] returns true exactly when
    [seq] is the run of [seq.length()] reference bases that starts at
    position [pos]. *)
Theorem validDeletion_reads_reference g ref pos seq :
  shows g ref -> Z.of_nat (length ref) < UINT32_MAX ->
  1 <= pos -> pos - 1 + strlen seq <= Z.of_nat (length ref) ->
  validDeletion g pos seq = Ret true <->
  chars seq = take (Z.to_nat (strlen seq)) (drop (Z.to_nat (pos - 1)) ref).
Proof. intros Hshows Hsize. by apply validDeletion_segment. Qed.

Lemma validDeletion_reads_reference_witness :
  validDeletion acgt3 2 "CGT" = Ret true <->
  chars "CGT" = take (Z.to_nat (strlen "CGT")) (drop (Z.to_nat (2 - 1)) (chars "ACGTACGTACGT")).
Proof.
  apply (validDeletion_reads_reference acgt3 (chars "ACGTACGTACGT") 2 "CGT");
    [shows_by_cases | vm_compute; reflexivity | lia | vm_compute; discriminate].
Defined.

(** X2.  The third case of [equivalentInsertions].  For [pos1 <> pos2] and
    alleles of one length [n], with [j = min(pos1,pos2)], [k = max(pos1,pos2)],
    [v] the allele at [j] and [w] the allele at [k]: when the gap [k - j] is
    larger than [n], the verdict is true if and only if [v] is the reference
    at [j .. j+n-1], [w] is the reference at [k-n .. k-1], and
    [getBase(s) == getBase(s+n)] for every [s] in [j, k-n). *)
Theorem equivalentInsertions_gap_gt_length g pos1 seq1 pos2 seq2 :
  window_ok g -> u32 pos1 -> u32 pos2 -> pos1 <> pos2 -> strlen seq1 = strlen seq2 ->
  strlen seq1 < Z.max pos1 pos2 - Z.min pos1 pos2 ->
  equivalentInsertions g pos1 seq1 pos2 seq2 = Ret true <->
  insertions_gap_gt_length g pos1 seq1 pos2 seq2.
Proof.
  intros Hg H1 H2 Hne Hlen Hm. apply equivalentInsertions_gt_length_iff; try done.
  intros p Hp. apply getBase_is_ret; [done|]. destruct H1, H2. unfold u32. lia.
Qed.

Lemma equivalentInsertions_gap_gt_length_witness :
  equivalentInsertions acgt3 2 "CG" 10 "CG" = Ret true <->
  insertions_gap_gt_length acgt3 2 "CG" 10 "CG".
Proof.
  apply (equivalentInsertions_gap_gt_length acgt3 2 "CG" 10 "CG");
    [constructor; cbn; unfold UINT32_MAX; lia
    | unfold u32, UINT32_MAX; lia | unfold u32, UINT32_MAX; lia | lia | reflexivity
    | change (strlen "CG") with 2; lia].
Defined.

(** X3.  [equivalentInsertions] decides whether two insertions give the same
    chromosome.  On a window that shows the chromosome [ref], for positions
    from 1 to one past its end: the verdict is true if and only if inserting
    [seq1] before position [pos1 - 1 + 1] and inserting [seq2] in the same
    way at [pos2] produce equal sequences, where the inserted bases come
    before the base at the given position. *)
Theorem equivalentInsertions_same_chromosome g ref pos1 seq1 pos2 seq2 :
  shows g ref -> Z.of_nat (length ref) < UINT32_MAX ->
  1 <= pos1 <= Z.of_nat (length ref) + 1 ->
  1 <= pos2 <= Z.of_nat (length ref) + 1 ->
  strlen seq1 <= UINT32_MAX ->
  equivalentInsertions g pos1 seq1 pos2 seq2 = Ret true <->
  insert_before ref pos1 (chars seq1) = insert_before ref pos2 (chars seq2).
Proof. intros Hshows Hsize. by apply insertions_same_edit. Qed.

Lemma equivalentInsertions_same_chromosome_witness :
  equivalentInsertions acgt3 3 "GTAC" 9 "ACGT" = Ret true <->
  insert_before (chars "ACGTACGTACGT") 3 (chars "GTAC") =
  insert_before (chars "ACGTACGTACGT") 9 (chars "ACGT").
Proof.
  apply (equivalentInsertions_same_chromosome acgt3 (chars "ACGTACGTACGT") 3 "GTAC" 9 "ACGT");
    [shows_by_cases | vm_compute; reflexivity | vm_compute; split; discriminate
    | vm_compute; split; discriminate | vm_compute; discriminate].
Defined.

(** X4.  [equivalentDeletions] decides whether two deletions give the same
    chromosome.  On a window that shows the chromosome [ref], for two
    deletions that [validDeletion] accepts: the verdict is true if and only
    if removing [seq1.length()] bases from position [pos1] on and removing
    [seq2.length()] bases from position [pos2] on produce equal sequences. *)
Theorem equivalentDeletions_same_chromosome g ref pos1 seq1 pos2 seq2 :
  shows g ref -> Z.of_nat (length ref) < UINT32_MAX ->
  1 <= pos1 -> pos1 - 1 + strlen seq1 <= Z.of_nat (length ref) ->
  1 <= pos2 -> pos2 - 1 + strlen seq2 <= Z.of_nat (length ref) ->
  validDeletion g pos1 seq1 = Ret true -> validDeletion g pos2 seq2 = Ret true ->
  equivalentDeletions g pos1 seq1 pos2 seq2 = Ret true <->
  delete_from ref pos1 (strlen seq1) = delete_from ref pos2 (strlen seq2).
Proof. intros Hshows Hsize. by apply deletions_same_edit. Qed.

Lemma equivalentDeletions_same_chromosome_witness :
  equivalentDeletions acgt3 2 "CGTA" 4 "TACG" = Ret true <->
  delete_from (chars "ACGTACGTACGT") 2 (strlen "CGTA") =
  delete_from (chars "ACGTACGTACGT") 4 (strlen "TACG").
Proof.
  apply (equivalentDeletions_same_chromosome acgt3 (chars "ACGTACGTACGT") 2 "CGTA" 4 "TACG");
    [shows_by_cases | vm_compute; reflexivity | lia | vm_compute; discriminate
    | lia | vm_compute; discriminate | reflexivity | reflexivity].
Defined.

(** X5.  [equivalentInsertions] is transitive on the insertions into a
    chromosome that the window shows: with the symmetry of the test it
    groups the insertions into classes. *)
Theorem equivalentInsertions_transitive g ref pos1 seq1 pos2 seq2 pos3 seq3 :
  shows g ref -> Z.of_nat (length ref) < UINT32_MAX ->
  1 <= pos1 <= Z.of_nat (length ref) + 1 ->
  1 <= pos2 <= Z.of_nat (length ref) + 1 ->
  1 <= pos3 <= Z.of_nat (length ref) + 1 ->
  strlen seq1 <= UINT32_MAX ->
  equivalentInsertions g pos1 seq1 pos2 seq2 = Ret true ->
  equivalentInsertions g pos2 seq2 pos3 seq3 = Ret true ->
  equivalentInsertions g pos1 seq1 pos3 seq3 = Ret true.
Proof.
  intros Hshows Hsize Hp1 Hp2 Hp3 Hn E12 E23.
  apply (insertions_same_edit g ref Hshows Hsize) in E12; [|done..].
  assert (Hn2 : strlen seq2 <= UINT32_MAX).
  { apply (f_equal length) in E12. rewrite !length_insert_before in E12.
    rewrite <- !length_chars in *. lia. }
  apply (insertions_same_edit g ref Hshows Hsize) in E23; [|done..].
  apply (insertions_same_edit g ref Hshows Hsize); [done..|]. congruence.
Qed.

Lemma equivalentInsertions_transitive_witness :
  equivalentInsertions acgt3 1 "ACGT" 9 "ACGT" = Ret true.
Proof.
  apply (equivalentInsertions_transitive acgt3 (chars "ACGTACGTACGT")
           1 "ACGT" 5 "ACGT" 9 "ACGT");
    [shows_by_cases | vm_compute; reflexivity | vm_compute; split; discriminate
    | vm_compute; split; discriminate | vm_compute; split; discriminate
    | vm_compute; discriminate | reflexivity | reflexivity].
Defined.

(** * The reader at the end of the file, and its other operations *)

Section ReaderTotal.

Variable file : list byte.

(** Fewer bytes are left than are asked for: the loop returns false after
    it has taken them all, when the counter stays below [INT_MAX] for
    them. *)
Lemma read_buffer_loop_short n i r :
  reader_ok file r -> (length (remaining file r) < n)%nat ->
  i + Z.of_nat (length (remaining file r)) <= INT_MAX ->
  reads file (read_buffer_loop n i) r None [].
Proof.
  revert i r. induction n as [|n IH]; intros i r Hok Hn Hi; [lia|].
  pose proof (fetch_step file r Hok) as Hstep.
  destruct (remaining file r) as [|b rest] eqn:Hrem.
  - exists r. cbn [read_buffer_loop]. by rewrite Hstep.
  - destruct Hstep as (r1 & Hguard & Hb & Hok2 & Hrem2).
    cbn [length] in Hi, Hn.
    destruct (IH (i + 1) _ Hok2) as (r' & E & Hok' & Hrem');
      [rewrite Hrem2; lia|rewrite Hrem2; lia|].
    exists r'. cbn [read_buffer_loop]. rewrite Hguard, Hb.
    destruct (Z.eqb_spec i INT_MAX); [lia|]. by rewrite E.
Qed.

(** The counter reaches [INT_MAX] with a byte to store and another round to
    go: the increment has no defined result. *)
Lemma read_buffer_loop_overflow n i r :
  reader_ok file r -> i <= INT_MAX ->
  INT_MAX < i + Z.of_nat n -> INT_MAX < i + Z.of_nat (length (remaining file r)) ->
  read_buffer_loop n i r = Undefined SignedOverflow.
Proof.
  revert i r. induction n as [|n IH]; intros i r Hok Hi Hn Hlen; [lia|].
  pose proof (fetch_step file r Hok) as Hstep.
  destruct (remaining file r) as [|b rest] eqn:Hrem; [cbn [length] in Hlen; lia|].
  destruct Hstep as (r1 & Hguard & Hb & Hok2 & Hrem2).
  cbn [read_buffer_loop]. rewrite Hguard, Hb.
  destruct (Z.eqb_spec i INT_MAX) as [|Hne]; [done|].
  cbn [length] in Hlen.
  by rewrite (IH (i + 1) _ Hok2) by (rewrite ?Hrem2; lia).
Qed.

Lemma read_buffer_short n r :
  reader_ok file r -> (length (remaining file r) < n)%nat ->
  Z.of_nat (length (remaining file r)) <= INT_MAX ->
  reads file (read_buffer n) r None [].
Proof. intros Hok Hn Hi. by apply read_buffer_loop_short. Qed.

Lemma read_buffer_exact n r :
  reader_ok file r ->
  Z.of_nat n <= INT_MAX \/ Z.of_nat (length (remaining file r)) <= INT_MAX ->
  reads file (read_buffer n) r
        (if (n <=? length (remaining file r))%nat
         then Some (take n (remaining file r)) else None)
        (drop n (remaining file r)).
Proof.
  intros Hok Hint. destruct (Nat.leb_spec n (length (remaining file r))) as [Hle|Hlt].
  - apply read_buffer_reads; [done|done|lia].
  - rewrite drop_ge by lia. apply read_buffer_short; [done|done|lia].
Qed.

Lemma read_buffer_overflow n r :
  reader_ok file r ->
  INT_MAX < Z.of_nat n -> INT_MAX < Z.of_nat (length (remaining file r)) ->
  read_buffer n r = Undefined SignedOverflow.
Proof.
  intros Hok Hn Hlen. apply read_buffer_loop_overflow; [done|unfold INT_MAX; lia|lia..].
Qed.

(** *** Integers *)

Lemma byte_val_range b : 0 <= byte_val b <= 255.
Proof. unfold byte_val. pose proof (Byte.to_N_bounded b). lia. Qed.

Lemma uint32_of_bytes_big_endian bs :
  length bs = 4%nat -> uint32_of_bytes bs = big_endian bs.
Proof.
  destruct bs as [|b0 [|b1 [|b2 [|b3 [|]]]]]; try done. intros _.
  unfold uint32_of_bytes, big_endian. cbn [fold_left].
  pose proof (byte_val_range b0). pose proof (byte_val_range b1).
  pose proof (byte_val_range b2). pose proof (byte_val_range b3).
  rewrite !Z.shiftl_mul_pow2 by lia. unfold wrap32.
  change (2 ^ 8) with 256. rewrite Z.mul_0_l, (Z.mod_small 0) by lia. cbn [Z.add].
  rewrite !(Z.mod_small (byte_val b0)) by lia.
  rewrite !(Z.mod_small (byte_val b0 * 256)) by lia.
  rewrite !(Z.mod_small (byte_val b0 * 256 + byte_val b1)) by lia.
  rewrite !(Z.mod_small ((byte_val b0 * 256 + byte_val b1) * 256)) by lia.
  rewrite !(Z.mod_small ((byte_val b0 * 256 + byte_val b1) * 256 + byte_val b2)) by lia.
  rewrite !(Z.mod_small (((byte_val b0 * 256 + byte_val b1) * 256 + byte_val b2) * 256))
    by lia.
  rewrite Z.mod_small by lia. lia.
Qed.

Lemma big_endian_snoc bs b : big_endian (bs ++ [b]) = 256 * big_endian bs + byte_val b.
Proof. unfold big_endian. by rewrite fold_left_app. Qed.

Lemma big_endian_range bs : 0 <= big_endian bs < 256 ^ Z.of_nat (length bs).
Proof.
  induction bs as [|b bs IH] using rev_ind; [cbn; lia|].
  rewrite big_endian_snoc, length_app, Nat2Z.inj_add, Z.pow_add_r by lia.
  pose proof (byte_val_range b). cbn [length]. change (256 ^ Z.of_nat 1) with 256. lia.
Qed.

Lemma uint64_of_bytes_snoc bs b :
  uint64_of_bytes (bs ++ [b]) = wrap64 (wrap64 (Z.shiftl (uint64_of_bytes bs) 8) + byte_val b).
Proof. unfold uint64_of_bytes. by rewrite fold_left_app. Qed.

Lemma uint64_of_bytes_big_endian bs :
  (length bs <= 8)%nat -> uint64_of_bytes bs = big_endian bs.
Proof.
  induction bs as [|b bs IH] using rev_ind; [done|]. intros Hlen.
  rewrite length_app in Hlen. cbn [length] in Hlen.
  rewrite uint64_of_bytes_snoc, big_endian_snoc, IH by lia.
  pose proof (big_endian_range bs) as Hr. pose proof (byte_val_range b).
  assert (256 ^ Z.of_nat (length bs) <= 256 ^ 7) by (apply Z.pow_le_mono_r; lia).
  rewrite Z.shiftl_mul_pow2 by lia. change (2 ^ 8) with 256.
  unfold wrap64. change (256 ^ 7) with 72057594037927936 in *.
  rewrite (Z.mod_small (big_endian bs * 256)) by lia.
  rewrite Z.mod_small by lia. lia.
Qed.

Lemma read_uint16_reads r b0 b1 rest :
  reader_ok file r -> remaining file r = b0 :: b1 :: rest ->
  reads file read_uint16 r (Some (big_endian [b0; b1])) rest.
Proof.
  intros Hok Hrem. unfold read_uint16.
  eapply reads_seq; [apply read_buffer_reads; [done | rewrite Hrem; cbn; lia | done]|].
  intros r' Hok' Hrem'. rewrite Hrem in *. cbn [take drop] in *.
  replace (wrap16 _) with (big_endian [b0; b1]); [by apply reads_ret|].
  unfold big_endian, wrap16. cbn [fold_left].
  pose proof (byte_val_range b0). pose proof (byte_val_range b1).
  rewrite Z.shiftl_mul_pow2 by lia. change (2 ^ 8) with 256.
  rewrite Z.mod_small by lia. lia.
Qed.

Lemma read_uint64_reads r bs rest :
  reader_ok file r -> remaining file r = bs ++ rest -> length bs = 8%nat ->
  reads file read_uint64 r (Some (big_endian bs)) rest.
Proof.
  intros Hok Hrem Hlen. unfold read_uint64.
  eapply reads_seq; [apply read_buffer_reads; [done | rewrite Hrem, length_app; lia | done]|].
  intros r' Hok' Hrem'. rewrite Hrem, <- Hlen, take_app_length.
  rewrite Hrem, <- Hlen, drop_app_length in Hrem'.
  rewrite uint64_of_bytes_big_endian by lia. by apply reads_ret.
Qed.

(** *** Strings *)

Lemma read_one_reads r b rest :
  reader_ok file r -> remaining file r = b :: rest ->
  reads file (read_buffer 1) r (Some [b]) rest.
Proof.
  intros Hok Hrem.
  pose proof (read_buffer_reads file 1 r Hok) as H. rewrite Hrem in H.
  apply H; [cbn; lia|done].
Qed.

(** The string ends within the rounds that the loop has to go: it is stored
    with its null byte, and the reader is left behind the null byte. *)
Lemma read_string_loop_terminated cnt i r s rest :
  reader_ok file r -> remaining file r = s ++ x00 :: rest ->
  Forall (fun b => byte_val b <> 0) s -> (length s < cnt)%nat ->
  i + Z.of_nat (length s) <= INT_MAX ->
  reads file (read_string_loop cnt i) r (Some (s ++ [x00])) rest.
Proof.
  revert cnt i r. induction s as [|b s IH]; intros cnt i r Hok Hrem Hs Hlen Hi.
  - destruct cnt as [|cnt]; [cbn in Hlen; lia|]. cbn [read_string_loop app] in *.
    eapply reads_seq; [by apply read_one_reads|].
    intros r' Hok' Hrem'. change (byte_val x00 =? 0) with true. cbv iota.
    by apply reads_ret.
  - destruct cnt as [|cnt]; [cbn in Hlen; lia|]. cbn [read_string_loop app] in *.
    apply Forall_cons in Hs as [Hb Hs]. cbn [length] in Hi, Hlen.
    eapply reads_seq; [by apply read_one_reads|].
    intros r' Hok' Hrem'. cbv beta iota. rewrite (proj2 (Z.eqb_neq _ _) Hb).
    destruct (Z.eqb_spec i INT_MAX); [lia|].
    eapply reads_seq; [apply IH; [done..|lia|lia]|].
    intros r'' Hok'' Hrem''. by apply reads_ret.
Qed.

(** No null byte among the characters of all the rounds: they are stored,
    and no null byte is stored behind them. *)
Lemma read_string_loop_cut cnt i r s rest :
  reader_ok file r -> remaining file r = s ++ rest ->
  Forall (fun b => byte_val b <> 0) s -> length s = cnt ->
  i + Z.of_nat (length s) <= INT_MAX ->
  reads file (read_string_loop cnt i) r (Some s) rest.
Proof.
  revert cnt i r. induction s as [|b s IH]; intros cnt i r Hok Hrem Hs Hlen Hi.
  - subst cnt. by apply reads_ret.
  - subst cnt. cbn [length read_string_loop app] in *.
    apply Forall_cons in Hs as [Hb Hs].
    eapply reads_seq; [by apply read_one_reads|].
    intros r' Hok' Hrem'. cbv beta iota. rewrite (proj2 (Z.eqb_neq _ _) Hb).
    destruct (Z.eqb_spec i INT_MAX); [lia|].
    eapply reads_seq; [apply IH; [done..|lia]|].
    intros r'' Hok'' Hrem''. by apply reads_ret.
Qed.

(** The file ends before a null byte and before the last round. *)
Lemma read_string_loop_eof cnt i r s :
  reader_ok file r -> remaining file r = s ->
  Forall (fun b => byte_val b <> 0) s -> (length s < cnt)%nat ->
  i + Z.of_nat (length s) <= INT_MAX ->
  reads file (read_string_loop cnt i) r None [].
Proof.
  revert cnt i r. induction s as [|b s IH]; intros cnt i r Hok Hrem Hs Hlen Hi.
  - destruct cnt as [|cnt]; [cbn in Hlen; lia|]. cbn [read_string_loop].
    eapply reads_seq;
      [apply read_buffer_short; [done | rewrite Hrem; cbn; lia
                                | rewrite Hrem; unfold INT_MAX; cbn; lia]|].
    intros r' Hok' Hrem'. by apply reads_ret.
  - destruct cnt as [|cnt]; [cbn in Hlen; lia|]. cbn [read_string_loop].
    apply Forall_cons in Hs as [Hb Hs]. cbn [length] in Hi, Hlen.
    eapply reads_seq; [by apply read_one_reads|].
    intros r' Hok' Hrem'. cbv beta iota. rewrite (proj2 (Z.eqb_neq _ _) Hb).
    destruct (Z.eqb_spec i INT_MAX); [lia|].
    eapply reads_seq; [apply IH; [done..|lia|lia]|].
    intros r'' Hok'' Hrem''. by apply reads_ret.
Qed.

(** The counter reaches [INT_MAX] with a character other than the null byte
    and another round to go: the increment has no defined result. *)
Lemma read_string_loop_overflow cnt i r s rest :
  reader_ok file r -> remaining file r = s ++ rest ->
  Forall (fun b => byte_val b <> 0) s -> i <= INT_MAX ->
  INT_MAX < i + Z.of_nat cnt -> INT_MAX < i + Z.of_nat (length s) ->
  read_string_loop cnt i r = Undefined SignedOverflow.
Proof.
  revert cnt i r. induction s as [|b s IH]; intros cnt i r Hok Hrem Hs Hi Hcnt Hlen;
    [cbn [length] in Hlen; lia|].
  destruct cnt as [|cnt]; [lia|]. cbn [read_string_loop app] in *.
  apply Forall_cons in Hs as [Hb Hs]. cbn [length] in Hlen.
  destruct (reads_bind file (read_buffer 1)
              (fun bs : option (list byte) =>
                 match bs with
                 | Some [b0] =>
                     if byte_val b0 =? 0 then io_ret (Some [b0])
                     else if i =? INT_MAX then io_lift (Undefined SignedOverflow)
                     else
                       io_bind (read_string_loop cnt (i + 1))
                         (fun rest0 => io_ret match rest0 with
                                              | Some chars => Some (b0 :: chars)
                                              | None => None
                                              end)
                 | _ => io_ret None
                 end) r (Some [b]) (s ++ rest) (read_one_reads r b (s ++ rest) Hok Hrem))
    as (r' & Hok' & Hrem' & E).
  rewrite E. rewrite (proj2 (Z.eqb_neq _ _) Hb).
  destruct (Z.eqb_spec i INT_MAX) as [|Hne]; [done|].
  unfold io_bind. by rewrite (IH cnt (i + 1) r' Hok' Hrem' Hs) by lia.
Qed.

Lemma read_string_terminated maxlen r s rest :
  reader_ok file r -> remaining file r = s ++ x00 :: rest ->
  Forall (fun b => byte_val b <> 0) s -> (length s < maxlen)%nat ->
  Z.of_nat (length s) <= INT_MAX ->
  reads file (read_string maxlen) r (Some (s ++ [x00])) rest.
Proof. intros. by apply read_string_loop_terminated. Qed.

Lemma read_string_cut maxlen r s rest :
  reader_ok file r -> remaining file r = s ++ rest ->
  Forall (fun b => byte_val b <> 0) s -> length s = maxlen ->
  Z.of_nat (length s) <= INT_MAX ->
  reads file (read_string maxlen) r (Some s) rest.
Proof. intros. by apply read_string_loop_cut. Qed.

Lemma read_string_eof maxlen r s :
  reader_ok file r -> remaining file r = s ->
  Forall (fun b => byte_val b <> 0) s -> (length s < maxlen)%nat ->
  Z.of_nat (length s) <= INT_MAX ->
  reads file (read_string maxlen) r None [].
Proof. intros. by apply (read_string_loop_eof maxlen 0 r s). Qed.

Lemma read_string_overflow maxlen r s rest :
  reader_ok file r -> remaining file r = s ++ rest ->
  Forall (fun b => byte_val b <> 0) s ->
  INT_MAX < Z.of_nat maxlen -> INT_MAX < Z.of_nat (length s) ->
  read_string maxlen r = Undefined SignedOverflow.
Proof.
  intros Hok Hrem Hs Hmax Hlen.
  apply (read_string_loop_overflow maxlen 0 r s rest); [done..|unfold INT_MAX; lia|lia|lia].
Qed.

(** *** Skipping *)

Lemma skip_loop_spec fuel n r :
  reader_ok file r -> (1 <= n <= fuel)%nat ->
  if (n <=? length (drop (filepos r) file))%nat
  then reads file (skip_loop fuel n) r (Some true) (drop n (drop (filepos r) file))
  else returns file (skip_loop fuel n) r (Some false).
Proof.
  revert n r. induction fuel as [|fuel IH]; intros n r Hok Hn; [lia|].
  destruct r as [fd0 pos0 buf0 size0 off0]. pose proof Hok as Hok0.
  destruct Hok as (Hfd & Hsize & Hoff). cbn in Hfd, Hsize, Hoff. subst fd0.
  cbn [filepos]. set (unread := drop pos0 file).
  set (r := {| fd := Some file; filepos := pos0; buf := buf0; bufsize := size0;
               offset := off0 |}) in *.
  set (got := take size0 unread).
  assert (Hsplit : unread = got ++ drop (length got) unread)
    by (symmetry; apply take_then_drop_length).
  assert (Hle : (length got <= length unread)%nat).
  { subst got. rewrite length_take. lia. }
  assert (Hdrop : drop (pos0 + length got) file = drop (length got) unread).
  { subst unread. by rewrite drop_drop. }
  destruct got as [|b bytes] eqn:Hgot.
  - assert (Hnil : unread = []).
    { destruct unread; [done|]. destruct size0; [lia|]. done. }
    rewrite Hnil. cbn [length]. destruct (Nat.leb_spec n 0); [lia|].
    exists r. split; [|done]. cbn [skip_loop]. unfold fillBuffer. cbn [fd r filepos bufsize].
    fold unread. fold got. by rewrite Hgot.
  - rewrite <- Hgot in *.
    assert (Hlen : (1 <= length got)%nat) by (rewrite Hgot; cbn; lia).
    set (r1 := {| fd := Some file; filepos := pos0 + length got; buf := got;
                  bufsize := size0; offset := 0 |}).
    assert (Hfill : fillBuffer r = Ret (true, r1)).
    { unfold fillBuffer. cbn [fd r filepos bufsize]. fold unread.
      change (take size0 unread) with got. by rewrite Hgot at 1. }
    assert (Hok1 : reader_ok file r1) by (repeat split; cbn; lia).
    destruct (Nat.leb_spec n (length got)) as [Hfit|Hmore].
    + destruct (Nat.leb_spec n (length unread)); [|lia].
      eexists. split.
      { cbn [skip_loop]. rewrite Hfill. unfold buflen. cbn [buf r1].
        by rewrite (proj2 (Nat.leb_le _ _) Hfit). }
      split; [by repeat split|].
      unfold remaining. cbn [offset buf filepos r1]. rewrite Hdrop.
      rewrite Hsplit at 2. by rewrite drop_app_le.
    + specialize (IH (n - length got)%nat r1 Hok1 ltac:(lia)).
      cbn [filepos r1] in IH. rewrite Hdrop in IH.
      rewrite length_drop, drop_drop in IH.
      replace (length got + (n - length got))%nat with n in IH by lia.
      assert (Hstep : skip_loop (S fuel) n r = skip_loop fuel (n - length got) r1).
      { cbn [skip_loop]. rewrite Hfill. unfold buflen. cbn [buf r1].
        by rewrite (proj2 (Nat.leb_gt _ _) Hmore). }
      unfold reads, returns in *. rewrite Hstep.
      destruct (Nat.leb_spec n (length unread)),
               (Nat.leb_spec (n - length got) (length unread - length got));
        try lia; exact IH.
Qed.

Lemma skipBytes_spec fuel n r :
  reader_ok file r -> (n <= fuel)%nat ->
  if (n <=? length (remaining file r))%nat
  then reads file (skipBytes fuel n) r (Some true) (drop n (remaining file r))
  else returns file (skipBytes fuel n) r (Some false).
Proof.
  intros Hok Hn. pose proof Hok as (Hfd & Hsize & Hoff).
  set (left := length (drop (offset r) (buf r))).
  assert (Hbr : (if (offset r <? buflen r)%nat
                 then (buflen r - offset r)%nat else 0%nat) = left).
  { subst left. unfold buflen. rewrite length_drop.
    destruct (Nat.ltb_spec (offset r) (length (buf r))); lia. }
  assert (Hrem : length (remaining file r) = (left + length (drop (filepos r) file))%nat)
    by (unfold remaining; by rewrite length_app).
  rewrite Hrem.
  destruct (Nat.leb_spec n left) as [Hfit|Hmore].
  - destruct (Nat.leb_spec n (left + length (drop (filepos r) file))); [|lia].
    eexists. split.
    { unfold skipBytes. rewrite Hbr. by rewrite (proj2 (Nat.leb_le _ _) Hfit). }
    subst left. rewrite length_drop in Hfit.
    split; [repeat split; cbn; (done || lia)|].
    unfold remaining. cbn [offset buf filepos].
    by rewrite drop_app_le, drop_drop by (rewrite length_drop; lia).
  - pose proof (skip_loop_spec fuel (n - left) r Hok ltac:(lia)) as H.
    assert (Hstep : skipBytes fuel n r = skip_loop fuel (n - left) r).
    { unfold skipBytes. rewrite Hbr. by rewrite (proj2 (Nat.leb_gt _ _) Hmore). }
    unfold reads, returns in *. rewrite Hstep.
    assert (Hd : drop n (remaining file r) = drop (n - left) (drop (filepos r) file)).
    { unfold remaining. by rewrite drop_app_ge by (fold left; lia). }
    rewrite Hd.
    destruct (Nat.leb_spec n (left + length (drop (filepos r) file))),
             (Nat.leb_spec (n - left) (length (drop (filepos r) file))); try lia; exact H.
Qed.

End ReaderTotal.

(** * Further properties of the reader *)



(** X7.  [skipBytes(n)] passes over the next [n] bytes: when at least [n]
    bytes are left it returns true and the reader is left behind them, as
    after [read_buffer] of [n] bytes; when fewer are left it returns false.
    Its loop ends within [n] rounds. *)
Theorem skipBytes_passes_over file fuel n r :
  reader_ok file r -> (n <= fuel)%nat ->
  if (n <=? length (remaining file r))%nat
  then reads file (skipBytes fuel n) r (Some true) (drop n (remaining file r))
  else returns file (skipBytes fuel n) r (Some false).
Proof. apply skipBytes_spec. Qed.

Lemma skipBytes_passes_over_witness :
  if (7 <=? length (remaining ten_bytes (small_reader ten_bytes)))%nat
  then reads ten_bytes (skipBytes 7 7) (small_reader ten_bytes) (Some true)
             (drop 7 (remaining ten_bytes (small_reader ten_bytes)))
  else returns ten_bytes (skipBytes 7 7) (small_reader ten_bytes) (Some false).
Proof.
  apply (skipBytes_passes_over ten_bytes 7 7 (small_reader ten_bytes));
    [repeat split; cbn; lia | lia].
Defined.

(** X8.  [read_uint16], [read_uint32] and [read_uint64] return the number
    that the next two, four and eight bytes of the file spell with the most
    significant byte first, and leave the reader behind these bytes. *)
Theorem read_integers_big_endian file r bs rest :
  reader_ok file r -> remaining file r = bs ++ rest ->
  (length bs = 2%nat -> reads file read_uint16 r (Some (big_endian bs)) rest) /\
  (length bs = 4%nat ->
   reads file BinaryReader_read_uint32 r (Some (big_endian bs)) rest) /\
  (length bs = 8%nat -> reads file read_uint64 r (Some (big_endian bs)) rest).
Proof.
  intros Hok Hrem. repeat split; intros Hlen.
  - destruct bs as [|b0 [|b1 [|]]]; try done. by apply read_uint16_reads.
  - rewrite <- uint32_of_bytes_big_endian by done. by apply signature_reads.
  - by apply read_uint64_reads.
Qed.

Lemma read_integers_big_endian_witness :
  (length [x01; x02; x03; x04] = 2%nat ->
   reads ten_bytes read_uint16 (small_reader ten_bytes)
         (Some (big_endian [x01; x02; x03; x04])) [x05; x06; x07; x08; x09; x0a]) /\
  (length [x01; x02; x03; x04] = 4%nat ->
   reads ten_bytes BinaryReader_read_uint32 (small_reader ten_bytes)
         (Some (big_endian [x01; x02; x03; x04])) [x05; x06; x07; x08; x09; x0a]) /\
  (length [x01; x02; x03; x04] = 8%nat ->
   reads ten_bytes read_uint64 (small_reader ten_bytes)
         (Some (big_endian [x01; x02; x03; x04])) [x05; x06; x07; x08; x09; x0a]).
Proof.
  apply (read_integers_big_endian ten_bytes (small_reader ten_bytes)
           [x01; x02; x03; x04] [x05; x06; x07; x08; x09; x0a]);
    [repeat split; cbn; lia | reflexivity].
Defined.

(** X9.  [read_string(string, maxlen)] on bytes without a null byte among the
    first [length s], for at most [INT_MAX] such bytes: when the null byte
    follows [s] within [maxlen] characters, [s] and the null byte are stored
    and the reader is left behind the null byte; when [s] fills the [maxlen]
    characters, [s] is stored without a null byte and nothing more is read;
    when the file ends after [s], before [maxlen] characters, the result is
    false.  With more than [INT_MAX] bytes before a null byte and [maxlen]
    above [INT_MAX], the [int] counter of the loop is incremented at
    [INT_MAX], which has no defined result. *)
Theorem read_string_cases file maxlen r s :
  reader_ok file r -> Forall (fun b => byte_val b <> 0) s ->
  (Z.of_nat (length s) <= INT_MAX ->
   (forall rest, remaining file r = s ++ x00 :: rest -> (length s < maxlen)%nat ->
      reads file (read_string maxlen) r (Some (s ++ [x00])) rest) /\
   (forall rest, remaining file r = s ++ rest -> length s = maxlen ->
      reads file (read_string maxlen) r (Some s) rest) /\
   (remaining file r = s -> (length s < maxlen)%nat ->
      reads file (read_string maxlen) r None [])) /\
  (INT_MAX < Z.of_nat (length s) -> INT_MAX < Z.of_nat maxlen ->
   forall rest, remaining file r = s ++ rest ->
     read_string maxlen r = Undefined SignedOverflow).
Proof.
  intros Hok Hs. split; [intros Hint; repeat split|].
  - intros rest Hrem Hlen. by apply read_string_terminated.
  - intros rest Hrem Hlen. by apply read_string_cut.
  - intros Hrem Hlen. by apply (read_string_eof file maxlen r s).
  - intros Hlen Hmax rest Hrem. by apply (read_string_overflow file maxlen r s rest).
Qed.

Lemma read_string_cases_witness :
  (forall rest, remaining chr1_bytes (small_reader chr1_bytes)
                = [x63; x68; x72; x31] ++ x00 :: rest ->
     (length [x63; x68; x72; x31] < 255)%nat ->
     reads chr1_bytes (read_string 255) (small_reader chr1_bytes)
           (Some ([x63; x68; x72; x31] ++ [x00])) rest) /\
  (forall rest, remaining chr1_bytes (small_reader chr1_bytes)
                = [x63; x68; x72; x31] ++ rest ->
     length [x63; x68; x72; x31] = 255%nat ->
     reads chr1_bytes (read_string 255) (small_reader chr1_bytes)
           (Some [x63; x68; x72; x31]) rest) /\
  (remaining chr1_bytes (small_reader chr1_bytes) = [x63; x68; x72; x31] ->
     (length [x63; x68; x72; x31] < 255)%nat ->
     reads chr1_bytes (read_string 255) (small_reader chr1_bytes) None []).
Proof.
  apply (read_string_cases chr1_bytes 255 (small_reader chr1_bytes) [x63; x68; x72; x31]);
    [repeat split; cbn; lia | repeat constructor; vm_compute; discriminate
    | unfold INT_MAX; cbn; lia].
Defined.

(** * Byte order *)

Lemma land_byte_mask v k :
  0 <= k -> Z.land v (Z.shiftl 255 k) = Z.shiftl (Z.land (Z.shiftr v k) 255) k.
Proof.
  intros Hk. apply Z.bits_inj'. intros n Hn. rewrite Z.land_spec.
  destruct (Z.ltb_spec n k).
  - rewrite !Z.shiftl_spec_low by lia. apply andb_false_r.
  - rewrite !Z.shiftl_spec, Z.land_spec, Z.shiftr_spec by lia.
    by replace (n - k + k) with n by lia.
Qed.

Lemma land_255 x : Z.land x 255 = x mod 256.
Proof. change 255 with (Z.ones 8). by rewrite Z.land_ones by lia. Qed.

(** [swap_uint32] in terms of the four digits of its argument. *)
Lemma swap_uint32_digits a b c d :
  0 <= a <= 255 -> 0 <= b <= 255 -> 0 <= c <= 255 -> 0 <= d <= 255 ->
  swap_uint32 (((256 * a + b) * 256 + c) * 256 + d) = ((256 * d + c) * 256 + b) * 256 + a.
Proof.
  intros Ha Hb Hc Hd. unfold swap_uint32.
  set (v := ((256 * a + b) * 256 + c) * 256 + d).
  change 65280 with (Z.shiftl 255 8). change 16711680 with (Z.shiftl 255 16).
  rewrite !land_byte_mask, !land_255 by lia.
  rewrite !Z.shiftl_mul_pow2, !Z.shiftr_div_pow2 by lia.
  change (2 ^ 8) with 256. change (2 ^ 16) with 65536. change (2 ^ 24) with 16777216.
  assert (Hc' : (v / 256) mod 256 = c) by (subst v; Z.div_mod_to_equations; lia).
  assert (Hb' : (v / 65536) mod 256 = b) by (subst v; Z.div_mod_to_equations; lia).
  assert (Ha' : v / 16777216 = a) by (subst v; Z.div_mod_to_equations; lia).
  assert (Hd' : wrap32 (v * 16777216) = d * 16777216)
    by (unfold wrap32; subst v; Z.div_mod_to_equations; lia).
  rewrite Hc', Hb', Ha', Hd'.
  replace (b * 65536 / 256) with (b * 256) by (Z.div_mod_to_equations; lia).
  unfold wrap32. rewrite (Z.mod_small (c * 256 * 256)) by lia.
  rewrite Z.mod_small by lia. lia.
Qed.

Lemma swap_uint32_bytes b0 b1 b2 b3 :
  swap_uint32 (big_endian [b0; b1; b2; b3]) = big_endian [b3; b2; b1; b0].
Proof.
  unfold big_endian. cbn [fold_left].
  pose proof (byte_val_range b0). pose proof (byte_val_range b1).
  pose proof (byte_val_range b2). pose proof (byte_val_range b3).
  rewrite !Z.mul_0_r, !Z.add_0_l.
  replace (256 * (256 * (256 * byte_val b0 + byte_val b1) + byte_val b2) + byte_val b3)
    with (((256 * byte_val b0 + byte_val b1) * 256 + byte_val b2) * 256 + byte_val b3)
    by lia.
  rewrite swap_uint32_digits by done. lia.
Qed.

Lemma swap_uint32_involutive v : u32 v -> swap_uint32 (swap_uint32 v) = v.
Proof.
  intros [H0 H1]. unfold UINT32_MAX in H1.
  set (a := v / 16777216). set (b := (v / 65536) mod 256).
  set (c := (v / 256) mod 256). set (d := v mod 256).
  assert (Hv : v = ((256 * a + b) * 256 + c) * 256 + d)
    by (subst a b c d; Z.div_mod_to_equations; lia).
  assert (0 <= a <= 255) by (subst a; Z.div_mod_to_equations; lia).
  assert (0 <= b <= 255) by (subst b; Z.div_mod_to_equations; lia).
  assert (0 <= c <= 255) by (subst c; Z.div_mod_to_equations; lia).
  assert (0 <= d <= 255) by (subst d; Z.div_mod_to_equations; lia).
  rewrite Hv. by rewrite !swap_uint32_digits.
Qed.

Lemma field32_big_endian bs : length bs = 4%nat -> field32 false bs = big_endian bs.
Proof. apply uint32_of_bytes_big_endian. Qed.

Lemma field32_little_endian bs : length bs = 4%nat -> field32 true bs = little_endian bs.
Proof.
  intros Hlen. unfold field32, little_endian. rewrite uint32_of_bytes_big_endian by done.
  destruct bs as [|b0 [|b1 [|b2 [|b3 [|]]]]]; try done. apply swap_uint32_bytes.
Qed.

Lemma field32_range swapBytes bs : length bs = 4%nat -> u32 (field32 swapBytes bs).
Proof.
  intros Hlen. destruct swapBytes.
  - rewrite field32_little_endian by done. unfold little_endian.
    pose proof (big_endian_range (rev bs)) as H. rewrite length_rev, Hlen in H.
    change (256 ^ Z.of_nat 4) with 4294967296 in H. unfold u32, UINT32_MAX. lia.
  - rewrite field32_big_endian by done.
    pose proof (big_endian_range bs) as H. rewrite Hlen in H.
    change (256 ^ Z.of_nat 4) with 4294967296 in H. unfold u32, UINT32_MAX. lia.
Qed.

(** * The window that the constructor builds *)

Lemma io_bind_lift (A B : Type) (x : result A) (k : A -> io B) (a : A) r :
  x = Ret a -> io_bind (io_lift x) k r = k a r.
Proof. by intros ->. Qed.

Lemma land_3 x : Z.land x 3 = x mod 4.
Proof. change 3 with (Z.ones 2). by rewrite Z.land_ones by lia. Qed.

(** The shift of the decoding loop, without the wrap-around. *)
Lemma decode_shift pos :
  1 <= pos <= UINT32_MAX ->
  wrap32 (2 * wrap32 (3 - Z.land (wrap32 (pos - 1)) 3)) = 2 * (3 - (pos - 1) mod 4).
Proof.
  intros Hp. rewrite (wrap32_small (pos - 1)) by lia. rewrite land_3.
  pose proof (Z.mod_pos_bound (pos - 1) 4 ltac:(lia)).
  rewrite (wrap32_small (3 - (pos - 1) mod 4)) by (unfold UINT32_MAX; lia).
  apply wrap32_small. unfold UINT32_MAX. lia.
Qed.

Lemma symbol_at_code b k :
  0 <= k <= 3 ->
  exists c, symbol !! Z.to_nat (packed_code b k) = Some c /\
            buffer_at symbol (packed_code b k) = Ret c.
Proof.
  intros Hk. unfold packed_code, buffer_at. rewrite land_3.
  pose proof (Z.mod_pos_bound (Z.shiftr (byte_val b) (2 * (3 - k))) 4 ltac:(lia)) as Hr.
  destruct (lookup_lt_is_Some_2 symbol
              (Z.to_nat (Z.shiftr (byte_val b) (2 * (3 - k)) mod 4))) as [c Hc].
  { cbn [symbol length]. lia. }
  exists c. by rewrite Hc.
Qed.

Section Decoding.

Variable file : list byte.
Variable packed : list byte.
Variable begin0 : Z.

(** One round of the decoding loop. *)
Lemma decode_loop_step cnt pos byte (readByte : bool) seq0 r b r1 c :
  1 <= begin0 <= pos -> pos < UINT32_MAX ->
  (if readByte then
     v <- read_uint8 ;;
     match v with
     | None => io_throw Truncated2bitFile
     | Some b => io_ret b
     end
   else io_ret byte)%io r = Ret (byte_val b, r1) ->
  buffer_at symbol (packed_code b ((pos - 1) mod 4)) = Ret c ->
  pos - begin0 < Z.of_nat (length seq0) ->
  decode_loop begin0 (S cnt) pos byte readByte seq0 r =
  decode_loop begin0 cnt (pos + 1) (byte_val b) ((pos - 1) mod 4 =? 3)
    (<[Z.to_nat (pos - begin0) := c]> seq0) r1.
Proof.
  intros Hpos Hmax Hfetch Hc Hlen. cbn [decode_loop].
  unfold io_bind at 1. rewrite Hfetch.
  rewrite decode_shift by lia. fold (packed_code b ((pos - 1) mod 4)).
  rewrite (io_bind_lift _ _ _ _ c _ Hc).
  rewrite (wrap32_small (pos - begin0)) by lia.
  unfold buffer_store. rewrite (proj2 (Z.ltb_lt _ _) Hlen).
  rewrite (io_bind_lift _ _ _ _ _ _ eq_refl).
  rewrite (proj2 (Z.eqb_neq _ _)) by lia.
  pose proof (Z.mod_pos_bound (pos - 1) 4 ltac:(lia)).
  replace (2 * (3 - (pos - 1) mod 4) =? 0) with ((pos - 1) mod 4 =? 3); [done|].
  destruct (Z.eqb_spec (2 * (3 - (pos - 1) mod 4)) 0),
           (Z.eqb_spec ((pos - 1) mod 4) 3); (done || lia).
Qed.

(** The byte of position [pos] is fetched, or it is there already. *)
Lemma decode_fetch pos byte readByte r b :
  reader_ok file r -> decode_inv file packed pos byte readByte r ->
  packed !! Z.to_nat ((pos - 1) / 4) = Some b ->
  reads file
    (if readByte then
       v <- read_uint8 ;;
       match v with
       | None => io_throw Truncated2bitFile
       | Some b => io_ret b
       end
     else io_ret byte)%io r (byte_val b) (drop (S (Z.to_nat ((pos - 1) / 4))) packed).
Proof.
  intros Hok Hinv Hb. unfold decode_inv in Hinv. destruct readByte.
  - apply fetch_byte_reads; [done|]. rewrite Hinv. by apply drop_S.
  - destruct Hinv as (_ & b' & Hb' & -> & Hrem). simplify_eq. by apply reads_ret.
Qed.

(** The invariant of the loop after the round of [pos]. *)
Lemma decode_inv_next pos b r1 :
  1 <= pos ->
  packed !! Z.to_nat ((pos - 1) / 4) = Some b ->
  remaining file r1 = drop (S (Z.to_nat ((pos - 1) / 4))) packed ->
  decode_inv file packed (pos + 1) (byte_val b) ((pos - 1) mod 4 =? 3) r1.
Proof.
  intros Hpos Hb Hrem. unfold decode_inv.
  replace (pos + 1 - 1) with pos by lia.
  pose proof (Z.mod_pos_bound (pos - 1) 4 ltac:(lia)).
  destruct (Z.eqb_spec ((pos - 1) mod 4) 3) as [H3|H3].
  - rewrite Hrem. f_equal.
    assert (pos / 4 = (pos - 1) / 4 + 1) by (Z.div_mod_to_equations; lia).
    assert (0 <= (pos - 1) / 4) by (Z.div_mod_to_equations; lia). lia.
  - assert (Hsame : pos / 4 = (pos - 1) / 4) by (Z.div_mod_to_equations; lia).
    split; [Z.div_mod_to_equations; lia|].
    exists b. by rewrite Hsame.
Qed.

(** Entered at [pos] with [cnt] positions to go and all their bytes in the
    file, the loop writes the packed bases of these positions into their
    cells and leaves the cells before them as they are. *)
Lemma decode_loop_exact cnt pos byte readByte seq0 r :
  reader_ok file r -> decode_inv file packed pos byte readByte r ->
  1 <= begin0 <= pos -> pos + Z.of_nat cnt <= UINT32_MAX ->
  pos - begin0 + Z.of_nat cnt <= Z.of_nat (length seq0) ->
  (cnt = 0%nat \/ (pos + Z.of_nat cnt - 2) / 4 < Z.of_nat (length packed)) ->
  exists seq1 r',
    decode_loop begin0 cnt pos byte readByte seq0 r = Ret (seq1, r') /\
    reader_ok file r' /\ length seq1 = length seq0 /\
    (forall p, pos <= p < pos + Z.of_nat cnt ->
               seq1 !! Z.to_nat (p - begin0) = packed_base packed p /\
               is_Some (packed_base packed p)) /\
    (forall i, (i < Z.to_nat (pos - begin0))%nat -> seq1 !! i = seq0 !! i).
Proof.
  revert pos byte readByte seq0 r.
  induction cnt as [|cnt IH]; intros pos byte readByte seq0 r Hok Hinv Hpos Hmax Hlen Hall.
  - exists seq0, r. split; [done|]. split; [done|]. split; [done|].
    split; [intros p Hp; lia | done].
  - destruct Hall as [|Hall]; [done|].
    assert (Hk : (Z.to_nat ((pos - 1) / 4) < length packed)%nat).
    { assert ((pos - 1) / 4 <= (pos + Z.of_nat (S cnt) - 2) / 4)
        by (apply Z.div_le_mono; lia).
      assert (0 <= (pos - 1) / 4) by (Z.div_mod_to_equations; lia). lia. }
    destruct (lookup_lt_is_Some_2 packed _ Hk) as [b Hb].
    pose proof (Z.mod_pos_bound (pos - 1) 4 ltac:(lia)) as Hslot.
    destruct (symbol_at_code b ((pos - 1) mod 4) ltac:(lia)) as (c & Hsym & Hc).
    destruct (decode_fetch pos byte readByte r b Hok Hinv Hb) as (r1 & Hfetch & Hok1 & Hrem1).
    rewrite (decode_loop_step cnt pos byte readByte seq0 r b r1 c) by (done || lia).
    destruct (IH (pos + 1) (byte_val b) ((pos - 1) mod 4 =? 3)
                 (<[Z.to_nat (pos - begin0) := c]> seq0) r1 Hok1)
      as (seq1 & r' & E & Hok' & Hlen' & Hwritten & Hkept).
    + by apply decode_inv_next; [lia|..].
    + lia.
    + lia.
    + rewrite length_insert. lia.
    + destruct cnt as [|cnt]; [by left|right].
      replace (pos + 1 + Z.of_nat (S cnt) - 2) with (pos + Z.of_nat (S (S cnt)) - 2) by lia.
      done.
    + exists seq1, r'. rewrite length_insert in Hlen'.
      split; [done|]. split; [done|]. split; [done|]. split.
      * intros p Hp. destruct (Z.eq_dec p pos) as [->|Hne].
        -- rewrite Hkept by lia. rewrite list_lookup_insert_eq by lia.
           unfold packed_base. rewrite Hb, Hsym. by split.
        -- apply Hwritten. lia.
      * intros i Hi. rewrite Hkept by lia. apply list_lookup_insert_ne. lia.
Qed.

(** When the file ends before the byte of one of the positions, the loop
    throws. *)
Lemma decode_loop_truncated cnt pos byte readByte seq0 r :
  reader_ok file r -> decode_inv file packed pos byte readByte r ->
  1 <= begin0 <= pos -> pos + Z.of_nat cnt <= UINT32_MAX ->
  pos - begin0 + Z.of_nat cnt <= Z.of_nat (length seq0) ->
  (1 <= cnt)%nat -> Z.of_nat (length packed) <= (pos + Z.of_nat cnt - 2) / 4 ->
  decode_loop begin0 cnt pos byte readByte seq0 r = Throw Truncated2bitFile.
Proof.
  revert pos byte readByte seq0 r.
  induction cnt as [|cnt IH]; intros pos byte readByte seq0 r Hok Hinv Hpos Hmax Hlen Hcnt Hcut;
    [lia|].
  assert (Hk0 : 0 <= (pos - 1) / 4) by (Z.div_mod_to_equations; lia).
  destruct (packed !! Z.to_nat ((pos - 1) / 4)) as [b|] eqn:Hb.
  - pose proof (Z.mod_pos_bound (pos - 1) 4 ltac:(lia)) as Hslot.
    destruct (symbol_at_code b ((pos - 1) mod 4) ltac:(lia)) as (c & Hsym & Hc).
    destruct (decode_fetch pos byte readByte r b Hok Hinv Hb) as (r1 & Hfetch & Hok1 & Hrem1).
    rewrite (decode_loop_step cnt pos byte readByte seq0 r b r1 c) by (done || lia).
    pose proof (lookup_lt_Some _ _ _ Hb) as Hklt.
    apply IH; try done.
    + by apply decode_inv_next; [lia|..].
    + lia.
    + lia.
    + rewrite length_insert. lia.
    + destruct cnt as [|cnt]; [|lia].
      replace (pos + Z.of_nat 1 - 2) with (pos - 1) in Hcut by lia. lia.
    + replace (pos + 1 + Z.of_nat cnt - 2) with (pos + Z.of_nat (S cnt) - 2) by lia. done.
  - apply lookup_ge_None_1 in Hb. unfold decode_inv in Hinv.
    destruct readByte; cycle 1.
    { destruct Hinv as (_ & b & Hb' & _). apply lookup_lt_Some in Hb'. lia. }
    rewrite drop_ge in Hinv by done.
    cbn [decode_loop].
    assert (Hshort : (length (remaining file r) < 1)%nat) by (rewrite Hinv; cbn; lia).
    destruct (read_buffer_short file 1 r Hok Hshort) as (r' & E & _);
      [unfold INT_MAX; lia|].
    unfold io_bind at 1. unfold read_uint8. unfold io_bind at 1. unfold io_bind at 1.
    by rewrite E.
Qed.

End Decoding.

Section Marking.

Variable begin0 : Z.

(** The marking loop writes 'N' into the cells of [pos .. pos + cnt - 1]. *)
Lemma mark_loop_exact cnt pos seq0 :
  1 <= begin0 <= pos -> pos + Z.of_nat cnt <= UINT32_MAX ->
  pos - begin0 + Z.of_nat cnt <= Z.of_nat (length seq0) ->
  exists seq1,
    mark_loop begin0 cnt pos seq0 = Ret seq1 /\ length seq1 = length seq0 /\
    forall p, begin0 <= p ->
      seq1 !! Z.to_nat (p - begin0) =
      if (pos <=? p) && (p <? pos + Z.of_nat cnt) then Some "N"%char
      else seq0 !! Z.to_nat (p - begin0).
Proof.
  revert pos seq0. induction cnt as [|cnt IH]; intros pos seq0 Hpos Hmax Hlen.
  - exists seq0. split; [done|]. split; [done|]. intros p Hp.
    destruct (Z.leb_spec pos p), (Z.ltb_spec p (pos + Z.of_nat 0)); (done || lia).
  - cbn [mark_loop]. rewrite (wrap32_small (pos - begin0)) by lia.
    unfold buffer_store. rewrite (proj2 (Z.ltb_lt _ _)) by lia. cbn [rbind].
    rewrite (proj2 (Z.eqb_neq _ _)) by lia.
    destruct (IH (pos + 1) (<[Z.to_nat (pos - begin0) := "N"%char]> seq0))
      as (seq1 & E & Hlen1 & Hcells); [lia | lia | rewrite length_insert; lia |].
    exists seq1. rewrite length_insert in Hlen1. split; [done|]. split; [done|].
    intros p Hp. rewrite (Hcells p Hp).
    destruct (Z.leb_spec (pos + 1) p), (Z.ltb_spec p (pos + 1 + Z.of_nat cnt)),
             (Z.leb_spec pos p), (Z.ltb_spec p (pos + Z.of_nat (S cnt)));
      cbn [andb]; try lia; try done;
      first [ assert (p = pos) as -> by lia; apply list_lookup_insert_eq; lia
            | apply list_lookup_insert_ne; lia ].
Qed.

(** The marking of the unknown blocks writes 'N' into the cells of the
    window that a block covers, and into no other cell. *)
Lemma mark_unknown_exact swapBytes end0 (todo seen : list (list byte * list byte)) seq0 :
  1 <= begin0 <= end0 -> end0 < UINT32_MAX ->
  Z.of_nat (length seq0) = end0 - begin0 + 1 ->
  Z.of_nat (length seen + length todo) <= UINT32_MAX ->
  exists seq1,
    mark_unknown begin0 end0
      (map (block_first swapBytes) (seen ++ todo))
      (map (block_last swapBytes) (seen ++ todo))
      (length todo) (Z.of_nat (length seen)) seq0 = Ret seq1 /\
    length seq1 = length seq0 /\
    forall p, begin0 <= p <= end0 ->
      seq1 !! Z.to_nat (p - begin0) =
      if existsb (in_block swapBytes p) todo then Some "N"%char
      else seq0 !! Z.to_nat (p - begin0).
Proof.
  revert seen seq0. induction todo as [|b todo IH]; intros seen seq0 Hrange Hend Hlen Hmax.
  - exists seq0. by cbn.
  - cbn [length mark_unknown] in *.
    assert (Hat1 : vector_at (map (block_first swapBytes) (seen ++ b :: todo))
                             (Z.of_nat (length seen)) = Ret (block_first swapBytes b)).
    { unfold vector_at. rewrite Nat2Z.id, map_app. cbn [map].
      by rewrite list_lookup_middle by (by rewrite length_map). }
    assert (Hat2 : vector_at (map (block_last swapBytes) (seen ++ b :: todo))
                             (Z.of_nat (length seen)) = Ret (block_last swapBytes b)).
    { unfold vector_at. rewrite Nat2Z.id, map_app. cbn [map].
      by rewrite list_lookup_middle by (by rewrite length_map). }
    rewrite Hat1. cbn [rbind]. rewrite Hat2. cbn [rbind].
    set (a := block_first swapBytes b). set (z := block_last swapBytes b).
    set (start := if a <? begin0 then begin0 else a).
    set (stop := if z >? end0 then end0 else z).
    assert (Hmarked : exists seq',
      (if a <=? end0 then
         (if z >=? begin0 then
            mark_loop begin0 (Z.to_nat (stop + 1 - start)) start seq0
          else Ret seq0)
       else Ret seq0) = Ret seq' /\
      length seq' = length seq0 /\
      forall p, begin0 <= p <= end0 ->
        seq' !! Z.to_nat (p - begin0) =
        if in_block swapBytes p b then Some "N"%char else seq0 !! Z.to_nat (p - begin0)).
    { unfold in_block. fold a z.
      destruct (Z.leb_spec a end0) as [Ha|Ha]; cycle 1.
      { exists seq0. split; [done|]. split; [done|]. intros p Hp.
        destruct (Z.leb_spec a p); [lia|done]. }
      destruct (Z.geb_spec z begin0) as [Hz|Hz]; cycle 1.
      { exists seq0. split; [done|]. split; [done|]. intros p Hp.
        destruct (Z.leb_spec a p), (Z.leb_spec p z); (done || lia). }
      assert (Hstart : begin0 <= start /\ a <= start /\ (start = begin0 \/ start = a)).
      { subst start. destruct (Z.ltb_spec a begin0); lia. }
      assert (Hstop : stop <= end0 /\ stop <= z /\ (stop = end0 \/ stop = z)).
      { subst stop. destruct (Z.gtb_spec z end0); lia. }
      destruct (mark_loop_exact (Z.to_nat (stop + 1 - start)) start seq0)
        as (seq' & E & Hlen' & Hcells); [lia | lia | lia |].
      exists seq'. split; [done|]. split; [done|]. intros p Hp.
      rewrite (Hcells p ltac:(lia)).
      destruct (Z.leb_spec start p), (Z.ltb_spec p (start + Z.of_nat (Z.to_nat (stop + 1 - start)))),
               (Z.leb_spec a p), (Z.leb_spec p z); cbn [andb]; (done || lia). }
    destruct Hmarked as (seq' & -> & Hlen' & Hcells'). cbn [rbind].
    rewrite wrap32_small by (unfold UINT32_MAX in *; lia).
    replace (Z.of_nat (length seen) + 1) with (Z.of_nat (length (seen ++ [b])))
      by (rewrite length_app; cbn; lia).
    replace (seen ++ b :: todo) with ((seen ++ [b]) ++ todo) by (by rewrite <- app_assoc).
    destruct (IH (seen ++ [b]) seq') as (seq1 & E & Hlen1 & Hcells1);
      [done | done | lia | rewrite length_app; cbn; lia |].
    exists seq1. split; [done|]. split; [lia|]. intros p Hp.
    rewrite (Hcells1 p Hp), (Hcells' p Hp). cbn [existsb].
    by destruct (in_block swapBytes p b), (existsb (in_block swapBytes p) todo).
Qed.

End Marking.

Section Loading.

Variable file : list byte.

(** One step of a computation whose first read is described by [L]. *)
Ltac read_with L :=
  match goal with
  | |- context [io_bind ?c ?k ?r] =>
      let r' := fresh "r" in
      let Hok := fresh "Hok" in
      let Hrem := fresh "Hrem" in
      let E := fresh "E" in
      destruct (reads_bind file c k r _ _ L) as (r' & Hok & Hrem & E);
      rewrite E; clear E; cbv beta
  end.

(** A begin position that is 0, or that lies behind the end of the window,
    is refused as soon as the number of bases has been read. *)
Lemma load_window_invalid_begin uninit swapBytes chrOffset beginpos endpos r bs rest2 :
  reader_ok file r ->
  drop (Z.to_nat chrOffset) file = bs ++ rest2 -> length bs = 4%nat ->
  beginpos = 0 \/ Z.min endpos (field32 swapBytes bs) < beginpos ->
  load_window uninit swapBytes chrOffset beginpos endpos r = Throw InvalidBeginPosition.
Proof.
  intros Hok Hrec Hlen Hbad. unfold load_window.
  read_with (seek_reads file r chrOffset Hok). rewrite Hrec in Hrem.
  read_with (read_uint32_reads file swapBytes r0 _ _ Hok0 Hrem Hlen).
  set (end0 := if endpos >? field32 swapBytes bs then field32 swapBytes bs else endpos).
  assert (Hend : end0 = Z.min endpos (field32 swapBytes bs)).
  { subst end0. destruct (Z.gtb_spec endpos (field32 swapBytes bs)); lia. }
  assert (Htest : (beginpos =? 0) || (beginpos >? end0) = true).
  { apply orb_true_iff. rewrite Z.eqb_eq, Z.gtb_ltb, Z.ltb_lt. lia. }
  by rewrite Htest.
Qed.

(** The second part of the constructor up to its decoding loop. *)
Lemma load_window_unfold uninit swapBytes chrOffset beginpos endpos r rc rest2 :
  reader_ok file r ->
  drop (Z.to_nat chrOffset) file = encode_record_head rc ++ rest2 ->
  record_ok swapBytes rc ->
  let end0 := Z.min endpos (field32 swapBytes (rec_numBases rc)) in
  let packed := drop (Z.to_nat (dna_offset swapBytes chrOffset rc)) file in
  1 <= beginpos <= end0 -> end0 < UINT32_MAX ->
  dna_offset swapBytes chrOffset rc + (beginpos - 1) / 4 <= UINT32_MAX ->
  exists r6,
    reader_ok file r6 /\
    remaining file r6 = drop (Z.to_nat ((beginpos - 1) / 4)) packed /\
    load_window uninit swapBytes chrOffset beginpos endpos r =
    (sequence <- decode_loop beginpos (Z.to_nat (end0 + 1 - beginpos)) beginpos 0 true
                   (new_char_array uninit (end0 - beginpos + 1)) ;;
     sequence <- io_lift (mark_unknown beginpos end0
                            (map (block_first swapBytes) (rec_blocks rc))
                            (map (block_last swapBytes) (rec_blocks rc))
                            (length (rec_blocks rc)) 0 sequence) ;;
     _ <- closeFile ;;
     io_ret {| begin := beginpos; end_ := end0; sequence := sequence |})%io r6.
Proof.
  intros Hok Hrec [Hl1 Hl2 Hl3 Hblocks Hcount] end0 packed Hbegin Hend Hseek.
  unfold load_window.
  read_with (seek_reads file r chrOffset Hok).
  rewrite Hrec in Hrem. unfold encode_record_head in Hrem. rewrite <- !app_assoc in Hrem.
  read_with (read_uint32_reads file swapBytes r0 _ _ Hok0 Hrem Hl1).
  replace (if endpos >? field32 swapBytes (rec_numBases rc)
           then field32 swapBytes (rec_numBases rc) else endpos) with end0
    by (subst end0; destruct (Z.gtb_spec endpos (field32 swapBytes (rec_numBases rc))); lia).
  assert (Htest : (beginpos =? 0) || (beginpos >? end0) = false).
  { apply orb_false_iff. rewrite Z.eqb_neq, Z.gtb_ltb, Z.ltb_ge. lia. }
  rewrite Htest.
  read_with (read_uint32_reads file swapBytes r1 _ _ Hok1 Hrem0 Hl2).
  replace (Z.to_nat (field32 swapBytes (rec_nBlockCount rc)))
    with (length (rec_blocks rc)) by (rewrite Hcount; lia).
  read_with (read_nstart_reads file swapBytes (rec_blocks rc) [] r2 _ Hok2 Hrem1 Hblocks).
  assert (Hcount' : Z.of_nat (length (@nil (list byte * list byte)) +
                              length (rec_blocks rc)) <= UINT32_MAX).
  { cbn [length Nat.add]. rewrite <- Hcount. by apply field32_range. }
  read_with (read_nstop_reads file swapBytes [] (rec_blocks rc) [] r3 _ Hok3 Hrem2
               Hblocks Hcount').
  cbn [app].
  read_with (read_uint32_reads file swapBytes r4 _ _ Hok4 Hrem3 Hl3).
  fold (dna_offset swapBytes chrOffset rc).
  rewrite (wrap32_small (beginpos - 1)) by lia.
  rewrite Z.shiftr_div_pow2 by lia. change (2 ^ 2) with 4.
  assert (Hdiv : 0 <= (beginpos - 1) / 4) by (Z.div_mod_to_equations; lia).
  assert (Hdna : 0 <= dna_offset swapBytes chrOffset rc) by apply wrap32_range.
  rewrite (wrap32_small (dna_offset swapBytes chrOffset rc + (beginpos - 1) / 4)) by lia.
  read_with (seek_reads file r5 (dna_offset swapBytes chrOffset rc + (beginpos - 1) / 4) Hok5).
  exists r6. split; [done|]. split.
  { rewrite Hrem5. subst packed. rewrite drop_drop. f_equal. lia. }
  rewrite (wrap32_small (end0 - beginpos)) by lia.
  rewrite (wrap32_small (end0 - beginpos + 1)) by lia.
  done.
Qed.

Lemma closeFile_returns r : reader_ok file r -> exists r', closeFile r = Ret (tt, r').
Proof. intros (Hfd & _). unfold closeFile. rewrite Hfd. eauto. Qed.

(** On a record of known layout whose packed bytes are all in the file, the
    second part of the constructor returns the window of [beginpos] to
    [min(endpos, numBases)] with the characters of the file. *)
Lemma load_window_exact uninit swapBytes chrOffset beginpos endpos r rc rest2 :
  reader_ok file r ->
  drop (Z.to_nat chrOffset) file = encode_record_head rc ++ rest2 ->
  record_ok swapBytes rc ->
  let end0 := Z.min endpos (field32 swapBytes (rec_numBases rc)) in
  let packed := drop (Z.to_nat (dna_offset swapBytes chrOffset rc)) file in
  1 <= beginpos <= end0 -> end0 < UINT32_MAX ->
  dna_offset swapBytes chrOffset rc + (beginpos - 1) / 4 <= UINT32_MAX ->
  (end0 - 1) / 4 < Z.of_nat (length packed) ->
  exists g r',
    load_window uninit swapBytes chrOffset beginpos endpos r = Ret (g, r') /\
    begin g = beginpos /\ end_ g = end0 /\
    forall p, beginpos <= p <= end0 ->
      exists c, expected_base swapBytes rc packed p = Some c /\
                sequence g !! Z.to_nat (p - beginpos) = Some c.
Proof.
  intros Hok Hrec Hrc end0 packed Hbegin Hend Hseek Hall.
  destruct (load_window_unfold uninit swapBytes chrOffset beginpos endpos r rc rest2
              Hok Hrec Hrc Hbegin Hend Hseek) as (r6 & Hok6 & Hrem6 & ->).
  fold end0. destruct Hrc as [Hl1 Hl2 Hl3 Hblocks Hcount].
  destruct (decode_loop_exact file packed beginpos (Z.to_nat (end0 + 1 - beginpos))
              beginpos 0 true (new_char_array uninit (end0 - beginpos + 1)) r6)
    as (seq1 & r7 & Edec & Hok7 & Hlen1 & Hwritten & _).
  { done. }
  { exact Hrem6. }
  { lia. }
  { lia. }
  { rewrite new_char_array_length. lia. }
  { right. by replace (beginpos + Z.of_nat (Z.to_nat (end0 + 1 - beginpos)) - 2)
      with (end0 - 1) by lia. }
  rewrite new_char_array_length in Hlen1.
  destruct (mark_unknown_exact beginpos swapBytes end0 (rec_blocks rc) [] seq1)
    as (seq2 & Emark & Hlen2 & Hmarked).
  { lia. }
  { done. }
  { lia. }
  { cbn [length Nat.add]. rewrite <- Hcount. by apply field32_range. }
  cbn [app length] in Emark.
  destruct (closeFile_returns r7 Hok7) as (r8 & Eclose).
  eexists _, r8. split.
  { unfold io_bind at 1. rewrite Edec.
    rewrite (io_bind_lift _ _ _ _ _ _ Emark).
    unfold io_bind at 1. rewrite Eclose. reflexivity. }
  cbn [begin end_ sequence]. split; [done|]. split; [done|].
  intros p Hp. rewrite (Hmarked p Hp). unfold expected_base.
  destruct (existsb (in_block swapBytes p) (rec_blocks rc)); [by exists "N"%char|].
  destruct (Hwritten p ltac:(lia)) as [Hcell [c Hc]].
  exists c. by rewrite Hcell.
Qed.

(** When the file ends before the packed byte of the last position, the
    second part of the constructor throws "truncated 2bit file". *)
Lemma load_window_truncated uninit swapBytes chrOffset beginpos endpos r rc rest2 :
  reader_ok file r ->
  drop (Z.to_nat chrOffset) file = encode_record_head rc ++ rest2 ->
  record_ok swapBytes rc ->
  let end0 := Z.min endpos (field32 swapBytes (rec_numBases rc)) in
  let packed := drop (Z.to_nat (dna_offset swapBytes chrOffset rc)) file in
  1 <= beginpos <= end0 -> end0 < UINT32_MAX ->
  dna_offset swapBytes chrOffset rc + (beginpos - 1) / 4 <= UINT32_MAX ->
  Z.of_nat (length packed) <= (end0 - 1) / 4 ->
  load_window uninit swapBytes chrOffset beginpos endpos r = Throw Truncated2bitFile.
Proof.
  intros Hok Hrec Hrc end0 packed Hbegin Hend Hseek Hcut.
  destruct (load_window_unfold uninit swapBytes chrOffset beginpos endpos r rc rest2
              Hok Hrec Hrc Hbegin Hend Hseek) as (r6 & Hok6 & Hrem6 & ->).
  fold end0. unfold io_bind at 1.
  rewrite (decode_loop_truncated file packed beginpos); try done; try lia.
  - rewrite new_char_array_length. lia.
  - by replace (beginpos + Z.of_nat (Z.to_nat (end0 + 1 - beginpos)) - 2)
      with (end0 - 1) by lia.
Qed.

End Loading.

(** * The directory and the signature *)

Lemma byte_val_inj b b' : byte_val b = byte_val b' -> b = b'.
Proof.
  unfold byte_val. intros H. apply N2Z.inj in H.
  pose proof (Byte.of_to_N b) as E. rewrite H, Byte.of_to_N in E. by simplify_eq.
Qed.

Lemma big_endian_inj4 bs bs' :
  length bs = 4%nat -> length bs' = 4%nat -> big_endian bs = big_endian bs' -> bs = bs'.
Proof.
  destruct bs as [|a0 [|a1 [|a2 [|a3 [|]]]]]; try done.
  destruct bs' as [|c0 [|c1 [|c2 [|c3 [|]]]]]; try done. intros _ _.
  unfold big_endian. cbn [fold_left].
  pose proof (byte_val_range a0). pose proof (byte_val_range a1).
  pose proof (byte_val_range a2). pose proof (byte_val_range a3).
  pose proof (byte_val_range c0). pose proof (byte_val_range c1).
  pose proof (byte_val_range c2). pose proof (byte_val_range c3).
  intros E.
  assert (byte_val a0 = byte_val c0 /\ byte_val a1 = byte_val c1 /\
          byte_val a2 = byte_val c2 /\ byte_val a3 = byte_val c3) as (E0 & E1 & E2 & E3)
    by lia.
  apply byte_val_inj in E0, E1, E2, E3. by subst.
Qed.

(** A signature that is neither of the two accepted numbers. *)
Lemma signature_refused bs :
  length bs = 4%nat -> bs <> signature_bytes -> bs <> signature_bytes_swapped ->
  negb (uint32_of_bytes bs =? EXPECTED_SIGNATURE) &&
  negb (uint32_of_bytes bs =? swap_uint32 EXPECTED_SIGNATURE) = true.
Proof.
  intros Hlen H1 H2. rewrite uint32_of_bytes_big_endian by done.
  apply andb_true_iff. rewrite !negb_true_iff, !Z.eqb_neq. split.
  - intros E. apply H1, big_endian_inj4; [done..|]. by rewrite E.
  - intros E. apply H2, big_endian_inj4; [done..|]. by rewrite E.
Qed.

Section Directory.

Variable file : list byte.

Ltac read_with L :=
  match goal with
  | |- context [io_bind ?c ?k ?r] =>
      let r' := fresh "r" in
      let Hok := fresh "Hok" in
      let Hrem := fresh "Hrem" in
      let E := fresh "E" in
      destruct (reads_bind file c k r _ _ L) as (r' & Hok & Hrem & E);
      rewrite E; clear E; cbv beta
  end.

(** The loop of [getChromosomeNames] appends the names of the entries in the
    order of the directory. *)
Lemma read_names_reads swapBytes es acc rest r :
  reader_ok file r -> remaining file r = encode_directory es ++ rest ->
  Forall entry_ok es ->
  reads file (read_names swapBytes (length es) acc) r (acc ++ map entry_string es) rest.
Proof.
  revert r acc. induction es as [|e es IH]; intros r acc Hok Hrem Hes.
  - cbn in *. rewrite app_nil_r. by apply reads_ret.
  - cbn [length read_names map].
    apply Forall_cons in Hes as [[Hname Hoff] Hes].
    change (encode_directory (e :: es))
      with (encode_entry e ++ encode_directory es) in Hrem.
    unfold encode_entry in Hrem. cbn [app] in Hrem. rewrite <- !app_assoc in Hrem.
    unfold reads.
    read_with (read_uint8_reads file r _ _ Hok Hrem).
    rewrite byte_val_of_Z, Nat2Z.id by lia.
    assert (Hfits : (length (entry_name e) <= length (remaining file r0))%nat)
      by (rewrite Hrem0, length_app; lia).
    assert (Hint : Z.of_nat (length (entry_name e)) <= INT_MAX)
      by (unfold INT_MAX; lia).
    read_with (read_buffer_reads file (length (entry_name e)) r0 Hok0 Hfits Hint).
    rewrite Hrem0, take_app_length in *. rewrite drop_app_length in Hrem1.
    read_with (read_uint32_reads file swapBytes r1 _ _ Hok1 Hrem1 Hoff).
    replace (acc ++ entry_string e :: map entry_string es)
      with ((acc ++ [entry_string e]) ++ map entry_string es)
      by (by rewrite <- app_assoc).
    by apply IH.
Qed.

(** A file that does not begin with the signature in one of the two byte
    orders is refused by both functions that open 2bit files. *)
Lemma locate_chromosome_refuses chrNumber chrName bufferSize :
  (0 < bufferSize)%nat ->
  take 4 file <> signature_bytes -> take 4 file <> signature_bytes_swapped ->
  locate_chromosome (Some file) chrNumber chrName (BinaryReader_new bufferSize)
  = Throw NotA2bitFile.
Proof.
  intros Hsize H1 H2. unfold locate_chromosome.
  read_with (openFile_reads file bufferSize Hsize). cbn [negb].
  destruct (read_buffer_exact file 4 r Hok) as (r' & E & _);
    [left; unfold INT_MAX; lia|].
  unfold io_bind at 1. unfold BinaryReader_read_uint32. unfold io_bind at 1.
  rewrite E, Hrem. unfold io_ret.
  destruct (Nat.leb_spec 4 (length file)) as [Hlen|Hlen]; [|done].
  by rewrite signature_refused by (done || rewrite length_take; lia).
Qed.

Lemma getChromosomeNames_body_refuses bufferSize :
  (0 < bufferSize)%nat ->
  take 4 file <> signature_bytes -> take 4 file <> signature_bytes_swapped ->
  getChromosomeNames_body (Some file) (BinaryReader_new bufferSize) = Throw NotA2bitFile.
Proof.
  intros Hsize H1 H2. unfold getChromosomeNames_body.
  read_with (openFile_reads file bufferSize Hsize). cbn [negb].
  destruct (read_buffer_exact file 4 r Hok) as (r' & E & _);
    [left; unfold INT_MAX; lia|].
  unfold io_bind at 1. unfold BinaryReader_read_uint32. unfold io_bind at 1.
  rewrite E, Hrem. unfold io_ret.
  destruct (Nat.leb_spec 4 (length file)) as [Hlen|Hlen]; [|done].
  by rewrite signature_refused by (done || rewrite length_take; lia).
Qed.

(** [getChromosomeNames] on a file that begins with a well-formed header. *)
Lemma getChromosomeNames_body_spec h rest bufferSize :
  file = encode_header h ++ rest -> header_ok h -> (0 < bufferSize)%nat ->
  exists r', getChromosomeNames_body (Some file) (BinaryReader_new bufferSize)
             = Ret (map entry_string (hdr_directory h), r').
Proof.
  intros Hfile [Hl1 Hl2 Hl3 Hl4 Hsig Hcount Hes] Hsize.
  unfold getChromosomeNames_body.
  read_with (openFile_reads file bufferSize Hsize). cbn [negb].
  rewrite Hfile in Hrem at 2. unfold encode_header in Hrem. rewrite <- !app_assoc in Hrem.
  read_with (signature_reads file r _ _ Hok Hrem Hl1).
  assert (Hvalid : negb (uint32_of_bytes (hdr_signature h) =? EXPECTED_SIGNATURE) &&
                   negb (uint32_of_bytes (hdr_signature h) =? swap_uint32 EXPECTED_SIGNATURE)
                   = false).
  { destruct Hsig as [-> | ->]; rewrite Z.eqb_refl; cbn; [done | apply andb_false_r]. }
  rewrite Hvalid. fold (header_swap h).
  read_with (read_uint32_reads file (header_swap h) r0 _ _ Hok0 Hrem0 Hl2).
  read_with (read_uint32_reads file (header_swap h) r1 _ _ Hok1 Hrem1 Hl3).
  read_with (read_uint32_reads file (header_swap h) r2 _ _ Hok2 Hrem2 Hl4).
  rewrite Hcount, Nat2Z.id.
  read_with (read_names_reads (header_swap h) (hdr_directory h) [] rest r3 Hok3 Hrem3 Hes).
  cbn [app]. destruct Hok4 as (Hfd & _).
  unfold io_bind, closeFile. rewrite Hfd. unfold io_ret. eauto.
Qed.

End Directory.

(** An entry that the scan of the constructor selects carries the name that
    was asked for. *)
Lemma selected_offset_entry swapBytes chrNumber chrName es :
  selected_offset swapBytes chrNumber chrName es <> 0 ->
  exists e, In e es /\ entry_matches chrNumber chrName e = true.
Proof.
  induction es as [|e es IH]; [done|]. cbn [selected_offset].
  destruct (entry_matches chrNumber chrName e) eqn:Hm; cbn [andb].
  - intros _. exists e. split; [by left|done].
  - intros H. destruct (IH H) as (e' & He' & Hm'). exists e'. split; [by right|done].
Qed.

(** * Further properties of the constructor and of [getChromosomeNames] *)

Lemma valid_specification chrNumber chrName :
  chrName <> "" \/ 1 <= chrNumber <= NUM_CHROMOSOMES ->
  String.eqb chrName "" && ((chrNumber =? 0) || (chrNumber >? NUM_CHROMOSOMES)) = false.
Proof.
  intros [Hname|Hnum].
  - apply String.eqb_neq in Hname. by rewrite Hname.
  - apply andb_false_intro2, orb_false_iff. split; [apply Z.eqb_neq; lia|].
    rewrite Z.gtb_ltb. apply Z.ltb_ge. lia.
Qed.

Lemma getBase_cell g p c :
  begin g <= p <= end_ g -> p - begin g <= UINT32_MAX ->
  sequence g !! Z.to_nat (p - begin g) = Some c -> getBase g p = Ret c.
Proof.
  intros Hp Hmax Hcell. unfold getBase.
  destruct (Z.ltb_spec p (begin g)); [lia|]. destruct (Z.gtb_spec p (end_ g)); [lia|].
  cbn [orb]. rewrite wrap32_small by lia. unfold buffer_at. by rewrite Hcell.
Qed.

(** X10.  The window that the constructor builds.  On a file that begins
    with a well-formed header, whose directory selects a record of
    well-formed layout at an offset other than 0: when
    [1 <= beginpos <= min(endpos, numBases)] and the packed bytes of these
    positions are all in the file, the constructor returns the window from
    [beginpos] to [min(endpos, numBases)], and [getBase] reads at every
    position [p] of it 'N' if [p] lies in an unknown block of the record, and
    otherwise the symbol (T, C, A, G for the codes 0, 1, 2, 3) of the two
    bits number [(p-1) mod 4], counted from the most significant pair, of the
    packed byte number [(p-1) / 4]. *)
Theorem constructor_decodes_window
    uninit h rest rc rest2 chrNumber beginpos endpos chrName :
  let file := encode_header h ++ rest in
  let swapBytes := header_swap h in
  let off := selected_offset swapBytes chrNumber chrName (hdr_directory h) in
  let end0 := Z.min endpos (field32 swapBytes (rec_numBases rc)) in
  let packed := drop (Z.to_nat (dna_offset swapBytes off rc)) file in
  header_ok h ->
  chrName <> "" \/ 1 <= chrNumber <= NUM_CHROMOSOMES ->
  off <> 0 ->
  drop (Z.to_nat off) file = encode_record_head rc ++ rest2 ->
  record_ok swapBytes rc ->
  1 <= beginpos <= end0 -> end0 < UINT32_MAX ->
  dna_offset swapBytes off rc + (beginpos - 1) / 4 <= UINT32_MAX ->
  (end0 - 1) / 4 < Z.of_nat (length packed) ->
  exists g,
    ReferenceGenome_new uninit (Some file) chrNumber beginpos endpos chrName = Ret g /\
    begin g = beginpos /\ end_ g = end0 /\
    forall p, beginpos <= p <= end0 ->
      exists c, expected_base swapBytes rc packed p = Some c /\ getBase g p = Ret c.
Proof.
  intros file swapBytes off end0 packed Hh Hvalid Hoff Hrec Hrc Hbegin Hend Hseek Hall.
  pose proof (ReferenceGenome_new_located uninit h rest chrNumber beginpos endpos chrName
                Hh Hvalid) as Hloc.
  cbv zeta in Hloc. fold file swapBytes off in Hloc.
  rewrite (proj2 (Z.eqb_neq _ _) Hoff) in Hloc. destruct Hloc as (r & Hok & ->).
  destruct (load_window_exact file uninit swapBytes off beginpos endpos r rc rest2
              Hok Hrec Hrc Hbegin Hend Hseek Hall) as (g & r' & -> & Hb & He & Hcells).
  exists g. split; [done|]. split; [done|]. split; [done|].
  intros p Hp. destruct (Hcells p Hp) as (c & Hc & Hcell).
  exists c. split; [done|]. apply getBase_cell; rewrite ?Hb, ?He; (done || lia).
Qed.

Lemma constructor_decodes_window_witness :
  exists g,
    ReferenceGenome_new question_marks
      (Some (encode_header header_2103 ++
             (encode_record_head record_unknown ++
              map byte_of_Z [0; 0; 0; 0; 156; 156; 156]))) 1 3 9 "" = Ret g /\
    begin g = 3 /\
    end_ g = Z.min 9 (field32 (header_swap header_2103) (rec_numBases record_unknown)) /\
    forall p,
      3 <= p <= Z.min 9 (field32 (header_swap header_2103) (rec_numBases record_unknown)) ->
      exists c,
        expected_base (header_swap header_2103) record_unknown
          (drop (Z.to_nat (dna_offset (header_swap header_2103)
                             (selected_offset (header_swap header_2103) 1 ""
                                (hdr_directory header_2103)) record_unknown))
                (encode_header header_2103 ++
                 (encode_record_head record_unknown ++
                  map byte_of_Z [0; 0; 0; 0; 156; 156; 156]))) p = Some c /\
        getBase g p = Ret c.
Proof.
  apply (constructor_decodes_window question_marks header_2103
           (encode_record_head record_unknown ++ map byte_of_Z [0; 0; 0; 0; 156; 156; 156])
           record_unknown (map byte_of_Z [0; 0; 0; 0; 156; 156; 156]) 1 3 9 "");
    [ constructor; try reflexivity; [by left | repeat constructor; cbn; lia]
    | right; unfold NUM_CHROMOSOMES; lia
    | vm_compute; discriminate
    | reflexivity
    | constructor; try reflexivity; repeat constructor
    | vm_compute; split; discriminate
    | vm_compute; reflexivity
    | vm_compute; discriminate
    | vm_compute; reflexivity ].
Defined.



(** X12.  On a file that begins with a well-formed header whose directory
    selects an offset other than 0, with the four bytes of the number of
    bases at that offset: a begin position that is 0, or that is larger than
    [min(endpos, numBases)], makes the constructor throw "invalid begin
    position". *)
Theorem constructor_invalid_begin
    uninit h rest bs rest2 chrNumber beginpos endpos chrName :
  let file := encode_header h ++ rest in
  let swapBytes := header_swap h in
  let off := selected_offset swapBytes chrNumber chrName (hdr_directory h) in
  header_ok h ->
  chrName <> "" \/ 1 <= chrNumber <= NUM_CHROMOSOMES ->
  off <> 0 ->
  drop (Z.to_nat off) file = bs ++ rest2 -> length bs = 4%nat ->
  beginpos = 0 \/ Z.min endpos (field32 swapBytes bs) < beginpos ->
  ReferenceGenome_new uninit (Some file) chrNumber beginpos endpos chrName
  = Throw InvalidBeginPosition.
Proof.
  intros file swapBytes off Hh Hvalid Hoff Hrec Hlen Hbad.
  pose proof (ReferenceGenome_new_located uninit h rest chrNumber beginpos endpos chrName
                Hh Hvalid) as Hloc.
  cbv zeta in Hloc. fold file swapBytes off in Hloc.
  rewrite (proj2 (Z.eqb_neq _ _) Hoff) in Hloc. destruct Hloc as (r & Hok & ->).
  by rewrite (load_window_invalid_begin file uninit swapBytes off beginpos endpos r bs rest2
                Hok Hrec Hlen Hbad).
Qed.

Lemma constructor_invalid_begin_witness :
  ReferenceGenome_new question_marks
    (Some (encode_header header_2103 ++
           (encode_record_head record_2103 ++ map byte_of_Z [0; 0; 0; 0; 147])))
    1 5 9 ""
  = Throw InvalidBeginPosition.
Proof.
  apply (constructor_invalid_begin question_marks header_2103
           (encode_record_head record_2103 ++ map byte_of_Z [0; 0; 0; 0; 147])
           (map byte_of_Z [0; 0; 0; 4])
           (map byte_of_Z [0; 0; 0; 0; 0; 0; 0; 0; 0; 0; 0; 0; 147]) 1 5 9 "");
    [ constructor; try reflexivity; [by left | repeat constructor; cbn; lia]
    | right; unfold NUM_CHROMOSOMES; lia
    | vm_compute; discriminate
    | reflexivity
    | reflexivity
    | right; vm_compute; reflexivity ].
Defined.

(** X13.  A file that cannot be opened makes the constructor (called with a
    valid chromosome specification) and [getChromosomeNames] throw "unable
    to open"; a file that does not begin with the four bytes 1A 41 27 43 or
    with the four bytes 43 27 41 1A, a file of fewer than four bytes
    included, makes both throw "is not a 2bit file". *)
Theorem other_files_are_refused uninit chrNumber beginpos endpos chrName :
  chrName <> "" \/ 1 <= chrNumber <= NUM_CHROMOSOMES ->
  (ReferenceGenome_new uninit None chrNumber beginpos endpos chrName = Throw UnableToOpen /\
   getChromosomeNames None = Throw UnableToOpen) /\
  forall file,
    take 4 file <> signature_bytes -> take 4 file <> signature_bytes_swapped ->
    ReferenceGenome_new uninit (Some file) chrNumber beginpos endpos chrName
    = Throw NotA2bitFile /\
    getChromosomeNames (Some file) = Throw NotA2bitFile.
Proof.
  intros Hvalid. apply valid_specification in Hvalid. split.
  - split; [|done]. unfold ReferenceGenome_new. by rewrite Hvalid.
  - intros file H1 H2. split.
    + unfold ReferenceGenome_new, ReferenceGenome_body. rewrite Hvalid.
      unfold io_bind at 1.
      by rewrite (locate_chromosome_refuses file chrNumber chrName DEFAULT_BUFFER_SIZE
                    default_buffer_positive H1 H2).
    + unfold getChromosomeNames.
      by rewrite (getChromosomeNames_body_refuses file DEFAULT_BUFFER_SIZE
                    default_buffer_positive H1 H2).
Qed.

Lemma other_files_are_refused_witness :
  (ReferenceGenome_new question_marks None 1 1 4 "" = Throw UnableToOpen /\
   getChromosomeNames None = Throw UnableToOpen) /\
  forall file,
    take 4 file <> signature_bytes -> take 4 file <> signature_bytes_swapped ->
    ReferenceGenome_new question_marks (Some file) 1 1 4 "" = Throw NotA2bitFile /\
    getChromosomeNames (Some file) = Throw NotA2bitFile.
Proof.
  apply (other_files_are_refused question_marks 1 1 4 "").
  right. unfold NUM_CHROMOSOMES. lia.
Defined.

(** X14.  On a file that begins with a well-formed header,
    [getChromosomeNames] returns the names of all the entries of the
    directory, in the order of the directory, whatever their offsets. *)
Theorem getChromosomeNames_lists_directory h rest :
  header_ok h ->
  getChromosomeNames (Some (encode_header h ++ rest))
  = Ret (map entry_string (hdr_directory h)).
Proof.
  intros Hh. unfold getChromosomeNames.
  destruct (getChromosomeNames_body_spec (encode_header h ++ rest) h rest
              DEFAULT_BUFFER_SIZE eq_refl Hh default_buffer_positive) as (r' & ->).
  done.
Qed.

Lemma getChromosomeNames_lists_directory_witness :
  getChromosomeNames
    (Some (encode_header header_twice ++
           (encode_record_head record_2103 ++ map byte_of_Z [0; 0; 0; 0; 147])))
  = Ret (map entry_string (hdr_directory header_twice)).
Proof.
  apply (getChromosomeNames_lists_directory header_twice
           (encode_record_head record_2103 ++ map byte_of_Z [0; 0; 0; 0; 147])).
  constructor; try reflexivity; [by left | repeat constructor; cbn; lia].
Defined.

(** X15.  The constructor finds only chromosomes that [getChromosomeNames]
    lists: when it is called with a name on a file that begins with a
    well-formed header and returns a window, the name is among the names
    that [getChromosomeNames] returns for the file. *)
Theorem constructed_chromosome_is_listed
    uninit h rest chrNumber beginpos endpos chrName g :
  header_ok h -> chrName <> "" ->
  ReferenceGenome_new uninit (Some (encode_header h ++ rest)) chrNumber beginpos endpos
    chrName = Ret g ->
  exists names, getChromosomeNames (Some (encode_header h ++ rest)) = Ret names /\
                In chrName names.
Proof.
  intros Hh Hname Hnew.
  exists (map entry_string (hdr_directory h)). split.
  - unfold getChromosomeNames.
    destruct (getChromosomeNames_body_spec (encode_header h ++ rest) h rest
                DEFAULT_BUFFER_SIZE eq_refl Hh default_buffer_positive) as (r' & ->).
    done.
  - pose proof (ReferenceGenome_new_located uninit h rest chrNumber beginpos endpos chrName
                  Hh (or_introl Hname)) as Hloc.
    cbv zeta in Hloc.
    destruct (Z.eqb_spec (selected_offset (header_swap h) chrNumber chrName
                            (hdr_directory h)) 0) as [|Hoff];
      [by rewrite Hloc in Hnew|].
    destruct (selected_offset_entry _ _ _ _ Hoff) as (e & He & Hm).
    apply in_map_iff. exists e. split; [|done].
    unfold entry_matches, name_matches in Hm.
    apply String.eqb_neq in Hname. rewrite Hname in Hm. cbn in Hm.
    by apply String.eqb_eq in Hm.
Qed.

Lemma constructed_chromosome_is_listed_witness :
  exists names,
    getChromosomeNames
      (Some (encode_header header_2103 ++
             (encode_record_head record_2103 ++ map byte_of_Z [0; 0; 0; 0; 147])))
    = Ret names /\ In "1" names.
Proof.
  apply (constructed_chromosome_is_listed question_marks header_2103
           (encode_record_head record_2103 ++ map byte_of_Z [0; 0; 0; 0; 147])
           0 1 4 "1" window_2103);
    [ constructor; try reflexivity; [by left | repeat constructor; cbn; lia]
    | discriminate
    | vm_compute; reflexivity ].
Defined.

(** * Further properties of the byte order *)

(** X16.  The function [read_uint32(reader, swapBytes)] of the 2bit code
    returns the number that the next four bytes spell with the most
    significant byte first when [swapBytes] is false, and with the least
    significant byte first when it is true; when fewer than four bytes are
    left it throws "truncated 2bit file". *)
Theorem read_uint32_byte_orders file r :
  reader_ok file r ->
  (forall bs rest, remaining file r = bs ++ rest -> length bs = 4%nat ->
     reads file (read_uint32 false) r (big_endian bs) rest /\
     reads file (read_uint32 true) r (little_endian bs) rest) /\
  ((length (remaining file r) < 4)%nat ->
   forall swapBytes, read_uint32 swapBytes r = Throw Truncated2bitFile).
Proof.
  intros Hok. split.
  - intros bs rest Hrem Hlen.
    rewrite <- field32_big_endian, <- field32_little_endian by done.
    split; by apply read_uint32_reads.
  - intros Hshort swapBytes.
    destruct (read_buffer_short file 4 r Hok Hshort) as (r' & E & _);
      [unfold INT_MAX; lia|].
    unfold read_uint32, BinaryReader_read_uint32.
    unfold io_bind at 1. unfold io_bind at 1. by rewrite E.
Qed.

Lemma read_uint32_byte_orders_witness :
  (forall bs rest, remaining ten_bytes (small_reader ten_bytes) = bs ++ rest ->
     length bs = 4%nat ->
     reads ten_bytes (read_uint32 false) (small_reader ten_bytes) (big_endian bs) rest /\
     reads ten_bytes (read_uint32 true) (small_reader ten_bytes) (little_endian bs) rest) /\
  ((length (remaining ten_bytes (small_reader ten_bytes)) < 4)%nat ->
   forall swapBytes,
     read_uint32 swapBytes (small_reader ten_bytes) = Throw Truncated2bitFile).
Proof.
  apply (read_uint32_byte_orders ten_bytes (small_reader ten_bytes)).
  repeat split; cbn; lia.
Defined.

(** X17.  [swap_uint32] reverses the four bytes of its argument, and applied
    twice it gives the argument back. *)
Theorem swap_uint32_reverses v :
  u32 v ->
  (forall b0 b1 b2 b3, v = big_endian [b0; b1; b2; b3] ->
     swap_uint32 v = big_endian [b3; b2; b1; b0]) /\
  swap_uint32 (swap_uint32 v) = v.
Proof.
  intros Hv. split.
  - intros b0 b1 b2 b3 ->. apply swap_uint32_bytes.
  - by apply swap_uint32_involutive.
Qed.

Lemma swap_uint32_reverses_witness :
  (forall b0 b1 b2 b3, EXPECTED_SIGNATURE = big_endian [b0; b1; b2; b3] ->
     swap_uint32 EXPECTED_SIGNATURE = big_endian [b3; b2; b1; b0]) /\
  swap_uint32 (swap_uint32 EXPECTED_SIGNATURE) = EXPECTED_SIGNATURE.
Proof.
  apply (swap_uint32_reverses EXPECTED_SIGNATURE).
  unfold u32, EXPECTED_SIGNATURE, UINT32_MAX. lia.
Defined.

(** * The writer *)

Section WriterFacts.

Import Writer.

Lemma wrap64_add_l x y : wrap64 (wrap64 x + y) = wrap64 (x + y).
Proof. unfold wrap64. apply Zplus_mod_idemp_l. Qed.

Lemma sys_write_position f bytes :
  (position f <= length (contents f))%nat ->
  (position (sys_write f bytes) <= length (contents (sys_write f bytes)))%nat.
Proof.
  intros Hp. cbn. rewrite !length_app, length_take, length_drop. lia.
Qed.

Lemma sys_write_take f bytes :
  (position f <= length (contents f))%nat ->
  take (position (sys_write f bytes)) (contents (sys_write f bytes))
  = take (position f) (contents f) ++ bytes.
Proof.
  intros Hp. cbn. rewrite app_assoc.
  rewrite take_app_length'; [done|]. rewrite length_app, length_take. lia.
Qed.

Lemma sys_write_drop f bytes :
  (position f <= length (contents f))%nat ->
  drop (position (sys_write f bytes)) (contents (sys_write f bytes))
  = drop (position f + length bytes) (contents f).
Proof.
  intros Hp. cbn. rewrite app_assoc.
  rewrite drop_app_length'; [done|]. rewrite length_app, length_take. lia.
Qed.

(** [flushBuffer] moves the bytes of the buffer into the file. *)
Lemma flushBuffer_open old w :
  writer_ok w -> open_on old w ->
  exists w',
    flushBuffer w = Done (tt, w') /\ writer_ok w' /\ open_on old w' /\
    output w' = output w /\ offset w' = 0%nat /\ bufsize w' = bufsize w /\
    bytesWritten w' = bytesWritten w.
Proof.
  intros (Hbuf & Hoff) (f & Hfd & Hpos & Hold). unfold flushBuffer. rewrite Hfd.
  destruct (Nat.eqb_spec (offset w) 0) as [H0|H0].
  - exists w. split; [done|]. split; [done|]. split; [by exists f|]. done.
  - eexists. split; [reflexivity|].
    assert (Hlen : length (take (offset w) (buf w)) = offset w)
      by (rewrite length_take; lia).
    split; [split; cbn; (done || lia)|]. split.
    { eexists. split; [reflexivity|]. split; [by apply sys_write_position|].
      rewrite sys_write_drop by done. cbn [position sys_write].
      by rewrite <- !drop_drop, Hold. }
    split.
    { unfold output. cbn [fd offset buf]. rewrite Hfd, sys_write_take by done.
      by rewrite take_0, app_nil_r. }
    split; [done|]. split; [done|].
    unfold bytesWritten. cbn [bytesFlushed offset]. by rewrite wrap64_add_l, Z.add_0_r.
Qed.

(** On an open file, [write_buffer] appends its bytes to what has been
    written. *)
Lemma write_buffer_open old bytes w :
  writer_ok w -> open_on old w -> (length bytes <= bufsize w)%nat ->
  exists w',
    write_buffer bytes w = Done (tt, w') /\ writer_ok w' /\ open_on old w' /\
    output w' = output w ++ bytes /\ bufsize w' = bufsize w /\
    bytesWritten w' = wrap64 (bytesWritten w + Z.of_nat (length bytes)).
Proof.
  intros Hok Hopen Hfit. unfold write_buffer.
  rewrite (proj2 (Nat.ltb_ge _ _) Hfit).
  assert (Hready : exists w1,
    (if (bufsize w <? offset w + length bytes)%nat then flushBuffer w else Done (tt, w))
    = Done (tt, w1) /\ writer_ok w1 /\ open_on old w1 /\ output w1 = output w /\
    (offset w1 + length bytes <= bufsize w1)%nat /\ bufsize w1 = bufsize w /\
    bytesWritten w1 = bytesWritten w).
  { destruct (Nat.ltb_spec (bufsize w) (offset w + length bytes)) as [Hfull|Hroom].
    - destruct (flushBuffer_open old w Hok Hopen)
        as (w1 & E & Hok1 & Hopen1 & Hout1 & Hoff1 & Hsize1 & Hcount1).
      exists w1. split; [done|]. split; [done|]. split; [done|]. split; [done|].
      split; [lia|]. done.
    - exists w. split; [done|]. split; [done|]. split; [done|]. split; [done|].
      split; [lia|]. done. }
  destruct Hready as (w1 & -> & (Hbuf1 & Hoff1) & Hopen1 & Hout1 & Hroom & Hsize1 & Hcount1).
  rewrite (proj2 (Nat.leb_le _ _)) by lia.
  eexists. split; [reflexivity|]. split.
  { split; cbn [buf bufsize offset]; [|lia].
    rewrite !length_app, length_take, length_drop. lia. }
  split.
  { destruct Hopen1 as (f & Hfd & Hpos & Hold). by exists f. }
  split.
  { rewrite <- Hout1. unfold output. cbn [fd offset buf]. rewrite <- app_assoc. f_equal.
    rewrite app_assoc. rewrite take_app_length'; [done|].
    rewrite length_app, length_take. lia. }
  split; [done|].
  rewrite <- Hcount1. unfold bytesWritten. cbn [bytesFlushed offset].
  rewrite wrap64_add_l. f_equal. lia.
Qed.

(** Without an open file, [write_buffer] keeps the bytes as long as the
    buffer has room for them, and throws when it has not. *)
Lemma write_buffer_closed bytes w :
  writer_ok w -> fd w = None -> (length bytes <= bufsize w)%nat ->
  if (offset w + length bytes <=? bufsize w)%nat
  then exists w', write_buffer bytes w = Done (tt, w') /\ fd w' = None /\
                  offset w' = (offset w + length bytes)%nat
  else write_buffer bytes w = Raise FileNotOpen.
Proof.
  intros (Hbuf & Hoff) Hfd Hfit. unfold write_buffer.
  rewrite (proj2 (Nat.ltb_ge _ _) Hfit).
  destruct (Nat.leb_spec (offset w + length bytes) (bufsize w)) as [Hroom|Hfull].
  - rewrite (proj2 (Nat.ltb_ge _ _) Hroom). rewrite (proj2 (Nat.leb_le _ _)) by lia.
    eexists. split; [reflexivity|]. done.
  - rewrite (proj2 (Nat.ltb_lt _ _) Hfull). unfold flushBuffer. by rewrite Hfd.
Qed.

(** [closeFile] leaves in the file all that has been written, followed by
    what the file held behind that many bytes. *)
Lemma closeFile_open old w :
  writer_ok w -> open_on old w ->
  exists w',
    closeFile w = Done (Some (output w ++ drop (length (output w)) old), w') /\
    fd w' = None /\ writer_ok w'.
Proof.
  intros Hok Hopen.
  destruct (flushBuffer_open old w Hok Hopen)
    as (w1 & E & Hok1 & (f1 & Hfd1 & Hpos1 & Hold1) & Hout1 & Hoff1 & Hsize1 & _).
  destruct Hopen as (f & Hfd & _). unfold closeFile. rewrite Hfd, E, Hfd1.
  exists {| fd := None; buf := buf w1; bufsize := bufsize w1; offset := 0;
            bytesFlushed := 0 |}.
  split; [|split; [done|]].
  - do 3 f_equal. rewrite <- Hout1. unfold output. rewrite Hfd1, Hoff1, take_0, app_nil_r.
    rewrite length_take, Nat.min_l by done. rewrite <- Hold1. symmetry. apply take_drop.
  - destruct Hok1 as (Hbuf1 & _). split; cbn; [done|lia].
Qed.

End WriterFacts.

(** * Writing and reading back *)

Lemma uint8_cast_val x : byte_val (Writer.uint8_cast x) = x mod 256.
Proof.
  unfold Writer.uint8_cast. apply byte_val_of_Z.
  pose proof (Z.mod_pos_bound x 256 ltac:(lia)). lia.
Qed.

Lemma masked_byte_val v k :
  0 <= k -> byte_val (Writer.uint8_cast (Z.land (Z.shiftr v k) 255)) = (v / 2 ^ k) mod 256.
Proof.
  intros Hk. rewrite uint8_cast_val, land_255, Z.shiftr_div_pow2 by done.
  apply Z.mod_mod. lia.
Qed.

Lemma big_endian_cons b bs :
  big_endian (b :: bs) = byte_val b * 256 ^ Z.of_nat (length bs) + big_endian bs.
Proof.
  induction bs as [|c bs IH] using rev_ind.
  - unfold big_endian. cbn. lia.
  - rewrite app_comm_cons, !big_endian_snoc, IH, length_app, Nat2Z.inj_add, Z.pow_add_r by lia.
    cbn [length]. change (256 ^ Z.of_nat 1) with 256. lia.
Qed.

(** The digits of a number in base 256, the least significant last. *)
Lemma digits_sum v n :
  0 <= v < 256 ^ Z.of_nat n ->
  fold_left (fun acc i => 256 * acc + (v / 2 ^ (8 * (Z.of_nat n - 1 - i))) mod 256)
            (map Z.of_nat (seq 0 n)) 0 = v.
Proof.
  revert v. induction n as [|n IH]; intros v Hv.
  - cbn in *. lia.
  - rewrite seq_S, map_app, fold_left_app. cbn [map fold_left Nat.add].
    replace (8 * (Z.of_nat (S n) - 1 - Z.of_nat n)) with 0 by lia.
    change (2 ^ 0) with 1. rewrite Z.div_1_r.
    assert (Hhigh : 0 <= v / 256 < 256 ^ Z.of_nat n).
    { rewrite Nat2Z.inj_succ, Z.pow_succ_r in Hv by lia. Z.div_mod_to_equations. lia. }
    assert (Hsame : forall l acc,
      Forall (fun i => 0 <= i < Z.of_nat n) l ->
      fold_left (fun acc i => 256 * acc + (v / 2 ^ (8 * (Z.of_nat (S n) - 1 - i))) mod 256)
                l acc =
      fold_left (fun acc i => 256 * acc + (v / 256 / 2 ^ (8 * (Z.of_nat n - 1 - i))) mod 256)
                l acc).
    { induction l as [|i l IHl]; intros acc Hl; [done|].
      apply Forall_cons in Hl as [Hi Hl]. cbn [fold_left]. rewrite IHl by done.
      do 3 f_equal.
      replace (8 * (Z.of_nat (S n) - 1 - i)) with (8 + 8 * (Z.of_nat n - 1 - i)) by lia.
      rewrite Z.pow_add_r by lia. change (2 ^ 8) with 256.
      rewrite Z.div_div by lia. done. }
    rewrite Hsame.
    + rewrite (IH (v / 256) Hhigh). pose proof (Z.div_mod v 256 ltac:(lia)). lia.
    + apply List.Forall_forall. intros i Hi. apply in_map_iff in Hi as (j & <- & Hj).
      apply in_seq in Hj. lia.
Qed.

Lemma datum_bytes_value d :
  datum_ok d ->
  match d with
  | U8 v | U16 v | U32 v | U64 v => big_endian (datum_bytes d) = v
  | Str s => datum_bytes d = s ++ [x00]
  end.
Proof.
  destruct d as [v|v|v|v|s]; intros Hok; cbn [datum_ok datum_bytes] in *; [| | | |done].
  - unfold big_endian. cbn [fold_left]. rewrite byte_val_of_Z by lia. lia.
  - unfold big_endian. cbn [fold_left].
    rewrite uint8_cast_val, uint8_cast_val, land_255, Z.shiftr_div_pow2 by lia.
    change (2 ^ 8) with 256. rewrite Z.mod_mod by lia.
    Z.div_mod_to_equations. lia.
  - unfold big_endian. cbn [map fold_left]. rewrite !masked_byte_val by lia.
    pose proof (digits_sum v 4 ltac:(cbn; lia)) as H. cbn [seq map fold_left] in H.
    rewrite <- H at 5. reflexivity.
  - unfold big_endian. cbn [map fold_left]. rewrite !masked_byte_val by lia.
    pose proof (digits_sum v 8 ltac:(cbn; lia)) as H. cbn [seq map fold_left] in H.
    rewrite <- H at 9. reflexivity.
Qed.

Lemma datum_bytes_length d : length (datum_bytes d) = datum_size d.
Proof.
  destruct d as [v|v|v|v|s]; cbn [datum_bytes datum_size]; try done.
  rewrite length_app. cbn. lia.
Qed.

Section RoundTrip.

Variable file : list byte.

(** The member function of the reader gives back the value from its
    bytes. *)
Lemma read_datum_reads d r rest :
  datum_ok d -> Z.of_nat (datum_size d) <= INT_MAX + 1 ->
  reader_ok file r -> remaining file r = datum_bytes d ++ rest ->
  reads file (read_datum d) r (Some d) rest.
Proof.
  intros Hd Hint Hok Hrem. pose proof (datum_bytes_value d Hd) as Hval.
  destruct d as [v|v|v|v|s]; cbn [read_datum datum_ok] in *.
  - cbn [datum_bytes app] in Hrem.
    eapply reads_seq; [by apply read_uint8_reads|].
    intros r' Hok' Hrem'. rewrite byte_val_of_Z by lia. by apply reads_ret.
  - cbn [datum_bytes app] in Hrem.
    eapply reads_seq; [by apply read_uint16_reads|].
    intros r' Hok' Hrem'. cbn [datum_bytes] in Hval. rewrite Hval. by apply reads_ret.
  - eapply reads_seq; [by apply (signature_reads file r (datum_bytes (U32 v)) rest)|].
    intros r' Hok' Hrem'.
    rewrite uint32_of_bytes_big_endian, Hval by done. by apply reads_ret.
  - eapply reads_seq; [by apply (read_uint64_reads file r (datum_bytes (U64 v)) rest)|].
    intros r' Hok' Hrem'. rewrite Hval. by apply reads_ret.
  - cbn [datum_bytes] in Hrem. rewrite <- app_assoc in Hrem. cbn [app] in Hrem.
    cbn [datum_size] in Hint.
    eapply reads_seq; [apply (read_string_terminated file (S (length s)) r s rest);
                       [done | done | done | lia | lia]|].
    intros r' Hok' Hrem'. cbn [option_map]. rewrite removelast_last. by apply reads_ret.
Qed.

Lemma read_all_reads ds r rest :
  Forall datum_ok ds ->
  Forall (fun d => Z.of_nat (datum_size d) <= INT_MAX + 1) ds ->
  reader_ok file r ->
  remaining file r = concat (map datum_bytes ds) ++ rest ->
  reads file (read_all ds) r (Some ds) rest.
Proof.
  revert r. induction ds as [|d ds IH]; intros r Hds Hint Hok Hrem.
  - by apply reads_ret.
  - apply Forall_cons in Hds as [Hd Hds]. apply Forall_cons in Hint as [Hi Hint].
    cbn [map concat read_all] in *.
    rewrite <- app_assoc in Hrem.
    eapply reads_seq; [by apply read_datum_reads|].
    intros r' Hok' Hrem'. cbv beta iota.
    eapply reads_seq; [by apply IH|].
    intros r'' Hok'' Hrem''. by apply reads_ret.
Qed.

End RoundTrip.

Lemma write_all_open old ds w :
  Writer.writer_ok w -> Writer.open_on old w ->
  Forall (fun d => (datum_size d <= Writer.bufsize w)%nat) ds ->
  exists w',
    write_all ds w = Writer.Done (tt, w') /\ Writer.writer_ok w' /\ Writer.open_on old w' /\
    Writer.output w' = Writer.output w ++ concat (map datum_bytes ds) /\
    Writer.bytesWritten w'
    = wrap64 (Writer.bytesWritten w + Z.of_nat (length (concat (map datum_bytes ds)))).
Proof.
  revert w. induction ds as [|d ds IH]; intros w Hok Hopen Hfit.
  - exists w. cbn [write_all map concat length]. rewrite app_nil_r, Z.add_0_r.
    split; [done|]. split; [done|]. split; [done|]. split; [done|].
    unfold Writer.bytesWritten, wrap64. by rewrite Z.mod_mod by lia.
  - apply Forall_cons in Hfit as [Hd Hfit]. cbn [write_all map concat].
    assert (Hwrite : write_datum d = Writer.write_buffer (datum_bytes d))
      by (by destruct d).
    rewrite <- datum_bytes_length in Hd.
    destruct (write_buffer_open old (datum_bytes d) w Hok Hopen Hd)
      as (w1 & E & Hok1 & Hopen1 & Hout1 & Hsize1 & Hcount1).
    rewrite Hwrite, E.
    destruct (IH w1 Hok1 Hopen1) as (w' & E' & Hok' & Hopen' & Hout' & Hcount').
    { by rewrite Hsize1. }
    exists w'. split; [done|]. split; [done|]. split; [done|]. split.
    + by rewrite Hout', Hout1, <- app_assoc.
    + rewrite Hcount', Hcount1, wrap64_add_l, length_app. f_equal. lia.
Qed.

(** * Further properties of the writer *)

(** X18.  The buffer of the writer is not seen in its output.  On an open
    file, [write_buffer] of at most [bufsize] bytes returns, and the bytes
    that the file and the buffer hold together are those that they held
    before, followed by the new bytes; [bytesWritten()] grows by their number
    (in [uint64_t]); no byte is stored behind the end of the buffer.  With
    more than [bufsize] bytes it throws "binary write buffer is too small". *)
Theorem write_buffer_appends old bytes w :
  Writer.writer_ok w -> Writer.open_on old w ->
  if (length bytes <=? Writer.bufsize w)%nat
  then exists w',
         Writer.write_buffer bytes w = Writer.Done (tt, w') /\
         Writer.writer_ok w' /\ Writer.open_on old w' /\
         Writer.output w' = Writer.output w ++ bytes /\
         Writer.bytesWritten w'
         = wrap64 (Writer.bytesWritten w + Z.of_nat (length bytes))
  else Writer.write_buffer bytes w = Writer.Raise Writer.BufferTooSmall.
Proof.
  intros Hok Hopen. destruct (Nat.leb_spec (length bytes) (Writer.bufsize w)) as [Hfit|Hbig].
  - destruct (write_buffer_open old bytes w Hok Hopen Hfit)
      as (w' & E & Hok' & Hopen' & Hout & _ & Hcount).
    by exists w'.
  - unfold Writer.write_buffer. by rewrite (proj2 (Nat.ltb_lt _ _) Hbig).
Qed.

Lemma write_buffer_appends_witness :
  if (length [x01; x02; x03] <=? Writer.bufsize small_writer_open)%nat
  then exists w',
         Writer.write_buffer [x01; x02; x03] small_writer_open = Writer.Done (tt, w') /\
         Writer.writer_ok w' /\ Writer.open_on [] w' /\
         Writer.output w' = Writer.output small_writer_open ++ [x01; x02; x03] /\
         Writer.bytesWritten w'
         = wrap64 (Writer.bytesWritten small_writer_open
                   + Z.of_nat (length [x01; x02; x03]))
  else Writer.write_buffer [x01; x02; x03] small_writer_open
       = Writer.Raise Writer.BufferTooSmall.
Proof.
  apply (write_buffer_appends [] [x01; x02; x03] small_writer_open);
    [ split; [reflexivity | cbn; lia]
    | eexists; split; [reflexivity | split; [cbn; lia | reflexivity]] ].
Defined.

(** X19.  On a writer that has no file open, [write_buffer] stores the bytes
    in the buffer and returns as long as the buffer has room for them; it
    throws "binary file not open" only when the buffer would have to be
    flushed. *)
Theorem write_buffer_without_file bytes w :
  Writer.writer_ok w -> Writer.fd w = None ->
  (length bytes <= Writer.bufsize w)%nat ->
  if (Writer.offset w + length bytes <=? Writer.bufsize w)%nat
  then exists w', Writer.write_buffer bytes w = Writer.Done (tt, w') /\
                  Writer.fd w' = None /\
                  Writer.offset w' = (Writer.offset w + length bytes)%nat
  else Writer.write_buffer bytes w = Writer.Raise Writer.FileNotOpen.
Proof. apply write_buffer_closed. Qed.

Lemma write_buffer_without_file_witness :
  if (Writer.offset small_writer + length [x01; x02; x03]
      <=? Writer.bufsize small_writer)%nat
  then exists w', Writer.write_buffer [x01; x02; x03] small_writer = Writer.Done (tt, w') /\
                  Writer.fd w' = None /\
                  Writer.offset w' = (Writer.offset small_writer + length [x01; x02; x03])%nat
  else Writer.write_buffer [x01; x02; x03] small_writer = Writer.Raise Writer.FileNotOpen.
Proof.
  apply (write_buffer_without_file [x01; x02; x03] small_writer);
    [ split; [reflexivity | cbn; lia] | reflexivity | cbn; lia ].
Defined.

(** Opening, writing and closing, in one statement. *)
Lemma open_write_close old newFile ds w :
  Writer.writer_ok w -> Writer.fd w = None ->
  Forall (fun d => (datum_size d <= Writer.bufsize w)%nat) ds ->
  let bytes := concat (map datum_bytes ds) in
  exists w1 w2 w3,
    Writer.openFile (Some old) newFile w = (true, w1) /\
    write_all ds w1 = Writer.Done (tt, w2) /\
    Writer.bytesWritten w2 = wrap64 (Z.of_nat (length bytes)) /\
    Writer.closeFile w2
    = Writer.Done (Some (bytes ++ drop (length bytes) (if newFile then [] else old)), w3).
Proof.
  intros Hok Hfd Hfit bytes.
  set (start := if newFile then [] else old).
  set (w1 := {| Writer.fd := Some {| Writer.contents := start; Writer.position := 0 |};
                Writer.buf := Writer.buf w; Writer.bufsize := Writer.bufsize w;
                Writer.offset := 0; Writer.bytesFlushed := 0 |}).
  assert (Hok1 : Writer.writer_ok w1) by (destruct Hok; split; cbn; (done || lia)).
  assert (Hopen1 : Writer.open_on start w1).
  { eexists. split; [reflexivity|]. split; [cbn; lia|done]. }
  destruct (write_all_open start ds w1 Hok1 Hopen1 Hfit)
    as (w2 & E2 & Hok2 & Hopen2 & Hout2 & Hcount2).
  destruct (closeFile_open start w2 Hok2 Hopen2) as (w3 & E3 & _).
  exists w1, w2, w3. split; [unfold Writer.openFile; by rewrite Hfd|].
  split; [done|]. split; [by rewrite Hcount2|].
  rewrite E3, Hout2. done.
Qed.

(** X20.  What a file holds after it has been written.  A writer without an
    open file opens the file that held [old], writes values that fit into
    its buffer, and closes the file: the file then holds the bytes of the
    values in the order of the calls, followed, when the file was not
    created anew, by what it held behind that many bytes; before the file
    is closed [bytesWritten()] is the number of these bytes (in
    [uint64_t]). *)
Theorem written_file_contents old newFile ds w :
  Writer.writer_ok w -> Writer.fd w = None ->
  Forall (fun d => (datum_size d <= Writer.bufsize w)%nat) ds ->
  let bytes := concat (map datum_bytes ds) in
  exists w1 w2 w3,
    Writer.openFile (Some old) newFile w = (true, w1) /\
    write_all ds w1 = Writer.Done (tt, w2) /\
    Writer.bytesWritten w2 = wrap64 (Z.of_nat (length bytes)) /\
    Writer.closeFile w2
    = Writer.Done (Some (bytes ++ drop (length bytes) (if newFile then [] else old)), w3).
Proof. apply open_write_close. Qed.

Lemma written_file_contents_witness :
  exists w1 w2 w3,
    Writer.openFile (Some ten_bytes) false small_writer = (true, w1) /\
    write_all [U16 513; U8 200] w1 = Writer.Done (tt, w2) /\
    Writer.bytesWritten w2
    = wrap64 (Z.of_nat (length (concat (map datum_bytes [U16 513; U8 200])))) /\
    Writer.closeFile w2
    = Writer.Done (Some (concat (map datum_bytes [U16 513; U8 200]) ++
                         drop (length (concat (map datum_bytes [U16 513; U8 200])))
                              (if false then [] else ten_bytes)), w3).
Proof.
  apply (written_file_contents ten_bytes false [U16 513; U8 200] small_writer);
    [ split; [reflexivity | cbn; lia] | reflexivity | repeat constructor ].
Defined.



(** * The trie of sequences *)

Lemma getLinkIndex_range c : getLinkIndex c = -1 \/ 0 <= getLinkIndex c <= 3.
Proof.
  unfold getLinkIndex.
  destruct (Ascii.eqb c "A"), (Ascii.eqb c "C"), (Ascii.eqb c "G"), (Ascii.eqb c "T"); lia.
Qed.

(** Two characters with the same index of a link are the same character. *)
Lemma getLinkIndex_inj c c' :
  0 <= getLinkIndex c -> getLinkIndex c = getLinkIndex c' -> c = c'.
Proof.
  unfold getLinkIndex.
  destruct (Ascii.eqb_spec c "A"), (Ascii.eqb_spec c "C"), (Ascii.eqb_spec c "G"),
           (Ascii.eqb_spec c "T"),
           (Ascii.eqb_spec c' "A"), (Ascii.eqb_spec c' "C"), (Ascii.eqb_spec c' "G"),
           (Ascii.eqb_spec c' "T"); intros; (congruence || lia).
Qed.

Lemma get_set_link t index n :
  0 <= index <= 3 -> get_link (set_link t index n) index = Some n.
Proof.
  intros Hi. destruct t as [e l0 l1 l2 l3]. unfold set_link, get_link.
  destruct (Z.eqb_spec index 0); [by subst|].
  destruct (Z.eqb_spec index 1); [by subst|].
  destruct (Z.eqb_spec index 2); [by subst|].
  destruct (Z.eqb_spec index 3); [by subst|]. lia.
Qed.

Lemma get_set_link_other t index n j :
  0 <= j <= 3 -> j <> index -> get_link (set_link t index n) j = get_link t j.
Proof.
  intros Hj Hne. destruct t as [e l0 l1 l2 l3]. unfold set_link, get_link.
  destruct (Z.eqb_spec index 0), (Z.eqb_spec index 1), (Z.eqb_spec index 2),
           (Z.eqb_spec index 3), (Z.eqb_spec j 0), (Z.eqb_spec j 1), (Z.eqb_spec j 2),
           (Z.eqb_spec j 3); (done || lia).
Qed.

Lemma endOfSequence_set_link t index n :
  endOfSequence (set_link t index n) = endOfSequence t.
Proof.
  destruct t as [e l0 l1 l2 l3]. unfold set_link.
  by destruct (index =? 0), (index =? 1), (index =? 2), (index =? 3).
Qed.

Lemma get_link_set_endOfSequence t j :
  get_link (set_endOfSequence t) j = get_link t j.
Proof. by destruct t. Qed.

(** No sequence is in a new trie. *)
Lemma findSequence_new s : findSequence s SequenceTrie_new = false.
Proof.
  destruct s as [|c s]; [done|]. cbn [findSequence].
  destruct (getLinkIndex c <? 0); [done|]. unfold SequenceTrie_new, get_link.
  by destruct (getLinkIndex c =? 0), (getLinkIndex c =? 1), (getLinkIndex c =? 2),
              (getLinkIndex c =? 3).
Qed.

(** A sequence of A, C, G, T is added, and nothing else changes. *)
Lemma addSequence_valid s t :
  all_ACGT s = true ->
  snd (addSequence s t) = false /\
  forall s', findSequence s' (fst (addSequence s t)) = String.eqb s' s || findSequence s' t.
Proof.
  revert t. induction s as [|c s IH]; intros t Hs.
  - split; [done|]. intros [|c' s']; [by destruct t|]. cbn [addSequence fst findSequence].
    by rewrite get_link_set_endOfSequence.
  - cbn [all_ACGT] in Hs. apply andb_true_iff in Hs as [Hc Hs]. apply Z.leb_le in Hc.
    cbn [addSequence]. rewrite (proj2 (Z.ltb_ge _ _) Hc).
    set (next := match get_link t (getLinkIndex c) with
                 | Some n => n
                 | None => SequenceTrie_new
                 end).
    destruct (IH next Hs) as [Hthrown Hfind].
    destruct (addSequence s next) as [next' thrown]. cbn [fst snd] in *.
    split; [done|].
    assert (Hrange : 0 <= getLinkIndex c <= 3) by (destruct (getLinkIndex_range c); lia).
    intros [|c' s'].
    { cbn [findSequence String.eqb orb]. apply endOfSequence_set_link. }
    cbn [findSequence String.eqb].
    destruct (Z.ltb_spec (getLinkIndex c') 0) as [Hneg|Hpos].
    { destruct (Ascii.eqb_spec c' c) as [->|_]; [lia|done]. }
    destruct (Z.eq_dec (getLinkIndex c') (getLinkIndex c)) as [Heq|Hne].
    + assert (c' = c) as -> by (symmetry; by apply getLinkIndex_inj).
      rewrite Ascii.eqb_refl, get_set_link, Hfind by done.
      subst next. destruct (get_link t (getLinkIndex c)); [done|].
      by rewrite findSequence_new.
    + destruct (Ascii.eqb_spec c' c) as [->|_]; [done|]. cbn [orb].
      rewrite get_set_link_other; [done| |done].
      destruct (getLinkIndex_range c'); lia.
Qed.

(** A sequence with another character makes [addSequence] throw, and the
    trie holds the same sequences as before. *)
Lemma addSequence_invalid s t :
  all_ACGT s = false ->
  snd (addSequence s t) = true /\
  forall s', findSequence s' (fst (addSequence s t)) = findSequence s' t.
Proof.
  revert t. induction s as [|c s IH]; intros t Hs; [done|].
  cbn [all_ACGT] in Hs. cbn [addSequence].
  destruct (Z.ltb_spec (getLinkIndex c) 0) as [Hneg|Hpos]; [done|].
  rewrite (proj2 (Z.leb_le _ _) Hpos) in Hs. cbn [andb] in Hs.
  set (next := match get_link t (getLinkIndex c) with
               | Some n => n
               | None => SequenceTrie_new
               end).
  destruct (IH next Hs) as [Hthrown Hfind].
  destruct (addSequence s next) as [next' thrown]. cbn [fst snd] in *.
  split; [done|].
  assert (Hrange : 0 <= getLinkIndex c <= 3) by (destruct (getLinkIndex_range c); lia).
  intros [|c' s'].
  { cbn [findSequence]. apply endOfSequence_set_link. }
  cbn [findSequence].
  destruct (Z.ltb_spec (getLinkIndex c') 0) as [Hneg'|Hpos']; [done|].
  destruct (Z.eq_dec (getLinkIndex c') (getLinkIndex c)) as [Heq|Hne].
  + rewrite Heq, get_set_link, Hfind by done.
    subst next. destruct (get_link t (getLinkIndex c)); [done|].
    by rewrite findSequence_new.
  + rewrite get_set_link_other; [done| |done].
    destruct (getLinkIndex_range c'); lia.
Qed.

(** A new trie has no node but its root. *)
Lemma has_node_new p :
  has_node p SequenceTrie_new = match p with EmptyString => true | _ => false end.
Proof.
  destruct p as [|c p]; [done|]. cbn [has_node].
  destruct (getLinkIndex c <? 0); [done|].
  unfold SequenceTrie_new, get_link.
  by destruct (getLinkIndex c =? 0), (getLinkIndex c =? 1), (getLinkIndex c =? 2),
              (getLinkIndex c =? 3).
Qed.

Lemma has_node_set_endOfSequence p t :
  has_node p (set_endOfSequence t) = has_node p t.
Proof.
  destruct p as [|c p]; [done|]. cbn [has_node].
  by rewrite get_link_set_endOfSequence.
Qed.

Lemma prefix_cons c p c' s :
  String.prefix (String c p) (String c' s) =
  if Ascii.eqb c c' then String.prefix p s else false.
Proof.
  cbn [String.prefix]. destruct (ascii_dec c c') as [->|Hne].
  - by rewrite Ascii.eqb_refl.
  - by rewrite (proj2 (Ascii.eqb_neq c c') Hne).
Qed.

(** The nodes of the trie after [addSequence], whether it has thrown or not:
    the nodes that were there, and a node for every prefix of the characters
    that the loop has visited. *)
Lemma addSequence_nodes s : forall t p,
  has_node p (fst (addSequence s t)) = has_node p t || String.prefix p (accepted s).
Proof.
  induction s as [|c s IH]; intros t p.
  - cbn [addSequence accepted fst]. rewrite has_node_set_endOfSequence.
    destruct p as [|c' p]; [done|]. cbn [String.prefix]. by rewrite orb_false_r.
  - cbn [addSequence accepted].
    destruct (Z.ltb_spec (getLinkIndex c) 0) as [Hneg|Hpos].
    { cbn [fst]. destruct p as [|c' p]; [done|]. cbn [String.prefix].
      by rewrite orb_false_r. }
    set (next := match get_link t (getLinkIndex c) with
                 | Some n => n
                 | None => SequenceTrie_new
                 end).
    specialize (IH next).
    destruct (addSequence s next) as [next' thrown]. cbn [fst] in *.
    assert (Hrange : 0 <= getLinkIndex c <= 3) by (destruct (getLinkIndex_range c); lia).
    destruct p as [|c' p]; [done|]. rewrite prefix_cons. cbn [has_node].
    destruct (Z.ltb_spec (getLinkIndex c') 0) as [Hneg'|Hpos'].
    { destruct (Ascii.eqb_spec c' c) as [->|_]; [lia|done]. }
    destruct (Z.eq_dec (getLinkIndex c') (getLinkIndex c)) as [Heq|Hne].
    + rewrite (getLinkIndex_inj c' c Hpos' Heq), Ascii.eqb_refl.
      rewrite get_set_link, IH by done. subst next.
      destruct (get_link t (getLinkIndex c)); [done|].
      rewrite has_node_new. destruct p; [by destruct (accepted s)|done].
    + rewrite get_set_link_other by (done || destruct (getLinkIndex_range c'); lia).
      destruct (Ascii.eqb_spec c' c) as [->|_]; [done|]. by rewrite orb_false_r.
Qed.

(** * Further properties of the trie *)



(** The nodes that a failed call has created stay in the trie. *)
Example addSequence_invalid_adds_nodes :
  addSequence "AN" SequenceTrie_new
  = (TrieNode false (Some SequenceTrie_new) None None None, true).
Proof. reflexivity. Qed.



(** * Sequences and chromosome names *)

Lemma invert_base_involutive c : invert_base (invert_base c) = c.
Proof.
  unfold invert_base.
  destruct (Ascii.eqb_spec c "A") as [->|]; [done|].
  destruct (Ascii.eqb_spec c "a") as [->|]; [done|].
  destruct (Ascii.eqb_spec c "T") as [->|]; [done|].
  destruct (Ascii.eqb_spec c "t") as [->|]; [done|].
  destruct (Ascii.eqb_spec c "C") as [->|]; [done|].
  destruct (Ascii.eqb_spec c "c") as [->|]; [done|].
  destruct (Ascii.eqb_spec c "G") as [->|]; [done|].
  destruct (Ascii.eqb_spec c "g") as [->|]; [done|].
  repeat match goal with
         | H : c <> ?x |- context [Ascii.eqb c ?x] =>
             rewrite (proj2 (Ascii.eqb_neq c x) H)
         end.
  done.
Qed.

Lemma invertSequence_involutive s : invertSequence (invertSequence s) = s.
Proof.
  induction s as [|c s IH]; [done|]. cbn [invertSequence].
  by rewrite invert_base_involutive, IH.
Qed.

Lemma chars_string_of_list l : chars (string_of_list_ascii l) = l.
Proof. apply list_ascii_of_string_of_list_ascii. Qed.

Lemma string_of_chars s : string_of_list_ascii (chars s) = s.
Proof. apply string_of_list_ascii_of_string. Qed.

Lemma chars_append s1 s2 : chars (s1 ++ s2)%string = chars s1 ++ chars s2.
Proof. unfold chars. induction s1 as [|c s1 IH]; [done|]. cbn. by rewrite IH. Qed.

Lemma chars_invertSequence s : chars (invertSequence s) = map invert_base (chars s).
Proof. unfold chars. induction s as [|c s IH]; [done|]. cbn. by rewrite IH. Qed.

Lemma chars_toupperSequence s : chars (toupperSequence s) = map toupper (chars s).
Proof. unfold chars. induction s as [|c s IH]; [done|]. cbn. by rewrite IH. Qed.

(** The loop of [reverseSequence] appends the first [cnt] characters in the
    opposite order. *)
Lemma reverse_loop_spec s cnt acc :
  (cnt <= String.length s)%nat ->
  reverse_loop s cnt acc
  = Ret (string_of_list_ascii (chars acc ++ rev (take cnt (chars s)))).
Proof.
  revert acc. induction cnt as [|cnt IH]; intros acc Hcnt.
  - cbn [reverse_loop]. by rewrite take_0, app_nil_r, string_of_chars.
  - cbn [reverse_loop].
    destruct (lookup_lt_is_Some_2 (chars s) cnt) as [c Hc].
    { pose proof (length_chars s) as Hl. unfold strlen in Hl. lia. }
    assert (Hat : string_at s (Z.of_nat cnt) = Ret c)
      by (apply string_at_chars; by rewrite Nat2Z.id).
    rewrite Hat. cbn [rbind]. rewrite IH by lia.
    rewrite chars_append. cbn [chars list_ascii_of_string].
    rewrite (take_S_r _ _ _ Hc), rev_app_distr. cbn [rev app].
    by rewrite <- app_assoc.
Qed.

Lemma reverseSequence_reversed s : reverseSequence s = Ret (reversed s).
Proof.
  unfold reverseSequence, reversed. rewrite reverse_loop_spec by done.
  cbn [chars list_ascii_of_string app]. do 3 f_equal. apply take_ge.
  pose proof (length_chars s) as Hl. unfold strlen in Hl. lia.
Qed.

Lemma reversed_involutive s : reversed (reversed s) = s.
Proof.
  unfold reversed. by rewrite chars_string_of_list, rev_involutive, string_of_chars.
Qed.

Lemma reversed_invertSequence s : reversed (invertSequence s) = invertSequence (reversed s).
Proof.
  apply chars_inj. unfold reversed.
  rewrite chars_string_of_list, !chars_invertSequence, chars_string_of_list.
  symmetry. apply map_rev.
Qed.

(** [toupper] leaves what it returns as it is. *)
Lemma toupper_idempotent c : toupper (toupper c) = toupper c.
Proof.
  unfold toupper.
  destruct ((97 <=? nat_of_ascii c)%nat && (nat_of_ascii c <=? 122)%nat) eqn:Hlow;
    [|by rewrite Hlow].
  apply andb_true_iff in Hlow as [H1 H2]. apply Nat.leb_le in H1, H2.
  rewrite nat_ascii_embedding by lia.
  destruct (Nat.leb_spec 97 (nat_of_ascii c - 32)); [lia|done].
Qed.

Lemma isACGT_toupper c : isACGT (toupper c) = isACGT c.
Proof. unfold isACGT. by rewrite toupper_idempotent. Qed.

Lemma isACGTN_toupper c : isACGTN (toupper c) = isACGTN c.
Proof. unfold isACGTN. by rewrite toupper_idempotent. Qed.

Lemma isAllACGT_toupperSequence s : isAllACGT (toupperSequence s) = isAllACGT s.
Proof.
  induction s as [|c s IH]; [done|]. cbn [toupperSequence isAllACGT].
  by rewrite isACGT_toupper, IH.
Qed.

Lemma isAllACGTN_toupperSequence s : isAllACGTN (toupperSequence s) = isAllACGTN s.
Proof.
  induction s as [|c s IH]; [done|]. cbn [toupperSequence isAllACGTN].
  by rewrite isACGTN_toupper, IH.
Qed.

Lemma isACGT_invert_base c : isACGT (invert_base c) = isACGT c.
Proof.
  unfold invert_base.
  destruct (Ascii.eqb_spec c "A") as [->|]; [done|].
  destruct (Ascii.eqb_spec c "a") as [->|]; [done|].
  destruct (Ascii.eqb_spec c "T") as [->|]; [done|].
  destruct (Ascii.eqb_spec c "t") as [->|]; [done|].
  destruct (Ascii.eqb_spec c "C") as [->|]; [done|].
  destruct (Ascii.eqb_spec c "c") as [->|]; [done|].
  destruct (Ascii.eqb_spec c "G") as [->|]; [done|].
  destruct (Ascii.eqb_spec c "g") as [->|]; done.
Qed.

Lemma isAllACGT_invertSequence s : isAllACGT (invertSequence s) = isAllACGT s.
Proof.
  induction s as [|c s IH]; [done|]. cbn [invertSequence isAllACGT].
  by rewrite isACGT_invert_base, IH.
Qed.

Lemma isAllACGT_app s1 s2 :
  isAllACGT (s1 ++ s2)%string = isAllACGT s1 && isAllACGT s2.
Proof.
  induction s1 as [|c s1 IH]; [done|]. cbn [String.append isAllACGT].
  destruct (isACGT c); [exact IH|done].
Qed.

Lemma isAllACGT_reversed s : isAllACGT (reversed s) = isAllACGT s.
Proof.
  unfold reversed. rewrite <- (string_of_chars s) at 2.
  induction (chars s) as [|c l IH]; [done|]. cbn [rev string_of_list_ascii isAllACGT].
  replace (string_of_list_ascii (rev l ++ [c]))
    with (string_of_list_ascii (rev l) ++ String c EmptyString)%string.
  - rewrite isAllACGT_app, IH. cbn [isAllACGT].
    destruct (isACGT c), (isAllACGT (string_of_list_ascii l)); done.
  - apply chars_inj. by rewrite chars_append, !chars_string_of_list.
Qed.

(** [getChrNumber] and the two tables of names. *)
Lemma getChrNumber_loop_found table chrName cnt i r :
  getChrNumber_loop table chrName cnt i = r -> r <> 0 -> 0 < i ->
  i <= r < i + Z.of_nat cnt /\ chrName = name_at table r.
Proof.
  revert i. induction cnt as [|cnt IH]; intros i Hloop Hr Hi; [by cbn in Hloop|].
  cbn [getChrNumber_loop] in Hloop.
  destruct (String.eqb_spec chrName (name_at table i)) as [Heq|_].
  - subst r. split; [lia|done].
  - destruct (IH (i + 1) Hloop Hr ltac:(lia)) as [Hrange Hname]. split; [lia|done].
Qed.

Lemma getChrNumber_found chrName i :
  getChrNumber chrName = i -> i <> 0 ->
  1 <= i <= NUM_CHROMOSOMES /\
  (chrName = name_at chrShortName i \/ chrName = name_at chrLongName i).
Proof.
  unfold getChrNumber, NUM_CHROMOSOMES. intros H Hi.
  destruct (strlen chrName >? 3);
    destruct (getChrNumber_loop_found _ _ _ _ _ H Hi ltac:(lia)) as [Hrange Hname];
    (split; [lia|]); [by right | by left].
Qed.

Ltac each_number i H n :=
  first
    [ lia
    | destruct (Z.eq_dec i n) as [->|?];
      [ destruct H as [-> | ->]; reflexivity
      | let n' := eval vm_compute in (n + 1) in each_number i H n' ] ].

Lemma getChrNumber_of_name chrName i :
  1 <= i <= NUM_CHROMOSOMES ->
  chrName = name_at chrShortName i \/ chrName = name_at chrLongName i ->
  getChrNumber chrName = i.
Proof. unfold NUM_CHROMOSOMES. intros Hi H. each_number i H 1. Qed.

(** * Further properties of the sequence functions *)



(** X25.  [getChrNumber] is the inverse of the two tables of names: it
    returns a number [i] other than 0 exactly when [i] is between 1 and 24
    and the name is [chrShortName[i]] or [chrLongName[i]]; for every other
    name it returns 0. *)
Theorem getChrNumber_inverts_tables chrName i :
  i <> 0 ->
  getChrNumber chrName = i <->
  1 <= i <= NUM_CHROMOSOMES /\
  (chrName = name_at chrShortName i \/ chrName = name_at chrLongName i).
Proof.
  intros Hi. split.
  - intros H. by apply getChrNumber_found.
  - intros [Hrange H]. by apply getChrNumber_of_name.
Qed.

Lemma getChrNumber_inverts_tables_witness :
  getChrNumber "chrX" = 23 <->
  1 <= 23 <= NUM_CHROMOSOMES /\
  ("chrX" = name_at chrShortName 23 \/ "chrX" = name_at chrLongName 23).
Proof. apply (getChrNumber_inverts_tables "chrX" 23). lia. Defined.

(** * The median *)

Lemma total_app l1 l2 : total (l1 ++ l2) = total l1 + total l2.
Proof. unfold total. induction l1 as [|x l1 IH]; cbn; [done|]. rewrite IH. lia. Qed.

Lemma total_nonneg l : Forall (fun x => 0 <= x) l -> 0 <= total l.
Proof.
  induction 1 as [|x l Hx Hl IH]; cbn; [done|]. unfold total in IH. lia.
Qed.

Lemma total_take_le k l : Forall (fun x => 0 <= x) l -> total (take k l) <= total l.
Proof.
  intros Hl. rewrite <- (take_drop k l) at 2. rewrite total_app.
  pose proof (total_nonneg (drop k l) (Forall_drop _ _ _ Hl)). lia.
Qed.

Lemma at_most_succ hist j x :
  0 <= j -> hist !! Z.to_nat (j + 1) = Some x ->
  at_most hist (j + 1) = at_most hist j + x.
Proof.
  intros Hj Hx. unfold at_most.
  replace (Z.to_nat (j + 1) + 1)%nat with (S (Z.to_nat (j + 1))) by lia.
  rewrite (take_S_r _ _ _ Hx), total_app. cbn.
  replace (Z.to_nat (j + 1)) with (Z.to_nat j + 1)%nat by lia. lia.
Qed.

(** The loop stops at the first index at which the counted positions are at
    least [half]. *)
Lemma median_loop_spec hist half cnt i count :
  Forall (fun x => 0 <= x) hist ->
  total hist < 18446744073709551616 -> half <= total hist ->
  0 <= i -> Z.of_nat cnt = Z.of_nat (length hist) - 1 - i ->
  count = at_most hist i ->
  (forall j, 0 <= j < i -> at_most hist j < half) ->
  exists m,
    median_loop hist half cnt i count = Ret m /\
    i <= m < Z.of_nat (length hist) /\
    half <= at_most hist m /\
    forall j, 0 <= j < m -> at_most hist j < half.
Proof.
  intros Hpos Hsum Hhalf. revert i count.
  induction cnt as [|cnt IH]; intros i count Hi Hcnt Hcount Hbelow.
  - cbn [median_loop].
    assert (Hall : at_most hist i = total hist).
    { unfold at_most. by rewrite take_ge by lia. }
    destruct (Z.ltb_spec count half); [lia|].
    exists i. split; [done|]. split; [lia|]. split; [lia|done].
  - cbn [median_loop]. destruct (Z.ltb_spec count half) as [Hlt|Hge]; cycle 1.
    { exists i. split; [done|]. split; [lia|]. split; [lia|done]. }
    destruct (lookup_lt_is_Some_2 hist (Z.to_nat (i + 1))) as [x Hx]; [lia|].
    unfold vector_at. rewrite Hx. cbn [rbind].
    pose proof (at_most_succ hist i x Hi Hx) as Hnext.
    assert (Hle : at_most hist (i + 1) <= total hist) by (by apply total_take_le).
    assert (H0 : 0 <= at_most hist (i + 1)).
    { apply total_nonneg. by apply Forall_take. }
    unfold wrap64. rewrite (Z.mod_small (count + x)) by lia.
    destruct (IH (i + 1) (count + x)) as (m & E & Hm & Hreach & Hfirst);
      [lia | lia | lia | |].
    + intros j Hj. destruct (Z.eq_dec j i) as [->|]; [lia|]. apply Hbelow. lia.
    + exists m. split; [done|]. split; [lia|]. done.
Qed.

(** * A further property of snvcounts *)

(** X26.  The number that [writeMedian] writes.  When the histogram
    [normalTotalCount] holds counts that add up to [occurrences] (as
    [readFile] keeps them) and [occurrences + 1] is a value of [uint64_t],
    the loop stays within the array and the number written is the smallest
    index [m] such that the positions with a normal coverage of at most [m]
    are at least [(occurrences + 1) / 2]: the lower median of the normal
    coverage. *)
Theorem writeMedian_writes_median occurrences normalTotalCount :
  Forall (fun x => 0 <= x) normalTotalCount ->
  (0 < length normalTotalCount)%nat ->
  total normalTotalCount = occurrences ->
  occurrences + 1 < 18446744073709551616 ->
  exists m,
    writeMedian occurrences normalTotalCount = Ret m /\
    0 <= m < Z.of_nat (length normalTotalCount) /\
    (occurrences + 1) / 2 <= at_most normalTotalCount m /\
    forall j, 0 <= j < m -> at_most normalTotalCount j < (occurrences + 1) / 2.
Proof.
  intros Hpos Hlen Hsum Hmax. unfold writeMedian.
  pose proof (total_nonneg _ Hpos) as H0.
  unfold wrap64. rewrite (Z.mod_small (occurrences + 1)) by lia.
  destruct normalTotalCount as [|x hist] eqn:Hhist; [cbn in Hlen; lia|].
  rewrite <- Hhist in *. assert (Hx : normalTotalCount !! 0%nat = Some x) by (by subst).
  unfold vector_at. change (Z.to_nat 0) with 0%nat. rewrite Hx. cbn [rbind].
  apply median_loop_spec; try done; try lia.
  - rewrite Hsum in *. Z.div_mod_to_equations. lia.
  - rewrite Hhist. unfold at_most, total. change (Z.to_nat 0 + 1)%nat with 1%nat.
    cbn [take fold_right]. rewrite take_0. cbn [fold_right]. lia.
Qed.

Lemma writeMedian_writes_median_witness :
  exists m,
    writeMedian 7 [1; 0; 3; 2; 1] = Ret m /\
    0 <= m < Z.of_nat (length [1; 0; 3; 2; 1]) /\
    (7 + 1) / 2 <= at_most [1; 0; 3; 2; 1] m /\
    forall j, 0 <= j < m -> at_most [1; 0; 3; 2; 1] j < (7 + 1) / 2.
Proof.
  apply (writeMedian_writes_median 7 [1; 0; 3; 2; 1]);
    [ repeat constructor; lia | cbn; lia | reflexivity | lia ].
Defined.

(** * Delimited strings *)

Lemma append_nil_r s : (s ++ "")%string = s.
Proof. induction s as [|c s IH]; [done|]. cbn. by rewrite IH. Qed.

Lemma append_assoc s1 s2 s3 : ((s1 ++ s2) ++ s3)%string = (s1 ++ (s2 ++ s3))%string.
Proof. induction s1 as [|c s1 IH]; [done|]. cbn. by rewrite IH. Qed.

Lemma string_of_list_app l1 l2 :
  string_of_list_ascii (l1 ++ l2)
  = (string_of_list_ascii l1 ++ string_of_list_ascii l2)%string.
Proof. induction l1 as [|c l1 IH]; [done|]. cbn. by rewrite IH. Qed.

Lemma length_chars_nat s : length (chars s) = String.length s.
Proof. pose proof (length_chars s) as H. unfold strlen in H. lia. Qed.

Section Fields.

Variable delimiter : ascii.

Lemma first_field_split l :
  l = first_field delimiter l ++ drop (length (first_field delimiter l)) l.
Proof.
  induction l as [|c l IH]; [done|]. cbn [first_field].
  destruct (char_ne c delimiter); [|done]. cbn [length drop app]. by rewrite <- IH.
Qed.

Lemma first_field_free l : ~ In delimiter (first_field delimiter l).
Proof.
  induction l as [|c l IH]; [by intros []|]. cbn [first_field].
  destruct (char_ne c delimiter) eqn:Hc; [|by intros []].
  apply char_ne_true in Hc. intros [->|H]; [done|by apply IH].
Qed.

(** Behind the first field the list ends, or the delimiter follows. *)
Lemma first_field_rest l c l' :
  drop (length (first_field delimiter l)) l = c :: l' -> c = delimiter.
Proof.
  induction l as [|x l IH]; [done|]. cbn [first_field].
  destruct (char_ne x delimiter) eqn:Hx.
  - cbn [length drop]. apply IH.
  - cbn [length drop]. intros [= -> _]. by apply char_ne_false in Hx.
Qed.

Lemma fields_not_nil fuel l : fields delimiter fuel l <> [].
Proof. destruct fuel; cbn [fields]; [done|]. by destruct (drop _ l). Qed.

Lemma joined_cons p rest :
  rest <> [] ->
  joined delimiter (p :: rest) = (p ++ String delimiter (joined delimiter rest))%string.
Proof. by destruct rest. Qed.

Lemma delimiters_free l : ~ In delimiter l -> delimiters delimiter l = 0%nat.
Proof. unfold delimiters. apply count_occ_not_In. Qed.

Lemma fields_spec fuel l :
  (length l <= fuel)%nat ->
  joined delimiter (map string_of_list_ascii (fields delimiter fuel l))
  = string_of_list_ascii l /\
  Forall (fun f => ~ In delimiter f) (fields delimiter fuel l) /\
  length (fields delimiter fuel l) = S (delimiters delimiter l).
Proof.
  revert l. induction fuel as [|fuel IH]; intros l Hl.
  - destruct l; [|cbn in Hl; lia]. cbn.
    split; [done|]. split; [|done]. constructor; [by intros []|constructor].
  - cbn [fields]. pose proof (first_field_split l) as Hsplit.
    pose proof (first_field_free l) as Hfree.
    set (f := first_field delimiter l) in *.
    destruct (drop (length f) l) as [|c l'] eqn:Hrest.
    + rewrite app_nil_r in Hsplit. rewrite <- Hsplit in *. cbn [map joined length].
      split; [done|]. split; [by constructor|]. by rewrite delimiters_free.
    + pose proof (first_field_rest l c l' Hrest) as ->.
      assert (Hlen : (length l' <= fuel)%nat).
      { apply (f_equal length) in Hsplit. rewrite length_app in Hsplit. cbn in Hsplit. lia. }
      destruct (IH l' Hlen) as (Hjoin & Hall & Hcount).
      split; [|split].
      * cbn [map]. rewrite joined_cons.
        -- rewrite Hjoin, Hsplit at 1. by rewrite string_of_list_app.
        -- intros E. apply map_eq_nil in E. by apply fields_not_nil in E.
      * by constructor.
      * cbn [length]. rewrite Hcount. f_equal. rewrite Hsplit at 1.
        unfold delimiters in *. rewrite count_occ_app. cbn [count_occ].
        destruct (ascii_dec delimiter delimiter) as [_|]; [|done].
        rewrite (proj1 (count_occ_not_In ascii_dec f delimiter) Hfree). lia.
Qed.

Variable s : string.

Lemma get_at_drop i c l :
  drop i (chars s) = c :: l -> String.get i s = Some c /\ drop (S i) (chars s) = l.
Proof.
  intros H. rewrite string_get_chars. split.
  - rewrite <- (Nat.add_0_r i), <- lookup_drop, H. done.
  - replace (S i) with (i + 1)%nat by lia. rewrite <- drop_drop. by rewrite H.
Qed.

Lemma get_at_end i : drop i (chars s) = [] -> String.get i s = None.
Proof.
  intros H. rewrite string_get_chars. apply lookup_ge_None_2.
  apply (f_equal length) in H. rewrite length_drop in H. cbn in H. lia.
Qed.

Lemma delimited_value_spec l : forall cnt i value,
  0 <= i -> drop (Z.to_nat i) (chars s) = l -> (length l <= cnt)%nat ->
  delimited_value s delimiter cnt i value
  = (i + Z.of_nat (length (first_field delimiter l)),
     (value ++ string_of_list_ascii (first_field delimiter l))%string).
Proof.
  induction l as [|c l IH]; intros cnt i value Hi Hdrop Hcnt.
  - cbn [first_field length string_of_list_ascii]. rewrite Z.add_0_r, append_nil_r.
    destruct cnt as [|cnt]; [done|]. cbn [delimited_value].
    by rewrite (get_at_end _ Hdrop).
  - destruct cnt as [|cnt]; [cbn in Hcnt; lia|]. cbn [delimited_value first_field].
    destruct (get_at_drop _ _ _ Hdrop) as [-> Hnext].
    destruct (char_ne c delimiter).
    + rewrite (IH cnt (i + 1)); [| lia | | cbn in Hcnt; lia].
      * cbn [length string_of_list_ascii]. f_equal; [lia|].
        by rewrite append_assoc.
      * by replace (Z.to_nat (i + 1)) with (S (Z.to_nat i)) by lia.
    + cbn [length string_of_list_ascii]. by rewrite Z.add_0_r, append_nil_r.
Qed.

Lemma getDelimitedStrings_loop_spec cnt : forall l i v,
  0 <= i -> drop (Z.to_nat i) (chars s) = l -> (length l <= cnt)%nat ->
  getDelimitedStrings_loop s delimiter cnt i v
  = v ++ map string_of_list_ascii (fields delimiter cnt l).
Proof.
  induction cnt as [|cnt IH]; intros l i v Hi Hdrop Hcnt.
  - destruct l; [|cbn in Hcnt; lia]. cbn [getDelimitedStrings_loop fields].
    by rewrite (delimited_value_spec [] _ i "" Hi Hdrop) by (cbn; lia).
  - cbn [getDelimitedStrings_loop fields].
    assert (Hfuel : (length l <= String.length s)%nat).
    { rewrite <- Hdrop, length_drop, length_chars_nat. lia. }
    rewrite (delimited_value_spec l _ i "" Hi Hdrop Hfuel). cbn [String.append].
    set (f := first_field delimiter l).
    assert (Hrest : drop (Z.to_nat (i + Z.of_nat (length f))) (chars s) = drop (length f) l).
    { rewrite <- Hdrop, drop_drop. f_equal. lia. }
    destruct (drop (length f) l) as [|c l'] eqn:Hl.
    + apply (f_equal length) in Hrest. rewrite length_drop, length_chars_nat in Hrest.
      cbn in Hrest. unfold strlen.
      destruct (Z.ltb_spec (i + Z.of_nat (length f)) (Z.of_nat (String.length s))); [lia|].
      done.
    + pose proof (f_equal length Hrest) as Hlen.
      rewrite length_drop, length_chars_nat in Hlen. cbn in Hlen. unfold strlen.
      destruct (Z.ltb_spec (i + Z.of_nat (length f)) (Z.of_nat (String.length s))); [|lia].
      rewrite (IH l' (i + Z.of_nat (length f) + 1)); [by rewrite <- app_assoc | lia | |].
      * replace (Z.to_nat (i + Z.of_nat (length f) + 1))
          with (Z.to_nat (i + Z.of_nat (length f)) + 1)%nat by lia.
        rewrite <- drop_drop. by rewrite Hrest.
      * pose proof (first_field_split l) as Hsplit. fold f in Hsplit. rewrite Hl in Hsplit.
        apply (f_equal length) in Hsplit. rewrite length_app in Hsplit. cbn in Hsplit. lia.
Qed.

End Fields.

(** * A further property of the parsers *)


Example getDelimitedStrings_tabs :
  getDelimitedStrings "chr1,,5," "," ["x"] = ["x"; "chr1"; ""; "5"; ""].
Proof. reflexivity. Qed.

(** * Numbers in strings *)

Lemma isdigit_code c : isdigit c = true -> 48 <= char_code c <= 57.
Proof.
  unfold isdigit, char_code. intros H. apply andb_true_iff in H as [H1 H2].
  apply Nat.leb_le in H1, H2. lia.
Qed.

(** The character of a digit. *)
Lemma digit_char d :
  0 <= d <= 9 ->
  isdigit (ascii_of_nat (Z.to_nat (48 + d))) = true /\
  char_code (ascii_of_nat (Z.to_nat (48 + d))) = 48 + d.
Proof.
  intros Hd. unfold isdigit, char_code. rewrite nat_ascii_embedding by lia.
  split; [|lia]. apply andb_true_iff. split; apply Nat.leb_le; lia.
Qed.

(** Reading the digits that [decimal_loop] has put before [acc]. *)
Lemma stringToInt_loop_decimal fuel : forall n acc,
  0 <= n < 10 ^ Z.of_nat fuel -> n <= INT_MAX - 48 ->
  stringToInt_loop (decimal_loop fuel n acc) 0 = stringToInt_loop acc n.
Proof.
  unfold INT_MAX. induction fuel as [|fuel IH]; intros n acc Hn Hmax.
  - cbn in Hn. by replace n with 0 by lia.
  - cbn [decimal_loop].
    pose proof (Z.mod_pos_bound n 10 ltac:(lia)) as Hd.
    destruct (digit_char (n mod 10) ltac:(lia)) as [Hdigit Hcode].
    assert (Hstep : forall v, 0 <= v -> 10 * v + n mod 10 = n ->
      stringToInt_loop (String (ascii_of_nat (Z.to_nat (48 + n mod 10))) acc) v
      = stringToInt_loop acc n).
    { intros v Hv Hvn. cbn [stringToInt_loop]. rewrite Hdigit, Hcode. unfold INT_MAX.
      destruct (Z.gtb_spec (10 * v) 2147483647); [lia|].
      destruct (Z.gtb_spec (10 * v + (48 + n mod 10)) 2147483647); [lia|].
      cbn [orb]. f_equal. lia. }
    destruct (Z.ltb_spec n 10) as [Hsmall|Hbig].
    + apply Hstep; [lia|]. rewrite Z.mod_small by lia. lia.
    + rewrite IH.
      * apply Hstep; [Z.div_mod_to_equations; lia|]. Z.div_mod_to_equations. lia.
      * rewrite Nat2Z.inj_succ, Z.pow_succ_r in Hn by lia. Z.div_mod_to_equations. lia.
      * Z.div_mod_to_equations. lia.
Qed.

Lemma decimal_loop_length fuel : forall n k acc,
  0 <= n < 10 ^ Z.of_nat k -> (1 <= k <= fuel)%nat ->
  (String.length acc + 1 <= String.length (decimal_loop fuel n acc)
   <= String.length acc + k)%nat.
Proof.
  induction fuel as [|fuel IH]; intros n k acc Hn Hk; [lia|].
  cbn [decimal_loop]. destruct (Z.ltb_spec n 10) as [Hsmall|Hbig].
  - cbn [String.length]. lia.
  - destruct k as [|[|k]]; [lia | cbn in Hn; lia |].
    assert (Hdiv : 0 <= n / 10 < 10 ^ Z.of_nat (S k)).
    { rewrite (Nat2Z.inj_succ (S k)), Z.pow_succ_r in Hn by lia.
      Z.div_mod_to_equations. lia. }
    pose proof (IH (n / 10) (S k)
                  (String (ascii_of_nat (Z.to_nat (48 + n mod 10))) acc) Hdiv ltac:(lia))
      as H.
    cbn [String.length] in H. lia.
Qed.

Lemma decimal_length n :
  0 <= n <= INT_MAX -> 1 <= strlen (decimal n) <= 10.
Proof.
  unfold INT_MAX. intros Hn. unfold decimal, strlen.
  pose proof (decimal_loop_length 20 n 10 EmptyString ltac:(cbn; lia) ltac:(lia)) as H.
  cbn [String.length] in H. lia.
Qed.

Lemma stringToInt_decimal n :
  0 <= n <= INT_MAX - 48 -> stringToInt (decimal n) = Some n.
Proof.
  intros Hn. unfold stringToInt.
  pose proof (decimal_length n ltac:(unfold INT_MAX in *; lia)) as Hlen.
  destruct (Z.ltb_spec (strlen (decimal n)) 1); [lia|].
  destruct (Z.gtb_spec (strlen (decimal n)) 10); [lia|]. cbn [orb].
  unfold decimal. rewrite stringToInt_loop_decimal; [done| |lia].
  unfold INT_MAX in Hn. change (10 ^ Z.of_nat 20) with 100000000000000000000. lia.
Qed.

(** A character that is no digit ends the loop with -1, and before it the
    value cannot leave the type [int]. *)
Lemma stringToInt_loop_nondigit s : forall v k,
  all_digits s = false -> (String.length s + k <= 10)%nat -> 0 <= v < 10 ^ Z.of_nat k ->
  stringToInt_loop s v = Some (-1).
Proof.
  induction s as [|c s IH]; intros v k Hs Hlen Hv; [done|].
  cbn [all_digits stringToInt_loop String.length] in *.
  destruct (isdigit c) eqn:Hc; [|done]. cbn [andb] in Hs.
  assert (Hrest : (1 <= String.length s)%nat) by (destruct s; [done|cbn; lia]).
  pose proof (isdigit_code c Hc) as Hcode.
  assert (Hpow : 10 ^ Z.of_nat k <= 10 ^ 8) by (apply Z.pow_le_mono_r; lia).
  change (10 ^ 8) with 100000000 in Hpow. unfold INT_MAX.
  destruct (Z.gtb_spec (10 * v) 2147483647); [lia|].
  destruct (Z.gtb_spec (10 * v + char_code c) 2147483647); [lia|]. cbn [orb].
  apply (IH _ (S k)); [done | lia |].
  rewrite Nat2Z.inj_succ, Z.pow_succ_r by lia. lia.
Qed.

(** * Further properties of the parsing of numbers, positions and variants *)

(** [stringToInt] on a string of ten digits can leave the type [int] in the
    sum [10 * value + c], before ['0'] is subtracted, although the number
    itself is a value of [int]. *)
Example stringToInt_INT_MAX : stringToInt "2147483647" = None.
Proof. reflexivity. Qed.

Example stringToInt_leading_zeros : stringToInt "0042" = Some 42.
Proof. reflexivity. Qed.


(** * Strings that are put together and taken apart *)

Lemma length_append s1 s2 :
  String.length (s1 ++ s2) = (String.length s1 + String.length s2)%nat.
Proof. induction s1 as [|c s1 IH]; [done|]. cbn. by rewrite IH. Qed.

Lemma strlen_append s1 s2 : strlen (s1 ++ s2) = strlen s1 + strlen s2.
Proof. unfold strlen. rewrite length_append. lia. Qed.

Lemma get_append_length pre c rest :
  String.get (String.length pre) (pre ++ String c rest) = Some c.
Proof. induction pre as [|x pre IH]; [done|]. exact IH. Qed.

Lemma substring_all s : String.substring 0 (String.length s) s = s.
Proof. induction s as [|c s IH]; [done|]. cbn. by rewrite IH. Qed.

Lemma substring_prefix mid rest :
  String.substring 0 (String.length mid) (mid ++ rest) = mid.
Proof.
  induction mid as [|c mid IH]; [by destruct rest|]. cbn. by rewrite IH.
Qed.

Lemma substring_append pre n s :
  String.substring (String.length pre) n (pre ++ s) = String.substring 0 n s.
Proof. induction pre as [|c pre IH]; [done|]. exact IH. Qed.

(** The part between a prefix and the rest. *)
Lemma substr_middle pre mid rest :
  substr (pre ++ mid ++ rest) (strlen pre) (strlen mid) = mid.
Proof.
  unfold substr, strlen. rewrite !Nat2Z.id, substring_append. apply substring_prefix.
Qed.

(** The part behind a prefix. *)
Lemma substr_from_rest pre rest : substr_from (pre ++ rest) (strlen pre) = rest.
Proof.
  unfold substr_from, strlen. rewrite Nat2Z.id, substring_append, length_append.
  replace (String.length pre + String.length rest - String.length pre)%nat
    with (String.length rest) by lia.
  apply substring_all.
Qed.

(** The scan passes over characters that do not stop it and ends at the
    first one that does. *)
Lemma scan_over stop mid : forall cnt pre c rest,
  none_stop stop mid = true -> stop c = true -> (String.length mid < cnt)%nat ->
  scan stop (pre ++ mid ++ String c rest) cnt (strlen pre) = strlen pre + strlen mid.
Proof.
  induction mid as [|x mid IH]; intros cnt pre c rest Hmid Hc Hcnt.
  - destruct cnt as [|cnt]; [cbn in Hcnt; lia|]. cbn [scan String.append].
    unfold strlen. rewrite Nat2Z.id, get_append_length, Hc. cbn. lia.
  - destruct cnt as [|cnt]; [cbn in Hcnt; lia|]. cbn [scan String.append none_stop] in *.
    apply andb_true_iff in Hmid as [Hx Hmid]. apply negb_true_iff in Hx.
    unfold strlen at 1. rewrite Nat2Z.id, get_append_length, Hx.
    replace (pre ++ String x (mid ++ String c rest))%string
      with ((pre ++ String x EmptyString) ++ mid ++ String c rest)%string
      by (by rewrite append_assoc).
    replace (strlen pre + 1) with (strlen (pre ++ String x EmptyString))
      by (rewrite strlen_append; unfold strlen; cbn; lia).
    rewrite IH by (done || cbn in Hcnt; lia).
    rewrite strlen_append. unfold strlen. cbn [String.length]. lia.
Qed.

Lemma toupperSequence_idempotent s :
  toupperSequence (toupperSequence s) = toupperSequence s.
Proof.
  induction s as [|c s IH]; [done|]. cbn [toupperSequence].
  by rewrite toupper_idempotent, IH.
Qed.

(** The characters that [isACGTN] accepts do not end a scan. *)
Lemma isAllACGTN_plain s : isAllACGTN s = true -> none_stop period s = true.
Proof.
  induction s as [|c s IH]; [done|]. cbn [isAllACGTN none_stop].
  destruct (isACGTN c) eqn:Hc; [|done]. cbn [negb]. intros Hs.
  rewrite (IH Hs), andb_true_r. apply negb_true_iff. unfold period.
  destruct (Ascii.eqb_spec c "."); [by subst|done].
Qed.

Lemma isACGT_isACGTN c : isACGT c = true -> isACGTN c = true.
Proof. unfold isACGT, isACGTN. intros ->. done. Qed.

Lemma isAllACGT_isAllACGTN s : isAllACGT s = true -> isAllACGTN s = true.
Proof.
  induction s as [|c s IH]; [done|]. cbn [isAllACGT isAllACGTN].
  destruct (isACGT c) eqn:Hc; [|done]. by rewrite (isACGT_isACGTN c Hc).
Qed.

(** The digits of a number do not end a scan. *)
Lemma decimal_loop_plain stop fuel : forall n acc,
  (forall c, isdigit c = true -> stop c = false) -> 0 <= n ->
  none_stop stop acc = true -> none_stop stop (decimal_loop fuel n acc) = true.
Proof.
  induction fuel as [|fuel IH]; intros n acc Hstop Hn Hacc; [done|].
  cbn [decimal_loop].
  pose proof (Z.mod_pos_bound n 10 ltac:(lia)) as Hd.
  destruct (digit_char (n mod 10) ltac:(lia)) as [Hdigit _].
  assert (Hnext : none_stop stop (String (ascii_of_nat (Z.to_nat (48 + n mod 10))) acc)
                  = true).
  { cbn [none_stop]. by rewrite (Hstop _ Hdigit), Hacc. }
  destruct (n <? 10); [done|]. apply IH; [done| |done]. Z.div_mod_to_equations. lia.
Qed.

Lemma decimal_plain n : 0 <= n -> none_stop period (decimal n) = true.
Proof.
  intros Hn. apply decimal_loop_plain; [|done..].
  intros c Hc. unfold period. destruct (Ascii.eqb_spec c "."); [by subst|done].
Qed.

Ltac for_each_number i n :=
  first
    [ lia
    | destruct (Z.eq_dec i n) as [->|?];
      [ vm_compute; repeat split; discriminate
      | let n' := eval vm_compute in (n + 1) in for_each_number i n' ] ].

(** The names of the tables hold neither colon nor period, and they are not
    empty. *)
Lemma names_plain i :
  1 <= i <= NUM_CHROMOSOMES ->
  none_stop colon_or_period (name_at chrShortName i) = true /\
  none_stop colon_or_period (name_at chrLongName i) = true /\
  0 < strlen (name_at chrShortName i) /\ 0 < strlen (name_at chrLongName i).
Proof.
  unfold NUM_CHROMOSOMES. intros Hi.
  assert (H : forall b, b = true <-> b <> false) by (intros []; split; congruence).
  rewrite !H. unfold Z.lt.
  assert (Hc : forall x, x = Lt <-> (x <> Eq /\ x <> Gt))
    by (intros []; split; intuition congruence).
  rewrite !Hc. for_each_number i 1.
Qed.

(** * Positions and variants as text *)

Lemma validPosition_range pos : validPosition pos = true <-> 1 <= pos <= MAX_POSITION.
Proof. unfold validPosition. rewrite andb_true_iff. lia. Qed.

Lemma to_int_valid pos :
  0 <= pos < 4294967296 -> validPosition (to_int pos) = true ->
  1 <= pos <= MAX_POSITION.
Proof.
  unfold to_int, INT_MAX. intros Hpos H. apply validPosition_range in H.
  unfold MAX_POSITION in *. destruct (Z.gtb_spec pos 2147483647); lia.
Qed.

(** A chromosome name, a colon or period, and what follows: the first scan
    of both parsing constructors ends at the separator. *)
Lemma scan_name name sep rest :
  none_stop colon_or_period name = true -> colon_or_period sep = true ->
  let s := (name ++ String sep rest)%string in
  scan colon_or_period s (String.length s) 0 = strlen name /\
  substr s 0 (strlen name) = name /\
  substr_from s (strlen name + 1) = rest /\
  strlen s = strlen name + 1 + strlen rest.
Proof.
  intros Hname Hsep s.
  assert (Hlen : strlen s = strlen name + 1 + strlen rest).
  { unfold s. rewrite strlen_append. unfold strlen. cbn [String.length]. lia. }
  split; [|split; [|split; [|done]]].
  - pose proof (scan_over colon_or_period name (String.length s) EmptyString sep rest
                  Hname Hsep) as H.
    cbn [String.append] in H. fold s in H. change (strlen EmptyString) with 0 in H.
    unfold strlen in Hlen. rewrite H by lia. lia.
  - exact (substr_middle EmptyString name (String sep rest)).
  - unfold s.
    replace (name ++ String sep rest)%string
      with ((name ++ String sep EmptyString) ++ rest)%string
      by (by rewrite append_assoc).
    replace (strlen name + 1) with (strlen (name ++ String sep EmptyString))
      by (rewrite strlen_append; unfold strlen; cbn; lia).
    apply substr_from_rest.
Qed.

(** What the parsing constructor of [Position] makes of a name of the
    tables, a separator and a string. *)
Lemma Position_parse_name name sep rest i :
  1 <= i <= NUM_CHROMOSOMES ->
  name = name_at chrShortName i \/ name = name_at chrLongName i ->
  colon_or_period sep = true -> 0 < strlen rest ->
  Position.parse (name ++ String sep rest) =
    match stringToInt rest with
    | None => Overflow
    | Some pos =>
        if validPosition pos
        then Built {| Position.chrNumber := i; Position.position := pos |}
        else Invalid
    end.
Proof.
  intros Hi Hname Hsep Hrest.
  destruct (names_plain i Hi) as (Hshort & Hlong & Hs & Hl).
  assert (Hplain : none_stop colon_or_period name = true) by (by destruct Hname; subst).
  assert (Hpos : 0 < strlen name) by (by destruct Hname; subst).
  destruct (scan_name name sep rest Hplain Hsep) as (Hscan & Hsub & Hfrom & Hlen).
  unfold Position.parse. rewrite Hscan, Hsub, Hfrom, Hlen.
  rewrite (getChrNumber_of_name name i Hi Hname).
  destruct (Z.gtb_spec (strlen name) 0); [|lia].
  destruct (Z.ltb_spec (strlen name) (strlen name + 1 + strlen rest - 1)); [|lia].
  destruct (Z.gtb_spec i 0); [|lia]. done.
Qed.

Lemma Position_parse_valid s p :
  Position.parse s = Built p ->
  Position.new (Position.chrNumber p) (Position.position p) = Built p.
Proof.
  unfold Position.parse, Position.new.
  destruct (_ && _); [|done].
  remember (getChrNumber (substr s 0 (scan colon_or_period s (String.length s) 0)))
    as chr eqn:Hname.
  destruct (Z.gtb_spec chr 0) as [Hchr|]; [|done].
  destruct (stringToInt _) as [pos|]; [|done].
  destruct (validPosition pos) eqn:Hvalid; [|done].
  intros [= <-]. cbn [Position.chrNumber Position.position].
  assert (Hne : chr <> 0) by lia.
  destruct (getChrNumber_found _ chr (eq_sym Hname) Hne) as [Hrange _].
  apply validPosition_range in Hvalid as Hpos. unfold MAX_POSITION, NUM_CHROMOSOMES in *.
  assert (Hint : to_int pos = pos).
  { unfold to_int, INT_MAX. destruct (Z.gtb_spec pos 2147483647); lia. }
  rewrite Hint, Hvalid.
  destruct (Z.geb_spec chr 1); [|lia].
  destruct (Z.leb_spec chr 24); [|lia].
  done.
Qed.

Lemma Position_new_built chr pos p :
  0 <= pos < 4294967296 -> Position.new chr pos = Built p ->
  1 <= chr <= NUM_CHROMOSOMES /\ 1 <= pos <= MAX_POSITION /\
  p = {| Position.chrNumber := chr; Position.position := pos |}.
Proof.
  unfold Position.new. intros Hpos.
  destruct (Z.geb_spec chr 1); [|done].
  destruct (Z.leb_spec chr NUM_CHROMOSOMES); [|done]. cbn [andb].
  destruct (validPosition (to_int pos)) eqn:Hvalid; [|done].
  intros [= <-]. by pose proof (to_int_valid pos Hpos Hvalid).
Qed.

Lemma Position_parse_printed chr pos name sep :
  1 <= chr <= NUM_CHROMOSOMES -> 1 <= pos <= MAX_POSITION ->
  name = name_at chrShortName chr \/ name = name_at chrLongName chr ->
  sep = ":"%char \/ sep = "."%char ->
  Position.parse (name ++ String sep (decimal pos)) =
    Built {| Position.chrNumber := chr; Position.position := pos |}.
Proof.
  intros Hchr Hpos Hname Hsep. unfold MAX_POSITION in Hpos.
  pose proof (decimal_length pos ltac:(unfold INT_MAX; lia)) as Hlen.
  rewrite (Position_parse_name name sep (decimal pos) chr Hchr Hname);
    [|by destruct Hsep; subst|lia].
  rewrite stringToInt_decimal by (unfold INT_MAX; lia).
  assert (Hvalid : validPosition pos = true)
    by (apply validPosition_range; unfold MAX_POSITION; lia).
  by rewrite Hvalid.
Qed.

(** X29.  A position is read back from its text.  For a [Position] that the
    constructor [Position(uint8_t, uint32_t)] accepts, the constructor
    [Position(const std::string&)] builds the same position from the string
    that [toString] returns, and also from the short or the long name of the
    chromosome, a colon or a period, and the decimal digits of the position.
    In the other direction, every position that the parsing constructor
    builds is one that [Position(uint8_t, uint32_t)] accepts. *)
Theorem Position_read_back chr pos p :
  0 <= pos < 4294967296 ->
  Position.new chr pos = Built p ->
  Position.parse (Position.toString p) = Built p /\
  (forall name sep,
     name = name_at chrShortName chr \/ name = name_at chrLongName chr ->
     sep = ":"%char \/ sep = "."%char ->
     Position.parse (name ++ String sep (decimal pos)) = Built p) /\
  (forall s q, Position.parse s = Built q ->
     Position.new (Position.chrNumber q) (Position.position q) = Built q).
Proof.
  intros Hpos Hnew.
  destruct (Position_new_built chr pos p Hpos Hnew) as (Hchr & Hrange & ->).
  split; [|split].
  - unfold Position.toString. cbn [Position.chrNumber Position.position].
    apply (Position_parse_printed chr pos _ "."); [done|done|by right|by right].
  - intros name sep Hname Hsep. by apply Position_parse_printed.
  - apply Position_parse_valid.
Qed.

Lemma Position_read_back_witness :
  Position.parse "chr7.55249071" =
    Built {| Position.chrNumber := 7; Position.position := 55249071 |} /\
  Position.parse "7:55249071" =
    Built {| Position.chrNumber := 7; Position.position := 55249071 |}.
Proof.
  assert (Hnew : Position.new 7 55249071 =
                 Built {| Position.chrNumber := 7; Position.position := 55249071 |})
    by reflexivity.
  destruct (Position_read_back 7 55249071 _ ltac:(lia) Hnew) as (Hprint & Hall & _).
  split; [exact Hprint|].
  exact (Hall "7"%string ":"%char (or_introl eq_refl) (or_introl eq_refl)).
Defined.

Lemma length_substring s : forall n m,
  (n + m <= String.length s)%nat -> String.length (String.substring n m s) = m.
Proof.
  induction s as [|c s IH]; intros [|n] [|m] H; cbn in *; try done; try lia.
  - by rewrite IH by lia.
  - by rewrite IH by lia.
  - by rewrite IH by lia.
Qed.

Lemma length_toupperSequence s :
  String.length (toupperSequence s) = String.length s.
Proof. induction s as [|c s IH]; [done|]. cbn. by rewrite IH. Qed.

Lemma substr_from_tail c s : substr_from (String c s) 1 = s.
Proof. exact (substr_from_rest (String c EmptyString) s). Qed.

Lemma append_cons a c b :
  ((a ++ String c EmptyString) ++ b)%string = (a ++ String c b)%string.
Proof. by rewrite append_assoc. Qed.

(** The characters that [isACGTN] accepts are neither period nor hyphen. *)
Lemma isACGTN_plain c :
  isACGTN c = true -> period c = false /\ Ascii.eqb c "-" = false.
Proof.
  intros Hc. unfold period.
  split; [destruct (Ascii.eqb_spec c ".")|destruct (Ascii.eqb_spec c "-")];
    try done; by subst.
Qed.

(** The text of a variant: a name, a separator, and three fields that
    periods separate.  The three scans of the parsing constructor end at the
    separator and at the two periods. *)
Lemma scan_fields name sep digits ref alt :
  none_stop colon_or_period name = true -> colon_or_period sep = true ->
  none_stop period digits = true -> none_stop period ref = true ->
  let s := (name ++ String sep (digits ++ String "." (ref ++ String "." alt)))%string in
  let i := strlen name in
  let j := i + 1 + strlen digits in
  let k := j + 1 + strlen ref in
  scan colon_or_period s (String.length s) 0 = i /\
  scan period s (String.length s) (i + 1) = j /\
  scan period s (String.length s) (j + 1) = k /\
  substr s 0 i = name /\
  substr s (i + 1) (strlen digits) = digits /\
  substr s (j + 1) (strlen ref) = ref /\
  substr_from s (k + 1) = alt /\
  strlen s = k + 1 + strlen alt.
Proof.
  intros Hname Hsep Hdigits Href s i j k.
  destruct (scan_name name sep (digits ++ String "." (ref ++ String "." alt))
              Hname Hsep) as (Hscan & Hsub & _ & Hlen).
  fold s in Hscan, Hsub, Hlen. fold i in Hscan, Hsub, Hlen.
  rewrite !strlen_append in Hlen.
  change (strlen (String "." (ref ++ String "." alt)))
    with (Z.of_nat (S (String.length (ref ++ String "." alt)))) in Hlen.
  rewrite length_append in Hlen. cbn [String.length] in Hlen.
  assert (Hs : strlen s = k + 1 + strlen alt) by (unfold k, j, strlen in *; lia).
  set (pre2 := (name ++ String sep EmptyString)%string).
  assert (Hpre2 : strlen pre2 = i + 1)
    by (unfold pre2; rewrite strlen_append; unfold i, strlen; cbn; lia).
  assert (Hs2 : s = (pre2 ++ digits ++ String "." (ref ++ String "." alt))%string)
    by (unfold s, pre2; by rewrite append_cons).
  clearbody s.
  set (pre3 := (pre2 ++ digits ++ String "." EmptyString)%string).
  assert (Hpre3 : strlen pre3 = j + 1)
    by (unfold pre3; rewrite !strlen_append, Hpre2; unfold j, i, strlen; cbn; lia).
  assert (Hs3 : s = (pre3 ++ ref ++ String "." alt)%string).
  { unfold pre3. by rewrite Hs2, (append_assoc pre2), append_cons. }
  set (pre4 := (pre3 ++ ref ++ String "." EmptyString)%string).
  assert (Hpre4 : strlen pre4 = k + 1)
    by (unfold pre4; rewrite !strlen_append, Hpre3; unfold k, j, i, strlen; cbn; lia).
  assert (Hs4 : s = (pre4 ++ alt)%string).
  { unfold pre4. by rewrite Hs3, (append_assoc pre3), append_cons. }
  split; [done|]. split; [|split; [|split; [done|split; [|split; [|split; [|done]]]]]].
  - remember (String.length s) as cnt eqn:Hcnt. rewrite Hs2, <- Hpre2.
    rewrite scan_over; [unfold j; lia|done|done|]. unfold k, j, i, strlen in *. lia.
  - remember (String.length s) as cnt eqn:Hcnt. rewrite Hs3, <- Hpre3.
    rewrite scan_over; [unfold k; lia|done|done|]. unfold k, j, i, strlen in *. lia.
  - rewrite Hs2, <- Hpre2. apply substr_middle.
  - rewrite Hs3, <- Hpre3. apply substr_middle.
  - rewrite Hs4, <- Hpre4. apply substr_from_rest.
Qed.

Lemma Variant_parse_text name sep digits ref alt chr pos :
  1 <= chr <= NUM_CHROMOSOMES ->
  name = name_at chrShortName chr \/ name = name_at chrLongName chr ->
  colon_or_period sep = true ->
  none_stop period digits = true -> none_stop period ref = true ->
  0 < strlen digits -> 0 < strlen ref -> 0 < strlen alt ->
  stringToInt digits = Some pos -> validPosition pos = true ->
  Variant.parse (name ++ String sep (digits ++ String "." (ref ++ String "." alt))) =
    alleles chr pos (toupperSequence ref) (toupperSequence alt).
Proof.
  intros Hchr Hname Hsep Hdigits Href Hd Hr Ha Hint Hvalid.
  destruct (names_plain chr Hchr) as (Hshort & Hlong & Hs & Hl).
  assert (Hplain : none_stop colon_or_period name = true) by (by destruct Hname; subst).
  assert (Hpos : 0 < strlen name) by (by destruct Hname; subst).
  destruct (scan_fields name sep digits ref alt Hplain Hsep Hdigits Href)
    as (Hi & Hj & Hk & Hsub1 & Hsub2 & Hsub3 & Hsub4 & Hlen).
  cbv zeta in *.
  set (s := (name ++ String sep (digits ++ String "." (ref ++ String "." alt)))%string)
    in *.
  unfold Variant.parse. rewrite Hi, Hsub1, Hlen.
  rewrite (getChrNumber_of_name name chr Hchr Hname), Hj.
  replace (strlen name + 1 + strlen digits - strlen name - 1) with (strlen digits) by lia.
  rewrite Hsub2, Hint, Hvalid.
  destruct (Z.gtb_spec (strlen name) 0); [|lia].
  destruct (Z.ltb_spec (strlen name)
              (strlen name + 1 + strlen digits + 1 + strlen ref + 1 + strlen alt - 5));
    [|lia].
  destruct (Z.gtb_spec chr 0); [|lia].
  destruct (Z.gtb_spec (strlen name + 1 + strlen digits) (strlen name + 1)); [|lia].
  destruct (Z.ltb_spec (strlen name + 1 + strlen digits)
              (strlen name + 1 + strlen digits + 1 + strlen ref + 1 + strlen alt - 3));
    [|lia].
  cbn [andb]. unfold Variant.parse_alleles. rewrite Hk, Hlen.
  replace (strlen name + 1 + strlen digits + 1 + strlen ref -
           (strlen name + 1 + strlen digits) - 1) with (strlen ref) by lia.
  rewrite Hsub3, Hsub4.
  destruct (Z.gtb_spec (strlen name + 1 + strlen digits + 1 + strlen ref)
              (strlen name + 1 + strlen digits + 1)); [|lia].
  destruct (Z.ltb_spec (strlen name + 1 + strlen digits + 1 + strlen ref)
              (strlen name + 1 + strlen digits + 1 + strlen ref + 1 + strlen alt - 1));
    [|lia].
  done.
Qed.

Lemma scan_ge stop s cnt : forall i, i <= scan stop s cnt i.
Proof.
  induction cnt as [|cnt IH]; intros i; cbn [scan]; [lia|].
  destruct (String.get _ s) as [c|]; [|lia].
  destruct (stop c); [lia|]. specialize (IH (i + 1)). lia.
Qed.

Lemma isAllACGTN_not_hyphen s : isAllACGTN s = true -> String.eqb s "-" = false.
Proof.
  destruct s as [|c s]; [done|]. cbn [isAllACGTN String.eqb].
  destruct (isACGTN c) eqn:Hc; [|done]. intros _.
  by destruct (isACGTN_plain c Hc) as [_ ->].
Qed.

Lemma head_append name digits rest :
  ((name ++ "." ++ digits ++ ".") ++ rest)%string =
  (name ++ String "." (digits ++ String "." rest))%string.
Proof.
  rewrite append_assoc. cbn [String.append]. do 2 f_equal.
  rewrite append_assoc. done.
Qed.

Lemma to_int_position pos : 1 <= pos <= MAX_POSITION -> to_int pos = pos.
Proof.
  unfold to_int, INT_MAX, MAX_POSITION. intros H.
  destruct (Z.gtb_spec pos 2147483647); lia.
Qed.

(** What [Variant(uint8_t, uint32_t, const std::string&)] accepts. *)
Lemma Variant_new_built chr pos seq v :
  0 <= pos < 4294967296 -> Variant.new chr pos seq = Built v ->
  1 <= chr <= NUM_CHROMOSOMES /\ 1 <= pos <= MAX_POSITION /\
  exists first refalt,
    v = {| Variant.chrNumber := chr; Variant.position := pos;
           Variant.sequence := String first refalt |} /\
    toupperSequence seq = String first refalt /\
    toupperSequence refalt = refalt /\ 0 < strlen refalt /\
    (first = "I"%char /\ isAllACGT refalt = true \/
     first = "D"%char /\ isAllACGTN refalt = true \/
     first = "S"%char /\
       exists a b, refalt = String a (String b EmptyString) /\
                   isACGT a = true /\ isACGT b = true /\ char_ne a b = true).
Proof.
  unfold Variant.new. intros Hpos.
  destruct (Z.geb_spec chr 1); [|done].
  destruct (Z.leb_spec chr NUM_CHROMOSOMES); [|done]. cbn [andb].
  destruct (validPosition (to_int pos)) eqn:Hvalid; [|done]. cbn [andb].
  destruct (Z.geb_spec (strlen seq) 2) as [Hlen|]; [|done].
  destruct (toupperSequence seq) as [|first refalt] eqn:Hup; [done|].
  intros Hv. split; [done|]. split; [by apply to_int_valid|].
  exists first, refalt.
  assert (Hidem : toupperSequence refalt = refalt).
  { pose proof (toupperSequence_idempotent seq) as Hi. rewrite Hup in Hi.
    cbn [toupperSequence] in Hi. by injection Hi. }
  assert (Hrest : 0 < strlen refalt).
  { pose proof (length_toupperSequence seq) as Hl. rewrite Hup in Hl.
    unfold strlen in *. cbn [String.length] in Hl. lia. }
  assert (Hcases :
    v = {| Variant.chrNumber := chr; Variant.position := pos;
           Variant.sequence := String first refalt |} /\
    (first = "I"%char /\ isAllACGT refalt = true \/
     first = "D"%char /\ isAllACGTN refalt = true \/
     first = "S"%char /\
       exists a b, refalt = String a (String b EmptyString) /\
                   isACGT a = true /\ isACGT b = true /\ char_ne a b = true)).
  { destruct (Ascii.eqb_spec first "I") as [HI|_];
      [destruct (isAllACGT refalt) eqn:HACGT|]; cbn [andb] in Hv.
    - injection Hv as <-. split; [done|]. by left.
    - subst first. cbn in Hv. discriminate Hv.
    - destruct (Ascii.eqb_spec first "D") as [HD|_];
        [destruct (isAllACGTN refalt) eqn:HACGTN|]; cbn [andb] in Hv.
      + injection Hv as <-. split; [done|]. right. by left.
      + subst first. cbn in Hv. discriminate Hv.
      + destruct (Ascii.eqb_spec first "S") as [HS|_]; [|done].
        destruct (isAllACGT refalt) eqn:HACGT; [|done]. cbn [andb] in Hv.
        destruct (Z.eqb_spec (strlen refalt) 2) as [H2|]; [|done]. cbn [andb] in Hv.
        destruct refalt as [|a [|b rest]]; [done|done|].
        destruct (char_ne a b) eqn:Hne; [|done].
        injection Hv as <-.
        destruct rest; [|unfold strlen in H2; cbn in H2; lia].
        split; [done|]. right. right. split; [done|]. exists a, b.
        cbn [isAllACGT] in HACGT.
        destruct (isACGT a); [|done]. destruct (isACGT b); [|done]. done. }
  destruct Hcases as [-> Hcases]. done.
Qed.

(** The text of an accepted variant is parsed as the same variant. *)
Lemma Variant_printed_parsed chr pos seq v :
  0 <= pos < 4294967296 -> Variant.new chr pos seq = Built v ->
  exists s, Variant.toString v = Ret s /\ Variant.parse s = Built v.
Proof.
  intros Hpos Hnew.
  destruct (Variant_new_built chr pos seq v Hpos Hnew)
    as (Hchr & Hrange & first & refalt & -> & _ & Hidem & Hrest & Hcases).
  assert (Hint : stringToInt (decimal pos) = Some pos)
    by (apply stringToInt_decimal; unfold INT_MAX, MAX_POSITION in *; lia).
  assert (Hvalid : validPosition pos = true) by (by apply validPosition_range).
  pose proof (decimal_length pos ltac:(unfold INT_MAX, MAX_POSITION in *; lia)) as Hlen.
  pose proof (decimal_plain pos ltac:(lia)) as Hdigits.
  assert (Hparse : forall ref alt,
    none_stop period ref = true -> 0 < strlen ref -> 0 < strlen alt ->
    Variant.parse (name_at chrLongName chr ++
                   String "." (decimal pos ++ String "." (ref ++ String "." alt))) =
      alleles chr pos (toupperSequence ref) (toupperSequence alt)).
  { intros ref alt Href Hr Ha.
    apply Variant_parse_text; try done; [by right|lia]. }
  unfold Variant.toString. cbn [Variant.chrNumber Variant.position Variant.sequence].
  destruct Hcases as [[-> HACGT]|[[-> HACGTN]|(-> & a & b & -> & Ha & Hb & Hne)]].
  - eexists. split; [cbn [string_elem String.get Z.to_nat rbind]; reflexivity|].
    cbn [Ascii.eqb Bool.eqb andb]. rewrite substr_from_tail, head_append.
    change ("-." ++ refalt)%string with ("-" ++ String "." refalt)%string.
    rewrite (Hparse "-"%string refalt eq_refl ltac:(done) Hrest).
    change (toupperSequence "-") with "-"%string. rewrite Hidem.
    unfold alleles. by rewrite HACGT.
  - eexists. split; [cbn [string_elem String.get Z.to_nat rbind]; reflexivity|].
    cbn [Ascii.eqb Bool.eqb andb]. rewrite substr_from_tail, head_append.
    rewrite (Hparse refalt "-"%string (isAllACGTN_plain refalt HACGTN) Hrest ltac:(done)).
    change (toupperSequence "-") with "-"%string. rewrite Hidem.
    unfold alleles. rewrite (isAllACGTN_not_hyphen refalt HACGTN), HACGTN. done.
  - eexists. split; [cbn [string_elem String.get Z.to_nat rbind]; reflexivity|].
    cbn [Ascii.eqb Bool.eqb andb]. rewrite head_append.
    destruct (isACGTN_plain a (isACGT_isACGTN a Ha)) as [Hpa Hha].
    destruct (isACGTN_plain b (isACGT_isACGTN b Hb)) as [_ Hhb].
    assert (Hplain : none_stop period (String a EmptyString) = true)
      by (cbn [none_stop]; by rewrite Hpa).
    change (String a "." ++ String b EmptyString)%string
      with (String a EmptyString ++ String "." (String b EmptyString))%string.
    rewrite (Hparse (String a EmptyString) (String b EmptyString) Hplain
               ltac:(done) ltac:(done)).
    cbn [toupperSequence] in Hidem |- *. injection Hidem as -> ->.
    unfold alleles. cbn [String.eqb]. rewrite Hha, Hhb, Ha, Hb, Hne. done.
Qed.

(** The variant that the parsing has found is an accepted one. *)
Lemma alleles_valid chr pos ref alt v :
  1 <= chr <= NUM_CHROMOSOMES -> 1 <= pos <= MAX_POSITION ->
  toupperSequence ref = ref -> toupperSequence alt = alt ->
  0 < strlen ref -> 0 < strlen alt ->
  alleles chr pos ref alt = Built v ->
  Variant.new (Variant.chrNumber v) (Variant.position v) (Variant.sequence v) = Built v.
Proof.
  intros Hchr Hpos Href Halt Hr Ha. unfold alleles.
  assert (Hnew : forall first refalt,
    toupperSequence (String first refalt) = String first refalt ->
    0 < strlen refalt ->
    Variant.new chr pos (String first refalt) =
      let v := {| Variant.chrNumber := chr; Variant.position := pos;
                  Variant.sequence := String first refalt |} in
      if Ascii.eqb first "I" && isAllACGT refalt then Built v
      else if Ascii.eqb first "D" && isAllACGTN refalt then Built v
      else if Ascii.eqb first "S" && isAllACGT refalt && (strlen refalt =? 2) &&
              match refalt with
              | String a (String b _) => char_ne a b
              | _ => false
              end
      then Built v
      else Invalid).
  { intros first refalt Hup Hlen. unfold Variant.new.
    rewrite (to_int_position pos Hpos), (proj2 (validPosition_range pos) Hpos), Hup.
    destruct (Z.geb_spec chr 1); [|lia].
    destruct (Z.leb_spec chr NUM_CHROMOSOMES); [|lia].
    destruct (Z.geb_spec (strlen (String first refalt)) 2) as [|Hshort]; [done|].
    unfold strlen in *. cbn [String.length] in Hshort. lia. }
  destruct (String.eqb ref "-" && isAllACGT alt) eqn:HI.
  - intros [= <-]. cbn [Variant.chrNumber Variant.position Variant.sequence].
    apply andb_true_iff in HI as [_ HI].
    rewrite Hnew; [|by cbn [toupperSequence]; rewrite Halt|done].
    cbv zeta. by rewrite HI.
  - destruct (String.eqb alt "-" && isAllACGTN ref) eqn:HD.
    + intros [= <-]. cbn [Variant.chrNumber Variant.position Variant.sequence].
      apply andb_true_iff in HD as [_ HD].
      rewrite Hnew; [|by cbn [toupperSequence]; rewrite Href|done].
      cbv zeta. by rewrite HD.
    + destruct ref as [|r [|? ?]]; [done| |done].
      destruct alt as [|a [|? ?]]; [done| |done].
      destruct (isACGT r) eqn:Hrr; [|done]. destruct (isACGT a) eqn:Haa; [|done].
      destruct (char_ne r a) eqn:Hne; [|done].
      intros [= <-]. cbn [Variant.chrNumber Variant.position Variant.sequence].
      cbn [String.append].
      rewrite Hnew;
        [|cbn [toupperSequence] in *; by injection Href as ->; injection Halt as ->|done].
      cbv zeta. cbn [isAllACGT]. rewrite Hrr, Haa, Hne. done.
Qed.

Lemma Variant_parse_valid s v :
  Variant.parse s = Built v ->
  Variant.new (Variant.chrNumber v) (Variant.position v) (Variant.sequence v) = Built v.
Proof.
  unfold Variant.parse.
  remember (scan colon_or_period s (String.length s) 0) as i eqn:Hi.
  destruct (Z.gtb_spec i 0) as [Hi0|]; [|done].
  destruct (i <? strlen s - 5); [|done]. cbn [andb].
  remember (getChrNumber (substr s 0 i)) as chr eqn:Hname.
  destruct (Z.gtb_spec chr 0) as [Hchr|]; [|done].
  assert (Hne : chr <> 0) by lia.
  destruct (getChrNumber_found _ chr (eq_sym Hname) Hne) as [Hrange _].
  remember (scan period s (String.length s) (i + 1)) as j eqn:Hj.
  pose proof (scan_ge period s (String.length s) (i + 1)) as Hji. rewrite <- Hj in Hji.
  destruct (_ && _); [|done].
  destruct (stringToInt _) as [pos|]; [|done].
  destruct (validPosition pos) eqn:Hvalid; [|done].
  apply validPosition_range in Hvalid.
  unfold Variant.parse_alleles.
  remember (scan period s (String.length s) (j + 1)) as k eqn:Hk.
  destruct (Z.gtb_spec k (j + 1)) as [Hkj|]; [|done].
  destruct (Z.ltb_spec k (strlen s - 1)) as [Hkl|]; [|done]. cbn [andb].
  apply alleles_valid; try done; try apply toupperSequence_idempotent.
  - unfold strlen, substr in *. rewrite length_toupperSequence, length_substring; lia.
  - unfold strlen, substr_from in *. rewrite length_toupperSequence, length_substring; lia.
Qed.


